(** * Lumos: lexer, parser, evaluator and IR optimizer

    A shallow embedding of the Lumos language core
    ([lexer.js], [parser.js], [evaluator.js], the [Optimizer] class of
    [compiler/core/compiler.js] and [LumosEngine.execute] of [index.cjs])
    together with the properties of these components.

    Conventions.
    - JavaScript strings are modelled by [string]; characters are the
      code units below 256.
    - JavaScript numbers are kept abstract behind the class [JsNumber];
      the instance [ExactNum.exact_number] (exact rationals extended with
      the infinities and NaN, no rounding, no signed zero) is used to run
      the definitions on concrete programs.
    - Plain JavaScript objects live in a heap of records with an own
      property map and a prototype link; scopes are such objects. *)

From Stdlib Require Import ZArith QArith String Ascii List Lia.
From stdpp Require Import base option strings gmap pretty numbers list.

Local Open Scope Z_scope.

(** ** Host numbers *)

Class JsNumber (num : Type) := {
  num_of_Z : Z → num;
  num_nan : num;
  num_add : num → num → num;
  num_sub : num → num → num;
  num_mul : num → num → num;
  num_div : num → num → num;
  num_rem : num → num → num;
  num_neg : num → num;
  num_lt : num → num → bool;
  num_le : num → num → bool;
  num_eqb : num → num → bool;
  num_truthy : num → bool;
  num_to_string : num → string;
  num_of_string : string → num;
  parseFloat : string → num
}.

(** Exact arithmetic: the rationals with [Infinity], [-Infinity] and
    [NaN]. Finite values are kept in lowest terms so that equal numbers
    are equal terms. These numbers never round, where the doubles of
    the host do: the two agree on the whole numbers up to 2^53 in size
    and on the short decimals of the examples, and differ beyond
    ([parseFloat] of a longer literal, [1/3], its printed digits). The
    instance only runs the definitions on concrete programs; what holds
    of all numbers is stated over the class [JsNumber], with the
    arithmetic it relies on as a hypothesis. *)
Module ExactNum.

Inductive xnum :=
| XFin (q : Q)
| XInf (negative : bool)
| XNaN.

Definition fin (q : Q) : xnum := XFin (Qred q).

Definition is_zero (q : Q) : bool := Qnum q =? 0.
Definition is_neg (q : Q) : bool := Qnum q <? 0.

Definition add (a b : xnum) : xnum :=
  match a, b with
  | XNaN, _ | _, XNaN => XNaN
  | XFin p, XFin q => fin (p + q)
  | XInf s, XFin _ | XFin _, XInf s => XInf s
  | XInf s, XInf t => if Bool.eqb s t then XInf s else XNaN
  end.

Definition neg (a : xnum) : xnum :=
  match a with
  | XNaN => XNaN
  | XFin p => fin (- p)
  | XInf s => XInf (negb s)
  end.

Definition sub (a b : xnum) : xnum := add a (neg b).

Definition mul (a b : xnum) : xnum :=
  match a, b with
  | XNaN, _ | _, XNaN => XNaN
  | XFin p, XFin q => fin (p * q)
  | XInf s, XFin q | XFin q, XInf s =>
      if is_zero q then XNaN else XInf (xorb s (is_neg q))
  | XInf s, XInf t => XInf (xorb s t)
  end.

Definition div (a b : xnum) : xnum :=
  match a, b with
  | XNaN, _ | _, XNaN => XNaN
  | XFin p, XFin q =>
      if is_zero q then (if is_zero p then XNaN else XInf (is_neg p))
      else fin (p / q)
  | XFin _, XInf _ => fin 0
  | XInf s, XFin q => XInf (xorb s (is_neg q))
  | XInf _, XInf _ => XNaN
  end.

(** Truncation toward zero, as in the remainder of the host. *)
Definition trunc (q : Q) : Z := Z.quot (Qnum q) (Zpos (Qden q)).

Definition rem (a b : xnum) : xnum :=
  match a, b with
  | XNaN, _ | _, XNaN => XNaN
  | XInf _, _ => XNaN
  | XFin p, XInf _ => XFin p
  | XFin p, XFin q =>
      if is_zero q then XNaN else fin (p - q * inject_Z (trunc (p / q)))
  end.

Definition lt (a b : xnum) : bool :=
  match a, b with
  | XNaN, _ | _, XNaN => false
  | XFin p, XFin q => negb (Qle_bool q p)
  | XInf s, XFin _ => s
  | XFin _, XInf t => negb t
  | XInf s, XInf t => s && negb t
  end.

Definition le (a b : xnum) : bool :=
  match a, b with
  | XNaN, _ | _, XNaN => false
  | XFin p, XFin q => Qle_bool p q
  | XInf s, XFin _ => s
  | XFin _, XInf t => negb t
  | XInf s, XInf t => s || negb t
  end.

Definition eqb (a b : xnum) : bool :=
  match a, b with
  | XFin p, XFin q => Qeq_bool p q
  | XInf s, XInf t => Bool.eqb s t
  | _, _ => false
  end.

Definition truthy (a : xnum) : bool :=
  match a with
  | XFin p => negb (is_zero p)
  | XInf _ => true
  | XNaN => false
  end.

(** [Number::toString]: the digits [digits] of a positive number and
    the position [n] of its decimal point, [10^(n-1) ≤ x < 10^n]. *)
Fixpoint zeros (n : nat) : string :=
  match n with
  | O => ""
  | S n' => "0" +:+ zeros n'
  end.

Definition format_digits (digits : string) (n : Z) : string :=
  let k := Z.of_nat (String.length digits) in
  if (k <=? n) && (n <=? 21) then digits +:+ zeros (Z.to_nat (n - k))
  else if (0 <? n) && (n <=? 21) then
    substring 0 (Z.to_nat n) digits +:+ "."
    +:+ substring (Z.to_nat n) (Z.to_nat (k - n)) digits
  else if (-6 <? n) && (n <=? 0) then
    "0." +:+ zeros (Z.to_nat (- n)) +:+ digits
  else
    let e := n - 1 in
    let exponent := (if e <? 0 then "e-" else "e+") +:+ pretty (Z.abs e) in
    if k =? 1 then digits +:+ exponent
    else substring 0 1 digits +:+ "."
         +:+ substring 1 (Z.to_nat (k - 1)) digits +:+ exponent.

Definition pow10 (e : Z) : Q :=
  if 0 <=? e then inject_Z (10 ^ e) else / inject_Z (10 ^ (- e)).

(** The position of the decimal point of a positive [a / d]. *)
Fixpoint leading_zeros (fuel : nat) (a d : Z) : Z :=
  match fuel with
  | O => 0
  | S fuel' => if 10 * a <? d then leading_zeros fuel' (10 * a) d - 1 else 0
  end.

Definition point_position (a d : Z) : Z :=
  if d <=? a then Z.of_nat (String.length (pretty (a / d)))
  else leading_zeros (String.length (pretty d)) a d.

Fixpoint strip_zeros (fuel : nat) (m : Z) : Z :=
  match fuel with
  | O => m
  | S fuel' => if (m mod 10 =? 0) && negb (m =? 0)
               then strip_zeros fuel' (m / 10) else m
  end.

(** Integers below [10^21] print in full; other numbers print their
    first seventeen significant digits, which is all of them for the
    decimals the examples use. *)
Definition to_string (a : xnum) : string :=
  match a with
  | XNaN => "NaN"
  | XInf s => if s then "-Infinity" else "Infinity"
  | XFin q =>
      let n := Z.abs (Qnum q) in
      let d := Zpos (Qden q) in
      let sign := if is_neg q then "-" else "" in
      if (n mod d =? 0) && (n / d <? 10 ^ 21) then sign +:+ pretty (n / d)
      else
        let point := point_position n d in
        let scaled := (Qmake n (Qden q) * pow10 (17 - point))%Q in
        let digits := strip_zeros 17 (Qnum scaled / Zpos (Qden scaled)) in
        sign +:+ format_digits (pretty digits) point
  end.

Definition digit_of (c : ascii) : option Z :=
  let n := Z.of_N (N_of_ascii c) in
  if (48 <=? n) && (n <=? 57) then Some (n - 48) else None.

(** Reads a run of decimal digits: accumulated value, number of digits
    read, rest of the text. *)
Fixpoint span_digits (l : list ascii) (acc : Z) (n : nat)
  : Z * nat * list ascii :=
  match l with
  | c :: l' =>
      match digit_of c with
      | Some d => span_digits l' (10 * acc + d) (S n)
      | None => (acc, n, l)
      end
  | [] => (acc, n, l)
  end.

(** The exponent part [e], [e+] or [e-] followed by digits; without
    digits it is not part of the literal. *)
Definition exponent_prefix (l : list ascii) : Z * list ascii :=
  match l with
  | "e"%char :: r | "E"%char :: r =>
      let '(sgn, r') :=
        match r with
        | "+"%char :: r' => (1, r')
        | "-"%char :: r' => (-1, r')
        | _ => (1, r)
        end in
      let '(e, ne, rest) := span_digits r' 0 0 in
      if (ne =? 0)%nat then (0, l) else (sgn * e, rest)
  | _ => (0, l)
  end.

(** The longest prefix that is an unsigned decimal literal, with the
    rest of the text. *)
Definition decimal_prefix (l : list ascii) : option (Q * list ascii) :=
  let '(ip, ni, r1) := span_digits l 0 0 in
  let '(fp, nf, r2) :=
    match r1 with
    | "."%char :: r => span_digits r 0 0
    | _ => (0, 0%nat, r1)
    end in
  if (ni + nf =? 0)%nat then None
  else
    let mant :=
      Qmake (ip * 10 ^ Z.of_nat nf + fp) (Z.to_pos (10 ^ Z.of_nat nf)) in
    let '(ex, rest) := exponent_prefix r2 in
    Some (mant * pow10 ex, rest)%Q.

Fixpoint strip_prefix (p l : list ascii) : option (list ascii) :=
  match p, l with
  | [], _ => Some l
  | c :: p', d :: l' => if Ascii.eqb c d then strip_prefix p' l' else None
  | _ :: _, [] => None
  end.

Definition unsigned_prefix (l : list ascii) : option (xnum * list ascii) :=
  match strip_prefix (list_ascii_of_string "Infinity") l with
  | Some rest => Some (XInf false, rest)
  | None =>
      match decimal_prefix l with
      | Some (q, rest) => Some (fin q, rest)
      | None => None
      end
  end.

(** [StrDecimalLiteral]: an optional sign, then [Infinity] or a decimal
    literal. *)
Definition signed_prefix (l : list ascii) : option (xnum * list ascii) :=
  match l with
  | "+"%char :: r => unsigned_prefix r
  | "-"%char :: r =>
      match unsigned_prefix r with
      | Some (x, rest) => Some (neg x, rest)
      | None => None
      end
  | _ => unsigned_prefix l
  end.

(** White space and line terminators of the host. *)
Definition white (c : ascii) : bool :=
  let n := Z.of_N (N_of_ascii c) in
  ((9 <=? n) && (n <=? 13)) || (n =? 32) || (n =? 160).

Fixpoint skip_white (l : list ascii) : list ascii :=
  match l with
  | c :: l' => if white c then skip_white l' else l
  | [] => []
  end.

(** [parseFloat]: leading white space, then the longest prefix that is
    a signed decimal literal. *)
Definition parse_float (s : string) : xnum :=
  match signed_prefix (skip_white (list_ascii_of_string s)) with
  | Some (x, _) => x
  | None => XNaN
  end.

Definition radix_of (c : ascii) : option Z :=
  if Ascii.eqb c "x" || Ascii.eqb c "X" then Some 16
  else if Ascii.eqb c "o" || Ascii.eqb c "O" then Some 8
  else if Ascii.eqb c "b" || Ascii.eqb c "B" then Some 2
  else None.

Definition radix_digit (radix : Z) (c : ascii) : option Z :=
  let n := Z.of_N (N_of_ascii c) in
  let d :=
    if (48 <=? n) && (n <=? 57) then n - 48
    else if (97 <=? n) && (n <=? 102) then n - 87
    else if (65 <=? n) && (n <=? 70) then n - 55
    else 16 in
  if d <? radix then Some d else None.

Fixpoint span_radix (radix : Z) (l : list ascii) (acc : Z) (n : nat)
  : Z * nat * list ascii :=
  match l with
  | c :: l' =>
      match radix_digit radix c with
      | Some d => span_radix radix l' (radix * acc + d) (S n)
      | None => (acc, n, l)
      end
  | [] => (acc, n, l)
  end.

(** [Number(s)]: the text without its surrounding white space is empty
    (zero), a hexadecimal, octal or binary literal, or a signed decimal
    literal; anything else is [NaN]. *)
Definition of_string (s : string) : xnum :=
  let l := skip_white (list_ascii_of_string s) in
  let whole (x : xnum) (rest : list ascii) : xnum :=
    if forallb white rest then x else XNaN in
  let decimal : xnum :=
    match signed_prefix l with
    | Some (x, rest) => whole x rest
    | None => XNaN
    end in
  match l with
  | [] => fin 0
  | "0"%char :: c :: r =>
      match radix_of c with
      | Some radix =>
          let '(v, n, rest) := span_radix radix r 0 0 in
          if (n =? 0)%nat then XNaN else whole (fin (inject_Z v)) rest
      | None => decimal
      end
  | _ => decimal
  end.

#[export] Instance exact_number : JsNumber xnum := {|
  num_of_Z z := fin (inject_Z z);
  num_nan := XNaN;
  num_add := add;
  num_sub := sub;
  num_mul := mul;
  num_div := div;
  num_rem := rem;
  num_neg := neg;
  num_lt := lt;
  num_le := le;
  num_eqb := eqb;
  num_truthy := truthy;
  num_to_string := to_string;
  num_of_string := of_string;
  parseFloat := parse_float
|}.

End ExactNum.

(** ** The IR optimizer ([Optimizer] in [compiler/core/compiler.js]) *)

Module Optimizer.

Section WithNumbers.
Context {num : Type} `{JsNumber num}.

(** An operand is a literal of the source program or a symbolic name;
    both names and string literals are host strings. *)
Inductive operand :=
| ONull
| OBool (b : bool)
| ONum (n : num)
| OStr (s : string).

Record instruction := Inst {
  op : string;
  arg1 : operand;
  arg2 : operand;
  result : option string
}.

(** [emit(op, arg1 = null, arg2 = null, result = null)] of the IR
    generator, as a constructor of one instruction. *)
Definition emit (o : string) (a1 a2 : operand) (r : option string) :=
  Inst o a1 a2 r.

Definition arith_ops : list string := ["+"; "-"; "*"; "/"; "%"].

Definition is_arith (o : string) : bool := bool_decide (o ∈ arith_ops).

Definition arith (o : string) (a b : num) : num :=
  if String.eqb o "+" then num_add a b
  else if String.eqb o "-" then num_sub a b
  else if String.eqb o "*" then num_mul a b
  else if String.eqb o "/" then num_div a b
  else num_rem a b.

Definition fold_instruction (inst : instruction) : instruction :=
  if is_arith (op inst) then
    match arg1 inst, arg2 inst with
    | ONum a, ONum b =>
        Inst "assign" (ONum (arith (op inst) a b)) ONull (result inst)
    | _, _ => inst
    end
  else inst.

Definition constantFolding (instructions : list instruction)
  : list instruction :=
  map fold_instruction instructions.

(** Truthiness of a string-or-null field: [null] and the empty string
    are falsy. *)
Definition truthy_name (r : option string) : option string :=
  match r with
  | Some s => if String.eqb s "" then None else Some s
  | None => None
  end.

(** [x && typeof x === 'string'] on an operand. *)
Definition truthy_string (a : operand) : option string :=
  match a with
  | OStr s => truthy_name (Some s)
  | _ => None
  end.

Definition add_name (o : option string) (S : gset string) : gset string :=
  match o with
  | Some s => {[ s ]} ∪ S
  | None => S
  end.

Definition is_jump_or_label (o : string) : bool :=
  String.eqb o "label" || String.eqb o "goto" || String.eqb o "if_false".

(** First loop: the [labels] set. *)
Definition collect_labels (instructions : list instruction) : gset string :=
  fold_left
    (λ labels inst,
       if is_jump_or_label (op inst) then
         add_name (truthy_string (arg1 inst))
           (add_name (truthy_name (result inst)) labels)
       else labels)
    instructions ∅.

(** Second loop, from the last instruction to the first: the [used]
    set. *)
Definition collect_used (instructions : list instruction) : gset string :=
  fold_right
    (λ inst used,
       add_name (truthy_string (arg2 inst))
         (add_name (truthy_string (arg1 inst))
            (add_name (truthy_name (result inst)) used)))
    ∅ instructions.

Definition set_has (S : gset string) (a : operand) : bool :=
  match a with
  | OStr s => bool_decide (s ∈ S)
  | _ => false
  end.

Definition keep (labels used : gset string) (inst : instruction) : bool :=
  if String.eqb (op inst) "label" then set_has labels (arg1 inst)
  else
    match truthy_name (result inst) with
    | None => true
    | Some r => bool_decide (r ∈ used)
    end.

Definition deadCodeElimination (instructions : list instruction)
  : list instruction :=
  let labels := collect_labels instructions in
  let used := collect_used instructions in
  List.filter (keep labels used) instructions.

(** Template-literal conversion of an operand. *)
Definition operand_to_string (a : operand) : string :=
  match a with
  | ONull => "null"
  | OBool b => if b then "true" else "false"
  | ONum n => num_to_string n
  | OStr s => s
  end.

Definition expression_key (inst : instruction) : string :=
  op inst +:+ ":" +:+ operand_to_string (arg1 inst) +:+ ":" +:+
  operand_to_string (arg2 inst).

Definition name_operand (r : option string) : operand :=
  match r with
  | Some s => OStr s
  | None => ONull
  end.

(** One step of the [map] callback of the pass; the memo table
    [expressions] is threaded through the calls. *)
Definition cse_step (expressions : gmap string (option string))
    (inst : instruction)
  : instruction * gmap string (option string) :=
  if is_arith (op inst) then
    let key := expression_key inst in
    match expressions !! key with
    | Some earlier =>
        (Inst "assign" (name_operand earlier) ONull (result inst), expressions)
    | None => (inst, <[ key := result inst ]> expressions)
    end
  else (inst, expressions).

Fixpoint cse_from (expressions : gmap string (option string))
    (instructions : list instruction) : list instruction :=
  match instructions with
  | [] => []
  | inst :: rest =>
      let '(inst', expressions') := cse_step expressions inst in
      inst' :: cse_from expressions' rest
  end.

Definition commonSubexpressionElimination
    (instructions : list instruction) : list instruction :=
  cse_from ∅ instructions.

Definition optimize (instructions : list instruction) : list instruction :=
  commonSubexpressionElimination
    (deadCodeElimination (constantFolding instructions)).

End WithNumbers.

Arguments operand : clear implicits.
Arguments instruction : clear implicits.

End Optimizer.

(** ** Results of fallible calls *)

(** A call of the lexer or of the parser returns, throws an [Error]
    with a message, or exhausts the fuel of the model. *)
Inductive result (A : Type) :=
| Ok (a : A)
| Err (message : string)
| OutOfFuel.

Arguments Ok {A} a.
Arguments Err {A} message.
Arguments OutOfFuel {A}.

Definition result_bind {A B} (r : result A) (k : A → result B) : result B :=
  match r with
  | Ok a => k a
  | Err m => Err m
  | OutOfFuel => OutOfFuel
  end.

(** Literal values: the [value] of a token and of a [Literal] node. *)
Inductive literal (num : Type) :=
| LNull
| LBool (b : bool)
| LNum (n : num)
| LStr (s : string).

Arguments LNull {num}.
Arguments LBool {num} b.
Arguments LNum {num} n.
Arguments LStr {num} s.

(** ** The compiler's syntax trees ([Parser] in [compiler/core/compiler.js]) *)

Module CompilerAst.

(** The node types the compiler's parser builds and for which neither
    the IR generator nor the semantic analyzer has a visit method. *)
Inductive unvisited :=
| UnaryExpression
| LogicalExpression
| MemberExpression
| ArrayExpression
| ObjectExpression
| UpdateExpression
| ClassDeclaration
| BreakStatement
| ContinueStatement
| ImportDeclaration
| ExportNamedDeclaration
| TryStatement
| SwitchStatement
| TypeAliasDeclaration.

Section WithNumbers.
Context {num : Type}.

#[local] Unset Elimination Schemes.

(** A declarator is [id.name] with [init]; a parameter is its name. *)
Inductive node :=
| Program (body : list node)
| VariableDeclaration (kind : string)
    (declarations : list (string * option node))
| FunctionDeclaration (name : string) (params : list string) (body : node)
| BlockStatement (body : list node)
| ExpressionStatement (expression : node)
| BinaryExpression (operator : string) (left right_ : node)
| CallExpression (callee : node) (arguments : list node)
| Identifier (name : string)
| Literal (value : literal num)
| IfStatement (test consequent : node) (alternate : option node)
| ForStatement (init test update body : node)
| WhileStatement (test body : node)
| ReturnStatement (argument : option node)
| AssignmentExpression (left right_ : node)
| Unvisited (type : unvisited).

#[local] Set Elimination Schemes.

(** The operators of the binary expressions the parser builds. *)
Definition binary_operators : list string :=
  ["=="; "!="; "<"; ">"; "<="; ">="; "+"; "-"; "*"; "/"; "%"].

End WithNumbers.

Arguments node : clear implicits.

End CompilerAst.

(** ** The IR generator ([IRGenerator] in [compiler/core/compiler.js]) *)

Module IRGenerator.

Import Optimizer CompilerAst.

Section WithNumbers.
Context {num : Type} `{JsNumber num}.

Abbreviation node := (CompilerAst.node num).
Abbreviation operand := (Optimizer.operand num).
Abbreviation instruction := (Optimizer.instruction num).

(** The generator: the instructions emitted so far and the two
    counters. *)
Record generator := mkGenerator {
  instructions : list instruction;
  nextTemp : nat;
  nextLabel : nat
}.

(** [new IRGenerator(symbolTable)] *)
Definition new_generator : generator := mkGenerator [] 0 0.

Definition temp_name (k : nat) : string := "t" +:+ pretty k.
Definition label_name (k : nat) : string := "L" +:+ pretty k.

Definition newTemp (g : generator) : string * generator :=
  (temp_name (nextTemp g),
   mkGenerator (instructions g) (S (nextTemp g)) (nextLabel g)).

Definition newLabel (g : generator) : string * generator :=
  (label_name (nextLabel g),
   mkGenerator (instructions g) (nextTemp g) (S (nextLabel g))).

Definition emit (o : string) (a1 a2 : operand) (r : option string)
    (g : generator) : generator :=
  mkGenerator (instructions g ++ [Optimizer.emit o a1 a2 r])
    (nextTemp g) (nextLabel g).

Definition literal_operand (l : literal num) : operand :=
  match l with
  | LNull => ONull
  | LBool b => OBool b
  | LNum n => ONum n
  | LStr s => OStr s
  end.

(** [node.left.name]: only identifiers have a name. *)
Definition name_of (n : node) : option string :=
  match n with
  | Identifier name => Some name
  | _ => None
  end.

(** [visitNode]: the value the visit method returns, as the operand it
    becomes when passed to [emit] ([undefined] and [null] both give
    [null]), and the generator afterwards. *)
Fixpoint visitNode (n : node) (g : generator) : operand * generator :=
  match n with
  | Program body | BlockStatement body =>
      (ONull, fold_left (λ g stmt, (visitNode stmt g).2) body g)
  | VariableDeclaration _ declarations =>
      (ONull,
       fold_left
         (λ g (decl : string * option node),
            match decl.2 with
            | Some init =>
                let '(value, g) := visitNode init g in
                emit "assign" value ONull (Some decl.1) g
            | None => g
            end)
         declarations g)
  | FunctionDeclaration name params body =>
      let g := emit "function" (OStr name) ONull None g in
      let g :=
        fold_left (λ g param, emit "param" (OStr param) ONull None g)
          params g in
      let '(_, g) := visitNode body g in
      (ONull, emit "end_function" ONull ONull None g)
  | ExpressionStatement expression => visitNode expression g
  | BinaryExpression operator lhs rhs =>
      let '(l, g) := visitNode lhs g in
      let '(r, g) := visitNode rhs g in
      let '(result, g) := newTemp g in
      (OStr result, emit operator l r (Some result) g)
  | CallExpression callee arguments =>
      let '(args, g) :=
        fold_left
          (λ '(args, g) arg,
             let '(v, g) := visitNode arg g in (args ++ [v], g))
          arguments ([], g) in
      let g := fold_left (λ g arg, emit "push" arg ONull None g) args g in
      let '(result, g) := newTemp g in
      let '(c, g) := visitNode callee g in
      (OStr result,
       emit "call" c (ONum (num_of_Z (Z.of_nat (length args)))) (Some result) g)
  | Identifier name => (OStr name, g)
  | Literal value => (literal_operand value, g)
  | IfStatement test consequent alternate =>
      let '(t, g) := visitNode test g in
      let '(elseLabel, g) := newLabel g in
      let '(endLabel, g) := newLabel g in
      let g := emit "if_false" t ONull (Some elseLabel) g in
      let '(_, g) := visitNode consequent g in
      let g := emit "goto" ONull ONull (Some endLabel) g in
      let g := emit "label" (OStr elseLabel) ONull None g in
      let g :=
        match alternate with
        | Some a => (visitNode a g).2
        | None => g
        end in
      (ONull, emit "label" (OStr endLabel) ONull None g)
  | ForStatement init test update body =>
      let '(startLabel, g) := newLabel g in
      let '(endLabel, g) := newLabel g in
      let '(_, g) := visitNode init g in
      let g := emit "label" (OStr startLabel) ONull None g in
      let '(t, g) := visitNode test g in
      let g := emit "if_false" t ONull (Some endLabel) g in
      let '(_, g) := visitNode body g in
      let '(_, g) := visitNode update g in
      let g := emit "goto" ONull ONull (Some startLabel) g in
      (ONull, emit "label" (OStr endLabel) ONull None g)
  | WhileStatement test body =>
      let '(startLabel, g) := newLabel g in
      let '(endLabel, g) := newLabel g in
      let g := emit "label" (OStr startLabel) ONull None g in
      let '(t, g) := visitNode test g in
      let g := emit "if_false" t ONull (Some endLabel) g in
      let '(_, g) := visitNode body g in
      let g := emit "goto" ONull ONull (Some startLabel) g in
      (ONull, emit "label" (OStr endLabel) ONull None g)
  | ReturnStatement argument =>
      match argument with
      | Some a =>
          let '(value, g) := visitNode a g in
          (ONull, emit "return" value ONull None g)
      | None => (ONull, emit "return" ONull ONull None g)
      end
  | AssignmentExpression lhs rhs =>
      let '(value, g) := visitNode rhs g in
      let target := name_of lhs in
      (name_operand target, emit "assign" value ONull target g)
  | Unvisited _ => (ONull, g)
  end.

(** [generate(ast)] on a new generator: [visitProgram] runs through
    [ast.body], which only a program or a block has as a list; on
    another node the host raises a [TypeError]. *)
Definition generate (ast : node) : option (list instruction) :=
  match ast with
  | Program body | BlockStatement body =>
      Some (instructions (visitNode (Program body) new_generator).2)
  | _ => None
  end.

End WithNumbers.

Arguments generator : clear implicits.

End IRGenerator.

(** ** The type system and the semantic analyzer
    ([TypeSystem], [SemanticAnalyzer] in [compiler/core/compiler.js]) *)

Module TypeSystem.

Import CompilerAst.

Section WithNumbers.
Context {num : Type}.

Abbreviation node := (CompilerAst.node num).

Definition arithmetic_operators : list string := ["+"; "-"; "*"; "/"; "%"].

Definition comparison_operators : list string :=
  ["=="; "!="; "<"; ">"; "<="; ">="].

(** The body of [inferBinaryType], on the types of the two operands. *)
Definition binary_type (operator leftType rightType : string) : string :=
  if bool_decide (operator ∈ arithmetic_operators) then
    if String.eqb leftType "number" && String.eqb rightType "number"
    then "number"
    else if String.eqb operator "+"
            && (String.eqb leftType "string" || String.eqb rightType "string")
    then "string"
    else "any"
  else if bool_decide (operator ∈ comparison_operators) then "bool"
  else "any".

Fixpoint inferType (n : node) : string :=
  match n with
  | Literal value =>
      match value with
      | LNum _ => "number"
      | LStr _ => "string"
      | LBool _ => "bool"
      | LNull => "any"
      end
  | BinaryExpression operator lhs rhs =>
      binary_type operator (inferType lhs) (inferType rhs)
  | _ => "any"
  end.

Definition inferBinaryType (operator : string) (lhs rhs : node) : string :=
  binary_type operator (inferType lhs) (inferType rhs).

Definition checkTypeCompatibility (type1 type2 : string) : bool :=
  String.eqb type1 "any" || String.eqb type2 "any" || String.eqb type1 type2.

End WithNumbers.

End TypeSystem.

Module SemanticAnalyzer.

Import CompilerAst TypeSystem.

Section WithNumbers.
Context {num : Type}.

Abbreviation node := (CompilerAst.node num).

(** What a visit method returns: the name of a type, or nothing
    ([undefined] or [null]). *)
Definition type_name := option string.

(** The records kept for a name: [{ type, kind }] for a variable or a
    parameter, [{ type: 'function', params }] for a function. *)
Inductive symbol :=
| VariableSymbol (type : type_name) (kind : string)
| FunctionSymbol (params : list string).

Definition symbol_type (s : symbol) : type_name :=
  match s with
  | VariableSymbol type _ => type
  | FunctionSymbol _ => Some "function"
  end.

Definition scope := gmap string symbol.

(** The analyzer: [scopes] is the array [this.scopes] with its last
    element, the current scope, first. *)
Record analyzer := mkAnalyzer {
  symbolTable : gmap string symbol;
  scopes : list scope;
  errors : list string
}.

(** [new SemanticAnalyzer(symbolTable, typeSystem)] *)
Definition new_analyzer (table : gmap string symbol) : analyzer :=
  mkAnalyzer table [∅] [].

Definition already_declared (name : string) : string :=
  "Variable '" +:+ name +:+ "' is already declared in this scope".

Definition report (message : string) (a : analyzer) : analyzer :=
  mkAnalyzer (symbolTable a) (scopes a) (errors a ++ [message]).

Definition update_top (f : scope → scope) (l : list scope) : list scope :=
  match l with
  | top :: rest => f top :: rest
  | [] => []
  end.

(** [this.scopes[this.scopes.length - 1].set(name, s)] *)
Definition bind_top (name : string) (s : symbol) (a : analyzer) : analyzer :=
  mkAnalyzer (symbolTable a) (update_top (<[ name := s ]>) (scopes a))
    (errors a).

(** [currentScope.set(name, s); this.symbolTable.set(name, s)] *)
Definition define (name : string) (s : symbol) (a : analyzer) : analyzer :=
  let a := bind_top name s a in
  mkAnalyzer (<[ name := s ]> (symbolTable a)) (scopes a) (errors a).

(** [this.scopes.push(new Map())] and [this.scopes.pop()] *)
Definition push_scope (a : analyzer) : analyzer :=
  mkAnalyzer (symbolTable a) (∅ :: scopes a) (errors a).

Definition pop_scope (a : analyzer) : analyzer :=
  mkAnalyzer (symbolTable a) (tail (scopes a)) (errors a).

(** The loop of [visitIdentifier], from the current scope outwards. *)
Fixpoint lookup_type (name : string) (l : list scope) : type_name :=
  match l with
  | [] => Some "any"
  | s :: rest =>
      match s !! name with
      | Some entry => symbol_type entry
      | None => lookup_type name rest
      end
  end.

(** [list.forEach(f)], where [f] may raise the [TypeError] of the
    host: the result is then [None]. *)
Definition each {A} (f : A → analyzer → option analyzer)
  : list A → analyzer → option analyzer :=
  fix go (l : list A) (a : analyzer) : option analyzer :=
    match l with
    | [] => Some a
    | x :: rest => a ← f x a; go rest a
    end.

(** [visitNode]: the value returned and the analyzer afterwards, or
    [None] when the host raises a [TypeError] (the current scope of an
    empty array of scopes is [undefined]). In
    [visitVariableDeclaration] the scope written after the initializer
    was visited is the one that was current before; [visitNode] leaves
    it at the top of the array. *)
Fixpoint visitNode (n : node) (a : analyzer) : option (type_name * analyzer) :=
  let ignore (n : node) (a : analyzer) : option analyzer :=
    r ← visitNode n a; Some r.2 in
  match n with
  | Program body | BlockStatement body =>
      a ← each ignore body a; Some (None, a)
  | VariableDeclaration kind declarations =>
      a ← each
            (λ (decl : string * option node) a,
               currentScope ← head (scopes a);
               let a :=
                 if bool_decide (is_Some (currentScope !! decl.1))
                 then report (already_declared decl.1) a else a in
               r ← match decl.2 with
                    | Some init => visitNode init a
                    | None => Some (Some "any", a)
                    end;
               Some (define decl.1 (VariableSymbol r.1 kind) r.2))
            declarations a;
      Some (None, a)
  | FunctionDeclaration name params body =>
      _ ← head (scopes a);
      let a := define name (FunctionSymbol params) a in
      let a := push_scope a in
      let a :=
        fold_left
          (λ a param, bind_top param (VariableSymbol (Some "any") "param") a)
          params a in
      r ← visitNode body a;
      Some (None, pop_scope r.2)
  | ExpressionStatement expression => visitNode expression a
  | BinaryExpression operator lhs rhs =>
      a ← ignore lhs a;
      a ← ignore rhs a;
      Some (Some (inferBinaryType operator lhs rhs), a)
  | CallExpression callee arguments =>
      a ← ignore callee a;
      a ← each ignore arguments a;
      Some (Some "any", a)
  | Identifier name => Some (lookup_type name (scopes a), a)
  | Literal value => Some (Some (inferType (Literal value)), a)
  | IfStatement test consequent alternate =>
      a ← ignore test a;
      a ← ignore consequent a;
      a ← match alternate with
           | Some e => ignore e a
           | None => Some a
           end;
      Some (None, a)
  | ForStatement init test update body =>
      let a := push_scope a in
      a ← ignore init a;
      a ← ignore test a;
      a ← ignore update a;
      a ← ignore body a;
      Some (None, pop_scope a)
  | WhileStatement test body =>
      a ← ignore test a;
      a ← ignore body a;
      Some (None, a)
  | ReturnStatement argument =>
      match argument with
      | Some e => visitNode e a
      | None => Some (Some "void", a)
      end
  | AssignmentExpression _ _ | Unvisited _ => Some (None, a)
  end.

(** What [analyze] does: it returns, throws the error that lists the
    semantic errors, or the host raises a [TypeError]. *)
Inductive analysis :=
| Analyzed (a : analyzer)
| SemanticErrors (message : string)
| HostTypeError.

Definition line_break : string := String "010" "".

Fixpoint join (separator : string) (l : list string) : string :=
  match l with
  | [] => ""
  | [x] => x
  | x :: rest => x +:+ separator +:+ join separator rest
  end.

(** [analyze(ast)]: [visitProgram] runs through [ast.body], which only
    a program or a block has as a list. *)
Definition analyze (ast : node) (a : analyzer) : analysis :=
  match ast with
  | Program body | BlockStatement body =>
      match visitNode (Program body) a with
      | Some (_, a) =>
          match errors a with
          | [] => Analyzed a
          | _ => SemanticErrors ("Semantic errors:" +:+ line_break
                                 +:+ join line_break (errors a))
          end
      | None => HostTypeError
      end
  | _ => HostTypeError
  end.

End WithNumbers.

End SemanticAnalyzer.

(** ** The lexer ([lexer.js]) *)

Module Lexer.

Section WithNumbers.
Context {num : Type} `{JsNumber num}.

Record Token := mkToken {
  type : string;
  value : literal num;
  line : nat;
  column : nat
}.

Record lexer := mkLexer {
  input : list ascii;
  position : nat;
  cur_line : nat;
  cur_column : nat;
  tokens : list Token
}.

(** [new Lexer(input)] *)
Definition new_lexer (text : string) : lexer :=
  mkLexer (list_ascii_of_string text) 0 1 1 [].

Definition code (c : ascii) : N := N_of_ascii c.

Definition current (lx : lexer) : option ascii := input lx !! position lx.

Definition peek (lx : lexer) : option ascii :=
  input lx !! (position lx + 1)%nat.

Definition advance (lx : lexer) : lexer :=
  let char := current lx in
  if bool_decide (char = Some "010"%char) then
    mkLexer (input lx) (S (position lx)) (S (cur_line lx)) 1 (tokens lx)
  else
    mkLexer (input lx) (S (position lx)) (cur_line lx)
      (S (cur_column lx)) (tokens lx).

Definition push (t : Token) (lx : lexer) : lexer :=
  mkLexer (input lx) (position lx) (cur_line lx) (cur_column lx)
    (tokens lx ++ [t]).

(** [/\s/] on the code units below 256. *)
Definition isSpace (c : ascii) : bool :=
  bool_decide (code c ∈ [9; 10; 11; 12; 13; 32; 160]%N).

(** [/[a-zA-Z_]/] *)
Definition isLetter (c : ascii) : bool :=
  let n := code c in
  ((97 <=? n) && (n <=? 122) || (65 <=? n) && (n <=? 90) || (n =? 95))%N.

(** [/[0-9]/] *)
Definition isDigit (c : ascii) : bool :=
  let n := code c in ((48 <=? n) && (n <=? 57))%N.

Definition isAlphaNumeric (c : ascii) : bool := isLetter c || isDigit c.

(** [isDigit(this.peek())]: past the end the tested text is
    ["undefined"], which holds no digit. *)
Definition isDigit_opt (c : option ascii) : bool :=
  match c with
  | Some c => isDigit c
  | None => false
  end.

(** [while (this.position < this.input.length && p(this.current()))
      this.advance()] *)
Fixpoint advance_while (p : ascii → bool) (n : nat) (lx : lexer) : lexer :=
  match n with
  | O => lx
  | S n' =>
      match current lx with
      | Some c => if p c then advance_while p n' (advance lx) else lx
      | None => lx
      end
  end.

(** Number of characters not yet read: a bound on the iterations of
    every loop that advances. *)
Definition remaining (lx : lexer) : nat := length (input lx) - position lx.

Definition skipWhitespace (lx : lexer) : lexer :=
  advance_while isSpace (remaining lx) lx.

Definition skipLineComment (lx : lexer) : lexer :=
  advance_while (λ c, negb (Ascii.eqb c "010")) (remaining lx) lx.

Fixpoint block_comment_loop (n : nat) (lx : lexer) : lexer :=
  match n with
  | O => lx
  | S n' =>
      match current lx with
      | None => lx
      | Some c =>
          if Ascii.eqb c "*" && bool_decide (peek lx = Some "/"%char)
          then advance (advance lx)
          else block_comment_loop n' (advance lx)
      end
  end.

Definition skipBlockComment (lx : lexer) : lexer :=
  let lx := advance (advance lx) in
  block_comment_loop (remaining lx) lx.

(** [this.input.substring(start, this.position)] *)
Definition substring (l : list ascii) (start stop : nat) : list ascii :=
  take (stop - start) (drop start l).

Definition lexeme (lx : lexer) (start : nat) : string :=
  string_of_list_ascii (substring (input lx) start (position lx)).

Definition keywords : list string :=
  ["let"; "const"; "var"; "def"; "function"; "return";
   "if"; "else"; "elsif"; "elif"; "while"; "for"; "do"; "end";
   "break"; "continue"; "times"; "to"; "in"; "of";
   "class"; "struct"; "interface"; "trait"; "module";
   "import"; "export"; "from"; "as"; "with";
   "try"; "catch"; "finally"; "throw"; "raise";
   "true"; "false"; "null"; "nil"; "undefined";
   "and"; "or"; "not"; "is"; "new"; "delete";
   "async"; "await"; "yield"; "lambda"; "match"; "case";
   "public"; "private"; "protected"; "static"; "final"].

Definition upper (c : ascii) : ascii :=
  let n := code c in
  if ((97 <=? n) && (n <=? 122))%N then ascii_of_N (n - 32) else c.

Fixpoint toUpperCase (s : string) : string :=
  match s with
  | EmptyString => EmptyString
  | String c s' => String (upper c) (toUpperCase s')
  end.

Definition readIdentifierOrKeyword (lx : lexer) : Token * lexer :=
  let start := position lx in
  let startLine := cur_line lx in
  let startColumn := cur_column lx in
  let lx := advance_while isAlphaNumeric (remaining lx) lx in
  let value := lexeme lx start in
  let type :=
    if bool_decide (value ∈ keywords) then toUpperCase value
    else "IDENTIFIER" in
  (mkToken type (LStr value) startLine startColumn, lx).

Definition readNumber (lx : lexer) : Token * lexer :=
  let start := position lx in
  let startLine := cur_line lx in
  let startColumn := cur_column lx in
  let lx := advance_while isDigit (remaining lx) lx in
  let lx :=
    if bool_decide (current lx = Some "."%char) && isDigit_opt (peek lx)
    then let lx := advance lx in advance_while isDigit (remaining lx) lx
    else lx in
  let lx :=
    if bool_decide (current lx = Some "e"%char)
       || bool_decide (current lx = Some "E"%char)
    then
      let lx := advance lx in
      let lx :=
        if bool_decide (current lx = Some "+"%char)
           || bool_decide (current lx = Some "-"%char)
        then advance lx else lx in
      advance_while isDigit (remaining lx) lx
    else lx in
  let value := lexeme lx start in
  (mkToken "NUMBER" (LNum (parseFloat value)) startLine startColumn, lx).

(** [escapeMap[escapeChar] || escapeChar] *)
Definition unescape (c : ascii) : ascii :=
  if Ascii.eqb c "n" then "010"%char
  else if Ascii.eqb c "t" then "009"%char
  else if Ascii.eqb c "r" then "013"%char
  else c.

Definition str1 (c : ascii) : string := String c EmptyString.

(** The loop of [readString]; an escape at the very end of the input
    appends the text of [undefined] and steps past the end. *)
Fixpoint string_loop (quote : ascii) (n : nat) (value : string) (lx : lexer)
  : string * lexer :=
  match n with
  | O => (value, lx)
  | S n' =>
      match current lx with
      | None => (value, lx)
      | Some c =>
          if Ascii.eqb c quote then (value, lx)
          else if Ascii.eqb c "\" then
            let lx := advance lx in
            let piece :=
              match current lx with
              | Some e => str1 (unescape e)
              | None => "undefined"
              end in
            string_loop quote n' (value +:+ piece) (advance lx)
          else string_loop quote n' (value +:+ str1 c) (advance lx)
      end
  end.

Definition at_line_column (l c : nat) : string :=
  " at line " +:+ pretty l +:+ ", column " +:+ pretty c.

Definition readString (quote : ascii) (lx : lexer) : result (Token * lexer) :=
  let startLine := cur_line lx in
  let startColumn := cur_column lx in
  let lx := advance lx in
  let '(value, lx) := string_loop quote (remaining lx) "" lx in
  if bool_decide (current lx = Some quote) then
    Ok (mkToken "STRING" (LStr value) startLine startColumn, advance lx)
  else Err ("Unterminated string" +:+ at_line_column startLine startColumn).

Definition twoCharOps : list (string * string) :=
  [("==", "EQ"); ("!=", "NEQ"); ("<=", "LTE"); (">=", "GTE");
   ("&&", "AND"); ("||", "OR"); ("++", "INCREMENT"); ("--", "DECREMENT");
   ("+=", "PLUS_ASSIGN"); ("-=", "MINUS_ASSIGN"); ("*=", "MULT_ASSIGN");
   ("/=", "DIV_ASSIGN"); ("=>", "ARROW"); ("->", "ARROW"); ("::", "SCOPE");
   ("..", "RANGE")].

Definition oneCharOps : list (string * string) :=
  [("+", "PLUS"); ("-", "MINUS"); ("*", "MULT"); ("/", "DIV"); ("%", "MOD");
   ("=", "ASSIGN"); ("<", "LT"); (">", "GT"); ("!", "NOT");
   ("(", "LPAREN"); (")", "RPAREN"); ("{", "LBRACE"); ("}", "RBRACE");
   ("[", "LBRACKET"); ("]", "RBRACKET"); (",", "COMMA"); (";", "SEMICOLON");
   (":", "COLON"); (".", "DOT"); ("|", "PIPE"); ("&", "AMPERSAND");
   ("^", "XOR"); ("~", "TILDE"); ("?", "QUESTION")].

(** Property read on an object literal used as a table. *)
Fixpoint table_get (table : list (string * string)) (key : string)
  : option string :=
  match table with
  | [] => None
  | (k, v) :: rest => if String.eqb k key then Some v else table_get rest key
  end.

(** Called with [this.current()] defined. *)
Definition readOperator (char : ascii) (lx : lexer) : option (Token * lexer) :=
  let startLine := cur_line lx in
  let startColumn := cur_column lx in
  let next :=
    match peek lx with
    | Some c => str1 c
    | None => "undefined"
    end in
  let twoChar := str1 char +:+ next in
  match table_get twoCharOps twoChar with
  | Some ty =>
      Some (mkToken ty (LStr twoChar) startLine startColumn,
            advance (advance lx))
  | None =>
      match table_get oneCharOps (str1 char) with
      | Some ty =>
          Some (mkToken ty (LStr (str1 char)) startLine startColumn,
                advance lx)
      | None => None
      end
  end.

(** A stretch of the input consumed by one step of [tokenize]: either
    discarded, or turned into the token pushed by that step. The bounds
    are the values of [position] before and after the step. *)
Inductive segment :=
| Skipped (start stop : nat)
| Lexeme (t : Token) (start stop : nat).

Definition unexpected (c : ascii) (lx : lexer) : string :=
  "Unexpected character '" +:+ str1 c +:+ "'" +:+
  at_line_column (cur_line lx) (cur_column lx).

(** The loop of [tokenize]. Besides the lexer it returns the segments
    of the steps taken, in order; they play no part in the result. *)
Fixpoint tokenize_loop (n : nat) (lx : lexer) (segs : list segment)
  : result (lexer * list segment) :=
  match n with
  | O => OutOfFuel
  | S n' =>
      if (position lx <? length (input lx))%nat then
        let p0 := position lx in
        let lx := skipWhitespace lx in
        let p1 := position lx in
        let segs := segs ++ [Skipped p0 p1] in
        match current lx with
        | None => Ok (lx, segs)
        | Some char =>
            if isLetter char then
              let '(t, lx) := readIdentifierOrKeyword lx in
              tokenize_loop n' (push t lx) (segs ++ [Lexeme t p1 (position lx)])
            else if isDigit char then
              let '(t, lx) := readNumber lx in
              tokenize_loop n' (push t lx) (segs ++ [Lexeme t p1 (position lx)])
            else if Ascii.eqb char "034" || Ascii.eqb char "'" then
              match readString char lx with
              | Ok (t, lx) =>
                  tokenize_loop n' (push t lx)
                    (segs ++ [Lexeme t p1 (position lx)])
              | Err m => Err m
              | OutOfFuel => OutOfFuel
              end
            else if Ascii.eqb char "/" && bool_decide (peek lx = Some "/"%char)
            then
              let lx := skipLineComment lx in
              tokenize_loop n' lx (segs ++ [Skipped p1 (position lx)])
            else if Ascii.eqb char "/" && bool_decide (peek lx = Some "*"%char)
            then
              let lx := skipBlockComment lx in
              tokenize_loop n' lx (segs ++ [Skipped p1 (position lx)])
            else
              match readOperator char lx with
              | Some (t, lx) =>
                  tokenize_loop n' (push t lx)
                    (segs ++ [Lexeme t p1 (position lx)])
              | None => Err (unexpected char lx)
              end
        end
      else Ok (lx, segs)
  end.

Definition eof (lx : lexer) : Token :=
  mkToken "EOF" LNull (cur_line lx) (cur_column lx).

(** One step is taken per character at most. *)
Definition tokenize_segments (text : string)
  : result (list Token * list segment) :=
  let lx := new_lexer text in
  result_bind (tokenize_loop (S (length (input lx))) lx [])
    (λ '(lx, segs), Ok (tokens (push (eof lx) lx), segs)).

Definition tokenize (text : string) : result (list Token) :=
  result_bind (tokenize_segments text) (λ '(toks, _), Ok toks).

(** The text of a segment. *)
Definition segment_text (inp : list ascii) (s : segment) : list ascii :=
  match s with
  | Skipped a b | Lexeme _ a b => substring inp a b
  end.

Definition segment_token (s : segment) : list Token :=
  match s with
  | Skipped _ _ => []
  | Lexeme t _ _ => [t]
  end.

End WithNumbers.

Arguments Token : clear implicits.
Arguments lexer : clear implicits.
Arguments segment : clear implicits.

End Lexer.

(** ** The syntax tree ([ASTNode] in [parser.js]) *)

Module Ast.

Section WithNumbers.
Context {num : Type}.

Unset Elimination Schemes.

Inductive node :=
| Program (statements : list node)
| VariableDeclaration (keyword name : string) (initializer : option node)
| FunctionDeclaration (name : string) (parameters : list string)
    (body : list node)
| ClassDeclaration (name : string) (superclass : option string)
    (methods properties : list node)
| ImportStatement (specifiers : list (string * string)) (source : string)
| TryStatement (tryBlock : list node)
    (catchClause : option (option string * list node))
    (finallyBlock : option (list node))
| IfStatement (condition : node) (thenBranch : list node)
    (elifBranches : list (node * list node)) (elseBranch : option (list node))
| WhileStatement (condition : node) (body : list node)
| ForStatement (iterator : string) (start end_ step : node) (body : list node)
| ReturnStatement (value : option node)
| Break
| Continue
| ExpressionStatement (expression : node)
| Assignment (target : node) (operator : string) (value : node)
| BinaryExpression (left : node) (operator : string) (right : node)
| UnaryExpression (operator : string) (operand : node)
| CallExpression (callee : node) (arguments : list node)
| IndexExpression (object index : node)
| MemberExpression (object : node) (property : string)
| Identifier (name : string)
| Literal (value : literal num)
| ArrayLiteral (elements : list node)
| ObjectLiteral (properties : list (string * node)).

Set Elimination Schemes.

End WithNumbers.

Arguments node : clear implicits.

End Ast.

(** ** The parser ([parser.js]) *)

Module Parser.

Import Ast.

Section WithNumbers.
Context {num : Type} `{JsNumber num}.

Abbreviation Token := (Lexer.Token num).
Abbreviation node := (Ast.node num).

Record Parser := mkParser {
  tokens : list Token;
  position : nat
}.

(** A method of the parser: it reads and moves [position], and returns
    or throws. *)
Definition parser_m (A : Type) : Type := Parser → result (A * Parser).

Definition ret {A} (a : A) : parser_m A := λ p, Ok (a, p).

Definition pbind {A B} (m : parser_m A) (k : A → parser_m B) : parser_m B :=
  λ p,
    match m p with
    | Ok (a, p') => k a p'
    | Err e => Err e
    | OutOfFuel => OutOfFuel
    end.

Definition throw {A} (message : string) : parser_m A := λ _, Err message.

Definition out_of_fuel {A} : parser_m A := λ _, OutOfFuel.

Notation "'let*' x ':=' m 'in' k" := (pbind m (λ x, k))
  (at level 10, x pattern, m at level 100, k at level 200).

Definition isAtEnd (p : Parser) : bool :=
  (length (tokens p) <=? position p)%nat.

Definition peek (p : Parser) : option Token := tokens p !! position p.

Definition previous (p : Parser) : option Token :=
  match position p with
  | O => None
  | S i => tokens p !! i
  end.

Definition check (ty : string) (p : Parser) : bool :=
  if isAtEnd p then false
  else
    match peek p with
    | Some t => String.eqb (Lexer.type t) ty
    | None => false
    end.

Definition advance (p : Parser) : Parser :=
  if isAtEnd p then p else mkParser (tokens p) (S (position p)).

(** [match(...types)] *)
Fixpoint match_ (types : list string) (p : Parser) : bool * Parser :=
  match types with
  | [] => (false, p)
  | ty :: rest => if check ty p then (true, advance p) else match_ rest p
  end.

Definition matches (types : list string) : parser_m bool :=
  λ p, Ok (match_ types p).

Definition checks (ty : string) : parser_m bool := λ p, Ok (check ty p, p).

Definition atEnd : parser_m bool := λ p, Ok (isAtEnd p, p).

(** The text of a token value, for the places that use it as a name. *)
Definition text_of (v : literal num) : string :=
  match v with
  | LStr s => s
  | LNum n => num_to_string n
  | LBool b => if b then "true" else "false"
  | LNull => "null"
  end.

Definition undefined_token : string :=
  "TypeError: Cannot read properties of undefined".

(** [this.previous().value] *)
Definition previous_value : parser_m (literal num) :=
  λ p,
    match previous p with
    | Some t => Ok (Lexer.value t, p)
    | None => Err undefined_token
    end.

Definition previous_text : parser_m string :=
  let* v := previous_value in ret (text_of v).

Definition consume (ty message : string) : parser_m Token :=
  λ p,
    if check ty p then
      let p' := advance p in
      match previous p' with
      | Some t => Ok (t, p')
      | None => Err undefined_token
      end
    else
      match peek p with
      | Some t =>
          Err (message +:+
               Lexer.at_line_column (Lexer.line t) (Lexer.column t))
      | None => Err undefined_token
      end.

Definition consume_text (ty message : string) : parser_m string :=
  let* t := consume ty message in ret (text_of (Lexer.value t)).

Definition consumeOptional (ty : string) : parser_m unit :=
  λ p, if check ty p then Ok (tt, advance p) else Ok (tt, p).

(** [do { item } while (this.match('COMMA'))] *)
Fixpoint comma_list {A} (item : parser_m A) (k : nat) (acc : list A)
  : parser_m (list A) :=
  match k with
  | O => out_of_fuel
  | S k' =>
      let* x := item in
      let* more := matches ["COMMA"] in
      if more then comma_list item k' (acc ++ [x]) else ret (acc ++ [x])
  end.

Section Expressions.
Variable expression : parser_m node.

Definition objectProperty : parser_m (string * node) :=
  let* key := consume_text "IDENTIFIER" "Expected property name" in
  let* _ := consume "COLON" "Expected :" in
  let* value := expression in
  ret (key, value).

Definition primary (k : nat) : parser_m node :=
  let* b := matches ["TRUE"] in
  if b then ret (Literal (LBool true)) else
  let* b := matches ["FALSE"] in
  if b then ret (Literal (LBool false)) else
  let* b := matches ["NULL"; "NIL"] in
  if b then ret (Literal LNull) else
  let* b := matches ["NUMBER"] in
  if b then (let* v := previous_value in ret (Literal v)) else
  let* b := matches ["STRING"] in
  if b then (let* v := previous_value in ret (Literal v)) else
  let* b := matches ["IDENTIFIER"] in
  if b then (let* name := previous_text in ret (Identifier name)) else
  let* b := matches ["LPAREN"] in
  if b then
    (let* expr := expression in
     let* _ := consume "RPAREN" "Expected ) after expression" in
     ret expr)
  else
  let* b := matches ["LBRACKET"] in
  if b then
    (let* empty := checks "RBRACKET" in
     let* elements :=
       if empty then ret [] else comma_list expression k [] in
     let* _ := consume "RBRACKET" "Expected ]" in
     ret (ArrayLiteral elements))
  else
  let* b := matches ["LBRACE"] in
  if b then
    (let* empty := checks "RBRACE" in
     let* properties :=
       if empty then ret [] else comma_list objectProperty k [] in
     let* _ := consume "RBRACE" "Expected }" in
     ret (ObjectLiteral properties))
  else
  λ p,
    match peek p with
    | Some t =>
        Err ("Unexpected token: " +:+ Lexer.type t +:+ " at line " +:+
             pretty (Lexer.line t))
    | None => Err undefined_token
    end.

(** The [while (true)] loop of [postfix]. *)
Fixpoint postfix_loop (k : nat) (expr : node) : parser_m node :=
  match k with
  | O => out_of_fuel
  | S k' =>
      let* b := matches ["LPAREN"] in
      if b then
        (let* empty := checks "RPAREN" in
         let* args := if empty then ret [] else comma_list expression k' [] in
         let* _ := consume "RPAREN" "Expected ) after arguments" in
         postfix_loop k' (CallExpression expr args))
      else
      let* b := matches ["LBRACKET"] in
      if b then
        (let* index := expression in
         let* _ := consume "RBRACKET" "Expected ]" in
         postfix_loop k' (IndexExpression expr index))
      else
      let* b := matches ["DOT"] in
      if b then
        (let* property := consume_text "IDENTIFIER" "Expected property name" in
         postfix_loop k' (MemberExpression expr property))
      else ret expr
  end.

Definition postfix (k : nat) : parser_m node :=
  let* expr := primary k in postfix_loop k expr.

Fixpoint unary (k : nat) : parser_m node :=
  match k with
  | O => out_of_fuel
  | S k' =>
      let* b := matches ["NOT"; "MINUS"; "PLUS"] in
      if b then
        (let* operator := previous_text in
         let* operand := unary k' in
         ret (UnaryExpression operator operand))
      else postfix k'
  end.

(** [while (this.match(...types)) { ... }] of the binary levels. *)
Fixpoint binary_loop (types : list string) (operand : parser_m node)
    (k : nat) (expr : node) : parser_m node :=
  match k with
  | O => out_of_fuel
  | S k' =>
      let* b := matches types in
      if b then
        (let* operator := previous_text in
         let* right_ := operand in
         binary_loop types operand k' (BinaryExpression expr operator right_))
      else ret expr
  end.

Definition factor (k : nat) : parser_m node :=
  let* expr := unary k in
  binary_loop ["MULT"; "DIV"; "MOD"] (unary k) k expr.

Definition term (k : nat) : parser_m node :=
  let* expr := factor k in
  binary_loop ["PLUS"; "MINUS"] (factor k) k expr.

Definition comparison (k : nat) : parser_m node :=
  let* expr := term k in
  binary_loop ["GT"; "GTE"; "LT"; "LTE"] (term k) k expr.

Definition equality (k : nat) : parser_m node :=
  let* expr := comparison k in
  binary_loop ["EQ"; "NEQ"] (comparison k) k expr.

Definition logicalAnd (k : nat) : parser_m node :=
  let* expr := equality k in
  binary_loop ["AND"] (equality k) k expr.

Definition logicalOr (k : nat) : parser_m node :=
  let* expr := logicalAnd k in
  binary_loop ["OR"] (logicalAnd k) k expr.

Fixpoint assignment (k : nat) : parser_m node :=
  match k with
  | O => out_of_fuel
  | S k' =>
      let* expr := logicalOr k' in
      let* b :=
        matches ["ASSIGN"; "PLUS_ASSIGN"; "MINUS_ASSIGN"; "MULT_ASSIGN";
                 "DIV_ASSIGN"] in
      if b then
        (let* operator := previous_text in
         let* value := assignment k' in
         ret (Assignment expr operator value))
      else ret expr
  end.

End Expressions.

Fixpoint expression (n : nat) : parser_m node :=
  match n with
  | O => out_of_fuel
  | S n' => assignment (expression n') n'
  end.

Section Statements.
Variable expression : parser_m node.
Variable statement : parser_m node.

(** [while (!this.check('RBRACE') && !this.isAtEnd())] of [block]. *)
Fixpoint block_loop (k : nat) (statements : list node)
  : parser_m (list node) :=
  match k with
  | O => out_of_fuel
  | S k' =>
      let* closing := checks "RBRACE" in
      let* done := atEnd in
      if negb closing && negb done then
        (let* s := statement in block_loop k' (statements ++ [s]))
      else ret statements
  end.

Definition block (k : nat) : parser_m (list node) :=
  let* statements := block_loop k [] in
  let* _ := consume "RBRACE" "Expected } after block" in
  ret statements.

Definition variableDeclaration : parser_m node :=
  let* keyword := previous_text in
  let* name := consume_text "IDENTIFIER" "Expected variable name" in
  let* b := matches ["ASSIGN"] in
  let* initializer :=
    if b then (let* e := expression in ret (Some e)) else ret None in
  let* _ := consumeOptional "SEMICOLON" in
  ret (VariableDeclaration keyword name initializer).

Definition functionDeclaration (k : nat) : parser_m node :=
  let* name := consume_text "IDENTIFIER" "Expected function name" in
  let* _ := consume "LPAREN" "Expected ( after function name" in
  let* empty := checks "RPAREN" in
  let* parameters :=
    if empty then ret []
    else comma_list (consume_text "IDENTIFIER" "Expected parameter name") k []
  in
  let* _ := consume "RPAREN" "Expected ) after parameters" in
  let* _ := consume "LBRACE" "Expected { before function body" in
  let* body := block k in
  ret (FunctionDeclaration name parameters body).

Fixpoint class_loop (k : nat) (methods properties : list node)
  : parser_m (list node * list node) :=
  match k with
  | O => out_of_fuel
  | S k' =>
      let* closing := checks "RBRACE" in
      let* done := atEnd in
      if negb closing && negb done then
        let* b := matches ["DEF"; "FUNCTION"] in
        if b then
          (let* m := functionDeclaration k' in
           class_loop k' (methods ++ [m]) properties)
        else
        let* b := matches ["LET"; "CONST"; "VAR"] in
        if b then
          (let* v := variableDeclaration in
           class_loop k' methods (properties ++ [v]))
        else
          (λ p, class_loop k' methods properties (advance p))
      else ret (methods, properties)
  end.

Definition classDeclaration (k : nat) : parser_m node :=
  let* name := consume_text "IDENTIFIER" "Expected class name" in
  let* b := matches ["LT"] in
  let* superclass :=
    if b then
      (let* s := consume_text "IDENTIFIER" "Expected superclass name" in
       ret (Some s))
    else ret None in
  let* _ := consume "LBRACE" "Expected { before class body" in
  let* members := class_loop k [] [] in
  let* _ := consume "RBRACE" "Expected } after class body" in
  ret (ClassDeclaration name superclass (fst members) (snd members)).

Definition importSpecifier : parser_m (string * string) :=
  let* name := consume_text "IDENTIFIER" "Expected import specifier" in
  let* b := matches ["AS"] in
  let* alias :=
    if b then consume_text "IDENTIFIER" "Expected alias" else ret name in
  ret (name, alias).

Definition importStatement (k : nat) : parser_m node :=
  let* b := matches ["LBRACE"] in
  let* specifiers :=
    if b then
      (let* l := comma_list importSpecifier k [] in
       let* _ := consume "RBRACE" "Expected }" in
       ret l)
    else
    let* b := matches ["MULT"] in
    if b then
      (let* _ := consume "AS" "Expected as after *" in
       let* alias := consume_text "IDENTIFIER" "Expected alias" in
       ret [("*", alias)])
    else
      (let* name := consume_text "IDENTIFIER" "Expected import name" in
       ret [(name, name)]) in
  let* _ := consume "FROM" "Expected from" in
  let* source := consume_text "STRING" "Expected module path" in
  let* _ := consumeOptional "SEMICOLON" in
  ret (ImportStatement specifiers source).

Definition tryStatement (k : nat) : parser_m node :=
  let* _ := consume "LBRACE" "Expected { after try" in
  let* tryBlock := block k in
  let* b := matches ["CATCH"] in
  let* catchClause :=
    if b then
      (let* b := matches ["LPAREN"] in
       let* parameter :=
         if b then
           (let* x := consume_text "IDENTIFIER" "Expected parameter name" in
            let* _ := consume "RPAREN" "Expected )" in
            ret (Some x))
         else ret None in
       let* _ := consume "LBRACE" "Expected {" in
       let* catchBlock := block k in
       ret (Some (parameter, catchBlock)))
    else ret None in
  let* b := matches ["FINALLY"] in
  let* finallyBlock :=
    if b then
      (let* _ := consume "LBRACE" "Expected {" in
       let* l := block k in
       ret (Some l))
    else ret None in
  ret (TryStatement tryBlock catchClause finallyBlock).

Fixpoint elif_loop (k : nat) (elifBranches : list (node * list node))
  : parser_m (list (node * list node)) :=
  match k with
  | O => out_of_fuel
  | S k' =>
      let* b := matches ["ELSIF"; "ELIF"] in
      if b then
        (let* _ := consume "LPAREN" "Expected (" in
         let* elifCondition := expression in
         let* _ := consume "RPAREN" "Expected )" in
         let* _ := consume "LBRACE" "Expected {" in
         let* elifBody := block k' in
         elif_loop k' (elifBranches ++ [(elifCondition, elifBody)]))
      else ret elifBranches
  end.

Definition ifStatement (k : nat) : parser_m node :=
  let* _ := consume "LPAREN" "Expected ( after if" in
  let* condition := expression in
  let* _ := consume "RPAREN" "Expected ) after condition" in
  let* _ := consume "LBRACE" "Expected { after condition" in
  let* thenBranch := block k in
  let* elifBranches := elif_loop k [] in
  let* b := matches ["ELSE"] in
  let* elseBranch :=
    if b then
      (let* _ := consume "LBRACE" "Expected {" in
       let* l := block k in
       ret (Some l))
    else ret None in
  ret (IfStatement condition thenBranch elifBranches elseBranch).

Definition whileStatement (k : nat) : parser_m node :=
  let* _ := consume "LPAREN" "Expected ( after while" in
  let* condition := expression in
  let* _ := consume "RPAREN" "Expected ) after condition" in
  let* _ := consume "LBRACE" "Expected { after condition" in
  let* body := block k in
  ret (WhileStatement condition body).

(** [this.match('IDENTIFIER') && this.previous().value === 'step'] *)
Definition step_clause : parser_m bool :=
  let* b := matches ["IDENTIFIER"] in
  if b then
    (let* v := previous_value in
     ret (match v with LStr s => String.eqb s "step" | _ => false end))
  else ret false.

Definition forStatement (k : nat) : parser_m node :=
  let* iterator := consume_text "IDENTIFIER" "Expected iterator variable" in
  let* _ := consume "ASSIGN" "Expected =" in
  let* start := expression in
  let* _ := consume "TO" "Expected to" in
  let* end_ := expression in
  let* has_step := step_clause in
  let* step :=
    if has_step then expression else ret (Literal (LNum (num_of_Z 1))) in
  let* _ := consume "LBRACE" "Expected {" in
  let* body := block k in
  ret (ForStatement iterator start end_ step body).

Definition returnStatement : parser_m node :=
  let* semi := checks "SEMICOLON" in
  let* closing := checks "RBRACE" in
  let* value :=
    if negb semi && negb closing then (let* e := expression in ret (Some e))
    else ret None in
  let* _ := consumeOptional "SEMICOLON" in
  ret (ReturnStatement value).

Definition expressionStatement : parser_m node :=
  let* expr := expression in
  let* _ := consumeOptional "SEMICOLON" in
  ret (ExpressionStatement expr).

Definition statement_body (k : nat) : parser_m node :=
  let* b := matches ["LET"; "CONST"; "VAR"] in
  if b then variableDeclaration else
  let* b := matches ["DEF"; "FUNCTION"] in
  if b then functionDeclaration k else
  let* b := matches ["IF"] in
  if b then ifStatement k else
  let* b := matches ["WHILE"] in
  if b then whileStatement k else
  let* b := matches ["FOR"] in
  if b then forStatement k else
  let* b := matches ["RETURN"] in
  if b then returnStatement else
  let* b := matches ["BREAK"] in
  if b then ret Break else
  let* b := matches ["CONTINUE"] in
  if b then ret Continue else
  let* b := matches ["CLASS"] in
  if b then classDeclaration k else
  let* b := matches ["IMPORT"] in
  if b then importStatement k else
  let* b := matches ["TRY"] in
  if b then tryStatement k else
  expressionStatement.

End Statements.

Fixpoint statement (n : nat) : parser_m node :=
  match n with
  | O => out_of_fuel
  | S n' => statement_body (expression n') (statement n') n'
  end.

(** The loop of [parse]. *)
Fixpoint parse_loop (n k : nat) (statements : list node)
  : parser_m (list node) :=
  match k with
  | O => out_of_fuel
  | S k' =>
      let* done := atEnd in
      if done then ret statements
      else
        let* b := matches ["EOF"] in
        if b then ret statements
        else
          let* s := statement n in
          parse_loop n k' (statements ++ [s])
  end.

(** [new Parser(tokens).parse()], with fuel [n]. *)
Definition parse (n : nat) (toks : list Token) : result node :=
  match parse_loop n n [] (mkParser toks 0) with
  | Ok (statements, _) => Ok (Program statements)
  | Err m => Err m
  | OutOfFuel => OutOfFuel
  end.

End WithNumbers.

Arguments Parser : clear implicits.
Arguments parser_m : clear implicits.

End Parser.

(** ** Values and the object heap of the evaluator *)

Module Values.

Import Ast.

Section WithNumbers.
Context {num : Type} `{JsNumber num}.

Abbreviation node := (Ast.node num).

Definition ref := nat.

(** Runtime values. Exception objects are values too: [throw] carries
    them and a [catch] clause binds them. *)
Inductive value :=
| VUndefined
| VNull
| VBool (b : bool)
| VNum (n : num)
| VStr (s : string)
| VObject (r : ref)
| VHost (name : string) (callable : bool)
| VNodes (l : list node)
| VNames (l : list string)
| VBreak
| VContinue
| VReturn (v : value)
| VError (message : string)
| VTypeError (message : string).

(** A property is a data property, or the [__proto__] accessor that
    [Object.prototype] carries. *)
Inductive property :=
| Data (v : value)
| ProtoAccessor.

Record object := mkObject {
  props : gmap string property;
  proto : option ref;
  is_array : bool
}.

Abbreviation heap := (list object).

(** The own property names of [Object.prototype]. *)
Definition object_prototype_names : list string :=
  ["constructor"; "__defineGetter__"; "__defineSetter__"; "hasOwnProperty";
   "__lookupGetter__"; "__lookupSetter__"; "isPrototypeOf";
   "propertyIsEnumerable"; "toString"; "valueOf"; "toLocaleString"].

Definition host_method (owner name : string) : string * property :=
  (name, Data (VHost (owner +:+ "." +:+ name) true)).

Definition object_prototype : object :=
  mkObject
    (<[ "__proto__" := ProtoAccessor ]>
       (list_to_map (host_method "Object.prototype" <$> object_prototype_names)))
    None false.

(** [Object.prototype] sits at address 0 of every heap. *)
Definition object_prototype_ref : ref := 0%nat.

Definition plain (ps : gmap string property) : object :=
  mkObject ps (Some object_prototype_ref) false.

Definition alloc (o : object) (h : heap) : ref * heap :=
  (length h, h ++ [o]).

(** The first object on the prototype chain of [r] that has [key] as an
    own property, with that property. The chain of a heap of [n]
    objects has at most [n] links. *)
Fixpoint find_property (h : heap) (n : nat) (r : ref) (key : string)
  : option property :=
  match n with
  | O => None
  | S n' =>
      match h !! r with
      | None => None
      | Some o =>
          match props o !! key with
          | Some p => Some p
          | None =>
              match proto o with
              | Some r' => find_property h n' r' key
              | None => None
              end
          end
      end
  end.

Definition chain_fuel (h : heap) : nat := S (length h).

(** [key in obj] *)
Definition has_property (h : heap) (r : ref) (key : string) : bool :=
  bool_decide (is_Some (find_property h (chain_fuel h) r key)).

Definition proto_value (h : heap) (r : ref) : value :=
  match h !! r with
  | Some o =>
      match proto o with
      | Some p => VObject p
      | None => VNull
      end
  | None => VUndefined
  end.

(** [obj[key]] on a heap object. *)
Definition get_property (h : heap) (r : ref) (key : string) : value :=
  match find_property h (chain_fuel h) r key with
  | Some (Data v) => v
  | Some ProtoAccessor => proto_value h r
  | None => VUndefined
  end.

(** Whether the prototype chain of [r] passes through [target]. *)
Fixpoint reaches (h : heap) (n : nat) (r target : ref) : bool :=
  match n with
  | O => false
  | S n' =>
      if Nat.eqb r target then true
      else
        match h !! r with
        | Some o =>
            match proto o with
            | Some r' => reaches h n' r' target
            | None => false
            end
        | None => false
        end
  end.

Inductive set_result :=
| SetOk (h : heap)
| SetThrow (e : value)
| SetUnsupported (what : string).

Definition set_proto (h : heap) (r : ref) (p : option ref) : heap :=
  match h !! r with
  | Some o => <[ r := mkObject (props o) p (is_array o) ]> h
  | None => h
  end.

Definition set_own (h : heap) (r : ref) (key : string) (v : value) : heap :=
  match h !! r with
  | Some o =>
      <[ r := mkObject (<[ key := Data v ]> (props o)) (proto o) (is_array o) ]> h
  | None => h
  end.

(** [obj[key] = v] on a heap object: the [__proto__] accessor, when the
    chain reaches it, redirects the prototype link of [obj]
    ([Object.prototype] itself refuses another prototype); anything
    else defines or updates an own data property of [obj]. Arrays keep
    a length and are not written by this model. *)
Definition set_property (h : heap) (r : ref) (key : string) (v : value)
  : set_result :=
  match h !! r with
  | None => SetUnsupported "dangling reference"
  | Some o =>
      if is_array o then SetUnsupported "write to an array"
      else
        match find_property h (chain_fuel h) r key with
        | Some ProtoAccessor =>
            match v with
            | VObject p =>
                if Nat.eqb r object_prototype_ref
                then SetThrow (VTypeError "Immutable prototype object")
                else if reaches h (chain_fuel h) p r
                then SetThrow (VTypeError "Cyclic __proto__ value")
                else SetOk (set_proto h r (Some p))
            | VNull => SetOk (set_proto h r None)
            | VUndefined | VBool _ | VNum _ | VStr _ => SetOk h
            | _ => SetUnsupported "host object as prototype"
            end
        | _ => SetOk (set_own h r key v)
        end
  end.

(** *** Operators of the host on primitive values *)

Definition truthy (v : value) : bool :=
  match v with
  | VUndefined | VNull => false
  | VBool b => b
  | VNum n => num_truthy n
  | VStr s => negb (String.eqb s "")
  | _ => true
  end.

Definition of_literal (l : literal num) : value :=
  match l with
  | LNull => VNull
  | LBool b => VBool b
  | LNum n => VNum n
  | LStr s => VStr s
  end.

(** [ToNumber] and [ToString] on primitives; objects would first be
    converted by their own methods, which this model leaves out. *)
Definition to_number (v : value) : option num :=
  match v with
  | VUndefined => Some num_nan
  | VNull => Some (num_of_Z 0)
  | VBool b => Some (num_of_Z (if b then 1 else 0))
  | VNum n => Some n
  | VStr s => Some (num_of_string s)
  | _ => None
  end.

Definition to_string (v : value) : option string :=
  match v with
  | VUndefined => Some "undefined"
  | VNull => Some "null"
  | VBool b => Some (if b then "true" else "false")
  | VNum n => Some (num_to_string n)
  | VStr s => Some s
  | _ => None
  end.

Definition is_string (v : value) : bool :=
  match v with
  | VStr _ => true
  | _ => false
  end.

Inductive op_result :=
| OpValue (v : value)
| OpThrow (e : value)
| OpUnsupported (what : string).

Definition lift (o : option value) (what : string) : op_result :=
  match o with
  | Some v => OpValue v
  | None => OpUnsupported what
  end.

Definition numeric (f : num → num → value) (a b : value) : op_result :=
  lift (x ← to_number a; y ← to_number b; Some (f x y))
       "operator on an object".

(** [a + b] *)
Definition js_add (a b : value) : op_result :=
  if is_string a || is_string b then
    lift (x ← to_string a; y ← to_string b; Some (VStr (x +:+ y)))
         "operator on an object"
  else numeric (λ x y, VNum (num_add x y)) a b.

(** [a == b] *)
Definition loose_eq (a b : value) : option bool :=
  match a, b with
  | (VUndefined | VNull), (VUndefined | VNull) => Some true
  | (VUndefined | VNull), (VBool _ | VNum _ | VStr _ | VObject _) => Some false
  | (VBool _ | VNum _ | VStr _ | VObject _), (VUndefined | VNull) => Some false
  | VStr s, VStr t => Some (String.eqb s t)
  | VObject r, VObject r' => Some (Nat.eqb r r')
  | (VBool _ | VNum _), (VBool _ | VNum _ | VStr _)
  | VStr _, (VBool _ | VNum _) =>
      x ← to_number a; y ← to_number b; Some (num_eqb x y)
  | _, _ => None
  end.

(** [a < b] when [strict], [a <= b] otherwise. *)
Definition compare (strict : bool) (a b : value) : op_result :=
  match a, b with
  | VStr s, VStr t =>
      OpValue (VBool (if strict then String.ltb s t else String.leb s t))
  | _, _ =>
      numeric (λ x y, VBool (if strict then num_lt x y else num_le x y)) a b
  end.

Definition unknown_operator (kind operator : string) : op_result :=
  OpThrow (VError ("Unknown " +:+ kind +:+ " operator: " +:+ operator)).

(** The [switch] of [evaluateBinaryExpression]. *)
Definition binary (operator : string) (left right_ : value) : op_result :=
  if String.eqb operator "+" then js_add left right_
  else if String.eqb operator "-" then
    numeric (λ x y, VNum (num_sub x y)) left right_
  else if String.eqb operator "*" then
    numeric (λ x y, VNum (num_mul x y)) left right_
  else if String.eqb operator "/" then
    numeric (λ x y, VNum (num_div x y)) left right_
  else if String.eqb operator "%" then
    numeric (λ x y, VNum (num_rem x y)) left right_
  else if String.eqb operator "==" then
    lift (b ← loose_eq left right_; Some (VBool b)) "equality on an object"
  else if String.eqb operator "!=" then
    lift (b ← loose_eq left right_; Some (VBool (negb b)))
         "equality on an object"
  else if String.eqb operator "<" then compare true left right_
  else if String.eqb operator "<=" then compare false left right_
  else if String.eqb operator ">" then compare true right_ left
  else if String.eqb operator ">=" then compare false right_ left
  else if String.eqb operator "and" || String.eqb operator "&&" then
    OpValue (if truthy left then right_ else left)
  else if String.eqb operator "or" || String.eqb operator "||" then
    OpValue (if truthy left then left else right_)
  else unknown_operator "binary" operator.

(** The [switch] of [evaluateUnaryExpression]. *)
Definition unary (operator : string) (operand : value) : op_result :=
  if String.eqb operator "-" then
    lift (x ← to_number operand; Some (VNum (num_neg x)))
         "operator on an object"
  else if String.eqb operator "+" then
    lift (x ← to_number operand; Some (VNum x)) "operator on an object"
  else if String.eqb operator "not" || String.eqb operator "!" then
    OpValue (VBool (negb (truthy operand)))
  else unknown_operator "unary" operator.

End WithNumbers.

Arguments value : clear implicits.
Arguments property : clear implicits.
Arguments object : clear implicits.
Arguments set_result : clear implicits.
Arguments op_result : clear implicits.

Abbreviation heap num := (list (object num)).

End Values.

(** ** The builtin table ([Runtime.initializeBuiltins]) *)

Module Runtime.

(** Names of the table with whether the entry is a function. *)
Definition builtin_names : list (string * bool) :=
  [("print", true); ("println", true); ("input", true); ("len", true);
   ("str", true); ("int", true); ("float", true); ("bool", true);
   ("type", true); ("range", true); ("map", true); ("filter", true);
   ("reduce", true); ("sort", true); ("reverse", true); ("join", true);
   ("split", true); ("push", true); ("pop", true); ("shift", true);
   ("unshift", true); ("slice", true); ("indexOf", true); ("includes", true);
   ("keys", true); ("values", true); ("entries", true); ("assign", true);
   ("freeze", true); ("seal", true); ("Math", false); ("Date", false);
   ("JSON", false); ("setTimeout", true); ("setInterval", true);
   ("clearTimeout", true); ("clearInterval", true); ("Promise", true);
   ("fetch", true)].

End Runtime.

(** ** The evaluator ([evaluator.js]) *)

Module Evaluator.

Import Ast Values.

Section WithHost.
Context {num : Type} `{JsNumber num}.

Abbreviation node := (Ast.node num).
Abbreviation value := (Values.value num).
Abbreviation heap := (Values.heap num).

(** Result of calling a function of the host. *)
Inductive host_outcome :=
| HostReturn (v : value) (h : heap)
| HostThrow (e : value) (h : heap)
| HostUnsupported (what : string).

(** The functions of the host, by name. *)
Variable host_call : string → list value → heap → host_outcome.

Record state := mkState {
  store : heap;
  globalScope : ref;
  currentScope : ref;
  builtins : ref
}.

Definition with_store (s : state) (h : heap) : state :=
  mkState h (globalScope s) (currentScope s) (builtins s).

Definition with_scope (s : state) (c : ref) : state :=
  mkState (store s) (globalScope s) c (builtins s).

(** An evaluation returns a value, throws one, leaves the part of the
    host this model covers, or exhausts its fuel. *)
Inductive outcome :=
| Normal (v : value) (s : state)
| Throw (e : value) (s : state)
| Unsupported (what : string)
| NoFuel.

Definition bind (m : outcome) (k : value → state → outcome) : outcome :=
  match m with
  | Normal v s => k v s
  | other => other
  end.

Notation "'run' v 'at' s ':=' m 'in' k" := (bind m (λ v s, k))
  (at level 10, v name, s name, m at level 100, k at level 200).

(** [new Evaluator(runtime)]: the heap holds [Object.prototype], the
    builtin table of the runtime and the empty global scope. *)
Definition builtins_object : object num :=
  plain (list_to_map
           ((λ e : string * bool, (e.1, Data (VHost e.1 e.2)))
              <$> Runtime.builtin_names)).

Definition new_evaluator : state :=
  mkState [object_prototype; builtins_object; plain ∅] 2%nat 2%nat 1%nat.

(** [Object.create(p)] *)
Definition create (p : option ref) (s : state) : ref * state :=
  let '(r, h) := alloc (mkObject ∅ p false) (store s) in
  (r, with_store s h).

(** [this.currentScope[name] = v], then [k]. *)
Definition scope_set (name : string) (v : value) (s : state)
    (k : state → outcome) : outcome :=
  match set_property (store s) (currentScope s) name v with
  | SetOk h => k (with_store s h)
  | SetThrow e => Throw e s
  | SetUnsupported what => Unsupported what
  end.

(** [this.currentScope[name]] *)
Definition scope_get (name : string) (s : state) : value :=
  get_property (store s) (currentScope s) name.

Definition undefined_variable (name : string) : value :=
  VError ("Undefined variable: " +:+ name).

(** The [while (Object.getPrototypeOf(scope))] loop of
    [evaluateIdentifier]. *)
Fixpoint lookup_parents (h : heap) (n : nat) (scope : ref) (name : string)
  : option value :=
  match n with
  | O => None
  | S n' =>
      match h !! scope with
      | Some o =>
          match proto o with
          | Some parent =>
              if has_property h parent name
              then Some (get_property h parent name)
              else lookup_parents h n' parent name
          | None => None
          end
      | None => None
      end
  end.

Definition evaluateIdentifier (name : string) (s : state) : outcome :=
  let h := store s in
  if has_property h (currentScope s) name then
    Normal (get_property h (currentScope s) name) s
  else
    match lookup_parents h (chain_fuel h) (currentScope s) name with
    | Some v => Normal v s
    | None =>
        if has_property h (globalScope s) name then
          Normal (get_property h (globalScope s) name) s
        else if has_property h (builtins s) name then
          Normal (get_property h (builtins s) name) s
        else Throw (undefined_variable name) s
    end.

(** The [TypeError] of the host for a read on [undefined] or [null].
    The message of the host also names the value and the property;
    the model keeps one text for all of them. *)
Definition null_access : value :=
  VTypeError "Cannot read properties of undefined or null".

(** [object[key]] for any value [object]. *)
Definition property_read (object : value) (key : string) (s : state)
  : outcome :=
  match object with
  | VUndefined | VNull => Throw null_access s
  | VObject r =>
      match store s !! r with
      | Some o =>
          if is_array o
             && bool_decide (find_property (store s) (chain_fuel (store s))
                               r key = None)
          then Unsupported "property of Array.prototype"
          else Normal (get_property (store s) r key) s
      | None => Unsupported "dangling reference"
      end
  | VStr t =>
      if String.eqb key "length"
      then Normal (VNum (num_of_Z (Z.of_nat (String.length t)))) s
      else Unsupported "property of a string"
  | VError m | VTypeError m =>
      if String.eqb key "message" then Normal (VStr m) s
      else Unsupported "property of an error object"
  | _ => Unsupported "property of a host value"
  end.

(** [object[key] = v] for any value [object]; the evaluator is strict
    mode code, where a write to a primitive throws. *)
Definition property_write (object : value) (key : string) (v : value)
    (s : state) : outcome :=
  match object with
  | VUndefined | VNull =>
      Throw (VTypeError "Cannot set properties of undefined or null") s
  | VBool _ | VNum _ | VStr _ =>
      Throw (VTypeError "Cannot create property on a primitive") s
  | VObject r =>
      match set_property (store s) r key v with
      | SetOk h => Normal v (with_store s h)
      | SetThrow e => Throw e s
      | SetUnsupported what => Unsupported what
      end
  | _ => Unsupported "write to a host value"
  end.

(** A computed key is converted to a string. *)
Definition with_key (index : value) (k : string → outcome) : outcome :=
  match to_string index with
  | Some key => k key
  | None => Unsupported "object as a property key"
  end.

Definition of_op (r : op_result num) (s : state) : outcome :=
  match r with
  | OpValue v => Normal v s
  | OpThrow e => Throw e s
  | OpUnsupported what => Unsupported what
  end.

Definition maxIterations : Z := 1000000.

Definition infinite_loop : value := VError "Infinite loop detected".

(** The objects [{}] and arrays built by literals. *)
Definition array_object (elements : list value) : object num :=
  mkObject
    (<[ "length" := Data (VNum (num_of_Z (Z.of_nat (length elements)))) ]>
       (list_to_map
          (imap (λ i v, (pretty i, Data v)) elements)))
    None true.

Section Open.
(** The evaluator one unit of fuel below: [this.evaluateNode]. *)
Variable ev : node → state → outcome.

(** The loop of [evaluateProgram] and of [evaluateBlock]. *)
Fixpoint evaluateStatements (statements : list node) (result : value)
    (s : state) : outcome :=
  match statements with
  | [] => Normal result s
  | statement :: rest =>
      run result at s := ev statement s in
      evaluateStatements rest result s
  end.

Definition evaluateBlock (statements : list node) (s : state) : outcome :=
  evaluateStatements statements VNull s.

Definition evaluateProgram (statements : list node) (s : state) : outcome :=
  evaluateStatements statements VNull s.

(** [list.map(x => this.evaluateNode(x))] *)
Fixpoint evaluateAll (nodes : list node) (s : state)
    (k : list value → state → outcome) : outcome :=
  match nodes with
  | [] => k [] s
  | n :: rest =>
      run v at s := ev n s in
      evaluateAll rest s (λ vs s, k (v :: vs) s)
  end.

Definition evaluateVariableDeclaration (name : string)
    (initializer : option node) (s : state) : outcome :=
  run value at s :=
    match initializer with
    | Some e => ev e s
    | None => Normal VNull s
    end in
  scope_set name value s (λ s, Normal value s).

Definition function_record (parameters : list string) (body : list node)
    (scope : ref) : object num :=
  plain (<[ "type" := Data (VStr "function") ]>
         (<[ "parameters" := Data (VNames parameters) ]>
          (<[ "body" := Data (VNodes body) ]>
           (<[ "scope" := Data (VObject scope) ]> ∅)))).

Definition evaluateFunctionDeclaration (name : string)
    (parameters : list string) (body : list node) (s : state) : outcome :=
  let '(func, h) :=
    alloc (function_record parameters body (currentScope s)) (store s) in
  scope_set name (VObject func) (with_store s h)
    (λ s, Normal (VObject func) s).

(** The two loops of [evaluateClassDeclaration]; [table] is
    [classObj.methods] or [classObj.properties]. The parser puts
    function declarations in the first list and variable declarations
    in the second. *)
Fixpoint class_members (methods : bool) (members : list node) (table : ref)
    (s : state) (k : state → outcome) : outcome :=
  match members with
  | [] => k s
  | member :: rest =>
      let continue_with (name : string) (m : outcome) : outcome :=
        run _v at s := m in
        match set_property (store s) table name (scope_get name s) with
        | SetOk h => class_members methods rest table (with_store s h) k
        | SetThrow e => Throw e s
        | SetUnsupported what => Unsupported what
        end in
      match methods, member with
      | true, FunctionDeclaration name parameters body =>
          continue_with name
            (evaluateFunctionDeclaration name parameters body s)
      | false, VariableDeclaration _ name initializer =>
          continue_with name (evaluateVariableDeclaration name initializer s)
      | _, _ => Unsupported "class member"
      end
  end.

Definition evaluateClassDeclaration (name : string)
    (superclass : option string) (methods properties : list node)
    (s : state) : outcome :=
  let '(m, h) := alloc (plain ∅) (store s) in
  let '(p, h) := alloc (plain ∅) h in
  let '(classObj, h) :=
    alloc
      (plain (<[ "type" := Data (VStr "class") ]>
              (<[ "name" := Data (VStr name) ]>
               (<[ "superclass" :=
                     Data (match superclass with
                           | Some c => VStr c
                           | None => VNull
                           end) ]>
                (<[ "methods" := Data (VObject m) ]>
                 (<[ "properties" := Data (VObject p) ]> ∅))))))
      h in
  let previousScope := currentScope s in
  let '(c, h) := alloc (plain ∅) h in
  let s := with_scope (with_store s h) c in
  class_members true methods m s (λ s,
  class_members false properties p s (λ s,
  let s := with_scope s previousScope in
  scope_set name (VObject classObj) s (λ s, Normal (VObject classObj) s))).

(** [require] is outside the model. *)
Definition evaluateImportStatement (specifiers : list (string * string))
    (source : string) (s : state) : outcome :=
  Unsupported "import".

(** The [finally] part of [evaluateTryStatement]: the pending outcome
    stands unless the block throws. *)
Definition finally (finallyBlock : option (list node)) (pending : outcome)
  : outcome :=
  match finallyBlock, pending with
  | Some block, Normal v s =>
      run _v at s := evaluateBlock block s in Normal v s
  | Some block, Throw e s =>
      run _v at s := evaluateBlock block s in Throw e s
  | _, _ => pending
  end.

Definition evaluateTryStatement (tryBlock : list node)
    (catchClause : option (option string * list node))
    (finallyBlock : option (list node)) (s : state) : outcome :=
  finally finallyBlock
    match evaluateBlock tryBlock s with
    | Throw error s =>
        match catchClause with
        | Some (parameter, body) =>
            let previousScope := currentScope s in
            let '(c, s) := create (Some (currentScope s)) s in
            let s := with_scope s c in
            let bound (k : state → outcome) : outcome :=
              match parameter with
              | Some x =>
                  if String.eqb x "" then k s else scope_set x error s k
              | None => k s
              end in
            bound (λ s,
              run result at s := evaluateBlock body s in
              Normal result (with_scope s previousScope))
        | None => Throw error s
        end
    | other => other
    end.

Fixpoint evaluateElifs (elifBranches : list (node * list node))
    (elseBranch : option (list node)) (s : state) : outcome :=
  match elifBranches with
  | (condition, body) :: rest =>
      run c at s := ev condition s in
      if truthy c then evaluateBlock body s
      else evaluateElifs rest elseBranch s
  | [] =>
      match elseBranch with
      | Some block => evaluateBlock block s
      | None => Normal VNull s
      end
  end.

Definition evaluateIfStatement (condition : node) (thenBranch : list node)
    (elifBranches : list (node * list node)) (elseBranch : option (list node))
    (s : state) : outcome :=
  run c at s := ev condition s in
  if truthy c then evaluateBlock thenBranch s
  else evaluateElifs elifBranches elseBranch s.

(** The loop of [evaluateWhileStatement]; [k] bounds the iterations of
    the model, [iterations] is the counter of the source. *)
Fixpoint while_loop (condition : node) (body : list node) (k : nat)
    (iterations : Z) (result : value) (s : state) : outcome :=
  match k with
  | O => NoFuel
  | S k' =>
      run c at s := ev condition s in
      if truthy c then
        if iterations >? maxIterations then Throw infinite_loop s
        else
          match evaluateBlock body s with
          | Normal v s => while_loop condition body k' (iterations + 1) v s
          | Throw VBreak s => Normal result s
          | Throw VContinue s =>
              while_loop condition body k' (iterations + 1) result s
          | other => other
          end
      else Normal result s
  end.

Definition evaluateWhileStatement (condition : node) (body : list node)
    (k : nat) (s : state) : outcome :=
  while_loop condition body k 0 VNull s.

(** The loop of [evaluateForStatement]: [i] is the loop counter of the
    host, [end_] and [step] the evaluated bounds. *)
Fixpoint for_loop (iterator : string) (end_ step : value) (body : list node)
    (k : nat) (i : value) (result : value) (s : state) : outcome :=
  match k with
  | O => NoFuel
  | S k' =>
      run c at s := of_op (binary "<=" i end_) s in
      if truthy c then
        scope_set iterator i s (λ s,
          let next (result : value) (s : state) : outcome :=
            run i at s := of_op (js_add i step) s in
            for_loop iterator end_ step body k' i result s in
          match evaluateBlock body s with
          | Normal v s => next v s
          | Throw VBreak s => Normal result s
          | Throw VContinue s => next result s
          | other => other
          end)
      else Normal result s
  end.

Definition evaluateForStatement (iterator : string) (start end_ step : node)
    (body : list node) (k : nat) (s : state) : outcome :=
  run start at s := ev start s in
  run end_ at s := ev end_ s in
  run step at s := ev step s in
  let previousScope := currentScope s in
  let '(c, s) := create (Some (currentScope s)) s in
  let s := with_scope s c in
  run result at s := for_loop iterator end_ step body k start VNull s in
  Normal result (with_scope s previousScope).

Definition evaluateReturnStatement (value : option node) (s : state)
  : outcome :=
  run v at s :=
    match value with
    | Some e => ev e s
    | None => Normal VNull s
    end in
  Throw (VReturn v) s.

(** The compound operators of [evaluateAssignment]. *)
Definition compound (operator : string) (current value : value)
  : option (op_result num) :=
  if String.eqb operator "+=" then Some (binary "+" current value)
  else if String.eqb operator "-=" then Some (binary "-" current value)
  else if String.eqb operator "*=" then Some (binary "*" current value)
  else if String.eqb operator "/=" then Some (binary "/" current value)
  else None.

Definition evaluateAssignment (target : node) (operator : string)
    (value : node) (s : state) : outcome :=
  run value at s := ev value s in
  match target with
  | Identifier name =>
      let finish (s : state) : outcome := Normal (scope_get name s) s in
      if String.eqb operator "=" then scope_set name value s finish
      else
        let current :=
          if truthy (scope_get name s) then scope_get name s
          else VNum (num_of_Z 0) in
        match compound operator current value with
        | Some r =>
            run updated at s := of_op r s in scope_set name updated s finish
        | None => finish s
        end
  | IndexExpression object index =>
      run object at s := ev object s in
      run index at s := ev index s in
      with_key index (λ key, property_write object key value s)
  | MemberExpression object property =>
      run object at s := ev object s in
      property_write object property value s
  | _ => Throw (VError "Invalid assignment target") s
  end.

Definition evaluateBinaryExpression (left : node) (operator : string)
    (right_ : node) (s : state) : outcome :=
  run l at s := ev left s in
  run r at s := ev right_ s in
  of_op (binary operator l r) s.

Definition evaluateUnaryExpression (operator : string) (operand : node)
    (s : state) : outcome :=
  run operand at s := ev operand s in
  of_op (unary operator operand) s.

(** [this.currentScope[callee.parameters[i]] = args[i]] for each
    parameter. *)
Fixpoint bind_parameters (parameters : list string) (args : list value)
    (s : state) (k : state → outcome) : outcome :=
  match parameters with
  | [] => k s
  | x :: rest =>
      scope_set x (default VUndefined (head args)) s
        (λ s, bind_parameters rest (tail args) s k)
  end.

Definition not_a_function : value := VError "Not a function".

(** The branch [callee.type === 'function'] of
    [evaluateCallExpression]. *)
Definition call_function (callee : ref) (args : list value) (s : state)
  : outcome :=
  let h := store s in
  let previousScope := currentScope s in
  let enter (parent : option ref) : outcome :=
    let '(c, s) := create parent s in
    let s := with_scope s c in
    match get_property h callee "parameters", get_property h callee "body" with
    | VNames parameters, VNodes body =>
        bind_parameters parameters args s (λ s,
          match evaluateBlock body s with
          | Normal _ s => Normal VNull (with_scope s previousScope)
          | Throw (VReturn v) s => Normal v (with_scope s previousScope)
          | Throw e s => Throw e (with_scope s previousScope)
          | other => other
          end)
    | _, _ => Unsupported "function record built by the program"
    end in
  match get_property h callee "scope" with
  | VObject parent => enter (Some parent)
  | VNull => enter None
  | VUndefined | VBool _ | VNum _ | VStr _ =>
      Throw (VTypeError "Object prototype may only be an Object or null") s
  | _ => Unsupported "host object as prototype"
  end.

Definition of_host (r : host_outcome) (s : state) : outcome :=
  match r with
  | HostReturn v h => Normal v (with_store s h)
  | HostThrow e h => Throw e (with_store s h)
  | HostUnsupported what => Unsupported what
  end.

Definition evaluateCallExpression (callee : node) (arguments : list node)
    (s : state) : outcome :=
  run callee at s := ev callee s in
  evaluateAll arguments s (λ args s,
    match callee with
    | VHost name true => of_host (host_call name args (store s)) s
    | VUndefined | VNull => Throw null_access s
    | VObject r =>
        match get_property (store s) r "type" with
        | VStr t =>
            if String.eqb t "function" then call_function r args s
            else Throw not_a_function s
        | _ => Throw not_a_function s
        end
    | _ => Throw not_a_function s
    end).

Definition evaluateIndexExpression (object index : node) (s : state)
  : outcome :=
  run object at s := ev object s in
  run index at s := ev index s in
  with_key index (λ key, property_read object key s).

Definition evaluateMemberExpression (object : node) (property : string)
    (s : state) : outcome :=
  run object at s := ev object s in
  property_read object property s.

Definition evaluateArrayLiteral (elements : list node) (s : state)
  : outcome :=
  evaluateAll elements s (λ vs s,
    let '(r, h) := alloc (array_object vs) (store s) in
    Normal (VObject r) (with_store s h)).

Fixpoint object_properties (obj : ref) (properties : list (string * node))
    (s : state) : outcome :=
  match properties with
  | [] => Normal (VObject obj) s
  | (key, value) :: rest =>
      run v at s := ev value s in
      match set_property (store s) obj key v with
      | SetOk h => object_properties obj rest (with_store s h)
      | SetThrow e => Throw e s
      | SetUnsupported what => Unsupported what
      end
  end.

Definition evaluateObjectLiteral (properties : list (string * node))
    (s : state) : outcome :=
  let '(obj, h) := alloc (plain ∅) (store s) in
  object_properties obj properties (with_store s h).

(** The [switch] of [evaluateNode]; [k] is the fuel left for loops. *)
Definition evaluateNode_body (k : nat) (n : node) (s : state) : outcome :=
  match n with
  | Program statements => evaluateProgram statements s
  | VariableDeclaration _ name initializer =>
      evaluateVariableDeclaration name initializer s
  | FunctionDeclaration name parameters body =>
      evaluateFunctionDeclaration name parameters body s
  | ClassDeclaration name superclass methods properties =>
      evaluateClassDeclaration name superclass methods properties s
  | ImportStatement specifiers source =>
      evaluateImportStatement specifiers source s
  | TryStatement tryBlock catchClause finallyBlock =>
      evaluateTryStatement tryBlock catchClause finallyBlock s
  | IfStatement condition thenBranch elifBranches elseBranch =>
      evaluateIfStatement condition thenBranch elifBranches elseBranch s
  | WhileStatement condition body => evaluateWhileStatement condition body k s
  | ForStatement iterator start end_ step body =>
      evaluateForStatement iterator start end_ step body k s
  | ReturnStatement value => evaluateReturnStatement value s
  | Break => Throw VBreak s
  | Continue => Throw VContinue s
  | ExpressionStatement expression => ev expression s
  | Assignment target operator value =>
      evaluateAssignment target operator value s
  | BinaryExpression l operator r =>
      evaluateBinaryExpression l operator r s
  | UnaryExpression operator operand =>
      evaluateUnaryExpression operator operand s
  | CallExpression callee arguments =>
      evaluateCallExpression callee arguments s
  | IndexExpression object index => evaluateIndexExpression object index s
  | MemberExpression object property =>
      evaluateMemberExpression object property s
  | Identifier name => evaluateIdentifier name s
  | Literal value => Normal (of_literal value) s
  | ArrayLiteral elements => evaluateArrayLiteral elements s
  | ObjectLiteral properties => evaluateObjectLiteral properties s
  end.

End Open.

Fixpoint evaluateNode (fuel : nat) (n : node) (s : state) : outcome :=
  match fuel with
  | O => NoFuel
  | S fuel' => evaluateNode_body (evaluateNode fuel') fuel' n s
  end.

(** [evaluate(ast)] *)
Definition evaluate (fuel : nat) (ast : node) (s : state) : outcome :=
  evaluateNode fuel ast s.

End WithHost.

Arguments state : clear implicits.
Arguments outcome : clear implicits.
Arguments host_outcome : clear implicits.

End Evaluator.

(** ** A few functions of the host, enough to run programs *)

Module Host.

Import Values Evaluator.

Section WithNumbers.
Context {num : Type} `{JsNumber num}.

(** Called as plain functions, hence with [this] undefined. Console
    output is not observed. *)
Definition call (name : string) (args : list (value num)) (h : heap num)
  : host_outcome num :=
  if String.eqb name "Object.prototype.toString" then
    HostReturn (VStr "[object Undefined]") h
  else if String.eqb name "print" || String.eqb name "println" then
    HostReturn VNull h
  else if String.eqb name "bool" then
    HostReturn (VBool (truthy (default VUndefined (head args)))) h
  else if String.eqb name "str" then
    match to_string (default VUndefined (head args)) with
    | Some t => HostReturn (VStr t) h
    | None => HostUnsupported "String of an object"
    end
  else HostUnsupported name.

End WithNumbers.

End Host.

(** ** The engine ([LumosEngine] in [index.cjs]) *)

Module Engine.

Import Values Evaluator.

Section WithHost.
Context {num : Type} `{JsNumber num}.
Variable host_call : string → list (value num) → heap num → host_outcome num.

(** The engine owns one evaluator, built by its constructor. *)
Record LumosEngine := mkEngine {
  evaluator : state num
}.

(** [new LumosEngine()]. The heap of the model starts with the
    [Object.prototype] of the host as the host provides it; the
    engines of one process share that object, the model gives each
    engine the same first heap. *)
Definition new_engine : LumosEngine := mkEngine new_evaluator.

(** What a call of [execute] does: it returns a value or throws an
    [Error] with a message. *)
Inductive completion :=
| Returned (v : value num)
| Raised (message : string)
| NotModelled (what : string)
| Exhausted.

(** [error.message] *)
Definition message_of (e : value num) : string :=
  match e with
  | VError m | VTypeError m => m
  | VBreak => "Break"
  | VContinue => "Continue"
  | VReturn _ => "Return"
  | _ => "undefined"
  end.

Definition execution_error (m : string) : completion :=
  Raised ("Lumos Execution Error: " +:+ m).

(** [execute(code)] with the default options. *)
Definition execute (fuel : nat) (engine : LumosEngine) (code : string)
  : completion * LumosEngine :=
  match Lexer.tokenize code with
  | Err m => (execution_error m, engine)
  | OutOfFuel => (Exhausted, engine)
  | Ok tokens =>
      match Parser.parse fuel tokens with
      | Err m => (execution_error m, engine)
      | OutOfFuel => (Exhausted, engine)
      | Ok ast =>
          match evaluate host_call fuel ast (evaluator engine) with
          | Normal v s => (Returned v, mkEngine s)
          | Throw e s => (execution_error (message_of e), mkEngine s)
          | Unsupported what => (NotModelled what, engine)
          | NoFuel => (Exhausted, engine)
          end
      end
  end.


End WithHost.

Arguments LumosEngine : clear implicits.
Arguments completion : clear implicits.

End Engine.

(** ** The Python backend ([PythonBackend]) *)

Module PythonBackend.

Import Ast.

(** The backend while it generates: [indentStr] is a constant. *)
Record backend := mkBackend {
  indent : nat;
  output : list string
}.

Definition indentStr : string := "    ".

(** [s.repeat(n)] *)
Fixpoint repeat_string (s : string) (n : nat) : string :=
  match n with
  | O => ""
  | S n' => s +:+ repeat_string s n'
  end.

(** [list.join(separator)] on strings. *)
Fixpoint join (separator : string) (l : list string) : string :=
  match l with
  | [] => ""
  | [x] => x
  | x :: rest => x +:+ separator +:+ join separator rest
  end.

Definition write (line : string) (g : backend) : backend :=
  mkBackend (indent g) (output g ++ [repeat_string indentStr (indent g) +:+ line]).

(** [this.indent++] and [this.indent--] *)
Definition indent_more (g : backend) : backend :=
  mkBackend (S (indent g)) (output g).

Definition indent_less (g : backend) : backend :=
  mkBackend (Nat.pred (indent g)) (output g).

(** What [generateNode] returns is a string or [undefined]: in a
    template the latter reads [undefined], in [join] it is empty. *)
Definition shown (r : option string) : string := default "undefined" r.

Definition joined (separator : string) (l : list (option string)) : string :=
  join separator (default "" <$> l).

(** A call of a method of the backend: the value returned and the
    backend afterwards; [NotModelled] where the model does not follow
    the host. *)
Inductive generated (A : Type) :=
| Generated (value : A) (g : backend)
| NotModelled (what : string).

Arguments Generated {A} value g.
Arguments NotModelled {A} what.

Definition gbind {A B} (m : generated A) (k : A → backend → generated B)
  : generated B :=
  match m with
  | Generated r g => k r g
  | NotModelled what => NotModelled what
  end.

Notation "'gen' r 'at' g ':=' m 'in' k" := (gbind m (λ r g, k))
  (at level 10, r name, g name, m at level 100, k at level 200).

Section WithNumbers.
Context {num : Type} `{JsNumber num}.

Abbreviation node := (Ast.node num).

(** [value.replace] of every double quote by a backslash and the
    quote. *)
Fixpoint escape_quotes (s : string) : string :=
  match s with
  | EmptyString => ""
  | String c rest =>
      if Ascii.eqb c "034" then String "\" (String "034" (escape_quotes rest))
      else String c (escape_quotes rest)
  end.

Definition quoted (s : string) : string :=
  String "034" (s +:+ String "034" "").

Definition generateLiteral (value : literal num) : string :=
  match value with
  | LNull => "None"
  | LBool true => "True"
  | LBool false => "False"
  | LStr s => quoted (escape_quotes s)
  | LNum n => num_to_string n
  end.

(** [source.replace] of every slash by a dot. *)
Fixpoint dotted (s : string) : string :=
  match s with
  | EmptyString => ""
  | String c rest =>
      String (if Ascii.eqb c "/" then "."%char else c) (dotted rest)
  end.

(** [operatorMap[operator] || operator]: the table is an object of the
    host, which also answers to the names of [Object.prototype]; the
    model leaves these out. *)
Definition mapped (table : list (string * string)) (operator : string)
  : option string :=
  match list_to_map (M:=gmap string string) table !! operator with
  | Some o => Some o
  | None =>
      if bool_decide (operator ∈ "__proto__" :: Values.object_prototype_names)
      then None else Some operator
  end.

Definition binary_operator_map : list (string * string) :=
  [("==", "=="); ("!=", "!="); ("<", "<"); ("<=", "<="); (">", ">");
   (">=", ">="); ("and", "and"); ("&&", "and"); ("or", "or"); ("||", "or")].

Definition unary_operator_map : list (string * string) :=
  [("not", "not"); ("!", "not")].

(** [for (const x of list) { f(x) }] *)
Definition each {A B} (f : A → backend → generated B)
  : list A → backend → generated unit :=
  fix go (l : list A) (g : backend) : generated unit :=
    match l with
    | [] => Generated tt g
    | x :: rest => gen _r at g := f x g in go rest g
    end.

(** [list.map(x => f(x))] *)
Definition collect {A B} (f : A → backend → generated B)
  : list A → backend → generated (list B) :=
  fix go (l : list A) (g : backend) : generated (list B) :=
    match l with
    | [] => Generated [] g
    | x :: rest =>
        gen r at g := f x g in
        gen rs at g := go rest g in
        Generated (r :: rs) g
    end.

(** An indented block: the statements, and [pass] when there is none
    (the function declaration tests the length first and then runs the
    loop, with the same lines). *)
Definition block {A} (statements : list A)
    (run : list A → backend → generated unit) (g : backend)
  : generated unit :=
  let g := indent_more g in
  gen _r at g := run statements g in
  let g := match statements with [] => write "pass" g | _ => g end in
  Generated tt (indent_less g).

Definition import_line (modulePath : string) (spec : string * string)
  : string :=
  if String.eqb spec.1 "*" then "from " +:+ modulePath +:+ " import *"
  else if String.eqb spec.1 spec.2
  then "from " +:+ modulePath +:+ " import " +:+ spec.1
  else "from " +:+ modulePath +:+ " import " +:+ spec.1
       +:+ " as " +:+ spec.2.

(** [generateNode]. The members of a class are the declarations the
    parser puts there; on other nodes the host reads fields that are
    not there. *)
Fixpoint generateNode (n : node) (g : backend) : generated (option string) :=
  let statements (l : list node) (g : backend) : generated unit :=
    each generateNode l g in
  let value_of (initializer : option node) (g : backend)
    : generated (option string) :=
    match initializer with
    | Some e => generateNode e g
    | None => Generated (Some "None") g
    end in
  match n with
  | Program body =>
      let g := write "#!/usr/bin/env python3" g in
      let g := write "" g in
      gen _r at g := statements body g in
      Generated None g
  | VariableDeclaration _ name initializer =>
      gen value at g := value_of initializer g in
      Generated None (write (name +:+ " = " +:+ shown value) g)
  | FunctionDeclaration name parameters body =>
      let g := write ("def " +:+ name +:+ "(" +:+ join ", " parameters
                      +:+ "):") g in
      gen _r at g := block body statements g in
      Generated None (write "" g)
  | ClassDeclaration name superclass methods properties =>
      let extends :=
        match superclass with
        | Some c => if String.eqb c "" then "" else "(" +:+ c +:+ ")"
        | None => ""
        end in
      let g := write ("class " +:+ name +:+ extends +:+ ":") g in
      let g := indent_more g in
      gen _r at g :=
        match properties, methods with
        | [], [] => Generated tt (write "pass" g)
        | _, _ =>
            let g := write "def __init__(self):" g in
            gen _r at g :=
              block properties
                (each (λ prop g,
                   match prop with
                   | VariableDeclaration _ name initializer =>
                       gen value at g := value_of initializer g in
                       Generated tt
                         (write ("self." +:+ name +:+ " = " +:+ shown value) g)
                   | _ => NotModelled "class property"
                   end)) g in
            let g := write "" g in
            each (λ method g,
              match method with
              | FunctionDeclaration name parameters body =>
                  let g := write ("def " +:+ name +:+ "("
                                  +:+ join ", " ("self" :: parameters)
                                  +:+ "):") g in
                  gen _r at g := block body statements g in
                  Generated tt (write "" g)
              | _ => NotModelled "class method"
              end) methods g
        end in
      Generated None (indent_less g)
  | ImportStatement specifiers source =>
      Generated None
        (fold_left (λ g spec, write (import_line (dotted source) spec) g)
           specifiers g)
  | TryStatement tryBlock catchClause finallyBlock =>
      let g := write "try:" g in
      gen _r at g := block tryBlock statements g in
      gen _r at g :=
        match catchClause with
        | Some (parameter, body) =>
            let param :=
              match parameter with
              | Some p => if String.eqb p "" then "e" else p
              | None => "e"
              end in
            let g := write ("except Exception as " +:+ param +:+ ":") g in
            block body statements g
        | None => Generated tt g
        end in
      gen _r at g :=
        match finallyBlock with
        | Some body => block body statements (write "finally:" g)
        | None => Generated tt g
        end in
      Generated None g
  | IfStatement condition thenBranch elifBranches elseBranch =>
      gen c at g := generateNode condition g in
      let g := write ("if " +:+ shown c +:+ ":") g in
      gen _r at g := block thenBranch statements g in
      gen _r at g :=
        each (λ (elif : node * list node) g,
                gen c at g := generateNode elif.1 g in
                let g := write ("elif " +:+ shown c +:+ ":") g in
                block elif.2 (each generateNode) g)
          elifBranches g in
      gen _r at g :=
        match elseBranch with
        | Some body => block body statements (write "else:" g)
        | None => Generated tt g
        end in
      Generated None g
  | WhileStatement condition body =>
      gen c at g := generateNode condition g in
      let g := write ("while " +:+ shown c +:+ ":") g in
      gen _r at g := block body statements g in
      Generated None g
  | ForStatement iterator start end_ step body =>
      gen a at g := generateNode start g in
      gen b at g := generateNode end_ g in
      gen s at g := generateNode step g in
      let range :=
        "for " +:+ iterator +:+ " in range(" +:+ shown a +:+ ", "
        +:+ shown b +:+ " + 1" in
      let g :=
        if bool_decide (s = Some "1") then write (range +:+ "):") g
        else write (range +:+ ", " +:+ shown s +:+ "):") g in
      gen _r at g := block body statements g in
      Generated None g
  | ReturnStatement value =>
      match value with
      | Some e =>
          gen v at g := generateNode e g in
          Generated None (write ("return " +:+ shown v) g)
      | None => Generated None (write "return" g)
      end
  | Break => Generated None (write "break" g)
  | Continue => Generated None (write "continue" g)
  | ExpressionStatement expression => generateNode expression g
  | Assignment target operator value =>
      gen t at g := generateNode target g in
      gen v at g := generateNode value g in
      if String.eqb operator "="
      then Generated None (write (shown t +:+ " = " +:+ shown v) g)
      else Generated None
             (write (shown t +:+ " " +:+ operator +:+ " " +:+ shown v) g)
  | BinaryExpression lhs operator rhs =>
      gen l at g := generateNode lhs g in
      gen r at g := generateNode rhs g in
      match mapped binary_operator_map operator with
      | Some o =>
          Generated (Some ("(" +:+ shown l +:+ " " +:+ o +:+ " "
                           +:+ shown r +:+ ")")) g
      | None => NotModelled "operator of Object.prototype"
      end
  | UnaryExpression operator operand =>
      gen v at g := generateNode operand g in
      match mapped unary_operator_map operator with
      | Some o => Generated (Some (o +:+ " " +:+ shown v)) g
      | None => NotModelled "operator of Object.prototype"
      end
  | CallExpression callee arguments =>
      gen c at g := generateNode callee g in
      gen args at g := collect generateNode arguments g in
      Generated (Some (shown c +:+ "(" +:+ joined ", " args +:+ ")")) g
  | IndexExpression object index =>
      gen o at g := generateNode object g in
      gen i at g := generateNode index g in
      Generated (Some (shown o +:+ "[" +:+ shown i +:+ "]")) g
  | MemberExpression object property =>
      gen o at g := generateNode object g in
      Generated (Some (shown o +:+ "." +:+ property)) g
  | Identifier name => Generated (Some name) g
  | Literal value => Generated (Some (generateLiteral value)) g
  | ArrayLiteral elements =>
      gen values at g := collect generateNode elements g in
      Generated (Some ("[" +:+ joined ", " values +:+ "]")) g
  | ObjectLiteral properties =>
      gen props at g :=
        collect (λ (prop : string * node) g,
                   gen v at g := generateNode prop.2 g in
                   Generated (quoted prop.1 +:+ ": " +:+ shown v) g)
          properties g in
      Generated (Some ("{" +:+ join ", " props +:+ "}")) g
  end.

(** [generate(ast)] *)
Definition generate (ast : node) : generated string :=
  gen _r at g := generateNode ast (mkBackend 0 []) in
  Generated (join (String "010" "") (output g)) g.

End WithNumbers.

End PythonBackend.


(** * Properties *)

(** ** The optimizer *)

Module OptimizerProps.

Import Optimizer.

Section WithNumbers.
Context {num : Type} `{JsNumber num}.

Abbreviation instruction := (Optimizer.instruction num).

(** Both operands of an instruction are number literals. *)
Definition literal_operands (inst : instruction) : Prop :=
  ∃ a b, arg1 inst = ONum a ∧ arg2 inst = ONum b.

Lemma fold_instruction_arith (inst : instruction) a b :
  is_arith (op inst) = true → arg1 inst = ONum a → arg2 inst = ONum b →
  fold_instruction inst
  = Inst "assign" (ONum (arith (op inst) a b)) ONull (result inst).
Proof.
  intros Ho Ha Hb. unfold fold_instruction. by rewrite Ho, Ha, Hb.
Qed.

Lemma fold_instruction_other (inst : instruction) :
  is_arith (op inst) = false → fold_instruction inst = inst.
Proof. intros Ho. unfold fold_instruction. by rewrite Ho. Qed.

Lemma is_arith_assign : is_arith "assign" = false.
Proof. reflexivity. Qed.

(** C6, as amended. When every arithmetic instruction has two
    number-literal operands, constant folding keeps the length of the
    list, replaces each arithmetic instruction in place by an [assign]
    of the computed literal to the same result, leaves every other
    instruction as it is, and so leaves no arithmetic instruction; the
    output holds only [assign] instructions when the input held only
    arithmetic and [assign] instructions. *)
Theorem constantFolding_literal_arith (l : list instruction) :
  Forall (λ inst, is_arith (op inst) = true → literal_operands inst) l →
  length (constantFolding l) = length l
  ∧ (∀ k inst, l !! k = Some inst →
       (is_arith (op inst) = true →
        ∃ a b, arg1 inst = ONum a ∧ arg2 inst = ONum b
               ∧ constantFolding l !! k
                 = Some (Inst "assign" (ONum (arith (op inst) a b)) ONull
                           (result inst)))
       ∧ (is_arith (op inst) = false → constantFolding l !! k = Some inst))
  ∧ Forall (λ inst, is_arith (op inst) = false) (constantFolding l)
  ∧ (Forall (λ inst, is_arith (op inst) = true ∨ op inst = "assign") l →
     Forall (λ inst, op inst = "assign") (constantFolding l)).
Proof.
  intros Hl. unfold constantFolding. split; [apply length_map |].
  split; [| split].
  - intros k inst Hk. rewrite list_lookup_fmap, Hk. simpl.
    rewrite Forall_lookup in Hl. split.
    + intros Ho. destruct (Hl k inst Hk Ho) as (a & b & Ha & Hb).
      exists a, b. by rewrite (fold_instruction_arith inst a b).
    + intros Ho. by rewrite fold_instruction_other.
  - rewrite Forall_fmap. rewrite Forall_forall in Hl. apply Forall_forall.
    intros inst Hin. pose proof (Hl inst Hin) as Hi. simpl. destruct (is_arith (op inst)) eqn:Ho.
    + destruct (Hi eq_refl) as (a & b & Ha & Hb).
      by rewrite (fold_instruction_arith inst a b).
    + by rewrite fold_instruction_other.
  - intros Hops. rewrite Forall_fmap.
    rewrite Forall_forall in Hl, Hops. apply Forall_forall.
    intros inst Hin. simpl. destruct (is_arith (op inst)) eqn:Ho.
    + destruct (Hl inst Hin Ho) as (a & b & Ha & Hb).
      by rewrite (fold_instruction_arith inst a b).
    + rewrite fold_instruction_other by done.
      destruct (Hops inst Hin) as [Ht | Ht]; congruence.
Qed.

(** *** Dead-code elimination keeps everything *)

Lemma add_name_mono (o : option string) (S : gset string) x :
  x ∈ S → x ∈ add_name o S.
Proof. destruct o; simpl; set_solver. Qed.

Lemma add_name_here (s : string) (S : gset string) : s ∈ add_name (Some s) S.
Proof. simpl. set_solver. Qed.

Definition label_step (labels : gset string) (inst : instruction)
  : gset string :=
  if is_jump_or_label (op inst) then
    add_name (truthy_string (arg1 inst))
      (add_name (truthy_name (result inst)) labels)
  else labels.

Lemma label_step_mono labels inst x : x ∈ labels → x ∈ label_step labels inst.
Proof.
  intros Hx. unfold label_step.
  destruct (is_jump_or_label (op inst)); [| done].
  by do 2 apply add_name_mono.
Qed.

Lemma fold_labels_mono (l : list instruction) labels x :
  x ∈ labels → x ∈ fold_left label_step l labels.
Proof.
  revert labels. induction l as [| inst l IH]; intros labels Hx; simpl; [done |].
  apply IH. by apply label_step_mono.
Qed.

Lemma collect_labels_own (l : list instruction) inst s :
  inst ∈ l → is_jump_or_label (op inst) = true →
  truthy_string (arg1 inst) = Some s → s ∈ collect_labels l.
Proof.
  unfold collect_labels. change (fold_left _ l ∅) with (fold_left label_step l ∅).
  generalize (∅ : gset string).
  induction l as [| i l IH]; intros labels Hin Hop Hs.
  - by apply elem_of_nil in Hin.
  - apply elem_of_cons in Hin as [-> | Hin]; simpl.
    + apply fold_labels_mono. unfold label_step. rewrite Hop, Hs.
      apply add_name_here.
    + by apply IH.
Qed.

Lemma collect_used_own (l : list instruction) inst r :
  inst ∈ l → truthy_name (result inst) = Some r → r ∈ collect_used l.
Proof.
  induction l as [| i l IH]; intros Hin Hr.
  - by apply elem_of_nil in Hin.
  - apply elem_of_cons in Hin as [-> | Hin]; simpl.
    + do 2 apply add_name_mono. rewrite Hr. apply add_name_here.
    + do 3 apply add_name_mono. by apply IH.
Qed.

Lemma filter_all {A} (f : A → bool) (l : list A) :
  Forall (λ x, f x = true) l → List.filter f l = l.
Proof.
  induction 1 as [| x l Hx _ IH]; simpl; [done |]. by rewrite Hx, IH.
Qed.

(** An instruction list in which each [label] carries a non-empty name,
    as the generator emits them. *)
Definition named_labels (l : list instruction) : Prop :=
  Forall (λ inst, op inst = "label" → ∃ s, truthy_string (arg1 inst) = Some s) l.

(** The pass returns its input: each result name is put in [used] by
    the instruction that produces it, and each label name in [labels]
    by the label itself. *)
Lemma deadCodeElimination_identity (l : list instruction) :
  named_labels l → deadCodeElimination l = l.
Proof.
  intros Hl. unfold deadCodeElimination. apply filter_all.
  apply Forall_forall. intros inst Hin. unfold keep.
  destruct (String.eqb (op inst) "label") eqn:Hop.
  - apply String.eqb_eq in Hop.
    unfold named_labels in Hl. rewrite Forall_forall in Hl.
    destruct (Hl inst Hin Hop) as [s Hs].
    assert (Hmem : s ∈ collect_labels l).
    { apply (collect_labels_own l inst s Hin); [| done].
      unfold is_jump_or_label. by rewrite Hop. }
    unfold truthy_string in Hs. destruct (arg1 inst) as [| | |t]; try done.
    simpl in Hs. destruct (String.eqb t ""); [done |].
    injection Hs as ->. simpl. by apply bool_decide_eq_true.
  - destruct (truthy_name (result inst)) as [r |] eqn:Hr; [| done].
    apply bool_decide_eq_true. by apply (collect_used_own l inst r).
Qed.

(** *** Common subexpressions *)

Lemma cse_from_app (expressions : gmap string (option string))
    (l1 l2 : list instruction) :
  Forall (λ inst, is_arith (op inst) = false) l1 →
  cse_from expressions (l1 ++ l2) = l1 ++ cse_from expressions l2.
Proof.
  induction 1 as [| inst l1 Hi _ IH]; simpl; [done |].
  unfold cse_step. rewrite Hi. by rewrite IH.
Qed.

(** C2, as amended. An arithmetic instruction that repeats an earlier
    one, whatever the non-arithmetic instructions between them assign,
    is replaced by an [assign] of the earlier result. *)
Theorem cse_ignores_intervening_assignment (o : string)
    (a b : operand num) (r1 r2 : option string) (between : list instruction) :
  is_arith o = true →
  Forall (λ inst, is_arith (op inst) = false) between →
  commonSubexpressionElimination
    ([Inst o a b r1] ++ between ++ [Inst o a b r2])
  = [Inst o a b r1] ++ between ++ [Inst "assign" (name_operand r1) ONull r2].
Proof.
  intros Ho Hbetween. unfold commonSubexpressionElimination. simpl.
  unfold cse_step at 1. simpl. rewrite Ho. rewrite lookup_empty.
  f_equal. rewrite cse_from_app by done. f_equal. simpl.
  unfold cse_step. simpl. rewrite Ho.
  unfold expression_key at 1. simpl.
  by rewrite lookup_insert_eq.
Qed.

(** *** What the passes keep *)

(** Whether dead-code elimination lets an instruction through: anything
    but a [label] whose name is not a non-empty string. *)
Definition survives (inst : instruction) : bool :=
  negb (String.eqb (op inst) "label")
  || bool_decide (is_Some (truthy_string (arg1 inst))).

Lemma add_name_nonempty (o : option string) (S : gset string) :
  o ≠ Some "" → "" ∉ S → "" ∉ add_name o S.
Proof.
  destruct o as [s |]; simpl; [| done]. intros Hs HS Hin.
  apply elem_of_union in Hin as [Hin | Hin]; [| done].
  apply elem_of_singleton in Hin. by subst s.
Qed.

Lemma truthy_name_nonempty (r : option string) : truthy_name r ≠ Some "".
Proof.
  destruct r as [s |]; simpl; [| done].
  destruct (String.eqb s "") eqn:Hs; [done |].
  intros [= ->]. discriminate Hs.
Qed.

Lemma truthy_string_nonempty (a : operand num) : truthy_string a ≠ Some "".
Proof.
  destruct a as [| | | s]; simpl; try done. apply (truthy_name_nonempty (Some s)).
Qed.

Lemma collect_labels_nonempty (l : list instruction) : "" ∉ collect_labels l.
Proof.
  unfold collect_labels.
  change (fold_left _ l ∅) with (fold_left label_step l ∅).
  assert (Hgen : ∀ labels : gset string,
            "" ∉ labels → "" ∉ fold_left label_step l labels).
  { induction l as [| inst l IH]; intros labels Hl; simpl; [done |].
    apply IH. unfold label_step.
    destruct (is_jump_or_label (op inst)); [| done].
    apply add_name_nonempty; [apply truthy_string_nonempty |].
    apply add_name_nonempty; [apply truthy_name_nonempty | done]. }
  apply Hgen. apply not_elem_of_empty.
Qed.

Lemma keep_survives (l : list instruction) inst :
  inst ∈ l → keep (collect_labels l) (collect_used l) inst = survives inst.
Proof.
  intros Hin. unfold keep, survives.
  destruct (String.eqb (op inst) "label") eqn:Hop; simpl.
  - destruct (truthy_string (arg1 inst)) as [s |] eqn:Hs.
    + assert (Hmem : s ∈ collect_labels l).
      { apply (collect_labels_own l inst s Hin); [| done].
        unfold is_jump_or_label. by rewrite Hop. }
      destruct (arg1 inst) as [| | | t]; try done. simpl in *.
      destruct (String.eqb t ""); [done |]. injection Hs as ->.
      by rewrite bool_decide_eq_true_2.
    + rewrite (bool_decide_eq_false_2 (is_Some None)) by (by intros [? ?]).
      destruct (arg1 inst) as [| | | t]; try done. simpl in *.
      destruct (String.eqb t "") eqn:Ht; [| done].
      apply String.eqb_eq in Ht as ->.
      apply bool_decide_eq_false. apply collect_labels_nonempty.
  - destruct (truthy_name (result inst)) as [r |] eqn:Hr; [| done].
    apply bool_decide_eq_true. by apply (collect_used_own l inst r).
Qed.

Lemma deadCodeElimination_filter (l : list instruction) :
  deadCodeElimination l = List.filter survives l.
Proof.
  unfold deadCodeElimination. apply List.filter_ext_in.
  intros inst Hin. apply keep_survives. by apply list_elem_of_In.
Qed.

(** X1. Dead-code elimination removes nothing but the [label]
    instructions whose name is not a non-empty string: every other
    instruction stays, in its place, whether or not its result is read
    and whether or not the label is the target of a jump. *)
Theorem deadCodeElimination_removes_unnamed_labels_only
    (l : list instruction) :
  deadCodeElimination l = List.filter survives l.
Proof. apply deadCodeElimination_filter. Qed.

(** The keys of the arithmetic instructions of a list, in order. *)
Definition arith_keys (l : list instruction) : list string :=
  map expression_key (List.filter (λ inst, is_arith (op inst)) l).

Lemma cse_from_keys (l : list instruction) :
  ∀ expressions : gmap string (option string),
    NoDup (arith_keys (cse_from expressions l))
    ∧ ∀ k, k ∈ arith_keys (cse_from expressions l) → expressions !! k = None.
Proof.
  induction l as [| inst l IH]; intros expressions; simpl.
  - split; [constructor | intros k Hk; by apply elem_of_nil in Hk].
  - unfold cse_step. destruct (is_arith (op inst)) eqn:Ho.
    + destruct (expressions !! expression_key inst) as [earlier |] eqn:Hk.
      * unfold arith_keys. simpl. apply IH.
      * destruct (IH (<[expression_key inst := result inst]> expressions))
          as [Hnd Hfresh].
        unfold arith_keys in *. simpl. rewrite Ho. simpl. split.
        -- constructor; [| done]. intros Hin. apply Hfresh in Hin.
           by rewrite lookup_insert_eq in Hin.
        -- intros k Hin. apply elem_of_cons in Hin as [-> | Hin]; [done |].
           apply Hfresh in Hin.
           destruct (decide (k = expression_key inst)) as [-> | Hne].
           ++ by rewrite lookup_insert_eq in Hin.
           ++ by rewrite lookup_insert_ne in Hin.
    + unfold arith_keys in *. simpl. rewrite Ho. apply IH.
Qed.

Lemma cse_from_length (l : list instruction) :
  ∀ expressions : gmap string (option string),
    length (cse_from expressions l) = length l
    ∧ map result (cse_from expressions l) = map result l.
Proof.
  induction l as [| inst l IH]; intros expressions; simpl; [done |].
  unfold cse_step.
  destruct (is_arith (op inst));
    [destruct (expressions !! expression_key inst) |]; simpl;
    match goal with
    | |- context [cse_from ?E l] => destruct (IH E) as [-> ->]
    end; done.
Qed.

(** X2. After common-subexpression elimination no two arithmetic
    instructions have the same operator and operand texts; the pass
    keeps the number of instructions and the result name of each. *)
Theorem cse_leaves_distinct_expressions (l : list instruction) :
  NoDup (arith_keys (commonSubexpressionElimination l))
  ∧ length (commonSubexpressionElimination l) = length l
  ∧ map result (commonSubexpressionElimination l) = map result l.
Proof.
  unfold commonSubexpressionElimination. split.
  - apply (cse_from_keys l ∅).
  - apply cse_from_length.
Qed.

Lemma cse_from_distinct (l : list instruction) :
  ∀ expressions : gmap string (option string),
    NoDup (arith_keys l) →
    (∀ k, k ∈ arith_keys l → expressions !! k = None) →
    cse_from expressions l = l.
Proof.
  induction l as [| inst l IH]; intros expressions Hnd Hfresh; simpl; [done |].
  unfold cse_step. unfold arith_keys in *. simpl in *.
  destruct (is_arith (op inst)) eqn:Ho; simpl in *.
  - rewrite (Hfresh (expression_key inst)) by apply list_elem_of_here.
    apply NoDup_cons in Hnd as [Hnot Hnd].
    f_equal. apply IH; [done |]. intros k Hin.
    destruct (decide (expression_key inst = k)) as [<- | Hne]; [done |].
    rewrite lookup_insert_ne by done.
    apply Hfresh. by apply list_elem_of_further.
  - f_equal. by apply IH.
Qed.

Lemma fold_instruction_idempotent (inst : instruction) :
  fold_instruction (fold_instruction inst) = fold_instruction inst.
Proof.
  destruct (is_arith (op inst)) eqn:Ho;
    [| by rewrite !(fold_instruction_other inst Ho)].
  assert (Hcases : (∃ a b, arg1 inst = ONum a ∧ arg2 inst = ONum b)
                   ∨ fold_instruction inst = inst).
  { unfold fold_instruction. rewrite Ho.
    destruct (arg1 inst) as [| | a |]; try by right.
    destruct (arg2 inst) as [| | b |]; try by right.
    left. by exists a, b. }
  destruct Hcases as [(a & b & Ha & Hb) | Hsame]; [| by rewrite !Hsame].
  rewrite (fold_instruction_arith inst a b Ho Ha Hb).
  by apply fold_instruction_other.
Qed.

Lemma cse_from_folded (l : list instruction) :
  ∀ expressions : gmap string (option string),
    Forall (λ inst, fold_instruction inst = inst) l →
    Forall (λ inst, fold_instruction inst = inst) (cse_from expressions l).
Proof.
  induction l as [| inst l IH]; intros expressions Hl; simpl; [done |].
  apply Forall_cons in Hl as [Hi Hl].
  unfold cse_step. destruct (is_arith (op inst)).
  - destruct (expressions !! expression_key inst); simpl;
      (constructor; [done | by apply IH]).
  - constructor; [done | by apply IH].
Qed.

Lemma cse_from_survives (l : list instruction) :
  ∀ expressions : gmap string (option string),
    Forall (λ inst, survives inst = true) l →
    Forall (λ inst, survives inst = true) (cse_from expressions l).
Proof.
  induction l as [| inst l IH]; intros expressions Hl; simpl; [done |].
  apply Forall_cons in Hl as [Hi Hl].
  unfold cse_step. destruct (is_arith (op inst)).
  - destruct (expressions !! expression_key inst); simpl;
      (constructor; [done | by apply IH]).
  - constructor; [done | by apply IH].
Qed.

Lemma filter_survives (l : list instruction) :
  Forall (λ inst, survives inst = true) (List.filter survives l).
Proof.
  apply Forall_forall. intros inst Hin.
  apply list_elem_of_In, List.filter_In in Hin. tauto.
Qed.

Lemma filter_folded (l : list instruction) :
  Forall (λ inst, fold_instruction inst = inst) l →
  Forall (λ inst, fold_instruction inst = inst) (List.filter survives l).
Proof.
  rewrite !Forall_forall. intros Hl inst Hin. apply Hl.
  apply list_elem_of_In, List.filter_In in Hin.
  apply list_elem_of_In. tauto.
Qed.

Lemma map_fixed {A} (f : A → A) (l : list A) :
  Forall (λ x, f x = x) l → map f l = l.
Proof. induction 1 as [| x l Hx _ IH]; simpl; [done |]. by rewrite Hx, IH. Qed.

(** X3. Each pass of the optimizer, and the three passes together, do
    on a second run nothing more than on the first. *)
Theorem optimize_idempotent (l : list instruction) :
  constantFolding (constantFolding l) = constantFolding l
  ∧ deadCodeElimination (deadCodeElimination l) = deadCodeElimination l
  ∧ commonSubexpressionElimination (commonSubexpressionElimination l)
    = commonSubexpressionElimination l
  ∧ optimize (optimize l) = optimize l.
Proof.
  assert (Hcse : ∀ l' : list instruction,
            commonSubexpressionElimination (commonSubexpressionElimination l')
            = commonSubexpressionElimination l').
  { intros l'. unfold commonSubexpressionElimination at 1.
    destruct (cse_from_keys l' ∅) as [Hnd _].
    apply cse_from_distinct; [exact Hnd |]. intros k _. apply lookup_empty. }
  assert (Hfolded : Forall (λ inst, fold_instruction inst = inst)
                      (constantFolding l)).
  { unfold constantFolding. apply Forall_forall. intros inst Hin.
    apply list_elem_of_fmap in Hin as (i & -> & _).
    apply fold_instruction_idempotent. }
  split; [by apply map_fixed |].
  split.
  { rewrite !deadCodeElimination_filter.
    apply filter_all, filter_survives. }
  split; [apply Hcse |].
  unfold optimize. rewrite !deadCodeElimination_filter.
  set (l1 := List.filter survives (constantFolding l)).
  assert (H1 : constantFolding (commonSubexpressionElimination l1)
               = commonSubexpressionElimination l1).
  { apply map_fixed. apply cse_from_folded. by apply filter_folded. }
  rewrite H1.
  assert (H2 : List.filter survives (commonSubexpressionElimination l1)
               = commonSubexpressionElimination l1).
  { apply filter_all. apply cse_from_survives. apply filter_survives. }
  rewrite H2. apply Hcse.
Qed.

End WithNumbers.

Import ExactNum.

Definition n_ (z : Z) : operand xnum := ONum (num_of_Z z).

Lemma constantFolding_literal_arith_witness :
  let l : list (Optimizer.instruction xnum) :=
    [Inst "+" (n_ 2) (n_ 3) (Some "t0"); Inst "goto" ONull ONull (Some "L0");
     Inst "/" (n_ 1) (n_ 2) (Some "t1")] in
  let l' : list (Optimizer.instruction xnum) :=
    [Inst "*" (n_ 2) (n_ 3) (Some "t0"); Inst "assign" (n_ 1) ONull (Some "y")] in
  Forall (λ inst, is_arith (op inst) = true → literal_operands inst) l
  ∧ length (constantFolding l) = 3%nat
  ∧ constantFolding l !! 0%nat = Some (Inst "assign" (n_ 5) ONull (Some "t0"))
  ∧ constantFolding l !! 1%nat = Some (Inst "goto" ONull ONull (Some "L0"))
  ∧ Forall (λ inst, is_arith (op inst) = false) (constantFolding l)
  ∧ Forall (λ inst, op inst = "assign") (constantFolding l').
Proof.
  intros l l'.
  assert (Hl : Forall (λ inst, is_arith (op inst) = true → literal_operands inst) l).
  { repeat constructor; intros Ho; try discriminate Ho;
      eexists _, _; split; reflexivity. }
  assert (Hl' : Forall (λ inst, is_arith (op inst) = true → literal_operands inst) l').
  { repeat constructor; intros Ho; try discriminate Ho;
      eexists _, _; split; reflexivity. }
  destruct (constantFolding_literal_arith l Hl) as (Hlen & Hat & Hnone & _).
  destruct (constantFolding_literal_arith l' Hl') as (_ & _ & _ & Hassign).
  split; [exact Hl |]. split; [exact Hlen |].
  split; [| split; [| split; [exact Hnone |]]].
  - destruct (proj1 (Hat 0%nat _ eq_refl) eq_refl) as (a & b & Ha & Hb & Hk).
    injection Ha as <-. injection Hb as <-. exact Hk.
  - exact (proj2 (Hat 1%nat _ eq_refl) eq_refl).
  - apply Hassign. repeat constructor; by right.
Defined.

Example constantFolding_run :
  constantFolding
    [Inst "+" (n_ 2) (n_ 3) (Some "t0"); Inst "goto" ONull ONull (Some "L0");
     Inst "/" (n_ 1) (n_ 2) (Some "t1")]
  = [Inst "assign" (n_ 5) ONull (Some "t0");
     Inst "goto" ONull ONull (Some "L0");
     Inst "assign" (ONum (fin (1 # 2))) ONull (Some "t1")].
Proof. reflexivity. Qed.

(** C6, the claim as stated fails: a list whose arithmetic instructions
    (there are none) all have literal operands, and whose folded form
    holds an instruction that is not an [assign]. *)
Lemma constantFolding_keeps_other_instructions :
  let l : list (Optimizer.instruction xnum) :=
    [Inst "goto" ONull ONull (Some "L0")] in
  Forall (λ inst, is_arith (op inst) = true → literal_operands inst) l
  ∧ ¬ Forall (λ inst, op inst = "assign") (constantFolding l).
Proof.
  intros l. split.
  - repeat constructor. intros Ho. discriminate Ho.
  - intros Hall. apply Forall_inv in Hall. discriminate Hall.
Qed.

(** C1, the code at an input where the claim requires two removals:
    [t0] is read by no instruction and no jump targets [L9], yet the
    pass returns the list unchanged. *)
Theorem deadCodeElimination_keeps_unread :
  let l : list (Optimizer.instruction xnum) :=
    [Inst "+" (OStr "a") (OStr "b") (Some "t0");
     Inst "label" (OStr "L9") ONull None] in
  deadCodeElimination l = l.
Proof.
  intros l. apply deadCodeElimination_identity.
  repeat constructor; intros _; by eexists.
Qed.

Lemma cse_ignores_intervening_assignment_witness :
  commonSubexpressionElimination
    [Inst "+" (OStr "x") (OStr "y") (Some "t0");
     Inst "assign" (n_ 5) ONull (Some "x");
     Inst "+" (OStr "x") (OStr "y") (Some "t1")]
  = [Inst "+" (OStr "x") (OStr "y") (Some "t0");
     Inst "assign" (n_ 5) ONull (Some "x");
     Inst "assign" (OStr "t0") ONull (Some "t1")].
Proof.
  apply (cse_ignores_intervening_assignment "+" (OStr "x") (OStr "y")
           (Some "t0") (Some "t1") [Inst "assign" (n_ 5) ONull (Some "x")]).
  - reflexivity.
  - repeat constructor.
Defined.

(** C2, the claim as stated fails: after the pass the third instruction
    of the scenario is the [assign] of [t0] to [t1], not the second
    [x + y]. *)
Lemma cse_scenario_folds_t1 :
  let l : list (Optimizer.instruction xnum) :=
    [Inst "+" (OStr "x") (OStr "y") (Some "t0");
     Inst "assign" (n_ 5) ONull (Some "x");
     Inst "+" (OStr "x") (OStr "y") (Some "t1")] in
  commonSubexpressionElimination l !! 2%nat
  = Some (Inst "assign" (OStr "t0") ONull (Some "t1"))
  ∧ commonSubexpressionElimination l !! 2%nat ≠ l !! 2%nat.
Proof.
  intros l.
  assert (Hcse : commonSubexpressionElimination l !! 2%nat
                 = Some (Inst "assign" (OStr "t0") ONull (Some "t1")))
    by (vm_compute; reflexivity).
  split; [exact Hcse |]. rewrite Hcse. discriminate.
Qed.

End OptimizerProps.

(** ** The IR generator *)

Module IRGeneratorProps.

Import Optimizer CompilerAst IRGenerator OptimizerProps.

Local Open Scope nat_scope.

Section WithNumbers.
Context {num : Type} `{JsNumber num}.

Abbreviation node := (CompilerAst.node num).
Abbreviation instruction := (Optimizer.instruction num).
Abbreviation generator := (IRGenerator.generator num).

(** *** Induction on syntax trees *)

Section Induction.
Variable P : node → Prop.
Hypothesis HProgram : ∀ body, Forall P body → P (Program body).
Hypothesis HVariableDeclaration :
  ∀ kind declarations,
    Forall (λ d : string * option node,
              match d.2 with Some i => P i | None => True end) declarations →
    P (VariableDeclaration kind declarations).
Hypothesis HFunctionDeclaration :
  ∀ name params body, P body → P (FunctionDeclaration name params body).
Hypothesis HBlockStatement : ∀ body, Forall P body → P (BlockStatement body).
Hypothesis HExpressionStatement : ∀ e, P e → P (ExpressionStatement e).
Hypothesis HBinaryExpression :
  ∀ o l r, P l → P r → P (BinaryExpression o l r).
Hypothesis HCallExpression :
  ∀ c args, P c → Forall P args → P (CallExpression c args).
Hypothesis HIdentifier : ∀ name, P (Identifier name).
Hypothesis HLiteral : ∀ v, P (Literal v).
Hypothesis HIfStatement :
  ∀ t c a, P t → P c → match a with Some x => P x | None => True end →
           P (IfStatement t c a).
Hypothesis HForStatement :
  ∀ i t u b, P i → P t → P u → P b → P (ForStatement i t u b).
Hypothesis HWhileStatement : ∀ t b, P t → P b → P (WhileStatement t b).
Hypothesis HReturnStatement :
  ∀ a, match a with Some x => P x | None => True end → P (ReturnStatement a).
Hypothesis HAssignmentExpression :
  ∀ l r, P l → P r → P (AssignmentExpression l r).
Hypothesis HUnvisited : ∀ t, P (Unvisited t).

Fixpoint node_induction (n : node) : P n :=
  let all :=
    fix all (l : list node) : Forall P l :=
      match l with
      | [] => Forall_nil_2 P
      | x :: l' => Forall_cons_2 P x l' (node_induction x) (all l')
      end in
  match n with
  | Program body => HProgram body (all body)
  | VariableDeclaration kind declarations =>
      HVariableDeclaration kind declarations
        ((fix each (l : list (string * option node))
            : Forall (λ d : string * option node,
                        match d.2 with Some i => P i | None => True end) l :=
            match l with
            | [] => Forall_nil_2 _
            | d :: l' =>
                Forall_cons_2 _ d l'
                  (match d as d0
                     return match d0.2 with Some i => P i | None => True end
                   with
                   | (_, Some i) => node_induction i
                   | (_, None) => Logic.I
                   end)
                  (each l')
            end) declarations)
  | FunctionDeclaration name params body =>
      HFunctionDeclaration name params body (node_induction body)
  | BlockStatement body => HBlockStatement body (all body)
  | ExpressionStatement e => HExpressionStatement e (node_induction e)
  | BinaryExpression o l r =>
      HBinaryExpression o l r (node_induction l) (node_induction r)
  | CallExpression c args =>
      HCallExpression c args (node_induction c) (all args)
  | Identifier name => HIdentifier name
  | Literal v => HLiteral v
  | IfStatement t c a =>
      HIfStatement t c a (node_induction t) (node_induction c)
        (match a as a0 return match a0 with Some x => P x | None => True end
         with
         | Some x => node_induction x
         | None => Logic.I
         end)
  | ForStatement i t u b =>
      HForStatement i t u b (node_induction i) (node_induction t)
        (node_induction u) (node_induction b)
  | WhileStatement t b =>
      HWhileStatement t b (node_induction t) (node_induction b)
  | ReturnStatement a =>
      HReturnStatement a
        (match a as a0 return match a0 with Some x => P x | None => True end
         with
         | Some x => node_induction x
         | None => Logic.I
         end)
  | AssignmentExpression l r =>
      HAssignmentExpression l r (node_induction l) (node_induction r)
  | Unvisited t => HUnvisited t
  end.

End Induction.


(** *** What a visit emits *)

(** The tree is one the parser builds: the operator of each binary
    expression is one of the parser's. *)
Fixpoint parsed (n : node) : bool :=
  match n with
  | Program body | BlockStatement body => forallb parsed body
  | VariableDeclaration _ declarations =>
      forallb
        (λ d : string * option node,
           match d.2 with Some i => parsed i | None => true end)
        declarations
  | FunctionDeclaration _ _ body => parsed body
  | ExpressionStatement e => parsed e
  | BinaryExpression o l r =>
      bool_decide (o ∈ binary_operators) && parsed l && parsed r
  | CallExpression c args => parsed c && forallb parsed args
  | Identifier _ | Literal _ | Unvisited _ => true
  | IfStatement t c a =>
      parsed t && parsed c
      && match a with Some x => parsed x | None => true end
  | ForStatement i t u b => parsed i && parsed t && parsed u && parsed b
  | WhileStatement t b => parsed t && parsed b
  | ReturnStatement a => match a with Some x => parsed x | None => true end
  | AssignmentExpression l r => parsed l && parsed r
  end.

Definition is_label (inst : instruction) : bool :=
  String.eqb (op inst) "label".

Definition is_jump (inst : instruction) : bool :=
  String.eqb (op inst) "goto" || String.eqb (op inst) "if_false".

(** The instructions of binary expressions and of calls, whose result
    is a temporary. *)
Definition defines_temp (inst : instruction) : bool :=
  bool_decide (op inst ∈ binary_operators) || String.eqb (op inst) "call".

Definition label_names (l : list instruction) : list (operand num) :=
  map arg1 (List.filter is_label l).

Definition jump_targets (l : list instruction) : list (option string) :=
  map result (List.filter is_jump l).

Definition temp_defs (l : list instruction) : list (option string) :=
  map result (List.filter defines_temp l).

Definition lab (k : nat) : operand num := OStr (label_name k).
Definition tmp (k : nat) : option string := Some (temp_name k).

(** [names] holds [f k] once for each [k] of [S], and nothing else. *)
Definition numbered {A} (f : nat → A) (S : nat → Prop) (names : list A)
  : Prop :=
  NoDup names ∧ ∀ x, x ∈ names ↔ ∃ k, S k ∧ x = f k.

Lemma numbered_nil {A} (f : nat → A) : numbered f (λ _, False) [].
Proof.
  split; [constructor |]. intros x. split.
  - intros Hx. by apply elem_of_nil in Hx.
  - by intros (k & [] & _).
Qed.

Lemma numbered_one {A} (f : nat → A) (a : nat) :
  numbered f (λ k, k = a) [f a].
Proof.
  split; [apply NoDup_singleton |]. intros x.
  rewrite list_elem_of_singleton. split.
  - intros ->. by exists a.
  - by intros (k & -> & ->).
Qed.

Lemma numbered_app {A} (f : nat → A) (S1 S2 : nat → Prop) (l1 l2 : list A) :
  Inj (=) (=) f →
  numbered f S1 l1 → numbered f S2 l2 → (∀ k, S1 k → S2 k → False) →
  numbered f (λ k, S1 k ∨ S2 k) (l1 ++ l2).
Proof.
  intros Hinj [Hnd1 H1] [Hnd2 H2] Hdisj. split.
  - apply NoDup_app. split; [done |]. split; [| done].
    intros x Hx1 Hx2. apply H1 in Hx1 as (k1 & Hk1 & ->).
    apply H2 in Hx2 as (k2 & Hk2 & Heq). apply Hinj in Heq as ->.
    by eapply Hdisj.
  - intros x. rewrite elem_of_app, H1, H2. split.
    + intros [(k & Hk & ->) | (k & Hk & ->)]; exists k; auto.
    + intros (k & [Hk | Hk] & ->); [left | right]; by exists k.
Qed.

Lemma numbered_ext {A} (f : nat → A) (S S' : nat → Prop) (l : list A) :
  (∀ k, S k ↔ S' k) → numbered f S l → numbered f S' l.
Proof.
  intros Heq [Hnd Hl]. split; [done |]. intros x. rewrite Hl.
  split; intros (k & Hk & ->); exists k; split; try done; by apply Heq.
Qed.

#[local] Instance lab_inj : Inj (=) (=) lab.
Proof.
  intros a b Hab. unfold lab, label_name in Hab.
  injection Hab as Hab. by apply (inj pretty).
Qed.

#[local] Instance tmp_inj : Inj (=) (=) tmp.
Proof.
  intros a b Hab. unfold tmp, temp_name in Hab.
  injection Hab as Hab. by apply (inj pretty).
Qed.

(** The code [new]: its labels are those numbered in [L], its
    temporaries those numbered in [T], and its jumps go to labels
    numbered in [J]. *)
Definition emitted (T L J : nat → Prop) (new : list instruction) : Prop :=
  numbered tmp T (temp_defs new)
  ∧ numbered lab L (label_names new)
  ∧ Forall (λ r, ∃ k, J k ∧ r = Some (label_name k)) (jump_targets new).

Lemma emitted_nil (J : nat → Prop) : emitted (λ _, False) (λ _, False) J [].
Proof. split; [apply numbered_nil |]. split; [apply numbered_nil | constructor]. Qed.

Lemma emitted_app T1 L1 T2 L2 J new1 new2 :
  emitted T1 L1 J new1 → emitted T2 L2 J new2 →
  (∀ k, T1 k → T2 k → False) → (∀ k, L1 k → L2 k → False) →
  emitted (λ k, T1 k ∨ T2 k) (λ k, L1 k ∨ L2 k) J (new1 ++ new2).
Proof.
  intros (Ht1 & Hl1 & Hj1) (Ht2 & Hl2 & Hj2) HT HL.
  unfold emitted, temp_defs, label_names, jump_targets.
  rewrite !List.filter_app, !map_app.
  split; [by apply numbered_app; try apply _ |].
  split; [by apply numbered_app; try apply _ |].
  by apply Forall_app.
Qed.

Lemma emitted_ext T L J T' L' J' new :
  (∀ k, T k ↔ T' k) → (∀ k, L k ↔ L' k) → (∀ k, J k → J' k) →
  emitted T L J new → emitted T' L' J' new.
Proof.
  intros HT HL HJ (Ht & Hl & Hj).
  split; [by eapply numbered_ext |]. split; [by eapply numbered_ext |].
  eapply Forall_impl; [exact Hj |]. intros r (k & Hk & ->). exists k. auto.
Qed.

(** An instruction that is no label, no jump and defines no
    temporary. *)
Definition plain (inst : instruction) : Prop :=
  is_label inst = false ∧ is_jump inst = false ∧ defines_temp inst = false.

Lemma emitted_plain J inst :
  plain inst → emitted (λ _, False) (λ _, False) J [inst].
Proof.
  intros (Hl & Hj & Ht).
  unfold emitted, temp_defs, label_names, jump_targets. simpl.
  rewrite Hl, Hj, Ht. apply emitted_nil.
Qed.

Lemma emitted_label (J : nat → Prop) a :
  emitted (λ _, False) (λ k, k = a) J
    [Optimizer.emit "label" (OStr (label_name a)) ONull None].
Proof.
  unfold emitted, temp_defs, label_names, jump_targets. simpl.
  split; [apply numbered_nil |]. split; [apply (numbered_one lab) | constructor].
Qed.

Lemma emitted_jump (J : nat → Prop) o t a :
  o = "goto" ∨ o = "if_false" → J a →
  emitted (λ _, False) (λ _, False) J
    [Optimizer.emit o t ONull (Some (label_name a))].
Proof.
  intros Ho Ha. unfold emitted, temp_defs, label_names, jump_targets.
  destruct Ho as [-> | ->]; simpl;
    (split; [apply numbered_nil |]; split; [apply numbered_nil |];
     constructor; [by exists a | constructor]).
Qed.

Lemma binary_operator_kind (o : string) :
  o ∈ binary_operators →
  String.eqb o "label" = false ∧ String.eqb o "goto" = false
  ∧ String.eqb o "if_false" = false.
Proof.
  intros Ho. unfold binary_operators in Ho.
  repeat (apply elem_of_cons in Ho as [-> | Ho]; [done |]).
  by apply elem_of_nil in Ho.
Qed.

Lemma emitted_temp (J : nat → Prop) o l r a :
  o ∈ binary_operators ∨ o = "call" →
  emitted (λ k, k = a) (λ _, False) J
    [Optimizer.emit o l r (Some (temp_name a))].
Proof.
  intros Ho. unfold emitted, temp_defs, label_names, jump_targets.
  assert (Hkind : is_label (Optimizer.emit o l r (Some (temp_name a))) = false
                  ∧ is_jump (Optimizer.emit o l r (Some (temp_name a))) = false
                  ∧ defines_temp (Optimizer.emit o l r (Some (temp_name a)))
                    = true).
  { unfold is_label, is_jump, defines_temp. simpl.
    destruct Ho as [Ho | ->]; [| done].
    destruct (binary_operator_kind o Ho) as (-> & -> & ->).
    by rewrite bool_decide_eq_true_2. }
  destruct Hkind as (Hl & Hj & Ht). simpl. rewrite Hl, Hj, Ht. simpl.
  split; [apply (numbered_one tmp) |]. split; [apply numbered_nil | constructor].
Qed.


Definition range (a b : nat) : nat → Prop := λ k, a ≤ k < b.

(** From [g] to [g'] the generator has emitted code with the
    temporaries [T], the labels [L] and jumps into [J]. *)
Definition steps (g g' : generator) (T L J : nat → Prop) : Prop :=
  ∃ new, instructions g' = instructions g ++ new ∧ emitted T L J new.

Lemma steps_same g g' J :
  instructions g' = instructions g →
  steps g g' (λ _, False) (λ _, False) J.
Proof.
  intros Hi. exists []. split; [by rewrite app_nil_r | apply emitted_nil].
Qed.

Lemma steps_trans g g1 g2 T1 L1 T2 L2 J :
  steps g g1 T1 L1 J → steps g1 g2 T2 L2 J →
  (∀ k, T1 k → T2 k → False) → (∀ k, L1 k → L2 k → False) →
  steps g g2 (λ k, T1 k ∨ T2 k) (λ k, L1 k ∨ L2 k) J.
Proof.
  intros (n1 & Hi1 & He1) (n2 & Hi2 & He2) HT HL.
  exists (n1 ++ n2). split; [by rewrite Hi2, Hi1, app_assoc |].
  by apply emitted_app.
Qed.

Lemma steps_ext g g' T L J T' L' J' :
  (∀ k, T k ↔ T' k) → (∀ k, L k ↔ L' k) → (∀ k, J k → J' k) →
  steps g g' T L J → steps g g' T' L' J'.
Proof.
  intros HT HL HJ (new & Hi & He). exists new. split; [done |].
  by eapply emitted_ext.
Qed.

Lemma steps_emit g J o a1 a2 r :
  emitted (λ _, False) (λ _, False) J [Optimizer.emit o a1 a2 r] →
  steps g (emit o a1 a2 r g) (λ _, False) (λ _, False) J.
Proof. intros He. by exists [Optimizer.emit o a1 a2 r]. Qed.

(** [g'] comes from [g] by visits: the counters have grown, the labels
    and temporaries of the new code are those allocated meanwhile, each
    once, and the new jumps go to new labels. *)
Definition good (g g' : generator) : Prop :=
  nextTemp g ≤ nextTemp g' ∧ nextLabel g ≤ nextLabel g'
  ∧ steps g g' (range (nextTemp g) (nextTemp g'))
      (range (nextLabel g) (nextLabel g'))
      (range (nextLabel g) (nextLabel g')).

Lemma good_refl g : good g g.
Proof.
  split; [done |]. split; [done |].
  eapply steps_ext; [| | | by apply (steps_same g g (λ _, False))];
    unfold range; intros k; simpl; lia.
Qed.

Lemma good_trans g1 g2 g3 : good g1 g2 → good g2 g3 → good g1 g3.
Proof.
  intros (Ht1 & Hl1 & H1) (Ht2 & Hl2 & H2).
  split; [lia |]. split; [lia |].
  set (J := range (nextLabel g1) (nextLabel g3)).
  assert (H1' : steps g1 g2 (range (nextTemp g1) (nextTemp g2))
                  (range (nextLabel g1) (nextLabel g2)) J).
  { eapply steps_ext; [done | done | | exact H1].
    unfold J, range. intros k. lia. }
  assert (H2' : steps g2 g3 (range (nextTemp g2) (nextTemp g3))
                  (range (nextLabel g2) (nextLabel g3)) J).
  { eapply steps_ext; [done | done | | exact H2].
    unfold J, range. intros k. lia. }
  assert (H3 := steps_trans g1 g2 g3 _ _ _ _ J H1' H2').
  eapply steps_ext; [| | | apply H3]; unfold J, range; intros k; lia.
Qed.

Lemma good_emit_plain g o a1 a2 r :
  plain (Optimizer.emit o a1 a2 r) → good g (emit o a1 a2 r g).
Proof.
  intros Hp. split; [done |]. split; [done |].
  eapply steps_ext; [| | | apply steps_emit, (emitted_plain (λ _, False)), Hp];
    unfold range; intros k; simpl; lia.
Qed.

Lemma good_fold {A} (f : generator → A → generator) (l : list A) :
  Forall (λ x, ∀ g, good g (f g x)) l → ∀ g, good g (fold_left f l g).
Proof.
  induction 1 as [| x l Hx _ IH]; intros g; simpl; [apply good_refl |].
  eapply good_trans; [apply Hx | apply IH].
Qed.


Lemma steps_snoc g g1 T L J T2 L2 o a1 a2 r :
  steps g g1 T L J →
  emitted T2 L2 J [Optimizer.emit o a1 a2 r] →
  (∀ k, T k → T2 k → False) → (∀ k, L k → L2 k → False) →
  steps g (emit o a1 a2 r g1) (λ k, T k ∨ T2 k) (λ k, L k ∨ L2 k) J.
Proof.
  intros H1 He HT HL. eapply steps_trans; [exact H1 | | done | done].
  by exists [Optimizer.emit o a1 a2 r].
Qed.

Lemma steps_visit g g1 g2 T L J :
  steps g g1 T L J → good g1 g2 →
  (∀ k, range (nextLabel g1) (nextLabel g2) k → J k) →
  (∀ k, T k → range (nextTemp g1) (nextTemp g2) k → False) →
  (∀ k, L k → range (nextLabel g1) (nextLabel g2) k → False) →
  steps g g2 (λ k, T k ∨ range (nextTemp g1) (nextTemp g2) k)
    (λ k, L k ∨ range (nextLabel g1) (nextLabel g2) k) J.
Proof.
  intros H1 (_ & _ & H2) HJ HT HL.
  eapply steps_trans; [exact H1 | | done | done].
  eapply steps_ext; [done | done | exact HJ | exact H2].
Qed.

Ltac counters :=
  cbn [nextTemp nextLabel instructions emit newTemp newLabel fst snd] in *.

(** The generator after two calls of [newLabel]. *)
Definition two_labels (g : generator) : generator :=
  mkGenerator (instructions g) (nextTemp g) (S (S (nextLabel g))).

Ltac ranges :=
  intros; unfold range in *;
  repeat match goal with x := _ |- _ => subst x end;
  unfold two_labels in *; counters; lia.

Lemma good_emit_temp g o l r :
  o ∈ binary_operators ∨ o = "call" →
  good g (emit o l r (Some (temp_name (nextTemp g))) (newTemp g).2).
Proof.
  intros Ho. split; [counters; lia |]. split; [done |].
  eapply steps_ext;
    [| | | eapply (steps_snoc g (newTemp g).2 _ _
                    (range (nextLabel g) (nextLabel g)));
           [by apply steps_same | by apply emitted_temp | |]];
    ranges.
Qed.

Lemma good_call g g4 c n :
  good (newTemp g).2 g4 →
  good g (emit "call" c n (Some (temp_name (nextTemp g))) g4).
Proof.
  intros Hc. pose proof Hc as (Ht & Hl & _). counters.
  split; [counters; lia |]. split; [counters; lia |].
  eapply steps_ext;
    [| | | eapply (steps_snoc g g4 _ _ (range (nextLabel g) (nextLabel g4)));
           [eapply (steps_visit g (newTemp g).2 g4);
              [by apply steps_same | exact Hc | | |]
           | apply emitted_temp; by right | |]];
    ranges.
Qed.

(** The code of a conditional: [gd] is the generator after the visit
    of the consequent, [gg] after that of the alternate. *)
Lemma good_if g gd gg t :
  good (emit "if_false" t ONull (Some (label_name (nextLabel g)))
          (two_labels g)) gd →
  good (emit "label" (OStr (label_name (nextLabel g))) ONull None
          (emit "goto" ONull ONull (Some (label_name (S (nextLabel g)))) gd))
       gg →
  good g (emit "label" (OStr (label_name (S (nextLabel g)))) ONull None gg).
Proof.
  set (gb := two_labels g).
  set (gc := emit "if_false" t ONull (Some (label_name (nextLabel g))) gb).
  set (ge := emit "goto" ONull ONull (Some (label_name (S (nextLabel g)))) gd).
  set (gf := emit "label" (OStr (label_name (nextLabel g))) ONull None ge).
  intros Hd Hg.
  pose proof Hd as (Htd & Hld & _). pose proof Hg as (Htg & Hlg & _).
  split; [ranges |]. split; [ranges |].
  set (J := range (nextLabel g) (nextLabel gg)).
  eapply steps_ext; [| | |
    eapply (steps_snoc g gg _ _ J); [
      eapply (steps_visit g gf gg); [
        eapply (steps_snoc g ge _ _ J); [
          eapply (steps_snoc g gd _ _ J); [
            eapply (steps_visit g gc gd); [
              eapply (steps_snoc g gb _ _ J); [
                by apply (steps_same g gb J)
              | apply emitted_jump; [by right |] | |]
            | exact Hd | | |]
          | apply emitted_jump; [by left |] | |]
        | apply emitted_label | |]
      | exact Hg | | |]
    | apply emitted_label | |]];
    ranges.
Qed.

(** The code of a while loop: [gd] is the generator after the visit of
    the test, [gf] after that of the body. *)
Lemma good_while g gd gf t :
  good (emit "label" (OStr (label_name (nextLabel g))) ONull None
          (two_labels g)) gd →
  good (emit "if_false" t ONull (Some (label_name (S (nextLabel g)))) gd) gf →
  good g
    (emit "label" (OStr (label_name (S (nextLabel g)))) ONull None
       (emit "goto" ONull ONull (Some (label_name (nextLabel g))) gf)).
Proof.
  set (gb := two_labels g).
  set (gc := emit "label" (OStr (label_name (nextLabel g))) ONull None gb).
  set (ge := emit "if_false" t ONull (Some (label_name (S (nextLabel g)))) gd).
  set (gh := emit "goto" ONull ONull (Some (label_name (nextLabel g))) gf).
  intros Hd Hf.
  pose proof Hd as (Htd & Hld & _). pose proof Hf as (Htf & Hlf & _).
  split; [ranges |]. split; [ranges |].
  set (J := range (nextLabel g) (nextLabel gf)).
  eapply steps_ext; [| | |
    eapply (steps_snoc g gh _ _ J); [
      eapply (steps_snoc g gf _ _ J); [
        eapply (steps_visit g ge gf); [
          eapply (steps_snoc g gd _ _ J); [
            eapply (steps_visit g gc gd); [
              eapply (steps_snoc g gb _ _ J); [
                by apply (steps_same g gb J)
              | apply emitted_label | |]
            | exact Hd | | |]
          | apply emitted_jump; [by right |] | |]
        | exact Hf | | |]
      | apply emitted_jump; [by left |] | |]
    | apply emitted_label | |]];
    ranges.
Qed.

(** The code of a for loop: [gc] is the generator after the visit of
    the initializer, [ge] after the test, [gg] after the body and the
    update. *)
Lemma good_for g gc ge gg t :
  good (two_labels g) gc →
  good (emit "label" (OStr (label_name (nextLabel g))) ONull None gc) ge →
  good (emit "if_false" t ONull (Some (label_name (S (nextLabel g)))) ge) gg →
  good g
    (emit "label" (OStr (label_name (S (nextLabel g)))) ONull None
       (emit "goto" ONull ONull (Some (label_name (nextLabel g))) gg)).
Proof.
  set (gb := two_labels g).
  set (gd := emit "label" (OStr (label_name (nextLabel g))) ONull None gc).
  set (gf := emit "if_false" t ONull (Some (label_name (S (nextLabel g)))) ge).
  set (gh := emit "goto" ONull ONull (Some (label_name (nextLabel g))) gg).
  intros Hc He Hg.
  pose proof Hc as (Htc & Hlc & _). pose proof He as (Hte & Hle & _).
  pose proof Hg as (Htg & Hlg & _).
  split; [ranges |]. split; [ranges |].
  set (J := range (nextLabel g) (nextLabel gg)).
  eapply steps_ext; [| | |
    eapply (steps_snoc g gh _ _ J); [
      eapply (steps_snoc g gg _ _ J); [
        eapply (steps_visit g gf gg); [
          eapply (steps_snoc g ge _ _ J); [
            eapply (steps_visit g gd ge); [
              eapply (steps_snoc g gc _ _ J); [
                eapply (steps_visit g gb gc); [
                  by apply (steps_same g gb J)
                | exact Hc | | |]
              | apply emitted_label | |]
            | exact He | | |]
          | apply emitted_jump; [by right |] | |]
        | exact Hg | | |]
      | apply emitted_jump; [by left |] | |]
    | apply emitted_label | |]];
    ranges.
Qed.

Ltac plain_instruction := split; [| split]; vm_compute; reflexivity.

Lemma visit_all_good (l : list node) :
  Forall (λ n, parsed n = true → ∀ g, good g (visitNode n g).2) l →
  forallb parsed l = true →
  Forall (λ n, ∀ g, good g (visitNode n g).2) l.
Proof.
  rewrite !Forall_forall. intros IH Hl n Hn. apply IH; [done |].
  rewrite forallb_forall in Hl. apply Hl. by apply list_elem_of_In.
Qed.

Lemma good_arguments (l : list node) :
  Forall (λ n, ∀ g, good g (visitNode n g).2) l →
  ∀ (args : list (operand num)) g,
    good g
      (fold_left
         (λ '(args, g) arg,
            let '(v, g) := visitNode arg g in (args ++ [v], g))
         l (args, g)).2.
Proof.
  induction 1 as [| n l Hn _ IH]; intros args g; simpl; [apply good_refl |].
  pose proof (Hn g) as Hg. destruct (visitNode n g) as [v g1].
  eapply good_trans; [exact Hg | apply IH].
Qed.

(** Every visit of a tree of the parser is good. *)
Lemma visitNode_good (n : node) :
  parsed n = true → ∀ g, good g (visitNode n g).2.
Proof.
  induction n as
    [ body IHbody | kind decls IHdecls | name params body IHbody
    | body IHbody | e IHe | o l r IHl IHr | c args IHc IHargs | name | v
    | t c a IHt IHc IHa | i t u b IHi IHt IHu IHb | t b IHt IHb | a IHa
    | l r IHl IHr | t ] using node_induction;
    intros Hp g; simpl in Hp |- *.
  - apply good_fold. by apply visit_all_good.
  - apply good_fold. rewrite Forall_forall in *.
    intros [x [i |]] Hd g0; simpl; [| apply good_refl].
    rewrite forallb_forall in Hp.
    pose proof (Hp (x, Some i) (proj1 (list_elem_of_In _ _) Hd)) as Hi.
    pose proof (IHdecls (x, Some i) Hd Hi g0) as Hg. simpl in Hg.
    destruct (visitNode i g0) as [v g1].
    eapply good_trans; [exact Hg |]. apply good_emit_plain. plain_instruction.
  - pose proof (IHbody Hp) as Hb.
    match goal with
    | |- context [visitNode body ?g1] =>
        pose proof (Hb g1) as Hg; destruct (visitNode body g1) as [v g2];
        assert (H1 : good g g1)
    end.
    { eapply (good_trans g (emit "function" (OStr name) ONull None g));
        [apply good_emit_plain; plain_instruction |].
      apply good_fold. apply Forall_forall. intros p _ g0.
      apply good_emit_plain. plain_instruction. }
    eapply good_trans; [exact H1 |]. eapply good_trans; [exact Hg |].
    apply good_emit_plain. plain_instruction.
  - apply good_fold. by apply visit_all_good.
  - by apply IHe.
  - apply andb_true_iff in Hp as [Hp Hr]. apply andb_true_iff in Hp as [Ho Hl].
    apply bool_decide_eq_true in Ho.
    pose proof (IHl Hl g) as H1. destruct (visitNode l g) as [vl g1].
    pose proof (IHr Hr g1) as H2. destruct (visitNode r g1) as [vr g2].
    simpl. eapply good_trans; [exact H1 |]. eapply good_trans; [exact H2 |].
    apply good_emit_temp. by left.
  - apply andb_true_iff in Hp as [Hc Ha].
    pose proof (good_arguments args (visit_all_good args IHargs Ha) [] g) as H1.
    destruct (fold_left _ args ([], g)) as [vs g1]. simpl in H1.
    match goal with
    | |- context [fold_left ?f vs g1] =>
        assert (H2 : good g1 (fold_left f vs g1));
        [| set (g2 := fold_left f vs g1) in * ]
    end.
    { apply good_fold. apply Forall_forall. intros a _ g0.
      apply good_emit_plain. plain_instruction. }
    simpl. pose proof (IHc Hc (newTemp g2).2) as H3. simpl in H3.
    destruct (visitNode c _) as [vc g4]. simpl.
    eapply good_trans; [exact H1 |]. eapply good_trans; [exact H2 |].
    by apply good_call.
  - apply good_refl.
  - apply good_refl.
  - apply andb_true_iff in Hp as [Hp Ha]. apply andb_true_iff in Hp as [Ht Hc].
    pose proof (IHt Ht g) as H1. destruct (visitNode t g) as [vt g1].
    simpl.
    match goal with
    | |- context [visitNode c ?gc] =>
        pose proof (IHc Hc gc) as H2; destruct (visitNode c gc) as [vc gd]
    end.
    eapply good_trans; [exact H1 |].
    apply (good_if g1 gd _ vt); [exact H2 |].
    destruct a as [alt |]; [by apply IHa | apply good_refl].
  - apply andb_true_iff in Hp as [Hp Hb]. apply andb_true_iff in Hp as [Hp Hu].
    apply andb_true_iff in Hp as [Hi Ht]. simpl.
    match goal with
    | |- context [visitNode i ?g0] =>
        pose proof (IHi Hi g0) as H1; destruct (visitNode i g0) as [vi gc]
    end.
    match goal with
    | |- context [visitNode t ?g0] =>
        pose proof (IHt Ht g0) as H2; destruct (visitNode t g0) as [vt ge]
    end.
    match goal with
    | |- context [visitNode b ?g0] =>
        pose proof (IHb Hb g0) as H4; destruct (visitNode b g0) as [vb gf]
    end.
    pose proof (IHu Hu gf) as H3. destruct (visitNode u gf) as [vu gg].
    simpl.
    apply (good_for g gc ge gg vt); [exact H1 | exact H2 |].
    eapply good_trans; [exact H4 | exact H3].
  - apply andb_true_iff in Hp as [Ht Hb]. simpl.
    match goal with
    | |- context [visitNode t ?g0] =>
        pose proof (IHt Ht g0) as H1; destruct (visitNode t g0) as [vt gd]
    end.
    match goal with
    | |- context [visitNode b ?g0] =>
        pose proof (IHb Hb g0) as H2; destruct (visitNode b g0) as [vb gf]
    end.
    simpl. by apply (good_while g gd gf vt).
  - destruct a as [arg |]; simpl.
    + pose proof (IHa Hp g) as H1. destruct (visitNode arg g) as [v g1].
      simpl. eapply good_trans; [exact H1 |].
      apply good_emit_plain. plain_instruction.
    + apply good_emit_plain. plain_instruction.
  - apply andb_true_iff in Hp as [Hl Hr].
    pose proof (IHr Hr g) as H2. destruct (visitNode r g) as [v g1].
    simpl. eapply good_trans; [exact H2 |].
    apply good_emit_plain. plain_instruction.
  - apply good_refl.
Qed.

Lemma generate_emitted (ast : node) (code : list instruction) :
  parsed ast = true → generate ast = Some code →
  ∃ t l, emitted (range 0 t) (range 0 l) (range 0 l) code.
Proof.
  intros Hp Hg.
  assert (Hcode : ∃ body, parsed (Program body) = true
                          ∧ code = instructions
                                     (visitNode (Program body) new_generator).2).
  { destruct ast; try discriminate Hg; injection Hg as <-; by eexists. }
  destruct Hcode as (body & Hb & ->).
  destruct (visitNode_good (Program body) Hb new_generator)
    as (_ & _ & new & Hnew & He).
  rewrite Hnew. simpl. eauto.
Qed.

Lemma label_named (code : list instruction) (L : nat → Prop) :
  numbered lab L (label_names code) → named_labels code.
Proof.
  intros [_ Hl]. apply Forall_forall. intros inst Hin Hop.
  assert (Hname : arg1 inst ∈ label_names code).
  { unfold label_names. apply list_elem_of_fmap. exists inst. split; [done |].
    apply list_elem_of_In, List.filter_In. split; [by apply list_elem_of_In |].
    unfold is_label. by rewrite Hop. }
  apply Hl in Hname as (k & _ & ->). by eexists.
Qed.

Lemma named_labels_constantFolding (code : list instruction) :
  named_labels code → named_labels (constantFolding code).
Proof.
  unfold named_labels, constantFolding. rewrite Forall_fmap.
  intros Hc. eapply Forall_impl; [exact Hc |]. intros inst Hi. simpl.
  unfold fold_instruction. destruct (is_arith (op inst)) eqn:Ho; [| done].
  destruct (arg1 inst); try done. destruct (arg2 inst); try done.
Qed.

(** X4. In the code generated for a program, no label is defined
    twice, and every [goto] and [if_false] goes to a label that the
    code defines. *)
Theorem generate_defines_jump_targets (ast : node)
    (code : list instruction) :
  parsed ast = true → generate ast = Some code →
  NoDup (label_names code)
  ∧ ∀ inst, inst ∈ code → is_jump inst = true →
      ∃ s, result inst = Some s ∧ OStr s ∈ label_names code.
Proof.
  intros Hp Hg.
  destruct (generate_emitted ast code Hp Hg) as (t & l & _ & [Hnd Hl] & Hj).
  split; [exact Hnd |]. intros inst Hin Hjump.
  rewrite Forall_forall in Hj.
  destruct (Hj (result inst)) as (k & Hk & Hr).
  { unfold jump_targets. apply list_elem_of_fmap. exists inst. split; [done |].
    apply list_elem_of_In, List.filter_In. split; [by apply list_elem_of_In | done]. }
  exists (label_name k). split; [exact Hr |]. apply Hl. by exists k.
Qed.

(** X5. In the code generated for a program, the instructions of
    binary expressions and of calls each store their result in a
    temporary of their own: these results are [t0], [t1], ... without
    a gap, and none is the result of two such instructions. *)
Theorem generate_temporaries_distinct (ast : node)
    (code : list instruction) :
  parsed ast = true → generate ast = Some code →
  NoDup (temp_defs code)
  ∧ ∃ t, ∀ r, r ∈ temp_defs code ↔ ∃ k, k < t ∧ r = Some (temp_name k).
Proof.
  intros Hp Hg.
  destruct (generate_emitted ast code Hp Hg) as (t & l & [Hnd Ht] & _).
  split; [exact Hnd |]. exists t. intros r. rewrite Ht. unfold range, tmp.
  split; intros (k & Hk & ->); exists k; (split; [lia | done]).
Qed.

(** X6. Dead-code elimination removes nothing from the code generated
    for a program, before or after constant folding: the optimizer's
    three passes amount to constant folding followed by
    common-subexpression elimination. *)
Theorem optimize_generated_keeps_everything (ast : node)
    (code : list instruction) :
  parsed ast = true → generate ast = Some code →
  deadCodeElimination code = code
  ∧ optimize code
    = commonSubexpressionElimination (constantFolding code).
Proof.
  intros Hp Hg.
  destruct (generate_emitted ast code Hp Hg) as (t & l & _ & Hl & _).
  apply label_named in Hl. split; [by apply deadCodeElimination_identity |].
  unfold optimize. rewrite deadCodeElimination_identity; [done |].
  by apply named_labels_constantFolding.
Qed.

End WithNumbers.

Import ExactNum.

(** [if (a < 1) { f(a + 2) }] *)
Definition conditional_call : CompilerAst.node xnum :=
  Program
    [IfStatement
       (BinaryExpression "<" (Identifier "a") (Literal (LNum (fin 1))))
       (BlockStatement
          [ExpressionStatement
             (CallExpression (Identifier "f")
                [BinaryExpression "+" (Identifier "a")
                   (Literal (LNum (fin 2)))])])
       None].

Definition conditional_call_code : list (Optimizer.instruction xnum) :=
  [Inst "<" (OStr "a") (ONum (fin 1)) (Some "t0");
   Inst "if_false" (OStr "t0") ONull (Some "L0");
   Inst "+" (OStr "a") (ONum (fin 2)) (Some "t1");
   Inst "push" (OStr "t1") ONull None;
   Inst "call" (OStr "f") (ONum (fin 1)) (Some "t2");
   Inst "goto" ONull ONull (Some "L1");
   Inst "label" (OStr "L0") ONull None;
   Inst "label" (OStr "L1") ONull None].

Lemma generate_conditional_call :
  generate conditional_call = Some conditional_call_code.
Proof. vm_compute. reflexivity. Qed.

Lemma generate_defines_jump_targets_witness :
  NoDup (label_names conditional_call_code)
  ∧ ∀ inst, inst ∈ conditional_call_code → is_jump inst = true →
      ∃ s, result inst = Some s ∧ OStr s ∈ label_names conditional_call_code.
Proof.
  apply (generate_defines_jump_targets conditional_call);
    [reflexivity | apply generate_conditional_call].
Defined.

Lemma generate_temporaries_distinct_witness :
  NoDup (temp_defs conditional_call_code)
  ∧ ∃ t, ∀ r, r ∈ temp_defs conditional_call_code
              ↔ ∃ k, (k < t)%nat ∧ r = Some (temp_name k).
Proof.
  apply (generate_temporaries_distinct conditional_call);
    [reflexivity | apply generate_conditional_call].
Defined.

Lemma optimize_generated_keeps_everything_witness :
  deadCodeElimination conditional_call_code = conditional_call_code
  ∧ optimize conditional_call_code
    = commonSubexpressionElimination (constantFolding conditional_call_code).
Proof.
  apply (optimize_generated_keeps_everything conditional_call);
    [reflexivity | apply generate_conditional_call].
Defined.

End IRGeneratorProps.

(** ** The semantic analyzer: scopes and redeclarations *)

Module SemanticAnalyzerProps.

Import CompilerAst TypeSystem SemanticAnalyzer.

Section WithNumbers.
Context {num : Type}.

Abbreviation node := (CompilerAst.node num).

Implicit Types a : analyzer.
Implicit Types n : node.

(** *** The array of scopes *)

(** [a'] continues [a]: the enclosing scopes are the same, the current
    scope has the names it had, and the errors of [a] come first. *)
Record continues a a' : Prop := {
  continues_scopes :
    ∃ top top' rest,
      scopes a = top :: rest ∧ scopes a' = top' :: rest
      ∧ dom top ⊆ dom top';
  continues_errors : ∃ new, errors a' = errors a ++ new
}.

Lemma continues_refl a : scopes a ≠ [] → continues a a.
Proof.
  intros Hne. destruct (scopes a) as [| top rest] eqn:Hs; [done |].
  split; [by exists top, top, rest | exists []; by rewrite app_nil_r].
Qed.

Lemma continues_trans a1 a2 a3 :
  continues a1 a2 → continues a2 a3 → continues a1 a3.
Proof.
  intros [(t1 & t2 & r & H1 & H2 & Hd) [n1 He]]
         [(t2' & t3 & r' & H2' & H3 & Hd') [n2 He']].
  rewrite H2 in H2'. injection H2' as <- <-. split.
  - exists t1, t3, r. split; [done |]. split; [done | set_solver].
  - exists (n1 ++ n2). by rewrite He', He, app_assoc.
Qed.

Lemma continues_nonempty a a' : continues a a' → scopes a' ≠ [].
Proof. intros [(t & t' & r & _ & -> & _) _]. done. Qed.

Lemma continues_report message a :
  scopes a ≠ [] → continues a (report message a).
Proof.
  intros Hne. destruct (scopes a) as [| top rest] eqn:Hs; [done |].
  split; [exists top, top, rest; by rewrite Hs | by exists [message]].
Qed.

Lemma continues_bind_top name s a :
  scopes a ≠ [] → continues a (bind_top name s a).
Proof.
  intros Hne. destruct (scopes a) as [| top rest] eqn:Hs; [done |].
  split; [| exists []; simpl; by rewrite app_nil_r].
  exists top, (<[ name := s ]> top), rest. simpl. rewrite Hs.
  split; [done |]. split; [done | set_solver].
Qed.

Lemma continues_define name s a :
  scopes a ≠ [] → continues a (define name s a).
Proof.
  intros Hne. destruct (continues_bind_top name s a Hne) as [Hs He].
  split; [exact Hs | exact He].
Qed.

Lemma continues_parameters params :
  ∀ a, scopes a ≠ [] →
       continues a
         (fold_left
            (λ a param, bind_top param (VariableSymbol (Some "any") "param") a)
            params a).
Proof.
  induction params as [| p params IH]; intros a Hne; simpl.
  - by apply continues_refl.
  - eapply continues_trans; [by apply continues_bind_top |].
    apply IH. eapply continues_nonempty. by apply continues_bind_top.
Qed.

(** A visit in a scope pushed for it. *)
Lemma continues_pushed a a' :
  scopes a ≠ [] → continues (push_scope a) a' → continues a (pop_scope a').
Proof.
  intros Hne [(t & t' & r & Hs & Hs' & _) He].
  simpl in Hs. injection Hs as <- <-.
  destruct (scopes a) as [| top rest] eqn:Ha; [done |]. split.
  - exists top, top, rest. simpl. rewrite Hs'. by rewrite Ha.
  - exact He.
Qed.

(** The visit returns and its analyzer continues the one it started
    with. *)
Definition returns {A} (f : analyzer → option (A * analyzer)) a : Prop :=
  ∃ r a', f a = Some (r, a') ∧ continues a a'.

Definition passes (f : analyzer → option analyzer) a : Prop :=
  ∃ a', f a = Some a' ∧ continues a a'.

Definition visits n : Prop := ∀ a, scopes a ≠ [] → returns (visitNode n) a.

Lemma passes_ignore n a :
  visits n → scopes a ≠ [] → passes (λ a, r ← visitNode n a; Some r.2) a.
Proof.
  intros Hn Hne. destruct (Hn a Hne) as (r & a' & Hv & Hc).
  exists a'. by rewrite Hv.
Qed.

Lemma passes_each {A} (f : A → analyzer → option analyzer) (l : list A) :
  Forall (λ x, ∀ a, scopes a ≠ [] → passes (f x) a) l →
  ∀ a, scopes a ≠ [] → passes (each f l) a.
Proof.
  induction 1 as [| x l Hx _ IH]; intros a Hne; unfold passes.
  - exists a. split; [done | by apply continues_refl].
  - change (each f (x :: l) a) with (a1 ← f x a; each f l a1).
    destruct (Hx a Hne) as (a1 & -> & Hc1). simpl.
    destruct (IH a1 (continues_nonempty _ _ Hc1)) as (a2 & -> & Hc2).
    exists a2. split; [done | by eapply continues_trans].
Qed.

(** Then: the next step starts where the last one stopped. *)
Lemma passes_then (f g : analyzer → option analyzer) a :
  passes f a → (∀ a, scopes a ≠ [] → passes g a) →
  passes (λ a, a1 ← f a; g a1) a.
Proof.
  intros (a1 & Hf & Hc1) Hg.
  destruct (Hg a1 (continues_nonempty _ _ Hc1)) as (a2 & Hg2 & Hc2).
  exists a2. rewrite Hf. split; [done | by eapply continues_trans].
Qed.

Lemma passes_declarator kind (decl : string * option node) a :
  match decl.2 with Some i => visits i | None => True end →
  scopes a ≠ [] →
  passes
    (λ a,
       currentScope ← head (scopes a);
       let a :=
         if bool_decide (is_Some (currentScope !! decl.1))
         then report (already_declared decl.1) a else a in
       r ← match decl.2 with
            | Some init => visitNode init a
            | None => Some (Some "any", a)
            end;
       Some (define decl.1 (VariableSymbol r.1 kind) r.2)) a.
Proof.
  intros Hinit Hne. unfold passes.
  destruct (scopes a) as [| top rest] eqn:Hs; [done |]. simpl.
  set (a1 := if bool_decide _ then _ else a).
  assert (Hc1 : continues a a1).
  { subst a1. destruct (bool_decide _).
    - apply continues_report. by rewrite Hs.
    - apply continues_refl. by rewrite Hs. }
  pose proof (continues_nonempty _ _ Hc1) as Hne1.
  assert (Hr : returns (λ a, match decl.2 with
                             | Some init => visitNode init a
                             | None => Some (Some "any", a)
                             end) a1).
  { destruct (decl.2) as [init |]; [by apply Hinit |].
    exists (Some "any"), a1. split; [done | by apply continues_refl]. }
  destruct Hr as (r & a2 & -> & Hc2). simpl.
  eexists. split; [reflexivity |].
  eapply continues_trans; [exact Hc1 |].
  eapply continues_trans; [exact Hc2 |].
  apply continues_define. by eapply continues_nonempty.
Qed.

Lemma visitNode_visits n : visits n.
Proof.
  induction n as [body IH | kind declarations IH | name params body IH
                 | body IH | e IH | o l r IHl IHr | c args IHc IHargs
                 | name | v | t c alt IHt IHc IHalt
                 | i t u b IHi IHt IHu IHb | t b IHt IHb | arg IHarg
                 | l r IHl IHr | ty]
    using IRGeneratorProps.node_induction; intros a Hne; unfold returns.
  - cbn [visitNode].
    destruct (passes_each _ body
                (Forall_impl _ _ _ IH (λ x Hx a Ha, passes_ignore x a Hx Ha))
                a Hne) as (a' & -> & Hc).
    by exists None, a'.
  - cbn [visitNode].
    destruct (passes_each _ declarations
                (Forall_impl _ _ _ IH
                   (λ d Hd a Ha, passes_declarator kind d a Hd Ha))
                a Hne) as (a' & -> & Hc).
    by exists None, a'.
  - cbn [visitNode].
    destruct (scopes a) as [| top rest] eqn:Hs; [done |]. simpl.
    set (a1 := define name (FunctionSymbol params) a).
    assert (Hc1 : continues a a1)
      by (apply continues_define; by rewrite Hs).
    pose proof (continues_nonempty _ _ Hc1) as Hne1.
    set (a2 := fold_left _ params (push_scope a1)).
    assert (Hc2 : continues (push_scope a1) a2)
      by (by apply continues_parameters).
    destruct (IH a2 (continues_nonempty _ _ Hc2)) as (r & a3 & -> & Hc3).
    simpl. eexists _, _. split; [reflexivity |].
    eapply continues_trans; [exact Hc1 |].
    apply continues_pushed; [done |]. by eapply continues_trans.
  - cbn [visitNode].
    destruct (passes_each _ body
                (Forall_impl _ _ _ IH (λ x Hx a Ha, passes_ignore x a Hx Ha))
                a Hne) as (a' & -> & Hc).
    by exists None, a'.
  - by apply IH.
  - cbn [visitNode].
    destruct (passes_ignore l a IHl Hne) as (a1 & -> & Hc1). simpl.
    destruct (passes_ignore r a1 IHr (continues_nonempty _ _ Hc1))
      as (a2 & -> & Hc2). simpl.
    eexists _, _. split; [reflexivity | by eapply continues_trans].
  - cbn [visitNode].
    destruct (passes_ignore c a IHc Hne) as (a1 & -> & Hc1). simpl.
    destruct (passes_each _ args
                (Forall_impl _ _ _ IHargs
                   (λ x Hx a Ha, passes_ignore x a Hx Ha))
                a1 (continues_nonempty _ _ Hc1)) as (a2 & -> & Hc2).
    simpl. eexists _, _. split; [reflexivity | by eapply continues_trans].
  - eexists _, _. split; [reflexivity | by apply continues_refl].
  - eexists _, _. split; [reflexivity | by apply continues_refl].
  - cbn [visitNode].
    destruct (passes_ignore t a IHt Hne) as (a1 & -> & Hc1). simpl.
    destruct (passes_ignore c a1 IHc (continues_nonempty _ _ Hc1))
      as (a2 & -> & Hc2). simpl.
    pose proof (continues_nonempty _ _ Hc2) as Hne2.
    destruct alt as [e |].
    + destruct (passes_ignore e a2 IHalt Hne2) as (a3 & -> & Hc3). simpl.
      eexists _, _. split; [reflexivity |].
      eapply continues_trans; [exact Hc1 |]. by eapply continues_trans.
    + simpl. eexists _, _. split; [reflexivity | by eapply continues_trans].
  - cbn [visitNode].
    assert (Hp : scopes (push_scope a) ≠ []) by done.
    destruct (passes_ignore i _ IHi Hp) as (a1 & -> & Hc1). simpl.
    destruct (passes_ignore t a1 IHt (continues_nonempty _ _ Hc1))
      as (a2 & -> & Hc2). simpl.
    destruct (passes_ignore u a2 IHu (continues_nonempty _ _ Hc2))
      as (a3 & -> & Hc3). simpl.
    destruct (passes_ignore b a3 IHb (continues_nonempty _ _ Hc3))
      as (a4 & -> & Hc4). simpl.
    eexists _, _. split; [reflexivity |]. apply continues_pushed; [done |].
    eapply continues_trans; [exact Hc1 |].
    eapply continues_trans; [exact Hc2 |]. by eapply continues_trans.
  - cbn [visitNode].
    destruct (passes_ignore t a IHt Hne) as (a1 & -> & Hc1). simpl.
    destruct (passes_ignore b a1 IHb (continues_nonempty _ _ Hc1))
      as (a2 & -> & Hc2). simpl.
    eexists _, _. split; [reflexivity | by eapply continues_trans].
  - cbn [visitNode]. destruct arg as [e |]; [by apply IHarg |].
    eexists _, _. split; [reflexivity | by apply continues_refl].
  - eexists _, _. split; [reflexivity | by apply continues_refl].
  - eexists _, _. split; [reflexivity | by apply continues_refl].
Qed.

(** X19. A visit of the semantic analyzer, started with a current
    scope, always returns: the host raises no [TypeError]. It leaves
    the array of scopes as deep as it found it, with the same enclosing
    scopes and with a current scope that has kept its names, and it
    only adds to the errors. *)
Theorem visitNode_restores_scopes n a :
  scopes a ≠ [] →
  ∃ type a' top top' rest new,
    visitNode n a = Some (type, a')
    ∧ scopes a = top :: rest ∧ scopes a' = top' :: rest
    ∧ dom top ⊆ dom top'
    ∧ errors a' = errors a ++ new.
Proof.
  intros Hne.
  destruct (visitNode_visits n a Hne)
    as (type & a' & Hv & [(top & top' & rest & Hs & Hs' & Hd) [new He]]).
  by exists type, a', top, top', rest, new.
Qed.

(** *** Redeclarations *)

(** The step of [visitVariableDeclaration] for one declarator. *)
Definition declarator (kind : string) (decl : string * option node) a
  : option analyzer :=
  currentScope ← head (scopes a);
  let a :=
    if bool_decide (is_Some (currentScope !! decl.1))
    then report (already_declared decl.1) a else a in
  r ← match decl.2 with
       | Some init => visitNode init a
       | None => Some (Some "any", a)
       end;
  Some (define decl.1 (VariableSymbol r.1 kind) r.2).

Lemma visit_declarations kind declarations a :
  visitNode (VariableDeclaration kind declarations) a
  = (a' ← each (declarator kind) declarations a; Some (None, a')).
Proof. reflexivity. Qed.

Lemma visit_program body a :
  visitNode (Program body) a
  = (a' ← each (λ n a, r ← visitNode n a; Some r.2) body a; Some (None, a')).
Proof. reflexivity. Qed.

Lemma each_app {A} (f : A → analyzer → option analyzer) l1 l2 a :
  each f (l1 ++ l2) a = (a1 ← each f l1 a; each f l2 a1).
Proof.
  revert a. induction l1 as [| x l1 IH]; intros a; [done |].
  change (each f ((x :: l1) ++ l2) a) with (a1 ← f x a; each f (l1 ++ l2) a1).
  change (each f (x :: l1) a) with (a1 ← f x a; each f l1 a1).
  destruct (f x a) as [a1 |]; [apply IH | done].
Qed.

(** The current scope has the name. *)
Definition declares (x : string) a : Prop :=
  ∃ top rest, scopes a = top :: rest ∧ x ∈ dom top.

Lemma declares_continues x a a' : declares x a → continues a a' → declares x a'.
Proof.
  intros (top & rest & Hs & Hx) [(t & t' & r & Hs1 & Hs2 & Hd) _].
  rewrite Hs in Hs1. injection Hs1 as <- <-. exists t', rest.
  split; [done | set_solver].
Qed.

Lemma reported_continues message a a' :
  message ∈ errors a → continues a a' → message ∈ errors a'.
Proof. intros Hm [_ [new ->]]. set_solver. Qed.

Lemma passes_statements body a :
  scopes a ≠ [] → passes (each (λ n a, r ← visitNode n a; Some r.2) body) a.
Proof.
  apply passes_each, Forall_forall. intros n _ a0 Ha0.
  apply passes_ignore; [apply visitNode_visits | done].
Qed.

Lemma declarator_declares kind (decl : string * option node) a :
  scopes a ≠ [] →
  ∃ a', declarator kind decl a = Some a' ∧ continues a a'
        ∧ declares decl.1 a'
        ∧ (declares decl.1 a → already_declared decl.1 ∈ errors a').
Proof.
  intros Hne. unfold declarator.
  destruct (scopes a) as [| top rest] eqn:Hs; [done |]. simpl.
  set (a1 := if bool_decide _ then _ else a).
  assert (Hc1 : continues a a1).
  { subst a1. destruct (bool_decide _).
    - apply continues_report. by rewrite Hs.
    - apply continues_refl. by rewrite Hs. }
  assert (He1 : declares decl.1 a → already_declared decl.1 ∈ errors a1).
  { intros (t & r & Ht & Hx). rewrite Hs in Ht. injection Ht as <- <-.
    subst a1. rewrite bool_decide_eq_true_2 by (by apply elem_of_dom).
    simpl. set_solver. }
  pose proof (continues_nonempty _ _ Hc1) as Hne1.
  assert (Hr : returns (λ a, match decl.2 with
                             | Some init => visitNode init a
                             | None => Some (Some "any", a)
                             end) a1).
  { destruct (decl.2) as [init |]; [by apply visitNode_visits |].
    exists (Some "any"), a1. split; [done | by apply continues_refl]. }
  destruct Hr as (r & a2 & -> & Hc2). simpl.
  pose proof (continues_nonempty _ _ Hc2) as Hne2.
  eexists. split; [reflexivity |]. split; [| split].
  - eapply continues_trans; [exact Hc1 |].
    eapply continues_trans; [exact Hc2 |]. by apply continues_define.
  - unfold declares, define, bind_top. simpl.
    destruct (scopes a2) as [| t2 r2]; [done |]. simpl.
    eexists _, _. split; [reflexivity | set_solver].
  - intros Hx. apply (reported_continues _ a2); [| by apply continues_define].
    apply (reported_continues _ a1); [by apply He1 | done].
Qed.

Lemma declarations_declare kind x (declarations : list (string * option node)) :
  x ∈ declarations.*1 →
  ∀ a, scopes a ≠ [] →
    ∃ a', each (declarator kind) declarations a = Some a' ∧ continues a a'
          ∧ declares x a'
          ∧ (declares x a → already_declared x ∈ errors a').
Proof.
  induction declarations as [| d l IH]; intros Hx a Hne; [by inversion Hx |].
  change (each (declarator kind) (d :: l) a)
    with (a1 ← declarator kind d a; each (declarator kind) l a1).
  destruct (declarator_declares kind d a Hne) as (a1 & -> & Hc1 & Hd1 & He1).
  simpl. pose proof (continues_nonempty _ _ Hc1) as Hne1.
  destruct (decide (x ∈ l.*1)) as [Hin | Hout].
  - destruct (IH Hin a1 Hne1) as (a2 & -> & Hc2 & Hd2 & He2).
    exists a2. split; [done |]. split; [by eapply continues_trans |].
    split; [done |]. intros Ha. apply He2. by eapply declares_continues.
  - assert (Hd : d.1 = x).
    { rewrite fmap_cons in Hx. apply elem_of_cons in Hx as [-> | Hx]; done. }
    subst x.
    assert (Hrest : passes (each (declarator kind) l) a1).
    { apply passes_each; [| done]. apply Forall_forall. intros d' _ a0 Ha0.
      destruct (declarator_declares kind d' a0 Ha0) as (a' & Ha' & Hc' & _).
      by exists a'. }
    destruct Hrest as (a2 & -> & Hc2). exists a2. split; [done |].
    split; [by eapply continues_trans |].
    split; [by eapply declares_continues |].
    intros Ha. eapply reported_continues; [by apply He1 | done].
Qed.

(** X20. A name declared by two variable declarations among the
    statements of a program is reported: whatever stands before,
    between and after the two declarations, the analysis ends with the
    error that lists the semantic errors. *)
Theorem analyze_reports_redeclaration (x k1 k2 : string)
    (d1 d2 : list (string * option node)) (pre mid post : list node) a :
  scopes a ≠ [] →
  x ∈ d1.*1 → x ∈ d2.*1 →
  ∃ message,
    analyze
      (Program (pre ++ VariableDeclaration k1 d1
                    :: mid ++ VariableDeclaration k2 d2 :: post)) a
    = SemanticErrors message.
Proof.
  intros Hne Hx1 Hx2. unfold analyze. rewrite visit_program.
  set (f := λ (n : node) a, r ← visitNode n a; Some r.2).
  assert (Hdecl : ∀ k d a0, f (VariableDeclaration k d) a0
                            = each (declarator k) d a0).
  { intros k d a0. unfold f. rewrite visit_declarations.
    by destruct (each _ d a0). }
  rewrite each_app.
  destruct (passes_statements pre a Hne) as (a1 & H1 & Hc1).
  fold f in H1. rewrite H1. simpl.
  change (each f (VariableDeclaration k1 d1 :: ?l) a1)
    with (a2 ← f (VariableDeclaration k1 d1) a1; each f l a2).
  rewrite Hdecl.
  destruct (declarations_declare k1 x d1 Hx1 a1 (continues_nonempty _ _ Hc1))
    as (a2 & -> & Hc2 & Hd2 & _). simpl.
  rewrite each_app.
  destruct (passes_statements mid a2 (continues_nonempty _ _ Hc2))
    as (a3 & H3 & Hc3).
  fold f in H3. rewrite H3. simpl.
  change (each f (VariableDeclaration k2 d2 :: post) a3)
    with (a4 ← f (VariableDeclaration k2 d2) a3; each f post a4).
  rewrite Hdecl.
  destruct (declarations_declare k2 x d2 Hx2 a3 (continues_nonempty _ _ Hc3))
    as (a4 & -> & Hc4 & _ & He4). simpl.
  destruct (passes_statements post a4 (continues_nonempty _ _ Hc4))
    as (a5 & H5 & Hc5).
  fold f in H5. rewrite H5. simpl.
  assert (He5 : already_declared x ∈ errors a5).
  { eapply reported_continues; [| exact Hc5]. apply He4.
    by eapply declares_continues. }
  destruct (errors a5) as [| e es]; [by inversion He5 |]. by eexists.
Qed.

(** *** Programs whose names are all different *)

(** The names a visit declares: variables, functions and parameters,
    in the order of the visit. *)
Fixpoint declared_names n : list string :=
  match n with
  | Program body | BlockStatement body => flat_map declared_names body
  | VariableDeclaration _ declarations =>
      flat_map
        (λ d : string * option node,
           match d.2 with Some i => declared_names i | None => [] end ++ [d.1])
        declarations
  | FunctionDeclaration name params body => name :: params ++ declared_names body
  | ExpressionStatement e => declared_names e
  | BinaryExpression _ l r => declared_names l ++ declared_names r
  | CallExpression c args => declared_names c ++ flat_map declared_names args
  | IfStatement t c alt =>
      declared_names t ++ declared_names c
      ++ match alt with Some e => declared_names e | None => [] end
  | ForStatement i t u b =>
      declared_names i ++ declared_names t ++ declared_names u ++ declared_names b
  | WhileStatement t b => declared_names t ++ declared_names b
  | ReturnStatement arg =>
      match arg with Some e => declared_names e | None => [] end
  | Identifier _ | Literal _ | AssignmentExpression _ _ | Unvisited _ => []
  end.

(** [a'] comes after [a] without a new error, its current scope having
    at most the names [names] more. *)
Definition quiet (names : list string) a a' : Prop :=
  ∃ top top' rest,
    scopes a = top :: rest ∧ scopes a' = top' :: rest
    ∧ dom top' ⊆ dom top ∪ list_to_set names
    ∧ errors a' = errors a.

Definition fresh (names : list string) a : Prop :=
  ∀ x, x ∈ names → ¬ declares x a.

Lemma quiet_refl names a : scopes a ≠ [] → quiet names a a.
Proof.
  intros Hne. destruct (scopes a) as [| top rest] eqn:Hs; [done |].
  exists top, top, rest. split; [done |]. split; [done |].
  split; [set_solver | done].
Qed.

Lemma quiet_weaken names names' a a' :
  quiet names a a' → names ⊆ names' → quiet names' a a'.
Proof.
  intros (t & t' & r & Hs & Hs' & Hd & He) Hsub. exists t, t', r.
  split; [done |]. split; [done |]. split; [| done].
  intros x Hx. apply Hd in Hx. apply elem_of_union in Hx as [Hx | Hx].
  - set_solver.
  - apply elem_of_union_r, elem_of_list_to_set, Hsub.
    by apply elem_of_list_to_set in Hx.
Qed.

Lemma quiet_trans xs ys a a1 a2 :
  quiet xs a a1 → quiet ys a1 a2 → quiet (xs ++ ys) a a2.
Proof.
  intros (t & t1 & r & Hs & Hs1 & Hd1 & He1)
         (t1' & t2 & r' & Hs1' & Hs2 & Hd2 & He2).
  rewrite Hs1 in Hs1'. injection Hs1' as <- <-. exists t, t2, r.
  split; [done |]. split; [done |]. split; [| congruence].
  rewrite list_to_set_app_L. intros x Hx. apply Hd2 in Hx.
  apply elem_of_union in Hx as [Hx | Hx].
  - apply Hd1 in Hx. apply elem_of_union in Hx as [Hx | Hx].
    + by apply elem_of_union_l.
    + by apply elem_of_union_r, elem_of_union_l.
  - by apply elem_of_union_r, elem_of_union_r.
Qed.

Lemma quiet_nonempty names a a' : quiet names a a' → scopes a' ≠ [].
Proof. intros (t & t' & r & _ & -> & _). done. Qed.

Lemma fresh_quiet xs ys a a1 :
  quiet xs a a1 → fresh ys a → (∀ x, x ∈ xs → x ∉ ys) → fresh ys a1.
Proof.
  intros (t & t1 & r & Hs & Hs1 & Hd & _) Hf Hdis x Hx (t' & r' & Hs' & Hin).
  rewrite Hs1 in Hs'. injection Hs' as <- <-.
  apply Hd in Hin. apply elem_of_union in Hin as [Hin | Hin].
  - apply (Hf x Hx). by exists t, r.
  - apply elem_of_list_to_set in Hin. by apply (Hdis x).
Qed.

Lemma fresh_app xs ys a : fresh (xs ++ ys) a → fresh xs a ∧ fresh ys a.
Proof.
  intros Hf. split; intros x Hx; apply Hf; apply elem_of_app; auto.
Qed.

(** A step of a visit that adds no error when the names it declares
    are new and all different. *)
Definition silent (names : list string) (f : analyzer → option analyzer)
  : Prop :=
  ∀ a, scopes a ≠ [] → NoDup names → fresh names a →
       ∃ a', f a = Some a' ∧ quiet names a a'.

Lemma silent_skip : silent [] Some.
Proof. intros a Hne _ _. exists a. split; [done | by apply quiet_refl]. Qed.

Lemma silent_then xs ys f g :
  silent xs f → silent ys g → silent (xs ++ ys) (λ a, a1 ← f a; g a1).
Proof.
  intros Hf Hg a Hne Hnd Hfresh.
  apply NoDup_app in Hnd as (Hnd1 & Hdis & Hnd2).
  apply fresh_app in Hfresh as [Hf1 Hf2].
  destruct (Hf a Hne Hnd1 Hf1) as (a1 & -> & Hq1). simpl.
  destruct (Hg a1 (quiet_nonempty _ _ _ Hq1) Hnd2
              (fresh_quiet _ _ _ _ Hq1 Hf2 Hdis)) as (a2 & -> & Hq2).
  exists a2. split; [done | by eapply quiet_trans].
Qed.

Lemma silent_each {A} (names : A → list string)
    (f : A → analyzer → option analyzer) (l : list A) :
  Forall (λ x, silent (names x) (f x)) l →
  silent (flat_map names l) (each f l).
Proof.
  induction 1 as [| x l Hx _ IH]; [apply silent_skip |].
  change (flat_map names (x :: l)) with (names x ++ flat_map names l).
  change (each f (x :: l)) with (λ a, a1 ← f x a; each f l a1).
  by apply silent_then.
Qed.

(** A step in a scope pushed for it, where [bound] are the names the
    scope starts with. *)
Lemma silent_pushed names (f : analyzer → option analyzer) a a0 top0 :
  scopes a ≠ [] →
  scopes a0 = top0 :: scopes a → errors a0 = errors a →
  silent names f → NoDup names → (∀ x, x ∈ names → x ∉ dom top0) →
  ∃ a', f a0 = Some a' ∧ scopes (pop_scope a') = scopes a ∧ errors a' = errors a.
Proof.
  intros Hne Hs0 He0 Hf Hnd Hdis.
  destruct (Hf a0) as (a' & Hrun & (t & t' & r & Hs & Hs' & _ & He)).
  - by rewrite Hs0.
  - done.
  - intros x Hx (t & r & Hs & Hin). rewrite Hs0 in Hs.
    injection Hs as <- <-. by apply (Hdis x).
  - exists a'. split; [done |]. rewrite Hs0 in Hs. injection Hs as <- <-.
    simpl. rewrite Hs'. split; [done | congruence].
Qed.

Lemma quiet_same names a a' :
  scopes a ≠ [] → scopes a' = scopes a → errors a' = errors a →
  quiet names a a'.
Proof.
  intros Hne Hs He. destruct (scopes a) as [| top rest] eqn:Ha; [done |].
  exists top, top, rest. split; [done |]. split; [done |]. split; [| done].
  apply union_subseteq_l.
Qed.

Definition silently n : Prop :=
  silent (declared_names n) (λ a, r ← visitNode n a; Some r.2).

Lemma silent_declarator kind (decl : string * option node) :
  match decl.2 with Some i => silently i | None => True end →
  silent (match decl.2 with Some i => declared_names i | None => [] end ++ [decl.1])
    (declarator kind decl).
Proof.
  intros Hinit a Hne Hnd Hfresh. unfold declarator.
  apply NoDup_app in Hnd as (Hnd1 & Hdis & _).
  apply fresh_app in Hfresh as [Hf1 Hf2].
  destruct (scopes a) as [| top rest] eqn:Hs; [done |]. simpl.
  assert (Hx : decl.1 ∉ dom top).
  { intros Hin. apply (Hf2 decl.1); [apply list_elem_of_here |].
    by exists top, rest. }
  rewrite bool_decide_eq_false_2 by (intros Hsome; by apply Hx, elem_of_dom).
  assert (Hr : ∃ r a1,
            match decl.2 with
            | Some init => visitNode init a
            | None => Some (Some "any", a)
            end = Some (r, a1)
            ∧ quiet match decl.2 with Some i => declared_names i | None => [] end
                a a1).
  { destruct (decl.2) as [init |].
    - destruct (Hinit a) as (a1 & Hv & Hq); [by rewrite Hs | done | done |].
      destruct (visitNode init a) as [[r a1'] |]; [| done].
      injection Hv as ->. by exists r, a1.
    - exists (Some "any"), a. split; [done |]. apply quiet_refl.
      by rewrite Hs. }
  destruct Hr as (r & a1 & -> & (t & t1 & r1 & Ht & Hs1 & Hd1 & He1)). simpl.
  rewrite Hs in Ht. injection Ht as <- <-.
  eexists. split; [reflexivity |].
  exists top, (<[ decl.1 := VariableSymbol r kind ]> t1), rest.
  unfold define, bind_top. simpl. rewrite Hs1. simpl.
  split; [done |]. split; [done |]. split; [| done].
  unfold scope in *. rewrite list_to_set_app_L, dom_insert_L. intros x Hin.
  apply elem_of_union in Hin as [Hin | Hin].
  - apply elem_of_union_r, elem_of_union_r, elem_of_list_to_set.
    apply elem_of_singleton in Hin as ->. apply list_elem_of_here.
  - apply Hd1 in Hin. apply elem_of_union in Hin as [Hin | Hin].
    + by apply elem_of_union_l.
    + by apply elem_of_union_r, elem_of_union_l.
Qed.

Lemma parameters_bound params :
  ∀ a top rest,
    scopes a = top :: rest →
    ∃ top',
      scopes (fold_left
                (λ a param,
                   bind_top param (VariableSymbol (Some "any") "param") a)
                params a)
      = top' :: rest
      ∧ dom top' ≡ dom top ∪ list_to_set params
      ∧ errors (fold_left
                  (λ a param,
                     bind_top param (VariableSymbol (Some "any") "param") a)
                  params a)
        = errors a.
Proof.
  induction params as [| p params IH]; intros a top rest Hs; simpl.
  - exists top. split; [done |]. split; [| done].
    intros x. split; [apply elem_of_union_l |]. intros Hx.
    apply elem_of_union in Hx as [Hx | Hx]; [done |].
    by apply not_elem_of_empty in Hx.
  - destruct (IH (bind_top p (VariableSymbol (Some "any") "param") a)
                (<[ p := VariableSymbol (Some "any") "param" ]> top) rest)
      as (top' & Hs' & Hd & He).
    { simpl. by rewrite Hs. }
    exists top'. split; [done |]. split; [| done].
    unfold scope in *. rewrite Hd, dom_insert_L.
    rewrite (comm (∪) {[p]} (dom top)). by rewrite (assoc (∪)).
Qed.

Lemma visitNode_silently n : silently n.
Proof.
  induction n as [body IH | kind declarations IH | name params body IH
                 | body IH | e IH | o l r IHl IHr | c args IHc IHargs
                 | name | v | t c alt IHt IHc IHalt
                 | i t u b IHi IHt IHu IHb | t b IHt IHb | arg IHarg
                 | l r IHl IHr | ty]
    using IRGeneratorProps.node_induction; unfold silently.
  - intros a Hne Hnd Hfresh. rewrite visit_program.
    destruct (silent_each declared_names _ body IH a Hne Hnd Hfresh)
      as (a' & -> & Hq).
    by exists a'.
  - intros a Hne Hnd Hfresh. rewrite visit_declarations.
    destruct (silent_each _ (declarator kind) declarations
                (Forall_impl _ _ _ IH (λ d Hd, silent_declarator kind d Hd))
                a Hne Hnd Hfresh) as (a' & -> & Hq).
    by exists a'.
  - intros a Hne Hnd Hfresh. cbn [visitNode declared_names] in *.
    destruct (scopes a) as [| top rest] eqn:Hs; [done |]. simpl.
    set (a1 := define name (FunctionSymbol params) a).
    assert (Hs1 : scopes a1 = <[ name := FunctionSymbol params ]> top :: rest)
      by (subst a1; unfold define, bind_top; simpl; by rewrite Hs).
    assert (He1 : errors a1 = errors a) by done.
    destruct (parameters_bound params (push_scope a1) ∅ (scopes a1) eq_refl)
      as (top' & Hs' & Hd & He).
    apply NoDup_cons in Hnd as [Hname Hnd].
    apply NoDup_app in Hnd as (_ & Hdis & Hnd).
    destruct (silent_pushed (declared_names body) _ a1 _ top'
                ltac:(by rewrite Hs1) Hs' He IH Hnd)
      as (a' & Hrun & Hs0 & He0).
    { intros x Hx Hin. apply Hd in Hin.
      apply elem_of_union in Hin as [Hin | Hin].
      - unfold scope in *. by rewrite dom_empty_L in Hin.
      - apply elem_of_list_to_set in Hin. by apply (Hdis x). }
    destruct (visitNode body _) as [[r a''] |]; [| done]. simpl in Hrun.
    injection Hrun as ->. simpl.
    eexists. split; [reflexivity |].
    exists top, (<[ name := FunctionSymbol params ]> top), rest.
    split; [done |]. split; [by rewrite Hs0, Hs1 |].
    split; [| simpl; congruence].
    unfold scope in *. rewrite dom_insert_L. intros x Hx.
    apply elem_of_union in Hx as [Hx | Hx].
    + apply elem_of_union_r, elem_of_list_to_set, elem_of_cons. left.
      by apply elem_of_singleton in Hx.
    + by apply elem_of_union_l.
  - intros a Hne Hnd Hfresh.
    change (visitNode (BlockStatement body) a)
      with (visitNode (Program body) a).
    rewrite visit_program.
    destruct (silent_each declared_names _ body IH a Hne Hnd Hfresh)
      as (a' & -> & Hq).
    by exists a'.
  - exact IH.
  - intros a Hne Hnd Hfresh. cbn [visitNode declared_names] in *.
    destruct (silent_then _ _ _ _ IHl IHr a Hne Hnd Hfresh) as (a' & Hrun & Hq).
    destruct (visitNode l a) as [[r1 a1] |]; [| done]. simpl in *.
    destruct (visitNode r a1) as [[r2 a2] |]; [| done]. simpl in *.
    injection Hrun as ->. by exists a'.
  - intros a Hne Hnd Hfresh. cbn [visitNode declared_names] in *.
    destruct (silent_then _ _ _ _ IHc (silent_each declared_names _ args IHargs)
                a Hne Hnd Hfresh) as (a' & Hrun & Hq).
    destruct (visitNode c a) as [[r1 a1] |]; [| done]. simpl in *.
    rewrite Hrun. by exists a'.
  - intros a Hne _ _. exists a. split; [done | by apply quiet_refl].
  - intros a Hne _ _. exists a. split; [done | by apply quiet_refl].
  - intros a Hne Hnd Hfresh. cbn [visitNode declared_names] in *.
    assert (Halt : silent match alt with Some e => declared_names e | None => [] end
                     (λ a, match alt with
                           | Some e => r ← visitNode e a; Some r.2
                           | None => Some a
                           end)).
    { destruct alt as [e |]; [exact IHalt | apply silent_skip]. }
    destruct (silent_then _ _ _ _ IHt (silent_then _ _ _ _ IHc Halt)
                a Hne Hnd Hfresh) as (a' & Hrun & Hq).
    destruct (visitNode t a) as [[r1 a1] |]; [| done]. simpl in *.
    destruct (visitNode c a1) as [[r2 a2] |]; [| done]. simpl in *.
    rewrite Hrun. by exists a'.
  - intros a Hne Hnd Hfresh. cbn [visitNode declared_names] in *.
    destruct (silent_pushed _ _ a (push_scope a) ∅ Hne eq_refl eq_refl
                (silent_then _ _ _ _ IHi
                   (silent_then _ _ _ _ IHt (silent_then _ _ _ _ IHu IHb)))
                Hnd ltac:(intros x _; unfold scope; by rewrite dom_empty_L))
      as (a' & Hrun & Hs' & He').
    destruct (visitNode i (push_scope a)) as [[r1 a1] |]; [| done]. simpl in *.
    destruct (visitNode t a1) as [[r2 a2] |]; [| done]. simpl in *.
    destruct (visitNode u a2) as [[r3 a3] |]; [| done]. simpl in *.
    destruct (visitNode b a3) as [[r4 a4] |]; [| done]. simpl in *.
    injection Hrun as <-. eexists. split; [reflexivity |].
    by apply quiet_same.
  - intros a Hne Hnd Hfresh. cbn [visitNode declared_names] in *.
    destruct (silent_then _ _ _ _ IHt IHb a Hne Hnd Hfresh)
      as (a' & Hrun & Hq).
    destruct (visitNode t a) as [[r1 a1] |]; [| done]. simpl in *.
    destruct (visitNode b a1) as [[r2 a2] |]; [| done]. simpl in *.
    injection Hrun as ->. by exists a'.
  - destruct arg as [e |]; [exact IHarg |].
    intros a Hne _ _. exists a. split; [done | by apply quiet_refl].
  - intros a Hne _ _. exists a. split; [done | by apply quiet_refl].
  - intros a Hne _ _. exists a. split; [done | by apply quiet_refl].
Qed.

(** X21. A program in which the names of the variables, of the
    functions and of their parameters are all different, and none of
    them is in the current scope already, passes the analysis: no
    semantic error is reported. *)
Theorem analyze_accepts_distinct_names (body : list node) a :
  scopes a ≠ [] → errors a = [] →
  NoDup (declared_names (Program body)) →
  (∀ x, x ∈ declared_names (Program body) → ¬ declares x a) →
  ∃ a', analyze (Program body) a = Analyzed a'.
Proof.
  intros Hne He Hnd Hfresh. unfold analyze.
  destruct (visitNode_silently (Program body) a Hne Hnd Hfresh)
    as (a' & Hrun & (t & t' & r & _ & _ & _ & He')).
  destruct (visitNode (Program body) a) as [[ty a''] |]; [| done].
  simpl in Hrun. injection Hrun as ->. rewrite He', He. by exists a'.
Qed.

End WithNumbers.

Import ExactNum.

Abbreviation node := (CompilerAst.node xnum).

Definition one : node := Literal (LNum (fin 1)).

(** [def f(p) { for i = 1 to 1 { let y = 1 } }] *)
Definition nested : node :=
  FunctionDeclaration "f" ["p"]
    (BlockStatement
       [ForStatement (VariableDeclaration "let" [("i", Some one)])
          (BinaryExpression "<=" (Identifier "i") one)
          (Unvisited UpdateExpression)
          (BlockStatement [VariableDeclaration "let" [("y", Some one)]])]).

Lemma visitNode_restores_scopes_witness :
  ∃ type a' top top' rest new,
    visitNode nested (new_analyzer ∅) = Some (type, a')
    ∧ scopes (new_analyzer ∅) = top :: rest ∧ scopes a' = top' :: rest
    ∧ dom top ⊆ dom top'
    ∧ errors a' = errors (new_analyzer ∅) ++ new.
Proof. by apply (visitNode_restores_scopes nested (new_analyzer ∅)). Defined.

Example visit_nested :
  (λ r : type_name * analyzer, (dom <$> scopes r.2, errors r.2))
    <$> visitNode nested (new_analyzer ∅)
  = Some ([{["f"]}], []).
Proof. vm_compute. reflexivity. Qed.

Lemma analyze_reports_redeclaration_witness :
  ∃ message,
    analyze
      (Program ([ExpressionStatement one]
                ++ VariableDeclaration "let" [("x", None)]
                :: [nested]
                ++ VariableDeclaration "const" [("x", Some one)] :: []))
      (new_analyzer ∅)
    = SemanticErrors message.
Proof.
  apply (analyze_reports_redeclaration "x" "let" "const");
    [done | apply list_elem_of_here | apply list_elem_of_here].
Defined.

(** The braces of a block, of a branch or of a loop body open no
    scope, and the parameters of a function are in the scope of its
    body. *)
Example redeclaration_in_block :
  analyze
    (Program [VariableDeclaration "let" [("x", None)];
              WhileStatement one
                (BlockStatement [VariableDeclaration "let" [("x", None)]])])
    (new_analyzer ∅)
  = SemanticErrors
      ("Semantic errors:" +:+ line_break
       +:+ "Variable 'x' is already declared in this scope")
  ∧ analyze (num:=xnum)
      (Program [FunctionDeclaration "f" ["x"]
                  (BlockStatement [VariableDeclaration "let" [("x", None)]])])
      (new_analyzer ∅)
    = SemanticErrors
        ("Semantic errors:" +:+ line_break
         +:+ "Variable 'x' is already declared in this scope").
Proof. split; vm_compute; reflexivity. Qed.

Lemma analyze_accepts_distinct_names_witness :
  ∃ a',
    analyze (Program [VariableDeclaration "let" [("x", Some one)]; nested])
      (new_analyzer ∅)
    = Analyzed a'.
Proof.
  apply analyze_accepts_distinct_names.
  - done.
  - done.
  - apply (bool_decide_unpack _). vm_compute. exact I.
  - intros x _ (top & rest & Hs & Hx). injection Hs as <- <-.
    by apply not_elem_of_empty in Hx.
Defined.

(** A function may declare again a name of the scope around it; the
    names need not be all different for the analysis to pass. *)
Example function_shadows :
  ∃ a',
    analyze
      (Program [VariableDeclaration "let" [("x", Some one)];
                FunctionDeclaration "f" []
                  (BlockStatement [VariableDeclaration "let" [("x", None)]])])
      (new_analyzer ∅)
    = Analyzed a'.
Proof. eexists. vm_compute. reflexivity. Qed.

End SemanticAnalyzerProps.

(** ** The lexer *)

Module LexerProps.

Import Lexer.

Local Open Scope nat_scope.

Section WithNumbers.
Context {num : Type} `{JsNumber num}.

Abbreviation lexer := (Lexer.lexer num).
Abbreviation Token := (Lexer.Token num).
Abbreviation segment := (Lexer.segment num).

Implicit Types lx : lexer.
Implicit Types t : Token.

(** *** Substrings *)

Lemma substring_empty (l : list ascii) a : substring l a a = [].
Proof. unfold substring. by rewrite Nat.sub_diag. Qed.

Lemma substring_split (l : list ascii) a m b :
  a ≤ m → m ≤ b → substring l a m ++ substring l m b = substring l a b.
Proof.
  intros Ham Hmb. unfold substring.
  replace (drop m l) with (drop (m - a) (drop a l))
    by (rewrite drop_drop; f_equal; lia).
  rewrite take_take_drop. f_equal. lia.
Qed.

Lemma substring_all (l : list ascii) b : length l ≤ b → substring l 0 b = l.
Proof. intros Hb. unfold substring. simpl. apply take_ge. lia. Qed.

Lemma substring_cons (l : list ascii) a b c :
  l !! a = Some c → a < b → substring l a b = c :: substring l (S a) b.
Proof.
  intros Hc Hab. unfold substring.
  rewrite (drop_S l c a Hc).
  replace (b - a) with (S (b - S a)) by lia. done.
Qed.

(** *** Reading moves forward *)

(** [lx'] is [lx] after some characters were read. *)
Definition advanced (lx lx' : lexer) : Prop :=
  input lx' = input lx ∧ tokens lx' = tokens lx ∧ position lx ≤ position lx'.

Lemma advanced_refl lx : advanced lx lx.
Proof. by repeat split. Qed.

Lemma advanced_trans lx1 lx2 lx3 :
  advanced lx1 lx2 → advanced lx2 lx3 → advanced lx1 lx3.
Proof.
  intros (Hi & Ht & Hp) (Hi' & Ht' & Hp'). repeat split; try congruence. lia.
Qed.

Lemma advance_input lx : input (advance lx) = input lx.
Proof. unfold advance. by case_bool_decide. Qed.

Lemma advance_tokens lx : tokens (advance lx) = tokens lx.
Proof. unfold advance. by case_bool_decide. Qed.

Lemma advance_position lx : position (advance lx) = S (position lx).
Proof. unfold advance. by case_bool_decide. Qed.

Lemma advance_advanced lx : advanced lx (advance lx).
Proof.
  repeat split; [apply advance_input | apply advance_tokens |].
  rewrite advance_position. lia.
Qed.

Lemma current_advance lx : current (advance lx) = peek lx.
Proof.
  unfold current, peek. rewrite advance_input, advance_position.
  f_equal. lia.
Qed.

Lemma current_remaining lx c : current lx = Some c → 0 < remaining lx.
Proof.
  unfold current, remaining. intros Hc. apply lookup_lt_Some in Hc. lia.
Qed.

Lemma peek_remaining lx c : peek lx = Some c → 1 < remaining lx.
Proof.
  unfold peek, remaining. intros Hc. apply lookup_lt_Some in Hc. lia.
Qed.

Lemma advance_while_advanced p n lx : advanced lx (advance_while p n lx).
Proof.
  revert lx. induction n as [| n IH]; intros lx; simpl; [apply advanced_refl |].
  destruct (current lx) as [c |]; [| apply advanced_refl].
  destruct (p c); [| apply advanced_refl].
  eapply advanced_trans; [apply advance_advanced | apply IH].
Qed.

(** With a first character that passes the test, the loop reads it. *)
Lemma advance_while_first p n lx c :
  current lx = Some c → p c = true → 0 < n →
  advance_while p n lx = advance_while p (pred n) (advance lx).
Proof.
  intros Hc Hp Hn. destruct n as [| n]; [lia |]. simpl. by rewrite Hc, Hp.
Qed.

Lemma advance_while_progress p n lx c :
  current lx = Some c → p c = true → 0 < n →
  position lx < position (advance_while p n lx).
Proof.
  intros Hc Hp Hn. rewrite (advance_while_first p n lx c) by done.
  destruct (advance_while_advanced p (pred n) (advance lx)) as (_ & _ & Hle).
  rewrite advance_position in Hle. lia.
Qed.

(** The characters read by the loop all pass its test. *)
Lemma advance_while_all p n lx :
  Forall (λ c, p c = true)
    (substring (input lx) (position lx) (position (advance_while p n lx))).
Proof.
  revert lx. induction n as [| n IH]; intros lx; simpl.
  { rewrite substring_empty. constructor. }
  destruct (current lx) as [c |] eqn:Hc;
    [| rewrite substring_empty; constructor].
  destruct (p c) eqn:Hp; [| rewrite substring_empty; constructor].
  destruct (advance_while_advanced p n (advance lx)) as (_ & _ & Hle).
  rewrite advance_position in Hle.
  rewrite (substring_cons _ _ _ c) by (done || lia).
  constructor; [done |].
  specialize (IH (advance lx)).
  by rewrite advance_input, advance_position in IH.
Qed.

Lemma block_comment_loop_advanced n lx :
  advanced lx (block_comment_loop n lx).
Proof.
  revert lx. induction n as [| n IH]; intros lx; simpl; [apply advanced_refl |].
  destruct (current lx) as [c |]; [| apply advanced_refl].
  destruct (_ && _).
  - eapply advanced_trans; apply advance_advanced.
  - eapply advanced_trans; [apply advance_advanced | apply IH].
Qed.

Lemma string_loop_advanced quote n value lx value' lx' :
  string_loop quote n value lx = (value', lx') → advanced lx lx'.
Proof.
  revert value lx. induction n as [| n IH]; intros value lx Hloop; simpl in Hloop.
  { injection Hloop as _ <-. apply advanced_refl. }
  destruct (current lx) as [c |];
    [| injection Hloop as _ <-; apply advanced_refl].
  destruct (Ascii.eqb c quote);
    [injection Hloop as _ <-; apply advanced_refl |].
  destruct (Ascii.eqb c "\").
  - apply IH in Hloop.
    eapply advanced_trans; [apply advance_advanced |].
    eapply advanced_trans; [apply advance_advanced | exact Hloop].
  - apply IH in Hloop.
    eapply advanced_trans; [apply advance_advanced | exact Hloop].
Qed.

(** [lx'] is [lx] after at least one character was read. *)
Definition moved (lx lx' : lexer) : Prop :=
  advanced lx lx' ∧ position lx < position lx'.

Lemma moved_after lx lx' : advanced (advance lx) lx' → moved lx lx'.
Proof.
  intros Hadv. split.
  - eapply advanced_trans; [apply advance_advanced | exact Hadv].
  - destruct Hadv as (_ & _ & Hle). rewrite advance_position in Hle. lia.
Qed.

Lemma moved_advanced lx1 lx2 lx3 :
  moved lx1 lx2 → advanced lx2 lx3 → moved lx1 lx3.
Proof.
  intros [Hadv Hlt] Hadv'. split; [by eapply advanced_trans |].
  destruct Hadv' as (_ & _ & Hle). lia.
Qed.

Lemma readIdentifierOrKeyword_moved lx c t lx' :
  current lx = Some c → isLetter c = true →
  readIdentifierOrKeyword lx = (t, lx') → moved lx lx'.
Proof.
  intros Hc Hl Hread. unfold readIdentifierOrKeyword in Hread.
  injection Hread as _ <-. split; [apply advance_while_advanced |].
  apply (advance_while_progress _ _ _ c); [done | | by eapply current_remaining].
  unfold isAlphaNumeric. by rewrite Hl.
Qed.

Lemma readNumber_moved lx c t lx' :
  current lx = Some c → isDigit c = true →
  readNumber lx = (t, lx') → moved lx lx'.
Proof.
  intros Hc Hd Hread. unfold readNumber in Hread.
  injection Hread as _ <-.
  set (lx1 := advance_while isDigit (remaining lx) lx).
  assert (H1 : moved lx lx1).
  { split; [apply advance_while_advanced |].
    apply (advance_while_progress _ _ _ c); [done | done |].
    by eapply current_remaining. }
  set (lx2 := if _ && _ then _ else lx1).
  assert (H2 : advanced lx1 lx2).
  { subst lx2. destruct (_ && _); [| apply advanced_refl].
    eapply advanced_trans; [apply advance_advanced |].
    apply advance_while_advanced. }
  eapply moved_advanced; [eapply moved_advanced; [exact H1 | exact H2] |].
  destruct (_ || _); [| apply advanced_refl].
  eapply advanced_trans; [apply advance_advanced |].
  eapply advanced_trans; [| apply advance_while_advanced].
  destruct (_ || _); [apply advance_advanced | apply advanced_refl].
Qed.

Lemma readString_moved quote lx t lx' :
  readString quote lx = Ok (t, lx') → moved lx lx'.
Proof.
  unfold readString. intros Hread.
  destruct (string_loop _ _ _ _) as [value lx1] eqn:Hloop.
  apply string_loop_advanced in Hloop.
  destruct (bool_decide _); [| discriminate Hread].
  injection Hread as _ <-. apply moved_after.
  eapply advanced_trans; [exact Hloop | apply advance_advanced].
Qed.

Lemma readOperator_moved c lx t lx' :
  readOperator c lx = Some (t, lx') → moved lx lx'.
Proof.
  unfold readOperator. intros Hread.
  destruct (table_get twoCharOps _).
  - injection Hread as _ <-. apply moved_after, advance_advanced.
  - destruct (table_get oneCharOps _); [| discriminate Hread].
    injection Hread as _ <-. apply moved_after, advanced_refl.
Qed.

(** *** Discarded text *)

Definition newline : ascii := "010"%char.

Definition is_whitespace (t : list ascii) : Prop :=
  Forall (λ c, isSpace c = true) t.

(** [//] and the rest of the line, without its newline. *)
Definition is_line_comment (t : list ascii) : Prop :=
  ∃ rest, t = "/"%char :: "/"%char :: rest ∧ Forall (λ c, c ≠ newline) rest.

(** The text [*/] does not occur in [t]. *)
Definition unclosed (t : list ascii) : Prop :=
  ∀ before after, t ≠ before ++ "*"%char :: "/"%char :: after.

(** The opening of a block comment and what follows it, up to and
    including the first closing, or up to the end of the input when
    there is no closing ([at_end]). *)
Definition is_block_comment (t : list ascii) (at_end : Prop) : Prop :=
  ∃ rest,
    t = "/"%char :: "*"%char :: rest
    ∧ ((∃ body, rest = body ++ ["*"%char; "/"%char] ∧ unclosed body)
       ∨ (unclosed rest ∧ at_end)).

(** The text between [a] and [b] is whitespace, a line comment or a
    block comment. *)
Definition discarded (inp : list ascii) (a b : nat) : Prop :=
  is_whitespace (substring inp a b)
  ∨ is_line_comment (substring inp a b)
  ∨ is_block_comment (substring inp a b) (b = length inp).

Lemma skipWhitespace_spec lx :
  advanced lx (skipWhitespace lx)
  ∧ is_whitespace
      (substring (input lx) (position lx) (position (skipWhitespace lx))).
Proof. split; [apply advance_while_advanced | apply advance_while_all]. Qed.

Lemma eqb_char c d : Ascii.eqb c d = true → c = d.
Proof. apply Ascii.eqb_eq. Qed.

Lemma skipLineComment_spec lx c :
  current lx = Some c → Ascii.eqb c "/" = true → peek lx = Some "/"%char →
  moved lx (skipLineComment lx)
  ∧ is_line_comment
      (substring (input lx) (position lx) (position (skipLineComment lx))).
Proof.
  intros Hc Hslash Hpeek. apply eqb_char in Hslash as ->.
  pose proof (peek_remaining lx _ Hpeek) as Hrem.
  unfold skipLineComment.
  set (p := λ c : ascii, negb (Ascii.eqb c "010")).
  pose proof (advance_while_all p (remaining lx) lx) as Hall.
  rewrite (advance_while_first p _ lx "/"%char) in * by (done || lia).
  rewrite (advance_while_first p _ (advance lx) "/"%char) in *
    by (rewrite ?current_advance; done || lia).
  set (lx' := advance_while p _ _) in *.
  assert (Hadv : advanced (advance (advance lx)) lx')
    by apply advance_while_advanced.
  assert (Hpos : S (S (position lx)) ≤ position lx').
  { destruct Hadv as (_ & _ & Hle). by rewrite !advance_position in Hle. }
  split.
  - apply moved_after.
    eapply advanced_trans; [apply advance_advanced | exact Hadv].
  - rewrite (substring_cons _ _ _ "/"%char) in * by (done || lia).
    rewrite (substring_cons _ _ _ "/"%char) in *
      by (first [lia | by unfold peek in Hpeek;
                        rewrite Nat.add_1_r in Hpeek]).
    eexists. split; [reflexivity |].
    apply Forall_cons in Hall as [_ Hall]. apply Forall_cons in Hall as [_ Hall].
    eapply Forall_impl; [exact Hall |]. intros d Hd ->. discriminate Hd.
Qed.

Lemma skipBlockComment_spec lx c :
  current lx = Some c → Ascii.eqb c "/" = true → peek lx = Some "*"%char →
  moved lx (skipBlockComment lx).
Proof.
  intros Hc Hslash Hpeek. unfold skipBlockComment.
  apply moved_after.
  eapply advanced_trans; [apply advance_advanced |].
  apply block_comment_loop_advanced.
Qed.

(** *** The segments tile the input *)

Definition seg_start (s : segment) : nat :=
  match s with
  | Skipped a _ | Lexeme _ a _ => a
  end.

Definition seg_stop (s : segment) : nat :=
  match s with
  | Skipped _ b | Lexeme _ _ b => b
  end.

(** Each segment starts where the one before it stops: they run from
    [a] to [b] without gap or overlap. *)
Fixpoint chained (a : nat) (segs : list segment) (b : nat) : Prop :=
  match segs with
  | [] => a = b
  | s :: rest =>
      seg_start s = a ∧ a ≤ seg_stop s ∧ chained (seg_stop s) rest b
  end.

Lemma chained_snoc a segs m (s : segment) :
  chained a segs m → seg_start s = m → m ≤ seg_stop s →
  chained a (segs ++ [s]) (seg_stop s).
Proof.
  revert a. induction segs as [| s0 segs IH]; intros a Hch Hs Hle; simpl in *.
  - subst. done.
  - destruct Hch as (H1 & H2 & H3). repeat split; try done. by apply IH.
Qed.

Lemma chained_le a segs b : chained a segs b → a ≤ b.
Proof.
  revert a. induction segs as [| s segs IH]; intros a Hch; simpl in *.
  - lia.
  - destruct Hch as (H1 & H2 & H3). apply IH in H3. lia.
Qed.

Lemma segment_text_bounds inp (s : segment) :
  segment_text inp s = substring inp (seg_start s) (seg_stop s).
Proof. by destruct s. Qed.

Lemma chained_concat inp a segs b :
  chained a segs b → concat (segment_text inp <$> segs) = substring inp a b.
Proof.
  revert a. induction segs as [| s segs IH]; intros a Hch.
  - simpl in *. subst. by rewrite substring_empty.
  - destruct Hch as (H1 & H2 & H3).
    change (concat (segment_text inp <$> s :: segs))
      with (segment_text inp s ++ concat (segment_text inp <$> segs)).
    rewrite (IH _ H3), segment_text_bounds, H1.
    apply substring_split; [done |]. by eapply chained_le.
Qed.

(** The segments so far run from the start of the input to the
    position of the lexer, and the tokens so far are those of the
    lexemes among them. *)
Record invariant (inp : list ascii) lx (segs : list segment) : Prop := {
  inv_input : input lx = inp;
  inv_chained : chained 0 segs (position lx);
  inv_tokens : tokens lx = segs ≫= segment_token
}.

Lemma invariant_skip inp lx lx' segs :
  invariant inp lx segs → advanced lx lx' →
  invariant inp lx' (segs ++ [Skipped (position lx) (position lx')]).
Proof.
  intros [Hi Hc Ht] (Hi' & Ht' & Hle). split.
  - congruence.
  - by apply (chained_snoc 0 segs (position lx)
                (Skipped (position lx) (position lx'))).
  - rewrite bind_app, Ht', Ht. simpl. by rewrite app_nil_r.
Qed.

Lemma invariant_push inp lx lx' t segs :
  invariant inp lx segs → moved lx lx' →
  invariant inp (push t lx')
    (segs ++ [Lexeme t (position lx) (position lx')]).
Proof.
  intros [Hi Hc Ht] [(Hi' & Ht' & Hle) Hlt]. split; simpl.
  - congruence.
  - by apply (chained_snoc 0 segs (position lx)
                (Lexeme t (position lx) (position lx'))).
  - rewrite bind_app, Ht', Ht. done.
Qed.

(** The loop maintains the invariant and stops at the end of the
    input. *)
Lemma tokenize_loop_invariant inp n :
  ∀ lx (segs : list segment) lx' segs',
    invariant inp lx segs →
    tokenize_loop n lx segs = Ok (lx', segs') →
    invariant inp lx' segs' ∧ length inp ≤ position lx'.
Proof.
  induction n as [| n IH]; intros lx segs lx' segs' Hinv Hloop;
    [discriminate Hloop |].
  cbn [tokenize_loop] in Hloop.
  destruct (position lx <? length (input lx)) eqn:Hlt.
  2:{ injection Hloop as <- <-. split; [done |].
      apply Nat.ltb_ge in Hlt. by rewrite <- (inv_input _ _ _ Hinv). }
  destruct (skipWhitespace_spec lx) as [Hadv _].
  pose proof (invariant_skip inp lx _ segs Hinv Hadv) as Hinv1.
  set (lx1 := skipWhitespace lx) in *.
  set (segs1 := segs ++ _) in *. clearbody segs1. clear Hinv Hadv Hlt.
  destruct (current lx1) as [c |] eqn:Hc.
  2:{ injection Hloop as <- <-. split; [done |].
      rewrite <- (inv_input _ _ _ Hinv1). by apply lookup_ge_None. }
  assert (Hinp := inv_input _ _ _ Hinv1).
  destruct (isLetter c) eqn:Hletter.
  { destruct (readIdentifierOrKeyword lx1) as [t lx2] eqn:Hread.
    apply (IH _ _ _ _ (invariant_push inp lx1 lx2 t segs1 Hinv1
             (readIdentifierOrKeyword_moved lx1 c t lx2 Hc Hletter Hread))
             Hloop). }
  destruct (isDigit c) eqn:Hdigit.
  { destruct (readNumber lx1) as [t lx2] eqn:Hread.
    apply (IH _ _ _ _ (invariant_push inp lx1 lx2 t segs1 Hinv1
             (readNumber_moved lx1 c t lx2 Hc Hdigit Hread)) Hloop). }
  destruct (_ || _).
  { destruct (readString c lx1) as [[t lx2] | |] eqn:Hread;
      [| discriminate Hloop | discriminate Hloop].
    apply (IH _ _ _ _ (invariant_push inp lx1 lx2 t segs1 Hinv1
             (readString_moved c lx1 t lx2 Hread)) Hloop). }
  destruct (Ascii.eqb c "/" && bool_decide (peek lx1 = Some "/"%char)) eqn:Hline.
  { apply andb_true_iff in Hline as [Hslash Hpeek].
    apply bool_decide_eq_true in Hpeek.
    destruct (skipLineComment_spec lx1 c Hc Hslash Hpeek) as [[Hadv _] _].
    apply (IH _ _ _ _ (invariant_skip inp lx1 _ segs1 Hinv1 Hadv) Hloop). }
  destruct (Ascii.eqb c "/" && bool_decide (peek lx1 = Some "*"%char)) eqn:Hblock.
  { apply andb_true_iff in Hblock as [Hslash Hpeek].
    apply bool_decide_eq_true in Hpeek.
    destruct (skipBlockComment_spec lx1 c Hc Hslash Hpeek) as [Hadv _].
    apply (IH _ _ _ _ (invariant_skip inp lx1 _ segs1 Hinv1 Hadv) Hloop). }
  destruct (readOperator c lx1) as [[t lx2] |] eqn:Hread; [| discriminate Hloop].
  apply (IH _ _ _ _ (invariant_push inp lx1 lx2 t segs1 Hinv1
           (readOperator_moved c lx1 t lx2 Hread)) Hloop).
Qed.

(** Each step that continues the loop reads at least one character, so
    one unit of fuel per character is enough. *)
Lemma tokenize_loop_fuel n :
  ∀ lx (segs : list segment),
    length (input lx) - position lx < n → tokenize_loop n lx segs ≠ OutOfFuel.
Proof.
  induction n as [| n IH]; intros lx segs Hn; [lia |].
  cbn [tokenize_loop].
  destruct (position lx <? length (input lx)) eqn:Hlt; [| done].
  apply Nat.ltb_lt in Hlt.
  destruct (skipWhitespace_spec lx) as [(Hi & _ & Hle) _].
  set (lx1 := skipWhitespace lx) in *.
  set (segs1 := segs ++ _). clearbody segs1.
  assert (Hgo : ∀ lx2 t segs2, moved lx1 lx2 →
            tokenize_loop n (push t lx2) segs2 ≠ OutOfFuel).
  { intros lx2 t segs2 [(Hi2 & _ & _) Hlt2]. apply IH. simpl.
    rewrite Hi2, Hi. lia. }
  assert (Hskip : ∀ lx2 segs2, moved lx1 lx2 →
            tokenize_loop n lx2 segs2 ≠ OutOfFuel).
  { intros lx2 segs2 [(Hi2 & _ & _) Hlt2]. apply IH.
    rewrite Hi2, Hi. lia. }
  destruct (current lx1) as [c |] eqn:Hc; [| done].
  destruct (isLetter c) eqn:Hletter.
  { destruct (readIdentifierOrKeyword lx1) as [t lx2] eqn:Hread.
    by eapply Hgo, readIdentifierOrKeyword_moved. }
  destruct (isDigit c) eqn:Hdigit.
  { destruct (readNumber lx1) as [t lx2] eqn:Hread.
    by eapply Hgo, readNumber_moved. }
  destruct (_ || _).
  { destruct (readString c lx1) as [[t lx2] | |] eqn:Hread; try done.
    - by eapply Hgo, readString_moved.
    - exfalso. unfold readString in Hread.
      destruct (string_loop _ _ _ _). by destruct (bool_decide _). }
  destruct (Ascii.eqb c "/" && bool_decide (peek lx1 = Some "/"%char)) eqn:Hline.
  { apply andb_true_iff in Hline as [Hslash Hpeek].
    apply bool_decide_eq_true in Hpeek.
    by eapply Hskip, skipLineComment_spec. }
  destruct (Ascii.eqb c "/" && bool_decide (peek lx1 = Some "*"%char)) eqn:Hblock.
  { apply andb_true_iff in Hblock as [Hslash Hpeek].
    apply bool_decide_eq_true in Hpeek.
    by eapply Hskip, skipBlockComment_spec. }
  destruct (readOperator c lx1) as [[t lx2] |] eqn:Hread; [| done].
  by eapply Hgo, readOperator_moved.
Qed.

(** X11. The lexer comes to an end on every text: each step of its loop
    reads at least one character, so it returns the tokens or throws
    an error. *)
Theorem tokenize_terminates (text : string) :
  tokenize (num:=num) text ≠ OutOfFuel.
Proof.
  unfold tokenize, tokenize_segments.
  pose proof (tokenize_loop_fuel
                (S (length (input (new_lexer (num:=num) text))))
                (new_lexer text) []) as Hfuel.
  destruct (tokenize_loop _ _ _) as [[lx segs] | |]; simpl; try done.
  exfalso. apply Hfuel; [| done]. simpl. lia.
Qed.

(** *** Lines and columns *)

(** The number of leading elements that pass a test. *)
Fixpoint run_length {A} (p : A → bool) (l : list A) : nat :=
  match l with
  | x :: l' => if p x then S (run_length p l') else 0
  | [] => 0
  end.

Definition is_newline (c : ascii) : bool := Ascii.eqb c newline.

(** The line and the column reached after the text [prefix]: one more
    than the number of newlines in it, and one more than the number of
    characters after the last of them. *)
Definition line_at (prefix : list ascii) : nat :=
  S (length (List.filter is_newline prefix)).

Definition column_at (prefix : list ascii) : nat :=
  S (run_length (λ c, negb (is_newline c)) (reverse prefix)).

(** The lexer is inside its input and its line and column are those of
    its position. *)
Definition tracked lx : Prop :=
  position lx ≤ length (input lx)
  ∧ cur_line lx = line_at (take (position lx) (input lx))
  ∧ cur_column lx = column_at (take (position lx) (input lx)).

Lemma tracked_advance lx c :
  tracked lx → current lx = Some c → tracked (advance lx).
Proof.
  intros (Hp & Hl & Hc) Hcur. unfold tracked.
  rewrite advance_input, advance_position.
  assert (Hb : bool_decide (current lx = Some "010"%char) = is_newline c).
  { rewrite Hcur. unfold is_newline, newline.
    destruct (Ascii.eqb c "010") eqn:Heq.
    - apply Ascii.eqb_eq in Heq as ->. by apply bool_decide_eq_true.
    - apply bool_decide_eq_false. intros [= ->].
      by rewrite Ascii.eqb_refl in Heq. }
  unfold current in Hcur.
  rewrite (take_S_r _ _ _ Hcur).
  unfold line_at, column_at in *.
  rewrite List.filter_app, length_app, reverse_app.
  split; [by apply lookup_lt_Some in Hcur |].
  unfold advance. rewrite Hb.
  destruct (is_newline c) eqn:Hn; simpl; rewrite Hn; simpl.
  - split; [lia | done].
  - split; [lia | by rewrite Hc].
Qed.

Lemma tracked_advance_while p n lx :
  tracked lx → tracked (advance_while p n lx).
Proof.
  revert lx. induction n as [| n IH]; intros lx Ht; simpl; [done |].
  destruct (current lx) as [c |] eqn:Hc; [| done].
  destruct (p c); [| done]. apply IH. by eapply tracked_advance.
Qed.

Lemma tracked_advance_twice lx c d :
  tracked lx → current lx = Some c → peek lx = Some d →
  tracked (advance (advance lx)).
Proof.
  intros Ht Hc Hd. apply (tracked_advance _ d).
  - by eapply tracked_advance.
  - by rewrite current_advance.
Qed.

Lemma tracked_block_comment_loop n lx :
  tracked lx → tracked (block_comment_loop n lx).
Proof.
  revert lx. induction n as [| n IH]; intros lx Ht; simpl; [done |].
  destruct (current lx) as [c |] eqn:Hc; [| done].
  destruct (Ascii.eqb c "*" && bool_decide (peek lx = Some "/"%char)) eqn:Hend.
  - apply andb_true_iff in Hend as [_ Hpeek].
    apply bool_decide_eq_true in Hpeek. by eapply tracked_advance_twice.
  - apply IH. by eapply tracked_advance.
Qed.

Lemma tracked_string_loop quote n value lx value' lx' :
  tracked lx → string_loop quote n value lx = (value', lx') →
  is_Some (current lx') → tracked lx'.
Proof.
  revert value lx. induction n as [| n IH]; intros value lx Ht Hloop Hcur;
    simpl in Hloop.
  { by injection Hloop as _ <-. }
  destruct (current lx) as [c |] eqn:Hc; [| by injection Hloop as _ <-].
  destruct (Ascii.eqb c quote); [by injection Hloop as _ <-|].
  pose proof (tracked_advance lx c Ht Hc) as Ht1.
  destruct (Ascii.eqb c "\"); [| by eapply IH].
  destruct (current (advance lx)) as [e |] eqn:He.
  - eapply IH; [| exact Hloop | done]. by eapply tracked_advance.
  - exfalso.
    destruct (string_loop_advanced _ _ _ _ _ _ Hloop) as (Hi & _ & Hle).
    rewrite !advance_position in Hle.
    destruct Hcur as [d Hd]. unfold current in Hd, He.
    apply lookup_lt_Some in Hd. apply lookup_ge_None in He.
    rewrite Hi, !advance_input in Hd. rewrite advance_input, advance_position in He.
    lia.
Qed.

Lemma two_character_operator (key : string) ty :
  table_get twoCharOps key = Some ty → String.length key = 2.
Proof.
  unfold twoCharOps. cbn [table_get].
  repeat (destruct (String.eqb _ key) eqn:Hk;
          [apply String.eqb_eq in Hk as <-; done | clear Hk]).
  done.
Qed.

(** The token a step pushes and the lexer after it. *)
Definition reads lx t lx' : Prop :=
  line t = cur_line lx ∧ column t = cur_column lx ∧ (tracked lx → tracked lx').

Lemma readIdentifierOrKeyword_reads lx t lx' :
  readIdentifierOrKeyword lx = (t, lx') → reads lx t lx'.
Proof.
  unfold readIdentifierOrKeyword. intros [= <- <-].
  split; [done |]. split; [done |]. apply tracked_advance_while.
Qed.

Lemma readNumber_reads lx t lx' : readNumber lx = (t, lx') → reads lx t lx'.
Proof.
  unfold readNumber. intros [= <- <-]. split; [done |]. split; [done |].
  intros Ht.
  set (lx1 := advance_while isDigit (remaining lx) lx).
  assert (H1 : tracked lx1) by (by apply tracked_advance_while).
  set (lx2 := if _ && _ then _ else lx1).
  assert (H2 : tracked lx2).
  { subst lx2. destruct (_ && _) eqn:Hdot; [| done].
    apply andb_true_iff in Hdot as [Hdot _].
    apply bool_decide_eq_true in Hdot.
    apply tracked_advance_while. by eapply tracked_advance. }
  destruct (bool_decide (current lx2 = Some "e"%char)
            || bool_decide (current lx2 = Some "E"%char)) eqn:He; [| done].
  assert (Hcur : ∃ c, current lx2 = Some c).
  { apply orb_true_iff in He as [He | He];
      apply bool_decide_eq_true in He; eexists; exact He. }
  destruct Hcur as [c Hc].
  pose proof (tracked_advance lx2 c H2 Hc) as H3.
  apply tracked_advance_while.
  destruct (bool_decide (current (advance lx2) = Some "+"%char)
            || bool_decide (current (advance lx2) = Some "-"%char)) eqn:Hsign;
    [| done].
  assert (Hcur : ∃ d, current (advance lx2) = Some d).
  { apply orb_true_iff in Hsign as [Hs | Hs];
      apply bool_decide_eq_true in Hs; eexists; exact Hs. }
  destruct Hcur as [d Hd]. by eapply tracked_advance.
Qed.

Lemma readString_reads quote lx t lx' :
  current lx = Some quote →
  readString quote lx = Ok (t, lx') → reads lx t lx'.
Proof.
  unfold readString. intros Hq Hread.
  destruct (string_loop _ _ _ _) as [value lx1] eqn:Hloop.
  case_bool_decide as Hclose; [| discriminate Hread].
  injection Hread as <- <-. split; [done |]. split; [done |]. intros Ht.
  apply (tracked_advance lx1 quote); [| done].
  eapply tracked_string_loop; [| exact Hloop | by eexists].
  by eapply tracked_advance.
Qed.

Lemma readOperator_reads c lx t lx' :
  current lx = Some c →
  readOperator c lx = Some (t, lx') → reads lx t lx'.
Proof.
  unfold readOperator. intros Hc Hread.
  destruct (table_get twoCharOps _) as [ty |] eqn:Htwo.
  - injection Hread as <- <-. split; [done |]. split; [done |]. intros Ht.
    destruct (peek lx) as [d |] eqn:Hd.
    + by eapply tracked_advance_twice.
    + apply two_character_operator in Htwo. discriminate Htwo.
  - destruct (table_get oneCharOps _); [| discriminate Hread].
    injection Hread as <- <-. split; [done |]. split; [done |]. intros Ht.
    by eapply tracked_advance.
Qed.

(** A token carries the line and the column of the place where its
    text starts. *)
Definition placed (inp : list ascii) (s : segment) : Prop :=
  match s with
  | Skipped _ _ => True
  | Lexeme t a _ =>
      line t = line_at (take a inp) ∧ column t = column_at (take a inp)
  end.

Lemma tokenize_loop_placed inp n :
  ∀ lx (segs : list segment) lx' segs',
    input lx = inp → tracked lx → Forall (placed inp) segs →
    tokenize_loop n lx segs = Ok (lx', segs') →
    input lx' = inp ∧ tracked lx' ∧ Forall (placed inp) segs'.
Proof.
  induction n as [| n IH]; intros lx segs lx' segs' Hinp Ht Hsegs Hloop;
    [discriminate Hloop |].
  cbn [tokenize_loop] in Hloop.
  destruct (position lx <? length (input lx)); [| by injection Hloop as <- <-].
  pose proof (tracked_advance_while isSpace (remaining lx) lx Ht) as Ht1.
  destruct (advance_while_advanced isSpace (remaining lx) lx) as (Hi1 & _ & _).
  fold (skipWhitespace lx) in Ht1, Hi1.
  set (lx1 := skipWhitespace lx) in *.
  assert (Hsegs1 : Forall (placed inp)
                     (segs ++ [Skipped (position lx) (position lx1)]))
    by (apply Forall_app; split; [done | by constructor]).
  set (segs1 := segs ++ _) in *. clearbody segs1.
  assert (Hinp1 : input lx1 = inp) by congruence.
  clear Hsegs Ht Hi1 Hinp.
  destruct (current lx1) as [c |] eqn:Hc; [| by injection Hloop as <- <-].
  assert (Hpush : ∀ t lx2,
            advanced lx1 lx2 → reads lx1 t lx2 →
            tokenize_loop n (push t lx2)
              (segs1 ++ [Lexeme t (position lx1) (position lx2)])
            = Ok (lx', segs') →
            input lx' = inp ∧ tracked lx' ∧ Forall (placed inp) segs').
  { intros t lx2 (Hi2 & _ & _) (Hl & Hcol & Htr) Hrest.
    apply (IH _ _ _ _) in Hrest; [done | simpl; congruence | by apply Htr |].
    apply Forall_app. split; [done |]. constructor; [| done]. simpl.
    destruct Ht1 as (_ & Hl1 & Hc1). rewrite Hl, Hcol, <- Hinp1. done. }
  assert (Hskip : ∀ lx2,
            advanced lx1 lx2 → tracked lx2 →
            tokenize_loop n lx2 (segs1 ++ [Skipped (position lx1) (position lx2)])
            = Ok (lx', segs') →
            input lx' = inp ∧ tracked lx' ∧ Forall (placed inp) segs').
  { intros lx2 (Hi2 & _ & _) Htr Hrest.
    apply (IH _ _ _ _) in Hrest; [done | congruence | done |].
    apply Forall_app. split; [done | by constructor]. }
  destruct (isLetter c) eqn:Hletter.
  { destruct (readIdentifierOrKeyword lx1) as [t lx2] eqn:Hread.
    apply (Hpush t lx2); [| by apply readIdentifierOrKeyword_reads | done].
    by destruct (readIdentifierOrKeyword_moved lx1 c t lx2 Hc Hletter Hread). }
  destruct (isDigit c) eqn:Hdigit.
  { destruct (readNumber lx1) as [t lx2] eqn:Hread.
    apply (Hpush t lx2); [| by apply readNumber_reads | done].
    by destruct (readNumber_moved lx1 c t lx2 Hc Hdigit Hread). }
  destruct (_ || _).
  { destruct (readString c lx1) as [[t lx2] | |] eqn:Hread;
      [| discriminate Hloop | discriminate Hloop].
    apply (Hpush t lx2); [| exact (readString_reads c lx1 t lx2 Hc Hread) | done].
    by destruct (readString_moved c lx1 t lx2 Hread). }
  destruct (Ascii.eqb c "/" && bool_decide (peek lx1 = Some "/"%char)).
  { apply (Hskip (skipLineComment lx1)); [apply advance_while_advanced | | done].
    by apply tracked_advance_while. }
  destruct (Ascii.eqb c "/" && bool_decide (peek lx1 = Some "*"%char)) eqn:Hblock.
  { apply andb_true_iff in Hblock as [_ Hpeek].
    apply bool_decide_eq_true in Hpeek.
    apply (Hskip (skipBlockComment lx1)); [| | done].
    - unfold skipBlockComment.
      eapply advanced_trans; [apply advance_advanced |].
      eapply advanced_trans; [apply advance_advanced |].
      apply block_comment_loop_advanced.
    - unfold skipBlockComment. apply tracked_block_comment_loop.
      by eapply tracked_advance_twice. }
  destruct (readOperator c lx1) as [[t lx2] |] eqn:Hread; [| discriminate Hloop].
  apply (Hpush t lx2); [| exact (readOperator_reads c lx1 t lx2 Hc Hread) | done].
  by destruct (readOperator_moved c lx1 t lx2 Hread).
Qed.

(** X7. Every token carries the line and the column of the first
    character of its text, counted from the start of the input, and
    the end-of-input token those of the end of the input. *)
Theorem tokens_carry_their_position (text : string)
    (toks : list Token) (segs : list segment) :
  tokenize_segments text = Ok (toks, segs) →
  let inp := list_ascii_of_string text in
  (∀ t a b, Lexeme t a b ∈ segs →
     line t = line_at (take a inp) ∧ column t = column_at (take a inp))
  ∧ ∃ eof, last toks = Some eof ∧ type eof = "EOF"
           ∧ line eof = line_at inp ∧ column eof = column_at inp.
Proof.
  intros Htok inp. unfold tokenize_segments in Htok.
  destruct (tokenize_loop _ _ _) as [[lx segs0] | |] eqn:Hloop;
    try discriminate Htok.
  simpl in Htok. injection Htok as <- <-.
  assert (Hstart : tracked (new_lexer (num:=num) text)).
  { unfold tracked, new_lexer. simpl. split; [lia |]. by split. }
  assert (Hinput : input (new_lexer (num:=num) text) = inp) by done.
  destruct (tokenize_loop_placed inp _ _ _ _ _ Hinput Hstart
              (Forall_nil_2 _) Hloop) as (Hinp & Htr & Hsegs).
  split.
  - intros t a b Hin. rewrite Forall_forall in Hsegs.
    exact (Hsegs _ Hin).
  - exists (eof lx). split; [by rewrite last_snoc |].
    split; [done |]. simpl.
    assert (Hinv0 : invariant inp (new_lexer (num:=num) text) []).
    { split; simpl; done. }
    destruct (tokenize_loop_invariant inp _ _ _ _ _ Hinv0 Hloop) as [_ Hend].
    destruct Htr as (Hle & Hl & Hc). rewrite Hinp in *.
    rewrite take_ge in Hl, Hc by lia. done.
Qed.

(** *** String literals *)

Definition is_quote (c : ascii) : bool := Ascii.eqb c "034" || Ascii.eqb c "'".

Lemma quote_kind (q : ascii) :
  is_quote q = true → isSpace q = false ∧ isLetter q = false ∧ isDigit q = false.
Proof.
  unfold is_quote. intros Hq. apply orb_true_iff in Hq as [Hq | Hq];
    apply Ascii.eqb_eq in Hq as ->; by vm_compute.
Qed.

Lemma append_cons (c : ascii) (s t : string) :
  String c s +:+ t = String c (s +:+ t).
Proof. reflexivity. Qed.

Lemma append_empty (s : string) : s +:+ "" = s.
Proof.
  induction s as [| c s IH]; [done |]. by rewrite append_cons, IH.
Qed.

Lemma append_associative (s1 s2 s3 : string) :
  (s1 +:+ s2) +:+ s3 = s1 +:+ (s2 +:+ s3).
Proof.
  induction s1 as [| c s1 IH]; [done |]. by rewrite !append_cons, IH.
Qed.

(** The loop of [readString] over text without the quote and without
    backslashes, followed by the quote. *)
Lemma string_loop_plain (quote : ascii) (body : list ascii) :
  Forall (λ c, c ≠ quote ∧ c ≠ "\"%char) body →
  ∀ n value lx,
    (∀ i c, body !! i = Some c → input lx !! (position lx + i) = Some c) →
    input lx !! (position lx + length body) = Some quote →
    length body < n →
    ∃ lx', string_loop quote n value lx
           = (value +:+ string_of_list_ascii body, lx')
           ∧ input lx' = input lx ∧ tokens lx' = tokens lx
           ∧ position lx' = position lx + length body.
Proof.
  induction 1 as [| c body [Hq Hb] _ IH]; intros n value lx Hbody Hend Hn.
  - destruct n as [| n]; [simpl in Hn; lia |]. simpl.
    unfold current. simpl in Hend. rewrite Nat.add_0_r in Hend. rewrite Hend.
    rewrite Ascii.eqb_refl. exists lx.
    split; [simpl; by rewrite append_empty |].
    repeat split. lia.
  - destruct n as [| n]; [simpl in Hn; lia |]. simpl.
    pose proof (Hbody 0 c eq_refl) as Hc. rewrite Nat.add_0_r in Hc.
    unfold current at 1. rewrite Hc.
    replace (Ascii.eqb c quote) with false
      by (symmetry; by apply Ascii.eqb_neq).
    replace (Ascii.eqb c "\") with false
      by (symmetry; by apply Ascii.eqb_neq).
    destruct (IH n (value +:+ str1 c) (advance lx)) as (lx' & Hloop & Hi & Ht & Hp).
    + intros i d Hd. rewrite advance_input, advance_position.
      replace (S (position lx) + i) with (position lx + S i) by lia.
      by apply Hbody.
    + rewrite advance_input, advance_position.
      replace (S (position lx) + length body)
        with (position lx + length (c :: body)) by (simpl; lia).
      done.
    + simpl in Hn. lia.
    + exists lx'. rewrite Hloop. split.
      * f_equal. unfold str1. by rewrite append_associative.
      * rewrite Hi, Ht, Hp, advance_input, advance_tokens, advance_position.
        repeat split. simpl. lia.
Qed.

Lemma readString_plain (quote : ascii) (body : list ascii) lx :
  Forall (λ c, c ≠ quote ∧ c ≠ "\"%char) body →
  (∀ i c, body !! i = Some c → input lx !! (S (position lx + i)) = Some c) →
  input lx !! (S (position lx + length body)) = Some quote →
  ∃ lx', readString quote lx
         = Ok (mkToken "STRING" (LStr (string_of_list_ascii body))
                 (cur_line lx) (cur_column lx), lx')
         ∧ input lx' = input lx ∧ tokens lx' = tokens lx
         ∧ position lx' = S (S (position lx + length body)).
Proof.
  intros Hplain Hbody Hend. unfold readString.
  destruct (string_loop_plain quote body Hplain
              (remaining (advance lx)) "" (advance lx))
    as (lx1 & Hloop & Hi & Ht & Hp).
  - intros i c Hc. rewrite advance_input, advance_position. by apply Hbody.
  - by rewrite advance_input, advance_position.
  - unfold remaining. rewrite advance_input, advance_position.
    apply lookup_lt_Some in Hend. lia.
  - rewrite Hloop.
    rewrite advance_input in Hi. rewrite advance_tokens in Ht.
    rewrite advance_position in Hp.
    assert (Hclose : current lx1 = Some quote).
    { unfold current. by rewrite Hi, Hp. }
    rewrite (bool_decide_eq_true_2 _ Hclose).
    exists (advance lx1). split; [done |].
    rewrite advance_input, advance_tokens, advance_position, Hp. done.
Qed.

Lemma skipWhitespace_stays lx c :
  current lx = Some c → isSpace c = false → skipWhitespace lx = lx.
Proof.
  intros Hc Hs. unfold skipWhitespace.
  destruct (remaining lx); simpl; [done |]. by rewrite Hc, Hs.
Qed.

Lemma quoted_text (quote : ascii) (s : string) :
  list_ascii_of_string (String quote (s +:+ String quote ""))
  = quote :: list_ascii_of_string s ++ [quote].
Proof.
  simpl. f_equal. induction s as [| c s IH]; [done |].
  rewrite append_cons. simpl. by rewrite IH.
Qed.

(** X8. A string literal without escapes is one token whose value is
    the text between the quotes, line breaks included. *)
Theorem string_literal_round_trip (quote : ascii) (s : string) :
  is_quote quote = true →
  Forall (λ c, c ≠ quote ∧ c ≠ "\"%char) (list_ascii_of_string s) →
  ∃ l c,
    tokenize (String quote (s +:+ String quote ""))
    = Ok [mkToken "STRING" (LStr s) 1 1; mkToken "EOF" LNull l c].
Proof.
  intros Hq Hplain.
  destruct (quote_kind quote Hq) as (Hspace & Hletter & Hdigit).
  set (body := list_ascii_of_string s) in *.
  set (text := String quote (s +:+ String quote "")).
  set (lx0 := new_lexer (num:=num) text).
  assert (Hinp : input lx0 = quote :: body ++ [quote]) by apply quoted_text.
  assert (Hcur : current lx0 = Some quote) by (unfold current; by rewrite Hinp).
  destruct (readString_plain quote body lx0 Hplain)
    as (lx2 & Hread & Hi2 & Ht2 & Hp2).
  { intros i c Hc. rewrite Hinp. simpl. by apply lookup_app_l_Some. }
  { rewrite Hinp. simpl. by rewrite list_lookup_middle. }
  unfold tokenize, tokenize_segments. fold text. fold lx0.
  eexists _, _. rewrite Hinp at 1. cbn [length tokenize_loop].
  replace (position lx0 <? length (input lx0)) with true
    by (symmetry; apply Nat.ltb_lt; rewrite Hinp; simpl; lia).
  rewrite (skipWhitespace_stays lx0 quote Hcur Hspace).
  rewrite Hcur, Hletter, Hdigit. fold (is_quote quote). rewrite Hq.
  rewrite Hread.
  rewrite length_app. cbn [length].
  replace (length body + 1) with (S (length body)) by lia.
  cbn [tokenize_loop]. cbn [position input push].
  replace (position lx2 <? length (input lx2)) with false.
  2:{ symmetry. apply Nat.ltb_ge. rewrite Hi2, Hinp, Hp2. simpl.
      rewrite length_app. simpl. lia. }
  simpl. rewrite Ht2. unfold body. rewrite string_of_list_ascii_of_string.
  reflexivity.
Qed.

(** X9. A text that opens a string literal and does not hold the quote
    again is refused, with the place of the opening quote. *)
Theorem unterminated_string (quote : ascii) (s : string) :
  is_quote quote = true →
  quote ∉ list_ascii_of_string s →
  tokenize (num:=num) (String quote s)
  = Err "Unterminated string at line 1, column 1".
Proof.
  intros Hq Hno.
  destruct (quote_kind quote Hq) as (Hspace & Hletter & Hdigit).
  set (lx0 := new_lexer (num:=num) (String quote s)).
  assert (Hcur : current lx0 = Some quote) by done.
  unfold tokenize, tokenize_segments. fold lx0.
  cbn [length input new_lexer lx0 list_ascii_of_string tokenize_loop].
  fold lx0. cbn [position lx0 new_lexer].
  replace (0 <? S (length (list_ascii_of_string s))) with true by done.
  rewrite (skipWhitespace_stays lx0 quote Hcur Hspace).
  rewrite Hcur, Hletter, Hdigit. fold (is_quote quote). rewrite Hq.
  unfold readString.
  destruct (string_loop _ _ _ _) as [value lx1] eqn:Hloop.
  destruct (string_loop_advanced _ _ _ _ _ _ Hloop) as (Hi & _ & Hle).
  rewrite advance_input in Hi. rewrite advance_position in Hle.
  rewrite bool_decide_eq_false_2; [done |].
  unfold current. rewrite Hi. simpl.
  destruct (position lx1) as [| p] eqn:Hp; [simpl in Hle; lia |]. simpl.
  intros Hin. apply Hno. by eapply list_elem_of_lookup_2.
Qed.

(** *** Words *)

Lemma advance_while_run (p : ascii → bool) n lx :
  Forall (λ c, p c = true) (drop (position lx) (input lx)) →
  remaining lx ≤ n →
  length (input lx) ≤ position (advance_while p n lx).
Proof.
  revert lx. induction n as [| n IH]; intros lx Hall Hn.
  - unfold remaining in Hn. simpl. lia.
  - simpl. destruct (current lx) as [c |] eqn:Hc.
    + unfold current in Hc. rewrite (drop_S _ _ _ Hc) in Hall.
      apply Forall_cons in Hall as [Hp Hall]. rewrite Hp.
      specialize (IH (advance lx)).
      rewrite advance_input, advance_position in IH. apply IH; [done |].
      unfold remaining in *. rewrite advance_input, advance_position. lia.
    + unfold current in Hc. by apply lookup_ge_None in Hc.
Qed.

Lemma no_newline_position (l : list ascii) :
  Forall (λ c, is_newline c = false) l →
  line_at l = 1 ∧ column_at l = S (length l).
Proof.
  intros Hl. unfold line_at, column_at. split.
  - f_equal. induction Hl as [| c k Hc _ IH]; simpl; [done |]. by rewrite Hc.
  - f_equal. rewrite <- length_reverse. apply Forall_reverse in Hl.
    induction Hl as [| c k Hc _ IH]; simpl; [done |]. by rewrite Hc, IH.
Qed.

Lemma text_length (s : string) :
  length (list_ascii_of_string s) = String.length s.
Proof. induction s as [| c s IH]; simpl; [done |]. by rewrite IH. Qed.

Lemma alphanumeric_no_newline (c : ascii) :
  isAlphaNumeric c = true → is_newline c = false.
Proof.
  intros Hc. unfold is_newline, newline.
  destruct (Ascii.eqb c "010") eqn:Heq; [| done].
  apply Ascii.eqb_eq in Heq as ->. discriminate Hc.
Qed.

Lemma alphanumeric_kind (c : ascii) :
  isAlphaNumeric c = true →
  isSpace c = false ∧ is_quote c = false
  ∧ (Ascii.eqb c "/" = false).
Proof.
  intros Hc. unfold isAlphaNumeric, isLetter, isDigit, isSpace, is_quote, code in *.
  destruct c as [[] [] [] [] [] [] [] []]; vm_compute in Hc |- *;
    (discriminate Hc || done).
Qed.

(** X10. A text that is one word, a letter or underscore followed by
    letters, digits and underscores, is one token with the word as its
    value: of the type named after the word, in capitals, when the
    word is one of the keywords as written there, and an identifier
    otherwise. *)
Theorem word_is_keyword_or_identifier (w : string) (c : ascii) (rest : list ascii) :
  list_ascii_of_string w = c :: rest →
  isLetter c = true →
  Forall (λ d, isAlphaNumeric d = true) rest →
  tokenize w
  = Ok [mkToken (if bool_decide (w ∈ keywords) then toUpperCase w
                 else "IDENTIFIER") (LStr w) 1 1;
        mkToken "EOF" LNull 1 (S (String.length w))].
Proof.
  intros Hw Hletter Hrest.
  assert (Hall : Forall (λ d, isAlphaNumeric d = true) (c :: rest)).
  { constructor; [| done]. unfold isAlphaNumeric. by rewrite Hletter. }
  set (lx0 := new_lexer (num:=num) w).
  assert (Hinp : input lx0 = c :: rest) by exact Hw.
  assert (Hcur : current lx0 = Some c) by (unfold current; by rewrite Hinp).
  destruct (alphanumeric_kind c) as (Hspace & _ & _).
  { unfold isAlphaNumeric. by rewrite Hletter. }
  assert (Hstart : tracked lx0).
  { unfold tracked, lx0, new_lexer. simpl. split; [lia |]. by split. }
  set (lx1 := advance_while isAlphaNumeric (remaining lx0) lx0).
  pose proof (tracked_advance_while isAlphaNumeric (remaining lx0) lx0 Hstart)
    as Htr.
  destruct (advance_while_advanced isAlphaNumeric (remaining lx0) lx0)
    as (Hi1 & Ht1 & _).
  assert (Hend : length (input lx0) ≤ position lx1).
  { apply advance_while_run; [| done]. by rewrite Hinp. }
  fold lx1 in Htr, Hi1, Ht1.
  destruct Htr as (Hle & Hline & Hcol).
  rewrite Hi1 in Hle, Hline, Hcol.
  assert (Hpos : position lx1 = length (input lx0)) by lia.
  rewrite Hpos, take_ge in Hline, Hcol by lia.
  destruct (no_newline_position (input lx0)) as [Hl Hc].
  { rewrite Hinp. eapply Forall_impl; [exact Hall |].
    apply alphanumeric_no_newline. }
  rewrite Hl in Hline. rewrite Hc in Hcol.
  assert (Hlexeme : lexeme lx1 0 = w).
  { unfold lexeme. rewrite Hi1, Hpos, substring_all by done.
    unfold lx0, new_lexer. simpl. apply string_of_list_ascii_of_string. }
  unfold tokenize, tokenize_segments. fold lx0.
  rewrite Hinp at 1. cbn [length tokenize_loop].
  replace (position lx0 <? length (input lx0)) with true
    by (symmetry; apply Nat.ltb_lt; rewrite Hinp; simpl; lia).
  rewrite (skipWhitespace_stays lx0 c Hcur Hspace).
  rewrite Hcur, Hletter.
  unfold readIdentifierOrKeyword. fold lx1.
  change (position lx0) with 0. rewrite Hlexeme.
  cbn [length tokenize_loop]. cbn [position input push].
  replace (position lx1 <? length (input lx1)) with false
    by (symmetry; apply Nat.ltb_ge; rewrite Hi1; lia).
  simpl. unfold eof, push. simpl. rewrite Ht1, Hline, Hcol.
  replace (length (input lx0)) with (String.length w); [done |].
  unfold lx0, new_lexer. simpl. symmetry. apply text_length.
Qed.

(** *** What each segment holds *)

Definition as_string (w : list ascii) : string := string_of_list_ascii w.

Definition digits (w : list ascii) : Prop := Forall (λ c, isDigit c = true) w.

(** A word: a letter or an underscore, then letters, digits and
    underscores. The token holds the word. *)
Definition is_word (w : list ascii) t : Prop :=
  (∃ c rest, w = c :: rest ∧ isLetter c = true
             ∧ Forall (λ d, isAlphaNumeric d = true) rest)
  ∧ value t = LStr (as_string w)
  ∧ type t = (if bool_decide (as_string w ∈ keywords)
              then toUpperCase (as_string w) else "IDENTIFIER").

(** A number: digits, then possibly a point with digits after it, then
    possibly an [e] or [E], a sign and digits. The token holds what
    [parseFloat] makes of this text. *)
Definition is_number (w : list ascii) t : Prop :=
  (∃ whole fraction exponent,
     w = whole ++ fraction ++ exponent
     ∧ whole ≠ [] ∧ digits whole
     ∧ (fraction = []
        ∨ ∃ ds, fraction = "."%char :: ds ∧ ds ≠ [] ∧ digits ds)
     ∧ (exponent = []
        ∨ ∃ e sign ds,
            exponent = e :: sign ++ ds
            ∧ (e = "e"%char ∨ e = "E"%char)
            ∧ (sign = [] ∨ sign = ["+"%char] ∨ sign = ["-"%char])
            ∧ digits ds))
  ∧ value t = LNum (parseFloat (as_string w))
  ∧ type t = "NUMBER".

(** The characters between the quotes of a string literal, read as the
    lexer reads them: a backslash stands with the character after it
    for one character, and the quote does not occur otherwise. *)
Fixpoint decode (quote : ascii) (raw : list ascii) : option string :=
  match raw with
  | [] => Some ""
  | c :: rest =>
      if Ascii.eqb c quote then None
      else if Ascii.eqb c "\" then
        match rest with
        | e :: rest' => String (unescape e) <$> decode quote rest'
        | [] => None
        end
      else String c <$> decode quote rest
  end.

(** A string literal: from a quote to the next one that no backslash
    precedes. The token holds the characters between them. *)
Definition is_string (w : list ascii) t : Prop :=
  (∃ quote raw s,
     (quote = "034"%char ∨ quote = "'"%char)
     ∧ w = quote :: raw ++ [quote]
     ∧ decode quote raw = Some s
     ∧ value t = LStr s)
  ∧ type t = "STRING".

(** An operator or a punctuation mark of one or two characters, with
    the type its table gives. *)
Definition is_operator (w : list ascii) t : Prop :=
  (table_get twoCharOps (as_string w) = Some (type t)
   ∨ table_get oneCharOps (as_string w) = Some (type t))
  ∧ value t = LStr (as_string w).

(** The token [t] is the one that the text [w] spells. *)
Definition spells (w : list ascii) t : Prop :=
  is_word w t ∨ is_number w t ∨ is_string w t ∨ is_operator w t.

(** A discarded segment is whitespace or one comment, and the text of
    a lexeme spells its token. *)
Definition well_formed (inp : list ascii) (s : segment) : Prop :=
  match s with
  | Skipped a b => discarded inp a b
  | Lexeme t a b => spells (substring inp a b) t
  end.


Lemma substring_head (l : list ascii) a b c rest :
  substring l a b = c :: rest → l !! a = Some c.
Proof.
  unfold substring. intros Hs.
  destruct (drop a l) as [| d l'] eqn:Hd.
  - by rewrite take_nil in Hs.
  - destruct (b - a); [done |]. injection Hs as -> _.
    rewrite <- (Nat.add_0_r a), <- lookup_drop, Hd. done.
Qed.

Lemma unclosed_nil : unclosed [].
Proof. intros [| ? ?] after; discriminate. Qed.

Lemma unclosed_cons c (t : list ascii) :
  unclosed t →
  ¬ (c = "*"%char ∧ ∃ rest, t = "/"%char :: rest) →
  unclosed (c :: t).
Proof.
  intros Ht Hc [| d before] after Heq.
  - injection Heq as -> ->. apply Hc. split; [done | by eexists].
  - injection Heq as -> ->. by eapply Ht.
Qed.

(** The loop of [skipBlockComment] stops after the first closing, or at
    the end of the input. *)
Lemma block_comment_loop_spec n lx :
  remaining lx ≤ n → position lx ≤ length (input lx) →
  let rest :=
    substring (input lx) (position lx) (position (block_comment_loop n lx)) in
  (∃ body, rest = body ++ ["*"%char; "/"%char] ∧ unclosed body)
  ∨ (unclosed rest
     ∧ position (block_comment_loop n lx) = length (input lx)).
Proof.
  revert lx. induction n as [| n IH]; intros lx Hn Hp; simpl.
  { right. rewrite substring_empty. split; [apply unclosed_nil |].
    unfold remaining in Hn. lia. }
  destruct (current lx) as [c |] eqn:Hc.
  2:{ right. rewrite substring_empty. split; [apply unclosed_nil |].
      unfold current in Hc. apply lookup_ge_None in Hc. lia. }
  assert (Hlt : position lx < length (input lx))
    by (by apply lookup_lt_Some in Hc).
  destruct (Ascii.eqb c "*" && bool_decide (peek lx = Some "/"%char)) eqn:Hend.
  - apply andb_true_iff in Hend as [Hstar Hslash].
    apply Ascii.eqb_eq in Hstar as ->. apply bool_decide_eq_true in Hslash.
    left. exists []. split; [| apply unclosed_nil].
    rewrite ?advance_input, !advance_position.
    rewrite (substring_cons _ _ _ "*"%char) by (done || lia).
    rewrite (substring_cons _ _ _ "/"%char)
      by (first [lia | by unfold peek in Hslash;
                        rewrite Nat.add_1_r in Hslash]).
    by rewrite substring_empty.
  - specialize (IH (advance lx)).
    rewrite advance_input, advance_position in IH.
    destruct (block_comment_loop_advanced n (advance lx)) as (_ & _ & Hle).
    rewrite advance_position in Hle.
    rewrite (substring_cons _ _ _ c) by (done || lia).
    assert (Hopen : ∀ rest,
              substring (input lx) (S (position lx))
                (position (block_comment_loop n (advance lx))) = rest →
              ¬ (c = "*"%char ∧ ∃ rest', rest = "/"%char :: rest')).
    { intros rest Hrest [-> [rest' ->]].
      apply substring_head in Hrest.
      unfold peek in Hend. rewrite Nat.add_1_r, Hrest in Hend.
      by rewrite bool_decide_eq_true_2 in Hend. }
    destruct IH as [(body & Hbody & Hun) | [Hun Hstop]];
      [unfold remaining in *; rewrite ?advance_input, ?advance_position; lia
      | lia | |].
    + left. exists (c :: body). rewrite Hbody. split; [done |].
      apply unclosed_cons; [done |]. intros [-> [rest' Hr]].
      destruct body as [| d body].
      * discriminate Hr.
      * injection Hr as -> _.
        eapply (Hopen _ Hbody). split; [done | by eexists].
    + right. split; [| done]. apply unclosed_cons; [done |].
      by apply (Hopen _ eq_refl).
Qed.

Lemma skipBlockComment_comment lx c :
  current lx = Some c → Ascii.eqb c "/" = true → peek lx = Some "*"%char →
  is_block_comment
    (substring (input lx) (position lx) (position (skipBlockComment lx)))
    (position (skipBlockComment lx) = length (input lx)).
Proof.
  intros Hc Hslash Hpeek. apply eqb_char in Hslash as ->.
  unfold skipBlockComment.
  pose proof (peek_remaining lx _ Hpeek) as Hrem. unfold remaining in Hrem.
  assert (Hi2 : input (advance (advance lx)) = input lx)
    by (by rewrite !advance_input).
  assert (Hp2 : position (advance (advance lx)) = S (S (position lx)))
    by (by rewrite !advance_position).
  set (lx2 := advance (advance lx)) in *.
  pose proof (block_comment_loop_spec (remaining lx2) lx2 (le_n _)) as Hspec.
  destruct (block_comment_loop_advanced (remaining lx2) lx2) as (Hi & _ & Hle).
  set (lx' := block_comment_loop _ _) in *.
  rewrite Hi2, Hp2 in *.
  exists (substring (input lx) (S (S (position lx))) (position lx')).
  split.
  - rewrite (substring_cons _ _ _ "/"%char) by (done || lia).
    rewrite (substring_cons _ _ _ "*"%char)
      by (first [lia | by unfold peek in Hpeek;
                        rewrite Nat.add_1_r in Hpeek]).
    done.
  - apply Hspec. lia.
Qed.

(** *** Words, numbers, strings and operators *)

Lemma readIdentifierOrKeyword_spells lx c t lx' :
  current lx = Some c → isLetter c = true →
  readIdentifierOrKeyword lx = (t, lx') →
  is_word (substring (input lx) (position lx) (position lx')) t.
Proof.
  intros Hc Hl Hread. unfold readIdentifierOrKeyword in Hread.
  injection Hread as <- <-. cbn [value type].
  pose proof (advance_while_all isAlphaNumeric (remaining lx) lx) as Hall.
  pose proof (advance_while_progress isAlphaNumeric (remaining lx) lx c Hc)
    as Hlt.
  set (lx' := advance_while _ _ _) in *.
  destruct (advance_while_advanced isAlphaNumeric (remaining lx) lx)
    as (Hi & _ & _). fold lx' in Hi.
  unfold lexeme. rewrite Hi. split; [| done].
  rewrite (substring_cons _ _ _ c) in *
    by (first [done | apply Hlt; [unfold isAlphaNumeric; by rewrite Hl
                                 | by eapply current_remaining]]).
  apply Forall_cons in Hall as [_ Hall]. by eexists c, _.
Qed.

Lemma digits_first lx c :
  current lx = Some c → isDigit c = true →
  let lx' := advance_while isDigit (remaining lx) lx in
  digits (substring (input lx) (position lx) (position lx'))
  ∧ substring (input lx) (position lx) (position lx') ≠ [].
Proof.
  intros Hc Hd lx'. split; [apply advance_while_all |].
  pose proof (advance_while_progress isDigit (remaining lx) lx c Hc Hd
                (current_remaining lx c Hc)) as Hlt.
  by rewrite (substring_cons _ _ _ c) by done.
Qed.

Lemma readNumber_spells lx c t lx' :
  current lx = Some c → isDigit c = true →
  readNumber lx = (t, lx') →
  is_number (substring (input lx) (position lx) (position lx')) t.
Proof.
  intros Hc Hd Hread. unfold readNumber in Hread.
  injection Hread as <- <-. cbn [value type].
  destruct (digits_first lx c Hc Hd) as [Hwhole Hsome].
  set (lx1 := advance_while isDigit (remaining lx) lx) in *.
  destruct (advance_while_advanced isDigit (remaining lx) lx)
    as (Hi1 & _ & Hp1). fold lx1 in Hi1, Hp1.
  set (lx2 := if _ && _ then _ else lx1).
  assert (H2 : input lx2 = input lx ∧ position lx1 ≤ position lx2
               ∧ let fraction :=
                   substring (input lx) (position lx1) (position lx2) in
                 fraction = []
                 ∨ ∃ ds, fraction = "."%char :: ds ∧ ds ≠ [] ∧ digits ds).
  { subst lx2.
    destruct (bool_decide (current lx1 = Some "."%char)
              && isDigit_opt (peek lx1)) eqn:Hdot.
    2:{ split; [done |]. split; [done |]. left. apply substring_empty. }
    apply andb_true_iff in Hdot as [Hdot Hnext].
    apply bool_decide_eq_true in Hdot.
    destruct (peek lx1) as [d |] eqn:Hpeek; [| discriminate Hnext].
    simpl in Hnext.
    assert (Hcur : current (advance lx1) = Some d)
      by (by rewrite current_advance).
    destruct (digits_first (advance lx1) d Hcur Hnext) as [Hds Hne].
    destruct (advance_while_advanced isDigit (remaining (advance lx1))
                (advance lx1)) as (Hi & _ & Hp).
    set (lx2 := advance_while isDigit (remaining (advance lx1)) (advance lx1))
      in *.
    rewrite advance_input, advance_position in *.
    split; [congruence |]. split; [lia |]. right.
    rewrite Hi1 in Hds, Hne.
    eexists. split; [| split; [exact Hne | exact Hds]].
    apply substring_cons; [| lia]. by rewrite <- Hi1. }
  destruct H2 as (Hi2 & Hp2 & Hfraction). clearbody lx2.
  set (lx3 := if _ || _ then _ else lx2).
  assert (H3 : input lx3 = input lx ∧ position lx2 ≤ position lx3
               ∧ let exponent :=
                   substring (input lx) (position lx2) (position lx3) in
                 exponent = []
                 ∨ ∃ e sign ds,
                     exponent = e :: sign ++ ds
                     ∧ (e = "e"%char ∨ e = "E"%char)
                     ∧ (sign = [] ∨ sign = ["+"%char] ∨ sign = ["-"%char])
                     ∧ digits ds).
  { subst lx3.
    destruct (bool_decide (current lx2 = Some "e"%char)
              || bool_decide (current lx2 = Some "E"%char)) eqn:He.
    2:{ split; [done |]. split; [done |]. left. apply substring_empty. }
    assert (Hcur : ∃ e, current lx2 = Some e ∧ (e = "e"%char ∨ e = "E"%char)).
    { apply orb_true_iff in He as [He | He];
        apply bool_decide_eq_true in He; eexists; eauto. }
    destruct Hcur as (e & Hcur & Hletter).
    set (lx4 := if _ || _ then advance (advance lx2) else advance lx2).
    assert (H4 : input lx4 = input lx ∧ S (position lx2) ≤ position lx4
                 ∧ let sign :=
                     substring (input lx) (S (position lx2)) (position lx4) in
                   sign = [] ∨ sign = ["+"%char] ∨ sign = ["-"%char]).
    { subst lx4.
      destruct (bool_decide (current (advance lx2) = Some "+"%char)
                || bool_decide (current (advance lx2) = Some "-"%char))
        eqn:Hsign.
      2:{ rewrite advance_input, advance_position. split; [done |].
          split; [done |]. left. apply substring_empty. }
      rewrite !advance_input, !advance_position. split; [done |].
      split; [lia |]. right.
      apply orb_true_iff in Hsign as [Hs | Hs];
        apply bool_decide_eq_true in Hs;
        unfold current in Hs; rewrite advance_input, advance_position, Hi2 in Hs;
        rewrite (substring_cons _ _ _ _ Hs) by lia;
        rewrite substring_empty; auto. }
    destruct H4 as (Hi4 & Hp4 & Hsign). clearbody lx4.
    pose proof (advance_while_all isDigit (remaining lx4) lx4) as Hds.
    destruct (advance_while_advanced isDigit (remaining lx4) lx4)
      as (Hi & _ & Hp).
    set (lx5 := advance_while isDigit (remaining lx4) lx4) in *.
    split; [congruence |]. split; [lia |]. right.
    exists e, (substring (input lx) (S (position lx2)) (position lx4)),
      (substring (input lx) (position lx4) (position lx5)).
    split; [| split; [done | split; [done | by unfold digits; rewrite <- Hi4]]].
    rewrite (substring_split _ _ (position lx4)) by lia.
    apply substring_cons; [| lia]. unfold current in Hcur. by rewrite <- Hi2. }
  destruct H3 as (Hi3 & Hp3 & Hexponent). clearbody lx3.
  unfold lexeme. rewrite Hi3. split; [| done].
  exists (substring (input lx) (position lx) (position lx1)),
    (substring (input lx) (position lx1) (position lx2)),
    (substring (input lx) (position lx2) (position lx3)).
  split; [| done].
  rewrite (substring_split _ (position lx1)) by lia.
  by rewrite (substring_split _ (position lx)) by lia.
Qed.

(** The loop of [readString] that ends on the quote has read the
    characters that [decode] accepts, and appended what they stand
    for. *)
Lemma string_loop_decodes quote n :
  ∀ value lx value' lx',
    remaining lx ≤ n →
    string_loop quote n value lx = (value', lx') →
    current lx' = Some quote →
    ∃ s, decode quote
           (substring (input lx) (position lx) (position lx')) = Some s
         ∧ value' = value +:+ s.
Proof.
  induction n as [| n IH]; intros value lx value' lx' Hn Hloop Hquote;
    simpl in Hloop.
  { injection Hloop as <- <-. exists "". rewrite substring_empty.
    by rewrite append_empty. }
  destruct (current lx) as [c |] eqn:Hc.
  2:{ injection Hloop as <- <-. exists "". rewrite substring_empty.
      by rewrite append_empty. }
  destruct (Ascii.eqb c quote) eqn:Hq.
  { injection Hloop as <- <-. exists "". rewrite substring_empty.
    by rewrite append_empty. }
  assert (Hlt' : position lx' < length (input lx')).
  { unfold current in Hquote. by apply lookup_lt_Some in Hquote. }
  destruct (Ascii.eqb c "\") eqn:Hb.
  - pose proof (string_loop_advanced _ _ _ _ _ _ Hloop) as (Hi & _ & Hle).
    rewrite Hi, !advance_input in Hlt'. rewrite !advance_position in Hle.
    destruct (current (advance lx)) as [e |] eqn:He.
    2:{ exfalso. unfold current in He. apply lookup_ge_None in He.
        rewrite advance_input, advance_position in He. lia. }
    apply IH in Hloop as (s & Hs & ->); [| | done].
    2:{ unfold remaining in *.
        rewrite !advance_input, !advance_position. lia. }
    rewrite !advance_input, !advance_position in Hs.
    exists (String (unescape e) s). split.
    + rewrite (substring_cons _ _ _ c) by (done || lia).
      unfold current in He. rewrite advance_input, advance_position in He.
      rewrite (substring_cons _ _ _ e) by (done || lia).
      cbn [decode]. rewrite Hq, Hb, Hs. done.
    + by rewrite append_associative.
  - pose proof (string_loop_advanced _ _ _ _ _ _ Hloop) as (Hi & _ & Hle).
    rewrite Hi, !advance_input in Hlt'. rewrite advance_position in Hle.
    apply IH in Hloop as (s & Hs & ->); [| | done].
    2:{ unfold remaining in *.
        rewrite !advance_input, !advance_position. lia. }
    rewrite advance_input, advance_position in Hs.
    exists (String c s). split.
    + rewrite (substring_cons _ _ _ c) by (done || lia).
      cbn [decode]. rewrite Hq, Hb, Hs. done.
    + by rewrite append_associative.
Qed.

Lemma readString_spells quote lx t lx' :
  current lx = Some quote →
  (quote = "034"%char ∨ quote = "'"%char) →
  readString quote lx = Ok (t, lx') →
  is_string (substring (input lx) (position lx) (position lx')) t.
Proof.
  intros Hc Hkind Hread. unfold readString in Hread.
  destruct (string_loop _ _ _ _) as [text lx1] eqn:Hloop.
  case_bool_decide as Hclose; [| discriminate Hread].
  injection Hread as <- <-. cbn [value type].
  destruct (string_loop_decodes _ _ _ _ _ _ (le_n _) Hloop Hclose)
    as (s & Hs & ->).
  pose proof (string_loop_advanced _ _ _ _ _ _ Hloop) as (Hi & _ & Hle).
  rewrite advance_input, advance_position in *.
  split; [| done].
  exists quote, (substring (input lx) (S (position lx)) (position lx1)), s.
  split; [done |]. split; [| split; [exact Hs | done]].
  rewrite (substring_cons _ _ _ quote) by (done || lia).
  f_equal.
  rewrite <- (substring_split _ _ (position lx1)) by lia.
  f_equal. unfold current in Hclose. rewrite Hi in Hclose.
  rewrite (substring_cons _ _ _ quote) by (done || lia).
  by rewrite substring_empty.
Qed.

Lemma readOperator_spells c lx t lx' :
  current lx = Some c →
  readOperator c lx = Some (t, lx') →
  is_operator (substring (input lx) (position lx) (position lx')) t.
Proof.
  unfold readOperator. intros Hc Hread.
  destruct (table_get twoCharOps _) as [ty |] eqn:Htwo.
  - injection Hread as <- <-. cbn [value type].
    rewrite !advance_position.
    destruct (peek lx) as [d |] eqn:Hd.
    2:{ apply two_character_operator in Htwo. discriminate Htwo. }
    rewrite (substring_cons _ _ _ c) by (done || lia).
    rewrite (substring_cons _ _ _ d)
      by (first [lia | by unfold peek in Hd; rewrite Nat.add_1_r in Hd]).
    rewrite substring_empty. split; [by left | done].
  - destruct (table_get oneCharOps _) as [ty |] eqn:Hone;
      [| discriminate Hread].
    injection Hread as <- <-. cbn [value type].
    rewrite advance_position.
    rewrite (substring_cons _ _ _ c) by (done || lia).
    rewrite substring_empty. split; [by right | done].
Qed.

(** Every step of the loop discards whitespace or one comment, or
    pushes the token that the text it read spells. *)
Lemma tokenize_loop_segments inp n :
  ∀ lx (segs : list segment) lx' segs',
    input lx = inp → Forall (well_formed inp) segs →
    tokenize_loop n lx segs = Ok (lx', segs') →
    Forall (well_formed inp) segs'.
Proof.
  induction n as [| n IH]; intros lx segs lx' segs' Hinp Hsegs Hloop;
    [discriminate Hloop |].
  cbn [tokenize_loop] in Hloop.
  destruct (position lx <? length (input lx)); [| by injection Hloop as _ <-].
  destruct (skipWhitespace_spec lx) as [(Hi1 & _ & _) Hws].
  set (lx1 := skipWhitespace lx) in *.
  assert (Hsegs1 : Forall (well_formed inp)
                     (segs ++ [Skipped (position lx) (position lx1)])).
  { apply Forall_app. split; [done |]. constructor; [| done].
    left. by rewrite <- Hinp. }
  set (segs1 := segs ++ _) in *. clearbody segs1.
  assert (Hinp1 : input lx1 = inp) by congruence.
  clear Hsegs Hws Hi1 Hinp.
  destruct (current lx1) as [c |] eqn:Hc; [| by injection Hloop as _ <-].
  assert (Hpush : ∀ t lx2,
            moved lx1 lx2 →
            spells (substring (input lx1) (position lx1) (position lx2)) t →
            tokenize_loop n (push t lx2)
              (segs1 ++ [Lexeme t (position lx1) (position lx2)])
            = Ok (lx', segs') →
            Forall (well_formed inp) segs').
  { intros t lx2 [(Hi2 & _ & _) _] Hspells Hrest.
    apply (IH _ _ _ _) in Hrest; [done | simpl; congruence |].
    apply Forall_app. split; [done |]. constructor; [| done].
    simpl. by rewrite <- Hinp1. }
  assert (Hskip : ∀ lx2,
            moved lx1 lx2 →
            discarded (input lx1) (position lx1) (position lx2) →
            tokenize_loop n lx2 (segs1 ++ [Skipped (position lx1) (position lx2)])
            = Ok (lx', segs') →
            Forall (well_formed inp) segs').
  { intros lx2 [(Hi2 & _ & _) _] Hd Hrest.
    apply (IH _ _ _ _) in Hrest; [done | congruence |].
    apply Forall_app. split; [done |]. constructor; [| done].
    simpl. by rewrite <- Hinp1. }
  destruct (isLetter c) eqn:Hletter.
  { destruct (readIdentifierOrKeyword lx1) as [t lx2] eqn:Hread.
    apply (Hpush t lx2); [| | done].
    - by eapply readIdentifierOrKeyword_moved.
    - left. by eapply readIdentifierOrKeyword_spells. }
  destruct (isDigit c) eqn:Hdigit.
  { destruct (readNumber lx1) as [t lx2] eqn:Hread.
    apply (Hpush t lx2); [| | done].
    - by eapply readNumber_moved.
    - right. left. by eapply readNumber_spells. }
  destruct (Ascii.eqb c "034" || Ascii.eqb c "'") eqn:Hquote.
  { destruct (readString c lx1) as [[t lx2] | |] eqn:Hread;
      [| discriminate Hloop | discriminate Hloop].
    apply (Hpush t lx2); [| | done].
    - by eapply readString_moved.
    - right. right. left. eapply readString_spells; [done | | done].
      apply orb_true_iff in Hquote as [Hq | Hq];
        apply Ascii.eqb_eq in Hq; auto. }
  destruct (Ascii.eqb c "/" && bool_decide (peek lx1 = Some "/"%char)) eqn:Hline.
  { apply andb_true_iff in Hline as [Hslash Hpeek].
    apply bool_decide_eq_true in Hpeek.
    destruct (skipLineComment_spec lx1 c Hc Hslash Hpeek) as [Hmoved Hcomment].
    apply (Hskip (skipLineComment lx1)); [done | | done].
    right. by left. }
  destruct (Ascii.eqb c "/" && bool_decide (peek lx1 = Some "*"%char)) eqn:Hblock.
  { apply andb_true_iff in Hblock as [Hslash Hpeek].
    apply bool_decide_eq_true in Hpeek.
    pose proof (skipBlockComment_spec lx1 c Hc Hslash Hpeek) as Hmoved.
    apply (Hskip (skipBlockComment lx1)); [done | | done].
    right. right. by eapply skipBlockComment_comment. }
  destruct (readOperator c lx1) as [[t lx2] |] eqn:Hread; [| discriminate Hloop].
  apply (Hpush t lx2); [| | done].
  - by eapply readOperator_moved.
  - right. right. right. by eapply readOperator_spells.
Qed.

(** C7. When the lexer accepts a text, its run cuts the text into
    consecutive segments that run from the start of the text to its
    end, each starting where the one before stops, so that their
    concatenation is the text: nothing is lost and nothing is read
    twice. The tokens returned are the tokens of the lexeme segments,
    one for each and in the same order, followed by the end marker.
    Every other segment is whitespace, one line comment without its
    line break, or one block comment that ends with the first closing
    (at the end of the text when there is none). The text of a lexeme
    spells its token: a word, with the word as value; a number, with
    the value [parseFloat] gives its text; a string literal closed by
    the first quote that no backslash precedes, with the characters
    between the quotes as value; or an operator of one of the two
    tables, with its text as value. *)
Theorem tokenize_reconstructs_source (text : string) (toks : list Token) :
  tokenize text = Ok toks →
  ∃ segs : list segment,
    let inp := list_ascii_of_string text in
    tokenize_segments text = Ok (toks, segs)
    ∧ chained 0 segs (length inp)
    ∧ concat (segment_text inp <$> segs) = inp
    ∧ (∃ e, toks = (segs ≫= segment_token) ++ [e] ∧ type e = "EOF")
    ∧ Forall (well_formed inp) segs.
Proof.
  unfold tokenize, tokenize_segments. intros Htok.
  destruct (tokenize_loop _ _ _) as [[lx segs] | |] eqn:Hloop;
    simpl in Htok; try discriminate Htok.
  injection Htok as <-. exists segs. cbv zeta.
  set (inp := list_ascii_of_string text).
  assert (Hinit : invariant inp (new_lexer (num:=num) text) [])
    by (split; simpl; done).
  destruct (tokenize_loop_invariant _ _ _ _ _ _ Hinit Hloop) as [Hinv Hend].
  pose proof (inv_input _ _ _ Hinv) as Hi.
  pose proof (inv_chained _ _ _ Hinv) as Hc.
  pose proof (inv_tokens _ _ _ Hinv) as Ht.
  assert (Hstart : tracked (new_lexer (num:=num) text)).
  { unfold tracked, new_lexer. simpl. split; [lia |]. by split. }
  assert (Hinput : input (new_lexer (num:=num) text) = inp) by done.
  destruct (tokenize_loop_placed inp _ _ _ _ _ Hinput Hstart
              (Forall_nil_2 _) Hloop) as (_ & (Hle & _) & _).
  rewrite Hi in Hle.
  assert (Hstop : position lx = length inp) by lia.
  rewrite Hstop in Hc.
  split; [done |]. split; [done |]. split; [| split].
  - rewrite (chained_concat _ 0 segs (length inp) Hc).
    by apply substring_all.
  - exists (eof lx). by rewrite Ht.
  - by apply (tokenize_loop_segments inp _ _ _ _ _ Hinput (Forall_nil_2 _)
                Hloop).
Qed.

End WithNumbers.

Import ExactNum.

(** An assignment with a string that holds an escaped quote, a block
    comment, a number with a fraction and an exponent, and a line
    comment. *)
Definition commented : string :=
  "x = 'a\'b' /* c * d */ + 1.5e3 // end".

Lemma tokenize_reconstructs_source_witness :
  ∃ toks segs,
    let inp := list_ascii_of_string commented in
    tokenize (num:=xnum) commented = Ok toks
    ∧ tokenize_segments commented = Ok (toks, segs)
    ∧ chained 0 segs (length inp)
    ∧ concat (segment_text inp <$> segs) = inp
    ∧ (∃ e, toks = (segs ≫= segment_token) ++ [e] ∧ type e = "EOF")
    ∧ Forall (well_formed inp) segs.
Proof.
  assert (Htok : ∃ toks, tokenize (num:=xnum) commented = Ok toks)
    by (eexists; vm_compute; reflexivity).
  destruct Htok as [toks Htok]. exists toks.
  destruct (tokenize_reconstructs_source commented toks Htok) as [segs Hsegs].
  exists segs. split; [exact Htok | exact Hsegs].
Defined.

Example tokenize_commented :
  result_bind (tokenize_segments (num:=xnum) commented)
    (λ '(toks, segs),
       Ok ((λ t, (type t, value t)) <$> toks,
           (λ s, (seg_start s, seg_stop s)) <$> segs))
  = Ok ([("IDENTIFIER", LStr "x"); ("ASSIGN", LStr "=");
         ("STRING", LStr "a'b"); ("PLUS", LStr "+");
         ("NUMBER", LNum (fin 1500)); ("EOF", LNull)],
        [(0, 0); (0, 1); (1, 2); (2, 3); (3, 4); (4, 10); (10, 11);
         (11, 22); (22, 23); (23, 24); (24, 25); (25, 30); (30, 31);
         (31, 37)]).
Proof. vm_compute. reflexivity. Qed.

Example tokenize_segments_run :
  tokenize_segments (num:=xnum) "x=1 //c"
  = Ok ([mkToken "IDENTIFIER" (LStr "x") 1 1; mkToken "ASSIGN" (LStr "=") 1 2;
         mkToken "NUMBER" (LNum (fin 1)) 1 3; mkToken "EOF" LNull 1 8],
        [Skipped 0 0; Lexeme (mkToken "IDENTIFIER" (LStr "x") 1 1) 0 1;
         Skipped 1 1; Lexeme (mkToken "ASSIGN" (LStr "=") 1 2) 1 2;
         Skipped 2 2; Lexeme (mkToken "NUMBER" (LNum (fin 1)) 1 3) 2 3;
         Skipped 3 4; Skipped 4 7]).
Proof. vm_compute. reflexivity. Qed.

Example tokenize_dangling_exponent :
  result_bind (tokenize (num:=xnum) "1else")
    (λ toks, Ok ((λ t, (type t, value t)) <$> toks))
  = Ok [("NUMBER", LNum (fin 1)); ("IDENTIFIER", LStr "lse"); ("EOF", LNull)].
Proof. vm_compute. reflexivity. Qed.

(** [let x] and, on the next line and indented, [= 1]. *)
Definition two_lines : string := "let x" +:+ String "010" "  = 1".

Lemma tokens_carry_their_position_witness :
  ∃ toks segs,
    tokenize_segments (num:=xnum) two_lines = Ok (toks, segs)
    ∧ (∀ t a b, Lexeme t a b ∈ segs →
         line t = line_at (take a (list_ascii_of_string two_lines))
         ∧ column t = column_at (take a (list_ascii_of_string two_lines)))
    ∧ ∃ eof, last toks = Some eof ∧ type eof = "EOF"
             ∧ line eof = line_at (list_ascii_of_string two_lines)
             ∧ column eof = column_at (list_ascii_of_string two_lines).
Proof.
  assert (Hrun : ∃ toks segs,
            tokenize_segments (num:=xnum) two_lines = Ok (toks, segs))
    by (eexists _, _; vm_compute; reflexivity).
  destruct Hrun as (toks & segs & Hrun). exists toks, segs.
  split; [exact Hrun |].
  exact (tokens_carry_their_position two_lines toks segs Hrun).
Defined.

Example tokens_on_two_lines :
  (λ t : Lexer.Token xnum, (type t, line t, column t))
  <$> match tokenize (num:=xnum) two_lines with Ok toks => toks | _ => [] end
  = [("LET", 1, 1); ("IDENTIFIER", 1, 5); ("ASSIGN", 2, 3);
     ("NUMBER", 2, 5); ("EOF", 2, 6)].
Proof. vm_compute. reflexivity. Qed.

Lemma string_literal_round_trip_witness :
  ∃ l c,
    tokenize (num:=xnum) (String "034" ("it's" +:+ String "034" ""))
    = Ok [mkToken "STRING" (LStr "it's") 1 1; mkToken "EOF" LNull l c].
Proof.
  apply (string_literal_round_trip "034" "it's"); [reflexivity |].
  repeat constructor; discriminate.
Defined.

Lemma unterminated_string_witness :
  tokenize (num:=xnum) (String "034" "never closed")
  = Err "Unterminated string at line 1, column 1".
Proof.
  apply (unterminated_string "034" "never closed"); [reflexivity |].
  apply (bool_decide_unpack _). vm_compute. exact Logic.I.
Defined.

Lemma word_is_keyword_or_identifier_witness :
  tokenize (num:=xnum) "while"
  = Ok [mkToken "WHILE" (LStr "while") 1 1; mkToken "EOF" LNull 1 6]
  ∧ tokenize (num:=xnum) "While"
    = Ok [mkToken "IDENTIFIER" (LStr "While") 1 1; mkToken "EOF" LNull 1 6].
Proof.
  split.
  - apply (word_is_keyword_or_identifier "while" "w"
             (list_ascii_of_string "hile")); [reflexivity | reflexivity |].
    repeat constructor.
  - apply (word_is_keyword_or_identifier "While" "W"
             (list_ascii_of_string "hile")); [reflexivity | reflexivity |].
    repeat constructor.
Defined.

End LexerProps.

(** ** The parser *)

Module ParserProps.

Import Ast Parser.

Local Open Scope nat_scope.

Section WithNumbers.
Context {num : Type} `{JsNumber num}.

Abbreviation Token := (Lexer.Token num).
Abbreviation node := (Ast.node num).
Abbreviation Parser := (Parser.Parser num).

Implicit Types p : Parser.
Implicit Types tok : Token.

Lemma peek_not_at_end p tok : peek p = Some tok → isAtEnd p = false.
Proof.
  unfold peek, isAtEnd. intros Hp. apply lookup_lt_Some in Hp.
  apply Nat.leb_gt. lia.
Qed.

Lemma check_peek p tok ty :
  peek p = Some tok → check ty p = String.eqb (Lexer.type tok) ty.
Proof.
  intros Hp. unfold check. by rewrite (peek_not_at_end p tok Hp), Hp.
Qed.

Lemma advance_peek p tok :
  peek p = Some tok →
  advance p = mkParser (tokens p) (S (position p))
  ∧ previous (advance p) = Some tok.
Proof.
  intros Hp. unfold advance. rewrite (peek_not_at_end p tok Hp).
  split; [done |]. exact Hp.
Qed.

(** [match('IDENTIFIER') && previous().value === 'step'] on an
    identifier: the token is consumed whatever its text, and the answer
    is whether the text is [step]. *)
Lemma step_clause_identifier p tok :
  peek p = Some tok → Lexer.type tok = "IDENTIFIER" →
  step_clause p
  = Ok (match Lexer.value tok with
        | LStr s => String.eqb s "step"
        | _ => false
        end, advance p).
Proof.
  intros Hp Hty. unfold step_clause, pbind, matches. simpl.
  rewrite (check_peek p tok _ Hp), Hty. simpl.
  unfold previous_value. destruct (advance_peek p tok Hp) as [_ ->]. done.
Qed.

(** On any other token nothing is consumed. *)
Lemma step_clause_other p :
  check "IDENTIFIER" p = false → step_clause p = Ok (false, p).
Proof.
  intros Hc. unfold step_clause, pbind, matches. simpl. by rewrite Hc.
Qed.

Section ForStatement.
Variables (expression statement : parser_m num node) (k : nat).

(** What [forStatement] does after the step clause, given the [step]
    it settled on. *)
Definition for_body (iterator : string) (start end_ step : node)
  : parser_m num node :=
  pbind (consume "LBRACE" "Expected {") (λ _,
  pbind (block statement k) (λ body,
  ret (ForStatement iterator start end_ step body))).

Definition default_step : node := Literal (LNum (num_of_Z 1)).

(** C10. Let the header of a [for] statement be parsed up to its end
    expression, and let the next token be an identifier. If its text is
    not [step], the token is consumed and dropped, no error is raised
    for it, and the statement is parsed from the token after it with
    the step [1]; if its text is [step], the step is the expression
    parsed after it. A token that is not an identifier is not consumed
    and the step is [1]. *)
Theorem forStatement_step_clause p iterator p1 assign p2 start p3 to p4
    end_ p5 :
  consume_text "IDENTIFIER" "Expected iterator variable" p
  = Ok (iterator, p1) →
  consume "ASSIGN" "Expected =" p1 = Ok (assign, p2) →
  expression p2 = Ok (start, p3) →
  consume "TO" "Expected to" p3 = Ok (to, p4) →
  expression p4 = Ok (end_, p5) →
  (∀ tok, peek p5 = Some tok → Lexer.type tok = "IDENTIFIER" →
     (Lexer.value tok ≠ LStr "step" →
      forStatement expression statement k p
      = for_body iterator start end_ default_step (advance p5))
     ∧ (Lexer.value tok = LStr "step" →
        forStatement expression statement k p
        = pbind expression (for_body iterator start end_) (advance p5)))
  ∧ (check "IDENTIFIER" p5 = false →
     forStatement expression statement k p
     = for_body iterator start end_ default_step p5).
Proof.
  intros Hit Has Hstart Hto Hend.
  assert (Hfor : forStatement expression statement k p
                 = pbind step_clause (λ has_step,
                     pbind (if has_step then expression else ret default_step)
                       (for_body iterator start end_)) p5).
  { unfold forStatement, pbind at 1 2 3 4 5.
    by rewrite Hit, Has, Hstart, Hto, Hend. }
  split.
  - intros tok Hp Hty.
    split; intros Hv; rewrite Hfor; unfold pbind at 1;
      rewrite (step_clause_identifier p5 tok Hp Hty).
    + destruct (Lexer.value tok) as [| | |s]; try done.
      destruct (String.eqb s "step") eqn:Hs; [| done].
      apply String.eqb_eq in Hs. by subst.
    + by rewrite Hv.
  - intros Hc. rewrite Hfor. unfold pbind at 1.
    by rewrite (step_clause_other p5 Hc).
Qed.

End ForStatement.

End WithNumbers.

Import ExactNum.

(** The tokens of a source text. *)
Definition tokens_of (text : string) : list (Lexer.Token xnum) :=
  match Lexer.tokenize text with
  | Ok toks => toks
  | _ => []
  end.

Definition parse_text (n : nat) (text : string) : result (Ast.node xnum) :=
  result_bind (Lexer.tokenize text) (Parser.parse n).

Lemma forStatement_step_clause_witness :
  let p i := mkParser (tokens_of "for i = 1 to 3 foo { }") i in
  let one := Literal (LNum (fin 1)) in
  let three := Literal (LNum (fin 3)) in
  peek (p 6) = Some (Lexer.mkToken "IDENTIFIER" (LStr "foo") 1 16)
  ∧ forStatement (expression 9) (statement 9) 9 (p 1)
    = for_body (statement 9) 9 "i" one three default_step (advance (p 6)).
Proof.
  intros p one three.
  assert (Hpeek : peek (p 6)
                  = Some (Lexer.mkToken "IDENTIFIER" (LStr "foo") 1 16))
    by (vm_compute; reflexivity).
  split; [exact Hpeek |].
  refine (proj1 (proj1 (forStatement_step_clause (expression 9) (statement 9)
            9 (p 1) "i" (p 2) _ (p 3) one (p 4) _ (p 5) three (p 6)
            _ _ _ _ _) _ Hpeek eq_refl) _);
    try (vm_compute; reflexivity).
  discriminate.
Defined.

Example for_stray_identifier_dropped :
  parse_text 9 "for i = 1 to 3 foo { }" = parse_text 9 "for i = 1 to 3 { }"
  ∧ parse_text 9 "for i = 1 to 3 foo { }"
    = Ok (Program [ForStatement "i" (Literal (LNum (fin 1)))
                     (Literal (LNum (fin 3))) (Literal (LNum (fin 1))) []]).
Proof. split; vm_compute; reflexivity. Qed.

Example for_step_expression :
  parse_text 9 "for i = 1 to 3 step 2 { }"
  = Ok (Program [ForStatement "i" (Literal (LNum (fin 1)))
                   (Literal (LNum (fin 3))) (Literal (LNum (fin 2))) []]).
Proof. vm_compute. reflexivity. Qed.

(** A second stray identifier is not dropped. *)
Example for_two_stray_identifiers :
  parse_text 9 "for i = 1 to 3 foo bar { }" = Err "Expected { at line 1, column 20".
Proof. vm_compute. reflexivity. Qed.

End ParserProps.

(** ** The parser: every loop consumes tokens *)

Module ParserProgress.

Import Ast Parser.

Local Open Scope nat_scope.

Section WithNumbers.
Context {num : Type} `{JsNumber num}.

Abbreviation Token := (Lexer.Token num).
Abbreviation node := (Ast.node num).
Abbreviation Parser := (Parser.Parser num).
Abbreviation parser_m := (Parser.parser_m num).

Implicit Types p : Parser.

(** The tokens not yet consumed. *)
Definition tokens_left p : nat := length (tokens p) - position p.

(** What a method started at [p] may do: it returns without having
    gone back (having consumed a token, when [strict]) or throws; it
    does not exhaust its fuel. *)
Definition post {A} (strict : bool) p (o : result (A * Parser)) : Prop :=
  match o with
  | Ok (_, p') =>
      tokens p' = tokens p
      ∧ if strict then tokens_left p' < tokens_left p
        else tokens_left p' ≤ tokens_left p
  | Err _ => True
  | OutOfFuel => False
  end.

(** The method does so wherever at most [r] tokens remain. *)
Definition runs {A} (strict : bool) (r : nat) (m : parser_m A) : Prop :=
  ∀ p, tokens_left p ≤ r → post strict p (m p).

Lemma runs_weaken {A} b r (m : parser_m A) : runs true r m → runs b r m.
Proof.
  intros Hm p Hp. specialize (Hm p Hp). unfold post in *.
  destruct (m p) as [[a p'] | |]; try done. destruct b; [done |].
  destruct Hm. split; [done | lia].
Qed.

Lemma runs_le {A} b r r' (m : parser_m A) : r' ≤ r → runs b r m → runs b r' m.
Proof. intros Hr Hm p Hp. apply Hm. lia. Qed.

Lemma runs_ret {A} r (a : A) : runs false r (ret a).
Proof. intros p Hp. by split. Qed.

Lemma runs_throw {A} b r message : runs b r (throw (A:=A) message).
Proof. by intros p Hp. Qed.

(** [m] then [k], when [m] need not consume. *)
Lemma runs_bind {A B} b r (m : parser_m A) (k : A → parser_m B) :
  runs false r m → (∀ a, runs b r (k a)) → runs b r (pbind m k).
Proof.
  intros Hm Hk p Hp. specialize (Hm p Hp). unfold pbind, post in *.
  destruct (m p) as [[a p'] | |]; try done. destruct Hm as [Ht Hr].
  specialize (Hk a p' ltac:(lia)). unfold post in Hk.
  destruct (k a p') as [[c p''] | |]; try done. destruct Hk as [Ht' Hr'].
  split; [congruence |]. destruct b; lia.
Qed.

(** [m] then [k], when [m] consumes: [k] starts with fewer tokens. *)
Lemma runs_then {A B} r (m : parser_m A) (k : A → parser_m B) :
  runs true r m → (∀ a r', r = S r' → runs false r' (k a)) →
  runs true r (pbind m k).
Proof.
  intros Hm Hk p Hp. specialize (Hm p Hp). unfold pbind, post in *.
  destruct (m p) as [[a p'] | |]; try done. destruct Hm as [Ht Hr].
  destruct r as [| r']; [lia |].
  specialize (Hk a r' eq_refl p' ltac:(lia)). unfold post in Hk.
  destruct (k a p') as [[c p''] | |]; try done. destruct Hk as [Ht' Hr'].
  split; [congruence | lia].
Qed.

Lemma advance_remaining p :
  isAtEnd p = false →
  tokens (advance p) = tokens p ∧ S (tokens_left (advance p)) = tokens_left p.
Proof.
  unfold advance, tokens_left. intros Hend. rewrite Hend. simpl.
  unfold isAtEnd in Hend. apply Nat.leb_gt in Hend. split; [done | lia].
Qed.

Lemma check_not_at_end ty p : check ty p = true → isAtEnd p = false.
Proof. unfold check. by destruct (isAtEnd p). Qed.

Lemma match_cases types p :
  match_ types p = (false, p)
  ∨ match_ types p = (true, advance p) ∧ isAtEnd p = false.
Proof.
  induction types as [| ty rest IH]; simpl; [by left |].
  destruct (check ty p) eqn:Hc; [| exact IH].
  right. split; [done |]. by eapply check_not_at_end.
Qed.

(** [if (this.match(...)) X else Y] *)
Lemma runs_matches {A} b r types (X Y : parser_m A) :
  (∀ r', r = S r' → runs false r' X) → runs b r Y →
  runs b r (pbind (matches types) (λ c, if c then X else Y)).
Proof.
  intros HX HY p Hp. unfold pbind, matches.
  destruct (match_cases types p) as [-> | [-> Hend]]; [by apply HY |].
  destruct (advance_remaining p Hend) as [Ht Hr].
  destruct r as [| r']; [lia |].
  specialize (HX r' eq_refl (advance p) ltac:(lia)). unfold post in *.
  destruct (X (advance p)) as [[a p'] | |]; try done.
  destruct HX as [Ht' Hr']. split; [congruence |]. destruct b; lia.
Qed.

Lemma runs_match r types : runs false r (matches types).
Proof.
  intros p Hp. unfold matches.
  destruct (match_cases types p) as [-> | [-> Hend]]; [by split |].
  destruct (advance_remaining p Hend) as [Ht Hr]. split; [done | lia].
Qed.

Lemma runs_checks r ty : runs false r (checks ty).
Proof. intros p Hp. by split. Qed.

Lemma runs_atEnd r : runs false r atEnd.
Proof. intros p Hp. by split. Qed.

Lemma runs_previous_value r : runs false r previous_value.
Proof.
  intros p Hp. unfold previous_value. by destruct (previous p).
Qed.

Lemma runs_previous_text r : runs false r previous_text.
Proof.
  apply runs_bind; [apply runs_previous_value | intros v; apply runs_ret].
Qed.

Lemma runs_consume r ty message : runs true r (consume ty message).
Proof.
  intros p Hp. unfold consume. destruct (check ty p) eqn:Hc.
  - destruct (advance_remaining p (check_not_at_end ty p Hc)) as [Ht Hr].
    destruct (previous (advance p)); [| done]. split; [done | lia].
  - by destruct (peek p).
Qed.

Lemma runs_consume_text r ty message : runs true r (consume_text ty message).
Proof.
  apply runs_then; [apply runs_consume | intros t r' ->; apply runs_ret].
Qed.

Lemma runs_consumeOptional r ty : runs false r (consumeOptional ty).
Proof.
  intros p Hp. unfold consumeOptional. destruct (check ty p) eqn:Hc.
  - destruct (advance_remaining p (check_not_at_end ty p Hc)) as [Ht Hr].
    split; [done | lia].
  - by split.
Qed.

(** One unit of fuel for each token that remains is enough for the
    loop of a list. *)
Lemma runs_comma_list {A} (item : parser_m A) k :
  ∀ r acc, runs false r item → r < k → runs false r (comma_list item k acc).
Proof.
  induction k as [| k IH]; intros r acc Hitem Hk; [lia |].
  cbn [comma_list]. apply runs_bind; [exact Hitem |]. intros x.
  apply runs_matches; [| apply runs_ret].
  intros r' ->. apply IH; [| lia]. eapply runs_le; [| exact Hitem]. lia.
Qed.

Ltac leaf :=
  first
    [ apply runs_ret | apply runs_throw
    | apply runs_match | apply runs_checks | apply runs_atEnd
    | apply runs_previous_value | apply runs_previous_text
    | apply runs_consumeOptional
    | apply runs_consume | apply runs_consume_text
    | apply runs_weaken; first [apply runs_consume | apply runs_consume_text] ].

(** One step through the body of a method; [known] closes the calls of
    other methods. *)
Ltac run known :=
  repeat first
    [ leaf
    | solve [known]
    | apply runs_matches; [intros ? ?; simplify_eq |]
    | match goal with
      | |- runs _ _ (pbind (if ?c then _ else _) _) => destruct c
      end
    | apply runs_weaken, runs_then;
        [solve [run known] | intros ? ? ?; simplify_eq]
    | apply runs_bind; [solve [run known] | intros ?]
    | match goal with
      | |- runs _ _ (if ?c then _ else _) => destruct c
      end ].

(** A method that is called with fewer tokens than remain now. *)
Definition below {A} (r : nat) (m : parser_m A) : Prop :=
  ∀ q, q < r → runs true q m.

Ltac use H := first [apply H; lia | apply runs_weaken, H; lia].

(** *** Expressions *)

Section Expressions.
Variable expression : parser_m node.

Lemma runs_objectProperty r :
  below r expression → runs true r (objectProperty expression).
Proof. intros He. unfold objectProperty. run ltac:(idtac; use He). Qed.

Lemma runs_primary r k :
  below r expression → r < k → runs true r (primary expression k).
Proof.
  intros He Hk. unfold primary.
  run ltac:(idtac; first [ use He
                  | apply runs_comma_list; [| lia];
                    first [ use He
                          | apply runs_weaken, runs_objectProperty;
                            intros q Hq; use He ] ]).
  intros p Hp. by destruct (peek p).
Qed.

Lemma runs_postfix_loop k :
  ∀ r expr,
    below r expression → r < k →
    runs false r (postfix_loop expression k expr).
Proof.
  induction k as [| k IH]; intros r expr He Hk; [lia |].
  cbn [postfix_loop].
  run ltac:(idtac; first [ use He
                  | apply runs_comma_list; [use He | lia]
                  | apply IH; [intros q Hq; use He | lia] ]).
Qed.

Lemma runs_postfix r k :
  below r expression → S r < k → runs true r (postfix expression k).
Proof.
  intros He Hk. unfold postfix.
  apply runs_then; [apply runs_primary; [done | lia] |].
  intros expr r' ->. apply runs_postfix_loop; [| lia].
  intros q Hq. use He.
Qed.

Lemma runs_unary k :
  ∀ r, below r expression → S (S r) < k → runs true r (unary expression k).
Proof.
  induction k as [| k IH]; intros r He Hk; [lia |].
  cbn [unary].
  run ltac:(idtac; first [ apply runs_weaken, IH; [intros q Hq; use He | lia]
                  | apply runs_postfix; [done | lia] ]).
Qed.

Lemma runs_binary_loop types (operand : parser_m node) k :
  ∀ r expr,
    runs false r operand → r < k →
    runs false r (binary_loop types operand k expr).
Proof.
  induction k as [| k IH]; intros r expr Ho Hk; [lia |].
  cbn [binary_loop].
  run ltac:(idtac; first [ eapply runs_le; [| exact Ho]; lia
                  | apply IH; [eapply runs_le; [| exact Ho]; lia | lia] ]).
Qed.

(** A level of binary operators over the level below it. *)
Lemma runs_level types (operand : parser_m node) r k :
  runs true r operand → S r < k →
  runs true r
    (pbind operand (λ expr, binary_loop types operand k expr)).
Proof.
  intros Ho Hk. apply runs_then; [exact Ho |].
  intros expr r' ->. apply runs_binary_loop; [| lia].
  apply runs_weaken. eapply runs_le; [| exact Ho]. lia.
Qed.

Lemma runs_logicalOr r k :
  below r expression → S (S r) < k → runs true r (logicalOr expression k).
Proof.
  intros He Hk.
  unfold logicalOr, logicalAnd, equality, comparison, term, factor.
  do 6 (apply runs_level; [| lia]). by apply runs_unary.
Qed.

Lemma runs_assignment k :
  ∀ r, below r expression → S (S (S r)) < k →
       runs true r (assignment expression k).
Proof.
  induction k as [| k IH]; intros r He Hk; [lia |].
  cbn [assignment].
  apply runs_then; [apply runs_logicalOr; [done | lia] |].
  intros expr r' ->.
  run ltac:(idtac; apply runs_weaken, IH; [intros q Hq; use He | lia]).
Qed.

End Expressions.

Lemma runs_expression n : ∀ r, r + 4 < n → runs true r (expression n).
Proof.
  induction n as [| n IH]; intros r Hn; [lia |].
  cbn [expression]. apply runs_assignment; [| lia].
  intros q Hq. apply IH. lia.
Qed.

(** *** Statements *)

Ltac at_most H :=
  eapply runs_le; [| first [exact H | apply runs_weaken; exact H]]; lia.

Section Statements.
Variable expression : parser_m node.
Variable statement : parser_m node.

Lemma runs_block_loop k :
  ∀ r statements,
    runs true r statement → r < k →
    runs false r (block_loop statement k statements).
Proof.
  induction k as [| k IH]; intros r statements Hs Hk; [lia |].
  cbn [block_loop].
  run ltac:(idtac; first [ at_most Hs | apply IH; [at_most Hs | lia] ]).
Qed.

Lemma runs_block r k :
  runs true r statement → r < k → runs true r (block statement k).
Proof.
  intros Hs Hk. unfold block.
  apply runs_bind; [by apply runs_block_loop |]. intros statements.
  run idtac.
Qed.

Ltac blocks Hs :=
  first [ apply runs_block; [at_most Hs | lia]
        | apply runs_weaken, runs_block; [at_most Hs | lia] ].

Lemma runs_variableDeclaration r :
  runs true r expression → runs true r (variableDeclaration expression).
Proof.
  intros He. unfold variableDeclaration. run ltac:(idtac; at_most He).
Qed.

Lemma runs_functionDeclaration r k :
  runs true r statement → r < k →
  runs true r (functionDeclaration statement k).
Proof.
  intros Hs Hk. unfold functionDeclaration.
  run ltac:(idtac; first [ blocks Hs
                         | apply runs_comma_list; [leaf | lia] ]).
Qed.

Lemma post_advance {A} b p (o : result (A * Parser)) :
  isAtEnd p = false → post b (advance p) o → post false p o.
Proof.
  intros Hend. destruct (advance_remaining p Hend) as [Ht Hr].
  unfold post. destruct o as [[a p'] | |]; try done.
  intros [Ht' Hr']. split; [congruence |]. destruct b; lia.
Qed.

Lemma runs_class_loop k :
  ∀ r methods properties,
    runs true r expression → runs true r statement → r < k →
    runs false r (class_loop expression statement k methods properties).
Proof.
  induction k as [| k IH]; intros r methods properties He Hs Hk; [lia |].
  intros p Hp. cbn [class_loop]. unfold pbind at 1 2. unfold checks, atEnd.
  destruct (check "RBRACE" p); [by split |].
  destruct (isAtEnd p) eqn:Hend; [by split |]. cbn [negb andb].
  destruct (advance_remaining p Hend) as [Ht Hr].
  destruct r as [| r']; [lia |].
  assert (Hloop : ∀ ms ps,
            runs false r' (class_loop expression statement k ms ps))
    by (intros ms ps; apply IH; [at_most He | at_most Hs | lia]).
  unfold pbind at 1. unfold matches at 1.
  destruct (match_cases ["DEF"; "FUNCTION"] p) as [-> | [-> _]].
  - unfold pbind at 1. unfold matches at 1.
    destruct (match_cases ["LET"; "CONST"; "VAR"] p) as [-> | [-> _]].
    + apply (post_advance false); [done |]. apply Hloop. lia.
    + apply (post_advance false); [done |].
      apply (runs_bind false r'); [| intros v; apply Hloop | lia].
      apply runs_weaken, runs_variableDeclaration. at_most He.
  - apply (post_advance false); [done |].
    apply (runs_bind false r'); [| intros m; apply Hloop | lia].
    apply runs_weaken, runs_functionDeclaration; [at_most Hs | lia].
Qed.

Lemma runs_classDeclaration r k :
  runs true r expression → runs true r statement → r < k →
  runs true r (classDeclaration expression statement k).
Proof.
  intros He Hs Hk. unfold classDeclaration.
  run ltac:(idtac; apply runs_class_loop; [at_most He | at_most Hs | lia]).
Qed.

Lemma runs_importSpecifier r : runs true r importSpecifier.
Proof. unfold importSpecifier. run idtac. Qed.

Lemma runs_importStatement r k : r < k → runs false r (importStatement k).
Proof.
  intros Hk. unfold importStatement.
  run ltac:(idtac; apply runs_comma_list;
                   [apply runs_weaken, runs_importSpecifier | lia]).
Qed.

Lemma runs_tryStatement r k :
  runs true r statement → r < k → runs true r (tryStatement statement k).
Proof.
  intros Hs Hk. unfold tryStatement. run ltac:(idtac; blocks Hs).
Qed.

Lemma runs_elif_loop k :
  ∀ r elifBranches,
    runs true r expression → runs true r statement → r < k →
    runs false r (elif_loop expression statement k elifBranches).
Proof.
  induction k as [| k IH]; intros r elifBranches He Hs Hk; [lia |].
  cbn [elif_loop].
  run ltac:(idtac; first [ at_most He | blocks Hs
                         | apply IH; [at_most He | at_most Hs | lia] ]).
Qed.

Lemma runs_ifStatement r k :
  runs true r expression → runs true r statement → r < k →
  runs true r (ifStatement expression statement k).
Proof.
  intros He Hs Hk. unfold ifStatement.
  run ltac:(idtac; first [ at_most He | blocks Hs
                         | apply runs_elif_loop;
                           [at_most He | at_most Hs | lia] ]).
Qed.

Lemma runs_whileStatement r k :
  runs true r expression → runs true r statement → r < k →
  runs true r (whileStatement expression statement k).
Proof.
  intros He Hs Hk. unfold whileStatement.
  run ltac:(idtac; first [at_most He | blocks Hs]).
Qed.

Lemma runs_step_clause r : runs false r step_clause.
Proof. unfold step_clause. run idtac. Qed.

Lemma runs_forStatement r k :
  runs true r expression → runs true r statement → r < k →
  runs true r (forStatement expression statement k).
Proof.
  intros He Hs Hk. unfold forStatement.
  run ltac:(idtac; first [ at_most He | blocks Hs | apply runs_step_clause ]).
Qed.

Lemma runs_returnStatement r :
  runs true r expression → runs false r (returnStatement expression).
Proof.
  intros He. unfold returnStatement. run ltac:(idtac; at_most He).
Qed.

Lemma runs_expressionStatement r :
  runs true r expression → runs true r (expressionStatement expression).
Proof.
  intros He. unfold expressionStatement. run ltac:(idtac; at_most He).
Qed.

Lemma runs_statement_body r k :
  runs true r expression → below r statement → r < k →
  runs true r (statement_body expression statement k).
Proof.
  intros He Hs Hk. unfold statement_body.
  repeat (apply runs_matches; [intros r' -> |]).
  - apply runs_weaken, runs_variableDeclaration. at_most He.
  - apply runs_weaken, runs_functionDeclaration; [apply Hs |]; lia.
  - apply runs_weaken, runs_ifStatement; [at_most He | apply Hs |]; lia.
  - apply runs_weaken, runs_whileStatement; [at_most He | apply Hs |]; lia.
  - apply runs_weaken, runs_forStatement; [at_most He | apply Hs |]; lia.
  - apply runs_returnStatement. at_most He.
  - apply runs_ret.
  - apply runs_ret.
  - apply runs_weaken, runs_classDeclaration; [at_most He | apply Hs |]; lia.
  - apply runs_importStatement. lia.
  - apply runs_weaken, runs_tryStatement; [apply Hs |]; lia.
  - by apply runs_expressionStatement.
Qed.

End Statements.

Lemma runs_statement n : ∀ r, r + 5 < n → runs true r (statement n).
Proof.
  induction n as [| n IH]; intros r Hn; [lia |].
  cbn [statement]. apply runs_statement_body; [| | lia].
  - apply runs_expression. lia.
  - intros q Hq. apply IH. lia.
Qed.

Lemma runs_parse_loop n k :
  ∀ r statements,
    runs true r (statement n) → r < k →
    runs false r (parse_loop n k statements).
Proof.
  induction k as [| k IH]; intros r statements Hs Hk; [lia |].
  cbn [parse_loop].
  run ltac:(idtac; first [ at_most Hs | apply IH; [at_most Hs | lia] ]).
Qed.

(** X12. The parser comes to an end on every list of tokens: each of
    its loops and each of its recursive calls consumes a token, so with
    fuel above the number of tokens (by five, for the nesting of the
    methods) it returns a syntax tree or throws an error. *)
Theorem parse_terminates (n : nat) (toks : list Token) :
  length toks + 5 < n → parse n toks ≠ OutOfFuel.
Proof.
  intros Hn. unfold parse.
  pose proof (runs_parse_loop n n (length toks) []
                (runs_statement n (length toks) Hn) ltac:(lia)
                (mkParser toks 0)) as Hrun.
  unfold post, tokens_left in Hrun. simpl in Hrun.
  destruct (parse_loop n n [] (mkParser toks 0)) as [[statements p] | |];
    [done | done |].
  intros _. apply Hrun. lia.
Qed.

(** *** Class bodies *)

Definition at_token (toks : list Token) (i : nat) : Parser := mkParser toks i.

Lemma match_peek p tok types :
  peek p = Some tok →
  match_ types p
  = if existsb (String.eqb (Lexer.type tok)) types
    then (true, mkParser (tokens p) (S (position p)))
    else (false, p).
Proof.
  intros Hp. induction types as [| ty rest IH]; [done |]. simpl.
  rewrite (ParserProps.check_peek p tok ty Hp).
  destruct (String.eqb (Lexer.type tok) ty); [| exact IH]. simpl.
  by destruct (ParserProps.advance_peek p tok Hp) as [-> _].
Qed.

(** The token types that the loop of a class body acts on. *)
Definition class_body_types : list string :=
  ["RBRACE"; "DEF"; "FUNCTION"; "LET"; "CONST"; "VAR"].

Definition skipped (t : Token) : Prop := Lexer.type t ∉ class_body_types.

Lemma skipped_types t :
  skipped t →
  String.eqb (Lexer.type t) "RBRACE" = false
  ∧ existsb (String.eqb (Lexer.type t)) ["DEF"; "FUNCTION"] = false
  ∧ existsb (String.eqb (Lexer.type t)) ["LET"; "CONST"; "VAR"] = false.
Proof.
  unfold skipped, class_body_types. intros Ht.
  assert (Hne : ∀ ty, ty ∈ class_body_types →
            String.eqb (Lexer.type t) ty = false).
  { intros ty Hty. apply String.eqb_neq. intros Heq. apply Ht.
    by rewrite Heq. }
  simpl. rewrite !Hne; [done | ..]; unfold class_body_types; set_solver.
Qed.

Lemma class_loop_skips (e st : parser_m node) (rb : Token)
    (rest : list Token) (junk : list Token) :
  Lexer.type rb = "RBRACE" →
  Forall skipped junk →
  ∀ k (pre : list Token) methods properties,
    length junk < k →
    class_loop e st k methods properties
      (mkParser (pre ++ junk ++ rb :: rest) (length pre))
    = Ok ((methods, properties),
          mkParser (pre ++ junk ++ rb :: rest) (length pre + length junk)).
Proof.
  intros Hrb Hjunk. induction Hjunk as [| t junk Ht Hjunk IH];
    intros k pre methods properties Hk.
  - destruct k as [| k]; [simpl in Hk; lia |]. cbn [class_loop].
    unfold pbind at 1. unfold checks at 1. simpl app.
    assert (Hp : peek (mkParser (pre ++ rb :: rest) (length pre)) = Some rb)
      by (unfold peek; simpl; by apply list_lookup_middle).
    rewrite (ParserProps.check_peek _ rb _ Hp), Hrb. simpl.
    by rewrite Nat.add_0_r.
  - destruct k as [| k]; [simpl in Hk; lia |]. cbn [class_loop].
    set (p := mkParser (pre ++ (t :: junk) ++ rb :: rest) (length pre)).
    assert (Hp : peek p = Some t)
      by (unfold peek, p; simpl; by apply list_lookup_middle).
    destruct (skipped_types t Ht) as (Hclose & Hdef & Hlet).
    unfold pbind at 1 2. unfold checks at 1. unfold atEnd at 1.
    rewrite (ParserProps.check_peek p t _ Hp), Hclose.
    rewrite (ParserProps.peek_not_at_end p t Hp). cbn [negb andb].
    unfold pbind at 1. unfold matches at 1. rewrite (match_peek p t _ Hp), Hdef.
    unfold pbind at 1. unfold matches at 1. rewrite (match_peek p t _ Hp), Hlet.
    destruct (ParserProps.advance_peek p t Hp) as [-> _]. subst p. simpl tokens.
    simpl position.
    specialize (IH k (pre ++ [t]) methods properties ltac:(simpl in Hk; lia)).
    rewrite length_app in IH. simpl in IH.
    rewrite <- !app_assoc in IH. simpl in IH.
    rewrite Nat.add_1_r in IH. simpl. rewrite IH. do 3 f_equal. lia.
Qed.

(** X13. The parser reports nothing for what it does not expect in a
    class body: between the braces, every token that neither closes the
    body nor starts a method or a property is skipped, so a class whose
    body holds only such tokens is parsed as an empty class. *)
Theorem class_body_skips_other_tokens (n : nat) (c name lb rb eof : Token)
    (junk : list Token) :
  Lexer.type c = "CLASS" → Lexer.type name = "IDENTIFIER" →
  Lexer.type lb = "LBRACE" → Lexer.type rb = "RBRACE" →
  Lexer.type eof = "EOF" →
  Forall skipped junk →
  length junk + 1 < n →
  parse n ([c; name; lb] ++ junk ++ [rb; eof])
  = Ok (Program [ClassDeclaration (text_of (Lexer.value name)) None [] []]).
Proof.
  intros Hc Hname Hlb Hrb Heof Hjunk Hn.
  destruct n as [| n]; [lia |].
  set (toks := [c; name; lb] ++ junk ++ [rb; eof]).
  assert (H0 : peek (mkParser toks 0) = Some c) by done.
  assert (H1 : peek (mkParser toks 1) = Some name) by done.
  assert (H2 : peek (mkParser toks 2) = Some lb) by done.
  assert (Hloop := class_loop_skips (expression n) (statement n) rb [eof] junk
                     Hrb Hjunk n [c; name; lb] [] [] ltac:(lia)).
  fold toks in Hloop. simpl length in Hloop.
  assert (H3 : peek (mkParser toks (3 + length junk)) = Some rb).
  { unfold peek, toks. cbn [tokens position].
    rewrite (app_assoc [c; name; lb] junk).
    apply (list_lookup_middle ([c; name; lb] ++ junk)).
    rewrite length_app. reflexivity. }
  assert (H4 : peek (mkParser toks (S (3 + length junk))) = Some eof).
  { unfold peek, toks. cbn [tokens position].
    rewrite (app_assoc [c; name; lb] junk).
    change [rb; eof] with ([rb] ++ [eof]). rewrite app_assoc.
    apply (list_lookup_middle (([c; name; lb] ++ junk) ++ [rb])).
    rewrite !length_app. simpl. lia. }
  assert (Hstatement :
    statement (S n) (mkParser toks 0)
    = Ok (ClassDeclaration (text_of (Lexer.value name)) None [] [],
          mkParser toks (S (3 + length junk)))).
  { cbn [statement]. unfold statement_body.
    repeat (unfold pbind at 1; unfold matches at 1;
            rewrite (match_peek _ c _ H0), Hc; cbn [existsb String.eqb Ascii.eqb
              Bool.eqb orb]).
    simpl tokens. simpl position. unfold classDeclaration.
    unfold pbind at 1. unfold consume_text, pbind at 1. unfold consume at 1.
    rewrite (ParserProps.check_peek _ name _ H1), Hname.
    cbn [String.eqb Ascii.eqb Bool.eqb].
    destruct (ParserProps.advance_peek _ name H1) as [-> ->].
    simpl tokens. simpl position. unfold ret at 1.
    unfold pbind at 1. unfold matches at 1.
    rewrite (match_peek _ lb _ H2), Hlb.
    cbn [existsb String.eqb Ascii.eqb Bool.eqb orb].
    unfold pbind at 1. unfold ret at 1.
    unfold pbind at 1. unfold consume at 1.
    rewrite (ParserProps.check_peek _ lb _ H2), Hlb.
    cbn [String.eqb Ascii.eqb Bool.eqb].
    destruct (ParserProps.advance_peek _ lb H2) as [-> ->].
    simpl tokens. simpl position.
    unfold pbind at 1. rewrite Hloop.
    unfold pbind at 1. unfold consume at 1.
    rewrite (ParserProps.check_peek _ rb _ H3), Hrb.
    cbn [String.eqb Ascii.eqb Bool.eqb].
    destruct (ParserProps.advance_peek _ rb H3) as [-> ->].
    reflexivity. }
  assert (Hparse : ∀ k, 1 < k →
    parse_loop (S n) k [] (mkParser toks 0)
    = Ok ([ClassDeclaration (text_of (Lexer.value name)) None [] []],
          mkParser toks (S (S (3 + length junk))))).
  { intros [| [| k]] Hk; [lia | lia |].
    remember (S n) as m eqn:Hm.
    cbn [parse_loop]. unfold pbind at 1. unfold atEnd at 1.
    rewrite (ParserProps.peek_not_at_end _ c H0).
    unfold pbind at 1. unfold matches at 1.
    rewrite (match_peek _ c _ H0), Hc.
    cbn [existsb String.eqb Ascii.eqb Bool.eqb orb].
    unfold pbind at 1. rewrite Hstatement.
    unfold pbind at 1. unfold atEnd at 1.
    rewrite (ParserProps.peek_not_at_end _ eof H4).
    unfold pbind at 1. unfold matches at 1.
    rewrite (match_peek _ eof _ H4), Heof.
    reflexivity. }
  unfold parse. fold toks. by rewrite Hparse by lia.
Qed.

End WithNumbers.

Import ExactNum.

Lemma parse_terminates_witness :
  let toks := ParserProps.tokens_of "let x = (1 + 2) * 3" in
  length toks = 11 ∧ parse 17 toks ≠ OutOfFuel.
Proof.
  intros toks.
  assert (Hlen : length toks = 11) by (vm_compute; reflexivity).
  split; [exact Hlen |]. apply parse_terminates. rewrite Hlen. lia.
Defined.

(** Brackets left open end in an error, not in a loop. *)
Example parse_open_brackets :
  ParserProps.parse_text 9 "f(((" = Err "Unexpected token: EOF at line 1"
  ∧ ParserProps.parse_text 9 "while (x) { if (y) {"
    = Err "Unexpected token: EOF at line 1".
Proof. split; vm_compute; reflexivity. Qed.

Lemma class_body_skips_other_tokens_witness :
  ParserProps.parse_text 9 "class A { 1 + foo ; }"
  = Ok (Program [ClassDeclaration "A" None [] []]).
Proof.
  unfold ParserProps.parse_text.
  replace (Lexer.tokenize "class A { 1 + foo ; }")
    with (Ok ([Lexer.mkToken "CLASS" (LStr "class") 1 1;
               Lexer.mkToken "IDENTIFIER" (LStr "A") 1 7;
               Lexer.mkToken (num:=xnum) "LBRACE" (LStr "{") 1 9]
              ++ [Lexer.mkToken "NUMBER" (LNum (fin 1)) 1 11;
                  Lexer.mkToken "PLUS" (LStr "+") 1 13;
                  Lexer.mkToken "IDENTIFIER" (LStr "foo") 1 15;
                  Lexer.mkToken "SEMICOLON" (LStr ";") 1 19]
              ++ [Lexer.mkToken "RBRACE" (LStr "}") 1 21;
                  Lexer.mkToken "EOF" LNull 1 22]))
    by (vm_compute; reflexivity).
  cbn [result_bind].
  apply (class_body_skips_other_tokens 9); try reflexivity.
  - repeat constructor; unfold skipped, class_body_types;
      apply (bool_decide_unpack _); vm_compute; exact I.
  - simpl. lia.
Defined.

(** A method after such tokens is still found. *)
Example class_body_method_after_tokens :
  ParserProps.parse_text 9 "class A { 1 + foo ; def m() { } }"
  = Ok (Program [ClassDeclaration "A" None [FunctionDeclaration "m" [] []] []]).
Proof. vm_compute. reflexivity. Qed.

End ParserProgress.

(** ** The Python backend: what it writes *)

Module PythonBackendProps.

Import Ast PythonBackend.

Local Open Scope nat_scope.

Section WithNumbers.
Context {num : Type} `{JsNumber num}.

Abbreviation node := (Ast.node num).

Implicit Types g : backend.
Implicit Types n : node.

(** *** Induction on syntax trees *)

Section Induction.
Variable P : node → Prop.

Definition on_option (o : option node) : Prop :=
  match o with Some e => P e | None => True end.

Definition on_block (o : option (list node)) : Prop :=
  match o with Some body => Forall P body | None => True end.

Hypothesis HProgram : ∀ statements, Forall P statements → P (Program statements).
Hypothesis HVariableDeclaration :
  ∀ keyword name initializer,
    on_option initializer → P (VariableDeclaration keyword name initializer).
Hypothesis HFunctionDeclaration :
  ∀ name parameters body,
    Forall P body → P (FunctionDeclaration name parameters body).
Definition on_method (m : node) : Prop :=
  match m with FunctionDeclaration _ _ body => Forall P body | _ => True end.

Definition on_property (p : node) : Prop :=
  match p with
  | VariableDeclaration _ _ initializer => on_option initializer
  | _ => True
  end.

Hypothesis HClassDeclaration :
  ∀ name superclass methods properties,
    Forall on_method methods → Forall on_property properties →
    P (ClassDeclaration name superclass methods properties).
Hypothesis HImportStatement :
  ∀ specifiers source, P (ImportStatement specifiers source).
Hypothesis HTryStatement :
  ∀ tryBlock catchClause finallyBlock,
    Forall P tryBlock → on_block (snd <$> catchClause) →
    on_block finallyBlock →
    P (TryStatement tryBlock catchClause finallyBlock).
Hypothesis HIfStatement :
  ∀ condition thenBranch elifBranches elseBranch,
    P condition → Forall P thenBranch →
    Forall (λ elif : node * list node, P elif.1 ∧ Forall P elif.2)
      elifBranches →
    on_block elseBranch →
    P (IfStatement condition thenBranch elifBranches elseBranch).
Hypothesis HWhileStatement :
  ∀ condition body, P condition → Forall P body →
                    P (WhileStatement condition body).
Hypothesis HForStatement :
  ∀ iterator start end_ step body,
    P start → P end_ → P step → Forall P body →
    P (ForStatement iterator start end_ step body).
Hypothesis HReturnStatement :
  ∀ value, on_option value → P (ReturnStatement value).
Hypothesis HBreak : P Break.
Hypothesis HContinue : P Continue.
Hypothesis HExpressionStatement :
  ∀ expression, P expression → P (ExpressionStatement expression).
Hypothesis HAssignment :
  ∀ target operator value,
    P target → P value → P (Assignment target operator value).
Hypothesis HBinaryExpression :
  ∀ lhs operator rhs, P lhs → P rhs → P (BinaryExpression lhs operator rhs).
Hypothesis HUnaryExpression :
  ∀ operator operand, P operand → P (UnaryExpression operator operand).
Hypothesis HCallExpression :
  ∀ callee arguments,
    P callee → Forall P arguments → P (CallExpression callee arguments).
Hypothesis HIndexExpression :
  ∀ object index, P object → P index → P (IndexExpression object index).
Hypothesis HMemberExpression :
  ∀ object property, P object → P (MemberExpression object property).
Hypothesis HIdentifier : ∀ name, P (Identifier name).
Hypothesis HLiteral : ∀ value, P (Literal value).
Hypothesis HArrayLiteral :
  ∀ elements, Forall P elements → P (ArrayLiteral elements).
Hypothesis HObjectLiteral :
  ∀ properties,
    Forall (λ prop : string * node, P prop.2) properties →
    P (ObjectLiteral properties).

Fixpoint ast_induction (n : node) : P n :=
  let all :=
    fix all (l : list node) : Forall P l :=
      match l with
      | [] => Forall_nil_2 P
      | x :: l' => Forall_cons_2 P x l' (ast_induction x) (all l')
      end in
  let opt (o : option node) : on_option o :=
    match o with
    | Some e => ast_induction e
    | None => Logic.I
    end in
  let blk (o : option (list node)) : on_block o :=
    match o with
    | Some body => all body
    | None => Logic.I
    end in
  match n with
  | Program statements => HProgram statements (all statements)
  | VariableDeclaration keyword name initializer =>
      HVariableDeclaration keyword name initializer (opt initializer)
  | FunctionDeclaration name parameters body =>
      HFunctionDeclaration name parameters body (all body)
  | ClassDeclaration name superclass methods properties =>
      HClassDeclaration name superclass methods properties
        ((fix members (l : list node) : Forall on_method l :=
            match l with
            | [] => Forall_nil_2 _
            | m :: l' =>
                Forall_cons_2 _ m l'
                  (match m as m0 return on_method m0 with
                   | FunctionDeclaration _ _ body => all body
                   | _ => Logic.I
                   end)
                  (members l')
            end) methods)
        ((fix members (l : list node) : Forall on_property l :=
            match l with
            | [] => Forall_nil_2 _
            | p :: l' =>
                Forall_cons_2 _ p l'
                  (match p as p0 return on_property p0 with
                   | VariableDeclaration _ _ initializer => opt initializer
                   | _ => Logic.I
                   end)
                  (members l')
            end) properties)
  | ImportStatement specifiers source => HImportStatement specifiers source
  | TryStatement tryBlock catchClause finallyBlock =>
      HTryStatement tryBlock catchClause finallyBlock (all tryBlock)
        (match catchClause as c return on_block (snd <$> c) with
         | Some (_, body) => all body
         | None => Logic.I
         end)
        (blk finallyBlock)
  | IfStatement condition thenBranch elifBranches elseBranch =>
      HIfStatement condition thenBranch elifBranches elseBranch
        (ast_induction condition) (all thenBranch)
        ((fix elifs (l : list (node * list node))
            : Forall (λ elif : node * list node, P elif.1 ∧ Forall P elif.2) l :=
            match l with
            | [] => Forall_nil_2 _
            | elif :: l' =>
                Forall_cons_2 _ elif l'
                  (match elif as e return P e.1 ∧ Forall P e.2 with
                   | (c, body) => conj (ast_induction c) (all body)
                   end)
                  (elifs l')
            end) elifBranches)
        (blk elseBranch)
  | WhileStatement condition body =>
      HWhileStatement condition body (ast_induction condition) (all body)
  | ForStatement iterator start end_ step body =>
      HForStatement iterator start end_ step body (ast_induction start)
        (ast_induction end_) (ast_induction step) (all body)
  | ReturnStatement value => HReturnStatement value (opt value)
  | Break => HBreak
  | Continue => HContinue
  | ExpressionStatement expression =>
      HExpressionStatement expression (ast_induction expression)
  | Assignment target operator value =>
      HAssignment target operator value (ast_induction target)
        (ast_induction value)
  | BinaryExpression lhs operator rhs =>
      HBinaryExpression lhs operator rhs (ast_induction lhs)
        (ast_induction rhs)
  | UnaryExpression operator operand =>
      HUnaryExpression operator operand (ast_induction operand)
  | CallExpression callee arguments =>
      HCallExpression callee arguments (ast_induction callee) (all arguments)
  | IndexExpression object index =>
      HIndexExpression object index (ast_induction object)
        (ast_induction index)
  | MemberExpression object property =>
      HMemberExpression object property (ast_induction object)
  | Identifier name => HIdentifier name
  | Literal value => HLiteral value
  | ArrayLiteral elements => HArrayLiteral elements (all elements)
  | ObjectLiteral properties =>
      HObjectLiteral properties
        ((fix props (l : list (string * node))
            : Forall (λ prop : string * node, P prop.2) l :=
            match l with
            | [] => Forall_nil_2 _
            | prop :: l' =>
                Forall_cons_2 _ prop l'
                  (match prop as p return P p.2 with
                   | (_, v) => ast_induction v
                   end)
                  (props l')
            end) properties)
  end.

End Induction.

(** *** Expressions *)

Definition known_operator (table : list (string * string)) (operator : string)
  : bool :=
  bool_decide (is_Some (mapped table operator)).

(** Expressions without an assignment, with operators other than the
    names of [Object.prototype]. *)
Fixpoint expression_only n : bool :=
  match n with
  | BinaryExpression lhs operator rhs =>
      expression_only lhs && known_operator binary_operator_map operator
      && expression_only rhs
  | UnaryExpression operator operand =>
      known_operator unary_operator_map operator && expression_only operand
  | CallExpression callee arguments =>
      expression_only callee && forallb expression_only arguments
  | IndexExpression object index =>
      expression_only object && expression_only index
  | MemberExpression object _ => expression_only object
  | Identifier _ | Literal _ => true
  | ArrayLiteral elements => forallb expression_only elements
  | ObjectLiteral properties =>
      forallb (λ prop : string * node, expression_only prop.2) properties
  | _ => false
  end.

(** The call returns a string and writes nothing. *)
Definition silent {A} (f : backend → generated A) : Prop :=
  ∀ g, ∃ r, f g = Generated r g.

Definition returns_text (f : backend → generated (option string)) : Prop :=
  ∀ g, ∃ text, f g = Generated (Some text) g.

Lemma silent_collect {A B} (f : A → backend → generated B) (l : list A) :
  Forall (λ x, silent (f x)) l → silent (collect f l).
Proof.
  induction 1 as [| x l Hx _ IH]; intros g; [by eexists |].
  change (collect f (x :: l) g)
    with (gen r at g := f x g in
          gen rs at g := collect f l g in Generated (r :: rs) g).
  destruct (Hx g) as [r ->]. destruct (IH g) as [rs Hrs]. cbn [gbind].
  rewrite Hrs. by eexists.
Qed.

Lemma returns_text_silent f : returns_text f → silent f.
Proof. intros Hf g. destruct (Hf g) as [text ->]. by eexists. Qed.

Lemma known_operator_mapped table operator :
  known_operator table operator = true →
  ∃ o, mapped table operator = Some o.
Proof. intros Hk. by apply bool_decide_eq_true in Hk as [o Ho]; exists o. Qed.

Lemma expression_returns_text n :
  expression_only n = true → returns_text (generateNode n).
Proof.
  induction n using ast_induction; try discriminate; intros He g;
    cbn [expression_only] in He.
  - (* BinaryExpression *)
    apply andb_true_iff in He as [He Hr].
    apply andb_true_iff in He as [Hl Ho].
    destruct (known_operator_mapped _ _ Ho) as [o Hmap].
    cbn [generateNode].
    destruct (IHn1 Hl g) as [l ->]. cbn [gbind].
    destruct (IHn2 Hr g) as [r ->]. cbn [gbind].
    rewrite Hmap. by eexists.
  - (* UnaryExpression *)
    apply andb_true_iff in He as [Ho Hv].
    destruct (known_operator_mapped _ _ Ho) as [o Hmap].
    cbn [generateNode].
    destruct (IHn Hv g) as [v ->]. cbn [gbind]. rewrite Hmap. by eexists.
  - (* CallExpression *)
    apply andb_true_iff in He as [Hc Hargs].
    cbn [generateNode].
    destruct (IHn Hc g) as [c ->]. cbn [gbind].
    assert (Hall : silent (collect generateNode arguments)).
    { apply silent_collect. rewrite forallb_forall in Hargs.
      rewrite Forall_forall in H0 |- *. intros x Hx.
      apply returns_text_silent, H0; [done |].
      by apply Hargs, list_elem_of_In. }
    destruct (Hall g) as [args ->]. by eexists.
  - (* IndexExpression *)
    apply andb_true_iff in He as [Ho Hi]. cbn [generateNode].
    destruct (IHn1 Ho g) as [o ->]. cbn [gbind].
    destruct (IHn2 Hi g) as [i ->]. by eexists.
  - (* MemberExpression *)
    cbn [generateNode]. destruct (IHn He g) as [o ->]. by eexists.
  - by eexists.
  - by eexists.
  - (* ArrayLiteral *)
    cbn [generateNode].
    assert (Hall : silent (collect generateNode elements)).
    { apply silent_collect. rewrite forallb_forall in He.
      rewrite Forall_forall in H0 |- *. intros x Hx.
      apply returns_text_silent, H0; [done |].
      by apply He, list_elem_of_In. }
    destruct (Hall g) as [values ->]. by eexists.
  - (* ObjectLiteral *)
    cbn [generateNode].
    set (f := λ (prop : string * node) g,
                gen v at g := generateNode prop.2 g in
                Generated (quoted prop.1 +:+ ": " +:+ shown v) g).
    assert (Hall : silent (collect f properties)).
    { apply silent_collect. rewrite forallb_forall in He.
      rewrite Forall_forall in H0 |- *. intros x Hx g0. unfold f.
      destruct (H0 x Hx (He x ltac:(by apply list_elem_of_In)) g0) as [v ->].
      by eexists. }
    destruct (Hall g) as [props ->]. by eexists.
Qed.

Definition shebang : string := "#!/usr/bin/env python3".

(** X22. The Python backend writes nothing for a statement that is an
    expression with no assignment anywhere inside it (identifiers,
    literals, operators, calls, index and member reads, array and
    object literals): the script generated for a program of such
    statements, calls included, is the first line of every script and
    the empty line after it. An assignment inside, as the argument of
    a call, is written as a line of its own. *)
Theorem expression_statements_are_dropped (statements : list node) :
  Forall (λ s, ∃ e, s = ExpressionStatement e ∧ expression_only e = true)
    statements →
  generate (Program statements)
  = Generated (shebang +:+ String "010" "") (mkBackend 0 [shebang; ""]).
Proof.
  intros Hs. unfold generate. cbn [generateNode].
  assert (Heach : ∀ g, each generateNode statements g = Generated tt g).
  { induction Hs as [| s l (e & -> & He) _ IH]; intros g; [done |].
    change (each generateNode (ExpressionStatement e :: l) g)
      with (gen _r at g := generateNode e g in each generateNode l g).
    destruct (expression_returns_text e He g) as [text ->]. apply IH. }
  rewrite Heach. reflexivity.
Qed.

(** *** Indentation *)

(** The trees the model follows the host on: the members of a class
    are declarations of functions and of variables, and no operator is
    a name of [Object.prototype]. *)
Definition is_function n : bool :=
  match n with FunctionDeclaration _ _ _ => true | _ => false end.

Definition is_variable n : bool :=
  match n with VariableDeclaration _ _ _ => true | _ => false end.

Fixpoint supported n : bool :=
  let block (o : option (list node)) : bool :=
    match o with Some body => forallb supported body | None => true end in
  match n with
  | Program statements => forallb supported statements
  | VariableDeclaration _ _ initializer =>
      match initializer with Some e => supported e | None => true end
  | FunctionDeclaration _ _ body => forallb supported body
  | ClassDeclaration _ _ methods properties =>
      forallb (λ m, is_function m && supported m) methods
      && forallb (λ p, is_variable p && supported p) properties
  | ImportStatement _ _ => true
  | TryStatement tryBlock catchClause finallyBlock =>
      forallb supported tryBlock
      && match catchClause with
         | Some (_, body) => forallb supported body
         | None => true
         end
      && block finallyBlock
  | IfStatement condition thenBranch elifBranches elseBranch =>
      supported condition && forallb supported thenBranch
      && forallb (λ elif : node * list node,
                    supported elif.1 && forallb supported elif.2)
           elifBranches
      && block elseBranch
  | WhileStatement condition body => supported condition && forallb supported body
  | ForStatement _ start end_ step body =>
      supported start && supported end_ && supported step
      && forallb supported body
  | ReturnStatement value =>
      match value with Some e => supported e | None => true end
  | Break | Continue => true
  | ExpressionStatement expression => supported expression
  | Assignment target _ value => supported target && supported value
  | BinaryExpression lhs operator rhs =>
      supported lhs && known_operator binary_operator_map operator
      && supported rhs
  | UnaryExpression operator operand =>
      known_operator unary_operator_map operator && supported operand
  | CallExpression callee arguments =>
      supported callee && forallb supported arguments
  | IndexExpression object index => supported object && supported index
  | MemberExpression object _ => supported object
  | Identifier _ | Literal _ => true
  | ArrayLiteral elements => forallb supported elements
  | ObjectLiteral properties =>
      forallb (λ prop : string * node, supported prop.2) properties
  end.

(** The line starts with the indentation of level [k]. *)
Definition indented (k : nat) (line : string) : Prop :=
  ∃ rest, line = repeat_string indentStr k +:+ rest.

(** [g'] comes after [g]: the level is that of [g], and the lines
    added start with the indentation of that level. *)
Definition extends g g' : Prop :=
  indent g' = indent g
  ∧ ∃ new, output g' = output g ++ new ∧ Forall (indented (indent g)) new.

Lemma repeat_string_S (s : string) (k : nat) :
  repeat_string s (S k) = repeat_string s k +:+ s.
Proof.
  induction k as [| k IH]; [cbn; by rewrite LexerProps.append_empty |].
  change (repeat_string s (S (S k))) with (s +:+ repeat_string s (S k)).
  rewrite IH at 1. rewrite <- LexerProps.append_associative. reflexivity.
Qed.

Lemma indented_less k line : indented (S k) line → indented k line.
Proof.
  intros [rest ->]. exists (indentStr +:+ rest).
  by rewrite repeat_string_S, LexerProps.append_associative.
Qed.

Lemma extends_refl g : extends g g.
Proof. split; [done |]. exists []. by rewrite app_nil_r. Qed.

Lemma extends_trans g1 g2 g3 : extends g1 g2 → extends g2 g3 → extends g1 g3.
Proof.
  intros [Hi (n1 & Ho & Hf)] [Hi' (n2 & Ho' & Hf')]. split; [congruence |].
  exists (n1 ++ n2). rewrite Ho', Ho, app_assoc. split; [done |].
  apply Forall_app. split; [done |]. by rewrite <- Hi.
Qed.

Lemma extends_write line g : extends g (write line g).
Proof.
  split; [done |]. eexists. split; [reflexivity |].
  apply Forall_singleton. by eexists.
Qed.

(** A call that returns, with the level it was made at. *)
Definition lands {A} (m : generated A) g : Prop :=
  ∃ r g', m = Generated r g' ∧ extends g g'.

Definition level {A} (f : backend → generated A) : Prop :=
  ∀ g, lands (f g) g.

(** A call made after some lines were written, then the rest. *)
Lemma lands_bind {A B} (m : generated A) (k : A → backend → generated B)
    g g0 :
  lands m g0 → extends g g0 → (∀ r g1, lands (k r g1) g1) →
  lands (gbind m k) g.
Proof.
  intros (r & g1 & -> & H1) H0 Hk. cbn [gbind].
  destruct (Hk r g1) as (r2 & g2 & -> & H2). exists r2, g2.
  split; [done |]. eapply extends_trans; [exact H0 |].
  by eapply extends_trans.
Qed.

Lemma lands_from {A} (m : generated A) g g0 :
  lands m g0 → extends g g0 → lands m g.
Proof.
  intros (r & g1 & -> & H1) H0. exists r, g1. split; [done |].
  by eapply extends_trans.
Qed.

Lemma lands_ret {A} (r : A) g g0 : extends g g0 → lands (Generated r g0) g.
Proof. intros H0. by exists r, g0. Qed.

Lemma level_ret {A} (r : A) : level (Generated r).
Proof. intros g. exists r, g. split; [done | apply extends_refl]. Qed.

Lemma level_bind {A B} (f : backend → generated A)
    (k : A → backend → generated B) :
  level f → (∀ r, level (k r)) → level (λ g, gbind (f g) k).
Proof.
  intros Hf Hk g. destruct (Hf g) as (r & g1 & -> & H1). cbn [gbind].
  destruct (Hk r g1) as (r2 & g2 & -> & H2).
  exists r2, g2. split; [done | by eapply extends_trans].
Qed.

Lemma level_write {A} line (f : backend → generated A) :
  level f → level (λ g, f (write line g)).
Proof.
  intros Hf g. destruct (Hf (write line g)) as (r & g1 & -> & H1).
  exists r, g1. split; [done |].
  eapply extends_trans; [apply extends_write | done].
Qed.

Lemma level_written {A} (r : A) line : level (λ g, Generated r (write line g)).
Proof. apply (level_write line (Generated r)), level_ret. Qed.

Lemma level_each {A B} (f : A → backend → generated B) (l : list A) :
  Forall (λ x, level (f x)) l → level (each f l).
Proof.
  induction 1 as [| x l Hx _ IH]; [apply level_ret |].
  change (each f (x :: l)) with (λ g, gen _r at g := f x g in each f l g).
  apply level_bind; [done | by intros _].
Qed.

Lemma level_collect {A B} (f : A → backend → generated B) (l : list A) :
  Forall (λ x, level (f x)) l → level (collect f l).
Proof.
  induction 1 as [| x l Hx _ IH]; [apply level_ret |].
  change (collect f (x :: l))
    with (λ g, gen r at g := f x g in
               gen rs at g := collect f l g in Generated (r :: rs) g).
  apply level_bind; [done |]. intros r.
  apply level_bind; [done |]. intros rs. apply level_ret.
Qed.

(** A block: its lines are indented one level more, hence at least as
    much as the level around it. *)
Lemma level_block {A} (statements : list A)
    (run : list A → backend → generated unit) :
  level (run statements) → level (block statements run).
Proof.
  intros Hrun g. unfold block.
  destruct (Hrun (indent_more g)) as ([] & g1 & -> & [Hi (new & Ho & Hf)]).
  cbn [gbind]. eexists tt, _. split; [reflexivity |].
  cbn [indent_more indent output] in *.
  assert (Hless : ∀ l, Forall (indented (S (indent g))) l →
            Forall (indented (indent g)) l).
  { intros l Hl. eapply Forall_impl; [exact Hl |]. apply indented_less. }
  destruct statements; unfold extends, indent_less, write;
    cbn [indent output].
  - rewrite Hi, Ho. split; [done |]. eexists. rewrite <- app_assoc.
    split; [reflexivity |]. apply Forall_app. split; [by apply Hless |].
    apply Forall_singleton, indented_less. by eexists.
  - rewrite Hi, Ho. split; [done |]. exists new. split; [done |].
    by apply Hless.
Qed.

(** What is written one level in is written at the level around it. *)
Lemma extends_indented g g1 :
  extends (indent_more g) g1 → extends g (indent_less g1).
Proof.
  intros [Hi (new & Ho & Hf)]. unfold extends, indent_less.
  cbn [indent_more indent output] in *. rewrite Hi. split; [done |].
  exists new. split; [done |]. eapply Forall_impl; [exact Hf |].
  apply indented_less.
Qed.

Lemma level_imports modulePath specifiers :
  ∀ g, extends g
         (fold_left (λ g spec, write (import_line modulePath spec) g)
            specifiers g).
Proof.
  induction specifiers as [| spec l IH]; intros g; [apply extends_refl |].
  simpl. eapply extends_trans; [apply extends_write | apply IH].
Qed.

Lemma level_option {A} (o : option A) (f : A → backend → generated unit) :
  (∀ x, o = Some x → level (f x)) →
  level (λ g, match o with Some x => f x g | None => Generated tt g end).
Proof.
  intros Hf. destruct o as [x |]; [by apply Hf | apply level_ret].
Qed.

Ltac written :=
  repeat first
    [ apply extends_refl
    | apply extends_write
    | apply level_imports
    | eapply extends_trans; [| apply extends_write] ].

(** Through the body of a method; [known] closes the calls of other
    methods. *)
Ltac through known :=
  repeat first
    [ apply lands_ret; solve [written]
    | progress cbn [gbind]
    | eapply lands_bind; [solve [known] | solve [written] | intros ? ?]
    | eapply lands_from; [solve [known] | solve [written]]
    | match goal with
      | |- lands (if ?c then _ else _) _ => destruct c
      | |- context [if ?c then write _ _ else write _ _] => destruct c
      | |- lands (gbind (if ?c then _ else _) _) _ => destruct c
      | |- lands (match ?o with Some _ => _ | None => _ end) _ =>
          destruct o
      | |- lands (gbind (match ?o with Some _ => _ | None => _ end) _) _ =>
          destruct o
      end ].

Definition leveled n : Prop := supported n = true → level (generateNode n).

Lemma level_statements (body : list node) :
  Forall leveled body → forallb supported body = true →
  level (each generateNode body).
Proof.
  intros IH Hs. apply level_each. rewrite forallb_forall in Hs.
  rewrite Forall_forall in IH |- *. intros x Hx.
  apply IH; [done |]. by apply Hs, list_elem_of_In.
Qed.

Lemma level_body (body : list node) :
  Forall leveled body → forallb supported body = true →
  level (block body (each generateNode)).
Proof. intros IH Hs. by apply level_block, level_statements. Qed.

Lemma level_values (l : list node) :
  Forall leveled l → forallb supported l = true →
  level (collect generateNode l).
Proof.
  intros IH Hs. apply level_collect. rewrite forallb_forall in Hs.
  rewrite Forall_forall in IH |- *. intros x Hx.
  apply IH; [done |]. by apply Hs, list_elem_of_In.
Qed.

Lemma generateNode_leveled n : leveled n.
Proof.
  induction n using ast_induction; intros Hs g; cbn [supported] in Hs;
    cbn [on_option on_block] in *;
    repeat match type of Hs with
           | _ && _ = true => apply andb_true_iff in Hs as [Hs ?]
           end.
  - (* Program *)
    cbn [generateNode].
    through ltac:(idtac; by apply level_statements).
  - (* VariableDeclaration *)
    cbn [generateNode]. destruct initializer as [e |];
      through ltac:(idtac; by apply H0).
  - (* FunctionDeclaration *)
    cbn [generateNode]. through ltac:(idtac; by apply level_body).
  - (* ClassDeclaration *)
    cbn [generateNode].
    match goal with
    | |- context [indent_more (write ?l g)] =>
        set (line := l); set (g0 := indent_more (write line g))
    end.
    match goal with
    | |- lands (gbind ?m _) _ =>
        let applied := eval pattern g0 in m in
        match applied with
        | ?f _ => assert (Hmembers : level f)
        end
    end.
    { assert (Hproperties :
        Forall (λ p, is_variable p = true ∧ supported p = true
                     ∧ on_property leveled p) properties).
      { rewrite forallb_forall in H2. rewrite Forall_forall in H1 |- *.
        intros p Hp. specialize (H2 p ltac:(by apply list_elem_of_In)).
        apply andb_true_iff in H2 as [? ?]. auto. }
      assert (Hmethods :
        Forall (λ m, is_function m = true ∧ supported m = true
                     ∧ on_method leveled m) methods).
      { rewrite forallb_forall in Hs. rewrite Forall_forall in H0 |- *.
        intros m Hm. specialize (Hs m ltac:(by apply list_elem_of_In)).
        apply andb_true_iff in Hs as [? ?]. auto. }
      clear H0 H1 H2 Hs g0 line g.
      assert (Hinit : level (λ g,
        gen _r at g :=
          block properties
            (each (λ prop g,
               match prop with
               | VariableDeclaration _ name initializer =>
                   gen value at g :=
                     match initializer with
                     | Some e => generateNode e g
                     | None => Generated (Some "None") g
                     end in
                   Generated tt
                     (write ("self." +:+ name +:+ " = " +:+ shown value) g)
               | _ => NotModelled "class property"
               end)) (write "def __init__(self):" g) in
        each (λ method g,
          match method with
          | FunctionDeclaration name parameters body =>
              gen _r at g :=
                block body (λ l g, each generateNode l g)
                  (write ("def " +:+ name +:+ "("
                          +:+ join ", " ("self" :: parameters) +:+ "):") g) in
              Generated tt (write "" g)
          | _ => NotModelled "class method"
          end) methods (write "" g))).
      { intros g.
        eapply (lands_bind _ _ _ (write _ g)); [| written | intros ? g1].
        { apply level_block, level_each.
          eapply Forall_impl; [exact Hproperties |].
          intros [] (Hv & Hsup & IH) g2; try discriminate.
          cbn [supported on_property on_option] in *.
          destruct initializer as [e |];
            through ltac:(idtac; by apply IH). }
        eapply (lands_from _ _ (write _ g1)); [| written].
        apply level_each. eapply Forall_impl; [exact Hmethods |].
        intros [] (Hf & Hsup & IH) g2; try discriminate.
        cbn [supported on_method] in *.
        through ltac:(idtac; by apply level_body). }
      intros g. destruct properties, methods; try apply Hinit.
      apply lands_ret. written. }
    destruct (Hmembers g0) as (r & g1 & Hcall & Hext).
    cbv beta in Hcall. rewrite Hcall. cbn [gbind]. apply lands_ret.
    eapply extends_trans; [apply (extends_write line) |].
    by apply extends_indented.
  - (* ImportStatement *)
    cbn [generateNode]. through idtac.
  - (* TryStatement *)
    cbn [generateNode].
    destruct catchClause as [[parameter body] |], finallyBlock as [fin |];
      cbn [fmap option_fmap option_map on_block snd] in *;
      repeat match goal with
             | Hb : _ && _ = true |- _ => apply andb_true_iff in Hb as [Hb ?]
             end;
      through ltac:(idtac; by apply level_body).
  - (* IfStatement *)
    cbn [generateNode].
    eapply lands_bind; [by apply IHn | written | intros c g1].
    eapply lands_bind; [by apply level_body | written | intros ? g2].
    eapply lands_bind; [| apply extends_refl | intros ? g3].
    { apply level_each.
      match goal with
      | Hb : forallb _ elifBranches = true |- _ =>
          rewrite forallb_forall in Hb; rename Hb into Helifs
      end.
      match goal with
      | IH : Forall _ elifBranches |- _ => rewrite Forall_forall in IH |- *;
          rename IH into IHelifs
      end.
      intros elif Helif g0.
      destruct (IHelifs elif Helif) as [IHc IHbody].
      specialize (Helifs elif ltac:(by apply list_elem_of_In)).
      apply andb_true_iff in Helifs as [Hc Hbody].
      through ltac:(idtac; first [by apply IHc | by apply level_body]). }
    destruct elseBranch as [body |];
      through ltac:(idtac; by apply level_body).
  - (* WhileStatement *)
    cbn [generateNode].
    through ltac:(idtac; first [by apply IHn | by apply level_body]).
  - (* ForStatement *)
    cbn [generateNode].
    through ltac:(idtac; first [ by apply IHn1 | by apply IHn2 | by apply IHn3
                               | by apply level_body ]).
  - (* ReturnStatement *)
    cbn [generateNode]. destruct value as [e |];
      through ltac:(idtac; by apply H0).
  - cbn [generateNode]. through idtac.
  - cbn [generateNode]. through idtac.
  - (* ExpressionStatement *)
    by apply IHn.
  - (* Assignment *)
    cbn [generateNode].
    through ltac:(idtac; first [by apply IHn1 | by apply IHn2]).
  - (* BinaryExpression *)
    cbn [generateNode].
    match goal with
    | Hk : known_operator _ _ = true |- _ =>
        destruct (known_operator_mapped _ _ Hk) as [o Hmap]
    end.
    eapply lands_bind; [by apply IHn1 | written | intros l g1].
    eapply lands_bind; [by apply IHn2 | written | intros r g2].
    rewrite Hmap. through idtac.
  - (* UnaryExpression *)
    cbn [generateNode].
    destruct (known_operator_mapped _ _ Hs) as [o Hmap].
    eapply lands_bind; [by apply IHn | written | intros v g1].
    rewrite Hmap. through idtac.
  - (* CallExpression *)
    cbn [generateNode].
    through ltac:(idtac; first [by apply IHn | by apply level_values]).
  - (* IndexExpression *)
    cbn [generateNode].
    through ltac:(idtac; first [by apply IHn1 | by apply IHn2]).
  - (* MemberExpression *)
    cbn [generateNode]. through ltac:(idtac; by apply IHn).
  - cbn [generateNode]. through idtac.
  - cbn [generateNode]. through idtac.
  - (* ArrayLiteral *)
    cbn [generateNode]. through ltac:(idtac; by apply level_values).
  - (* ObjectLiteral *)
    cbn [generateNode].
    eapply lands_bind;
      [| apply extends_refl | intros; apply lands_ret, extends_refl].
    apply level_collect. rewrite forallb_forall in Hs.
    rewrite Forall_forall in H0 |- *. intros prop Hprop g0.
    through ltac:(idtac; by apply (H0 prop Hprop), Hs, list_elem_of_In).
Qed.

(** X23. On a tree whose class members are declarations and whose
    operators are no names of [Object.prototype], [generateNode]
    returns with the level of indentation it was called at, keeps the
    lines written before, and every line it adds starts with the
    indentation of that level: a block goes one level in and comes
    back. *)
Theorem generateNode_keeps_indentation n g :
  supported n = true →
  ∃ r g' new,
    generateNode n g = Generated r g'
    ∧ indent g' = indent g
    ∧ output g' = output g ++ new
    ∧ Forall (indented (indent g)) new.
Proof.
  intros Hs. destruct (generateNode_leveled n Hs g)
    as (r & g' & Hcall & Hi & new & Ho & Hf).
  by exists r, g', new.
Qed.

End WithNumbers.

Import ExactNum.

Abbreviation tree := (Ast.node xnum).

(** [print("hi")] and [a[1].b] *)
Definition calls : list tree :=
  [ExpressionStatement
     (CallExpression (Identifier "print") [Literal (LStr "hi")]);
   ExpressionStatement
     (MemberExpression
        (IndexExpression (Identifier "a") (Literal (LNum (fin 1)))) "b")].

Lemma expression_statements_are_dropped_witness :
  generate (Program calls)
  = Generated (shebang +:+ String "010" "") (mkBackend 0 [shebang; ""]).
Proof.
  apply expression_statements_are_dropped.
  repeat constructor; by eexists.
Defined.

(** [f(x = 1)]: the assignment inside the call is written, the call is
    not. *)
Example assignment_in_call_is_written :
  generate (num:=xnum)
    (Program
       [ExpressionStatement
          (CallExpression (Identifier "f")
             [Assignment (Identifier "x") "=" (Literal (LNum (fin 1)))])])
  = Generated (shebang +:+ String "010" (String "010" "x = 1"))
      (mkBackend 0 [shebang; ""; "x = 1"]).
Proof. vm_compute. reflexivity. Qed.

(** A class with a property and a method that holds a loop without a
    body and a conditional. *)
Definition counter : tree :=
  ClassDeclaration "Counter" (Some "Base")
    [FunctionDeclaration "run" ["n"]
       [ForStatement "i" (Literal (LNum (fin 1))) (Identifier "n")
          (Literal (LNum (fin 1))) [];
        IfStatement (BinaryExpression (Identifier "n") "<" (Identifier "k"))
          [ReturnStatement None]
          [(Identifier "n", [Break])]
          (Some [])]]
    [VariableDeclaration "let" "k" None].

Lemma generateNode_keeps_indentation_witness :
  ∃ r g' new,
    generateNode counter (mkBackend 1 ["if ok:"]) = Generated r g'
    ∧ indent g' = indent (mkBackend 1 ["if ok:"])
    ∧ output g' = output (mkBackend 1 ["if ok:"]) ++ new
    ∧ Forall (indented (indent (mkBackend 1 ["if ok:"]))) new.
Proof. by apply (generateNode_keeps_indentation counter). Defined.

Example generate_counter :
  generateNode counter (mkBackend 0 [])
  = Generated None
      (mkBackend 0
         ["class Counter(Base):";
          "    def __init__(self):";
          "        self.k = None";
          "    ";
          "    def run(self, n):";
          "        for i in range(1, n + 1):";
          "            pass";
          "        if (n < k):";
          "            return";
          "        elif n:";
          "            break";
          "        else:";
          "            pass";
          "    "]).
Proof. vm_compute. reflexivity. Qed.

End PythonBackendProps.


(** ** The evaluator: identifiers *)

Module IdentifierProps.

Import Ast Values Evaluator.

Local Open Scope nat_scope.

Section WithHost.
Context {num : Type} `{JsNumber num}.
Variable host_call : string → list (value num) → heap num → host_outcome num.

Abbreviation state := (Evaluator.state num).
Abbreviation heap := (Values.heap num).

Implicit Types s : state.
Implicit Types h : heap.

(** No object of the heap has [name] as an own property: no scope binds
    it, and neither the builtin table nor [Object.prototype] has it. *)
Definition unbound (h : heap) (name : string) : Prop :=
  ∀ r o, h !! r = Some o → props o !! name = None.

Lemma find_property_unbound h n r name :
  unbound h name → find_property h n r name = None.
Proof.
  intros Hu. revert r. induction n as [| n IH]; intros r; simpl; [done |].
  destruct (h !! r) as [o |] eqn:Ho; [| done].
  rewrite (Hu r o Ho). destruct (proto o); [apply IH | done].
Qed.

Lemma has_property_unbound h r name :
  unbound h name → has_property h r name = false.
Proof.
  intros Hu. unfold has_property. rewrite (find_property_unbound _ _ _ _ Hu).
  apply bool_decide_eq_false. by intros [? ?].
Qed.

Lemma lookup_parents_unbound h n r name :
  unbound h name → lookup_parents h n r name = None.
Proof.
  intros Hu. revert r. induction n as [| n IH]; intros r; simpl; [done |].
  destruct (h !! r) as [o |]; [| done].
  destruct (proto o) as [parent |]; [| done].
  by rewrite (has_property_unbound _ _ _ Hu).
Qed.

(** An identifier that names no property of any object fails with the
    error for an undefined variable, and so does a call of it. *)
Lemma evaluateIdentifier_unbound s name :
  unbound (store s) name →
  evaluateIdentifier name s = Throw (undefined_variable name) s.
Proof.
  intros Hu. unfold evaluateIdentifier.
  rewrite !(has_property_unbound _ _ _ Hu).
  by rewrite (lookup_parents_unbound _ _ _ _ Hu).
Qed.

Lemma call_unbound fuel s name arguments :
  unbound (store s) name →
  evaluateNode host_call (S (S fuel)) (CallExpression (Identifier name) arguments) s
  = Throw (undefined_variable name) s.
Proof.
  intros Hu. simpl. unfold evaluateCallExpression. simpl.
  by rewrite (evaluateIdentifier_unbound _ _ Hu).
Qed.

End WithHost.

Import ExactNum.

Example undefinedName_unbound :
  unbound (store (new_evaluator (num:=xnum))) "undefinedName".
Proof.
  intros r o Hr. unfold new_evaluator in Hr. simpl in Hr.
  destruct r as [| [| [| r]]]; simpl in Hr; try discriminate Hr;
    injection Hr as <-; vm_compute; reflexivity.
Qed.

Example undefinedName_call_raises :
  evaluateNode (num:=xnum) Host.call 2
    (CallExpression (Identifier "undefinedName") []) new_evaluator
  = Throw (VError "Undefined variable: undefinedName") new_evaluator.
Proof. apply (call_unbound Host.call 0), undefinedName_unbound. Qed.

(** C3, the code at a name that the program never binds and the builtin
    table does not hold: [toString] is found on [Object.prototype], at
    the end of the prototype chain of the global scope, and evaluates
    to that function of the host; the call [toString()] returns a
    string. No error is raised. *)
Theorem identifier_inherited_from_host :
  props (plain (num:=xnum) ∅) !! "toString" = None
  ∧ props (builtins_object (num:=xnum)) !! "toString" = None
  ∧ evaluateNode (num:=xnum) Host.call 1 (Identifier "toString") new_evaluator
    = Normal (VHost "Object.prototype.toString" true) new_evaluator
  ∧ evaluateNode (num:=xnum) Host.call 2
      (CallExpression (Identifier "toString") []) new_evaluator
    = Normal (VStr "[object Undefined]") new_evaluator
  ∧ fst (Engine.execute Host.call 9 Engine.new_engine "toString()")
    = Engine.Returned (VStr "[object Undefined]").
Proof. repeat split; vm_compute; reflexivity. Qed.

End IdentifierProps.

(** ** The evaluator: loops *)

Module LoopProps.

Import Ast Values Evaluator.

Section WithHost.
Context {num : Type} `{JsNumber num}.
Variable host_call : string → list (value num) → heap num → host_outcome num.

Abbreviation node := (Ast.node num).
Abbreviation value := (Values.value num).
Abbreviation state := (Evaluator.state num).
Abbreviation outcome := (Evaluator.outcome num).

Implicit Types s : state.
Implicit Types v r : value.

(** *** While *)

Section While.
Variable ev : node → state → outcome.
Variables (condition : node) (body : list node).

(** The body ran to its end or was cut short by [continue]; either way
    the loop goes on. [r'] is the result the loop holds afterwards. *)
Inductive body_step (r : value) (s : state) (r' : value) (s' : state)
  : Prop :=
| body_normal :
    evaluateBlock ev body s = Normal r' s' → body_step r s r' s'
| body_continue :
    evaluateBlock ev body s = Throw VContinue s' → r' = r →
    body_step r s r' s'.

(** [iterates n r s r' s']: from the state [s], holding the result [r],
    the condition is truthy [n] times in a row, each time the body goes
    through, and then the condition is falsy; [r'] is the result of the
    last body evaluation that ran to its end ([r] when there is none)
    and [s'] the final state. *)
Inductive iterates : nat → value → state → value → state → Prop :=
| iterates_stop r s c s' :
    ev condition s = Normal c s' → truthy c = false →
    iterates 0 r s r s'
| iterates_again n r s c s1 r2 s2 r' s' :
    ev condition s = Normal c s1 → truthy c = true →
    body_step r s1 r2 s2 →
    iterates n r2 s2 r' s' →
    iterates (S n) r s r' s'.

Lemma while_loop_unfold k iterations r s :
  while_loop ev condition body (S k) iterations r s
  = bind (ev condition s) (λ c s,
      if truthy c then
        if (iterations >? maxIterations)%Z then Throw infinite_loop s
        else
          match evaluateBlock ev body s with
          | Normal v s => while_loop ev condition body k (iterations + 1) v s
          | Throw VBreak s => Normal r s
          | Throw VContinue s =>
              while_loop ev condition body k (iterations + 1) r s
          | other => other
          end
      else Normal r s).
Proof. reflexivity. Qed.

(** A loop that needs [n] iterations completes when the counter stays
    within the ceiling. *)
Lemma while_loop_completes n r s r' s' :
  iterates n r s r' s' →
  ∀ k iterations,
    (iterations + Z.of_nat n ≤ maxIterations + 1)%Z →
    (n < k)%nat →
    while_loop ev condition body k iterations r s = Normal r' s'.
Proof.
  induction 1 as [r s c s' Hc Ht | n r s c s1 r2 s2 r' s' Hc Ht Hb Hrest IH];
    intros k iterations Hmax Hk;
    (destruct k as [| k]; [lia |]); rewrite while_loop_unfold, Hc; simpl;
    rewrite Ht; [done |].
  replace (iterations >? maxIterations)%Z with false
    by (rewrite Z.gtb_ltb; symmetry; apply Z.ltb_ge; lia).
  destruct Hb as [Hb | Hb ->]; rewrite Hb; apply IH; lia.
Qed.

(** [persists n r s]: from the state [s], holding the result [r], the
    loop goes through [n] iterations (the condition is truthy, the body
    goes through) and after them the condition is truthy once more. *)
Inductive persists : nat → value → state → Prop :=
| persists_check r s c s1 :
    ev condition s = Normal c s1 → truthy c = true →
    persists 0 r s
| persists_again n r s c s1 r2 s2 :
    ev condition s = Normal c s1 → truthy c = true →
    body_step r s1 r2 s2 →
    persists n r2 s2 →
    persists (S n) r s.

(** A loop whose condition is still truthy after the iteration that
    takes the counter past the ceiling raises the error. *)
Lemma while_loop_raises n r s :
  persists n r s →
  ∀ k iterations,
    (iterations ≤ maxIterations + 1 ≤ iterations + Z.of_nat n)%Z →
    (maxIterations + 1 - iterations < Z.of_nat k)%Z →
    ∃ s', while_loop ev condition body k iterations r s
          = Throw infinite_loop s'.
Proof.
  induction 1 as [r s c s1 Hc Ht | n r s c s1 r2 s2 Hc Ht Hb Hrest IH];
    intros k iterations Hn Hk;
    (destruct k as [| k]; [unfold maxIterations in *; lia |]);
    rewrite while_loop_unfold, Hc; simpl; rewrite Ht.
  - replace (iterations >? maxIterations)%Z with true
      by (rewrite Z.gtb_ltb; symmetry; apply Z.ltb_lt; lia).
    by eexists.
  - destruct (iterations >? maxIterations)%Z eqn:Hmax; [by eexists |].
    rewrite Z.gtb_ltb in Hmax. apply Z.ltb_ge in Hmax.
    destruct Hb as [Hb | Hb ->]; rewrite Hb; apply IH; lia.
Qed.

(** A condition that is truthy at every check, with a body that always
    goes through, persists for any number of iterations. *)
Lemma persists_invariant (I : state → Prop) :
  (∀ s, I s →
     ∃ c s1, ev condition s = Normal c s1 ∧ truthy c = true
             ∧ ∀ r, ∃ r2 s2, body_step r s1 r2 s2 ∧ I s2) →
  ∀ n r s, I s → persists n r s.
Proof.
  intros Hstep. induction n as [| n IH]; intros r s HI;
    destruct (Hstep s HI) as (c & s1 & Hc & Ht & Hbody).
  - by eapply persists_check.
  - destruct (Hbody r) as (r2 & s2 & Hb & HI2).
    eapply persists_again; [exact Hc | exact Ht | exact Hb |].
    by apply IH.
Qed.

Lemma while_loop_ceiling (I : state → Prop) :
  (∀ s, I s →
     ∃ c s1, ev condition s = Normal c s1 ∧ truthy c = true
             ∧ ∀ r, ∃ r2 s2, body_step r s1 r2 s2 ∧ I s2) →
  ∀ k r s,
    I s →
    (maxIterations + 1 < Z.of_nat k)%Z →
    ∃ s', while_loop ev condition body k 0 r s = Throw infinite_loop s'.
Proof.
  intros Hstep k r s HI Hk.
  apply (while_loop_raises (Z.to_nat (maxIterations + 1)));
    [by apply (persists_invariant I) | |]; unfold maxIterations in *; lia.
Qed.

End While.

(** C4. A while statement whose condition is still truthy after more
    than [maxIterations] iterations, 1,000,000, raises the error of the
    iteration ceiling; a while statement whose condition becomes falsy
    after [n] iterations, [n] within the ceiling, completes normally
    with the result of the last body evaluation that ran to its end
    ([null] when there is none). *)
Theorem while_statement_ceiling (fuel : nat) (condition : node)
    (body : list node) :
  let ev := evaluateNode host_call fuel in
  (∀ n s,
     persists ev condition body n VNull s →
     (maxIterations < Z.of_nat n)%Z →
     (maxIterations + 1 < Z.of_nat fuel)%Z →
     ∃ s', evaluateNode host_call (S fuel) (WhileStatement condition body) s
           = Throw infinite_loop s')
  ∧ (∀ n s r' s',
       iterates ev condition body n VNull s r' s' →
       (Z.of_nat n ≤ maxIterations)%Z →
       (n < fuel)%nat →
       evaluateNode host_call (S fuel) (WhileStatement condition body) s
       = Normal r' s').
Proof.
  intros ev. split.
  - intros n s Hp Hn Hfuel.
    apply (while_loop_raises ev condition body n VNull s Hp fuel 0);
      unfold maxIterations in *; lia.
  - intros n s r' s' Hit Hn Hfuel.
    apply (while_loop_completes ev condition body n VNull s r' s' Hit fuel 0);
      lia.
Qed.

(** The ceiling is reached after [maxIterations + 1] evaluations of the
    body: a loop that needs exactly that many still completes. *)
Lemma while_statement_last_iteration (fuel : nat) (condition : node)
    (body : list node) n s r' s' :
  iterates (evaluateNode host_call fuel) condition body n VNull s r' s' →
  (Z.of_nat n = maxIterations + 1)%Z →
  (n < fuel)%nat →
  evaluateNode host_call (S fuel) (WhileStatement condition body) s
  = Normal r' s'.
Proof.
  intros Hit Hn Hfuel.
  apply (while_loop_completes _ condition body n VNull s r' s' Hit fuel 0);
    lia.
Qed.

(** *** For *)

Lemma binary_le_numbers (i e : num) :
  binary "<=" (VNum i) (VNum e) = OpValue (VBool (num_le i e)).
Proof. reflexivity. Qed.


(** The current scope is a plain object of the heap. *)
Definition scope_writable s : Prop :=
  ∃ o, store s !! currentScope s = Some o ∧ is_array o = false.


Section For.
Variables (iterator : string) (e d : num) (body : list node).
Variable I : state → Prop.




End For.



End WithHost.

Import ExactNum.

Definition lit_true : Ast.node xnum := Literal (LBool true).

Lemma always_true_persists (fuel n : nat) (s : state xnum) :
  persists (evaluateNode Host.call (S fuel)) lit_true [] n VNull s.
Proof.
  apply (persists_invariant _ lit_true [] (λ _, True)); [| done].
  intros s0 _. exists (VBool true), s0.
  split; [reflexivity |]. split; [reflexivity |].
  intros r. exists VNull, s0. split; [| done]. by apply body_normal.
Qed.

Lemma while_statement_ceiling_witness :
  let fuel := Z.to_nat 1000002 in
  let s := new_evaluator (num:=xnum) in
  (∃ s', evaluateNode Host.call (S fuel) (WhileStatement lit_true []) s
         = Throw infinite_loop s')
  ∧ evaluateNode Host.call (S fuel)
      (WhileStatement (Literal (LBool false)) []) s
    = Normal VNull s.
Proof.
  intros fuel s.
  assert (Hfuel : ∃ f, fuel = S f) by (exists (Z.to_nat 1000001); lia).
  destruct Hfuel as [f Hf].
  destruct (while_statement_ceiling Host.call fuel lit_true []) as [Hceil _].
  destruct (while_statement_ceiling Host.call fuel (Literal (LBool false)) [])
    as [_ Hdone].
  split.
  - apply (Hceil (Z.to_nat 1000001));
      [rewrite Hf; apply always_true_persists | |]; unfold maxIterations; lia.
  - apply (Hdone 0%nat); [| unfold maxIterations; lia | lia].
    apply (iterates_stop _ _ _ _ _ (VBool false)); [| reflexivity].
    rewrite Hf. reflexivity.
Defined.


Definition lit (z : Z) : Ast.node xnum := Literal (LNum (fin (inject_Z z))).




(** With the step [-Infinity] the counter becomes [NaN] after one
    iteration and the loop ends, empty body or not. *)
Example for_statement_infinite_step_terminates :
  fst (Engine.execute (num:=xnum) Host.call 12 Engine.new_engine
         "for i = 1/0 to 1/0 step -(1/0) { }")
  = Engine.Returned VNull.
Proof. vm_compute. reflexivity. Qed.

(** The ceiling of a while statement in the body ends the for
    statement with the error of that ceiling. *)
Example for_statement_raises_inner_ceiling :
  ∃ fuel s',
    evaluateNode Host.call fuel
      (ForStatement "i" (lit 1) (lit 3) (lit 0) [WhileStatement lit_true []])
      new_evaluator
    = Throw infinite_loop s'.
Proof.
  remember (Z.to_nat 1000002) as f eqn:Hf.
  assert (Hinner : ∀ s, ∃ s',
            evaluateNode Host.call (S (S f)) (WhileStatement lit_true []) s
            = Throw infinite_loop s').
  { intros s. cbn [evaluateNode evaluateNode_body].
    unfold evaluateWhileStatement.
    apply (while_loop_ceiling (evaluateNode Host.call (S f)) lit_true []
             (λ _, True)); [| done | unfold maxIterations; lia].
    intros s0 _. exists (VBool true), s0.
    split; [reflexivity |]. split; [reflexivity |].
    intros r. exists VNull, s0. split; [| done]. by apply body_normal. }
  exists (S (S (S f))).
  change (evaluateNode Host.call (S (S (S f))) ?n ?s)
    with (evaluateNode_body Host.call (evaluateNode Host.call (S (S f)))
            (S (S f)) n s).
  remember (evaluateNode Host.call (S (S f))) as ev eqn:Hev.
  assert (Hlit : ∀ l s, ev (Literal l) s = Normal (of_literal l) s)
    by (by subst ev).
  cbn [evaluateNode_body]. unfold evaluateForStatement, lit.
  repeat (rewrite Hlit; cbn [bind of_literal]).
  destruct (create _ _) as [c s0] eqn:Hcreate.
  cbn [for_loop]. rewrite binary_le_numbers.
  cbn [of_op bind truthy].
  replace (num_le (fin (inject_Z 1)) (fin (inject_Z 3))) with true
    by reflexivity.
  unfold scope_set.
  destruct (set_property _ _ _ _) as [h | |] eqn:Hset.
  - unfold evaluateBlock. cbn [evaluateStatements].
    destruct (Hinner (with_store (with_scope s0 c) h)) as [s' Hs'].
    rewrite Hs'. cbn [bind]. by eexists.
  - exfalso. injection Hcreate as <- <-. vm_compute in Hset. discriminate Hset.
  - exfalso. injection Hcreate as <- <-. vm_compute in Hset. discriminate Hset.
Qed.

Example while_counts_to_three :
  fst (Engine.execute (num:=xnum) Host.call 12 Engine.new_engine
         "let i = 0 while (i < 3) { i = i + 1 }")
  = Engine.Returned (VNum (fin 3)).
Proof. vm_compute. reflexivity. Qed.

Example while_continue_keeps_result :
  fst (Engine.execute (num:=xnum) Host.call 12 Engine.new_engine
         "let i = 0 while (i < 3) { i = i + 1 continue }")
  = Engine.Returned VNull.
Proof. vm_compute. reflexivity. Qed.

End LoopProps.

(** ** The evaluator: what an evaluation may write *)

Module FrameProps.

Import Ast Values Evaluator.

Local Open Scope nat_scope.

Section WithHost.
Context {num : Type} `{JsNumber num}.
Variable host_call : string → list (value num) → heap num → host_outcome num.

Abbreviation node := (Ast.node num).
Abbreviation value := (Values.value num).
Abbreviation heap := (Values.heap num).
Abbreviation state := (Evaluator.state num).
Abbreviation outcome := (Evaluator.outcome num).

Implicit Types s : state.
Implicit Types h : heap.
Implicit Types v : value.
Implicit Types n : node.

Ltac simpl_state :=
  cbn [store currentScope globalScope builtins with_store with_scope fst snd]
    in *.

(** *** Code that writes bindings only

    Statements and expressions without calls, without writes through a
    member or an index, and without class declarations. *)
Fixpoint local (n : node) : bool :=
  match n with
  | Program l => forallb local l
  | VariableDeclaration _ _ i =>
      match i with
      | Some e => local e
      | None => true
      end
  | FunctionDeclaration _ _ _ => true
  | ClassDeclaration _ _ _ _ => false
  | ImportStatement _ _ => true
  | TryStatement _ _ _ => false
  | IfStatement c t elifs e =>
      local c && forallb local t
      && forallb (λ b, local b.1 && forallb local b.2) elifs
      && match e with
         | Some b => forallb local b
         | None => true
         end
  | WhileStatement c b => local c && forallb local b
  | ForStatement _ a b c body =>
      local a && local b && local c && forallb local body
  | ReturnStatement v =>
      match v with
      | Some e => local e
      | None => true
      end
  | Break | Continue => true
  | ExpressionStatement e => local e
  | Assignment (Identifier _) _ v => local v
  | Assignment _ _ _ => false
  | BinaryExpression l _ r => local l && local r
  | UnaryExpression _ e => local e
  | CallExpression _ _ => false
  | IndexExpression o i => local o && local i
  | MemberExpression o _ => local o
  | Identifier _ | Literal _ => true
  | ArrayLiteral es => forallb local es
  | ObjectLiteral ps => forallb (λ p, local p.2) ps
  end.

(** Expressions that only read. *)
Fixpoint pure (n : node) : bool :=
  match n with
  | BinaryExpression l _ r => pure l && pure r
  | UnaryExpression _ e => pure e
  | IndexExpression o i => pure o && pure i
  | MemberExpression o _ => pure o
  | Identifier _ | Literal _ => true
  | ExpressionStatement e => pure e
  | Program l => forallb pure l
  | _ => false
  end.

(** *** The frame of an evaluation started in [s]

    [frame s s']: the heap has grown, the objects that existed in [s]
    are as they were, except the current scope of [s], and the current
    scope is the one of [s] or an object created since. *)
Record frame (s s' : state) : Prop := {
  frame_length : length (store s) ≤ length (store s');
  frame_objects :
    ∀ r, r < length (store s) → r ≠ currentScope s →
         store s' !! r = store s !! r;
  frame_scope :
    currentScope s' = currentScope s ∨ length (store s) ≤ currentScope s'
}.

Definition framed (s : state) (o : outcome) : Prop :=
  match o with
  | Normal _ s' | Throw _ s' => frame s s'
  | _ => True
  end.

Lemma frame_refl s : frame s s.
Proof. split; auto. Qed.

Lemma frame_trans s1 s2 s3 : frame s1 s2 → frame s2 s3 → frame s1 s3.
Proof.
  intros [Hl Ho Hs] [Hl' Ho' Hs']. split.
  - lia.
  - intros r Hr Hne. rewrite Ho'; [by apply Ho | lia |].
    destruct Hs as [-> | Hs]; [done | lia].
  - destruct Hs' as [-> | Hs']; [done | right; lia].
Qed.

Lemma framed_trans s s1 o : frame s s1 → framed s1 o → framed s o.
Proof. intros Hf. destruct o; simpl; eauto using frame_trans. Qed.

Lemma framed_bind s m k :
  framed s m →
  (∀ v s1, frame s s1 → framed s (k v s1)) →
  framed s (bind m k).
Proof. intros Hm Hk. destruct m; simpl in *; auto. Qed.

(** Any write to the current scope of [s] or to an object created since
    keeps the frame. *)
Definition writable (s : state) (r : ref) : Prop :=
  r = currentScope s ∨ length (store s) ≤ r.

Lemma frame_current_writable s s1 : frame s s1 → writable s (currentScope s1).
Proof. intros [_ _ [-> | Hs]]; [by left | by right]. Qed.

Lemma set_property_others h r key v h' :
  set_property h r key v = SetOk h' →
  length h' = length h ∧ ∀ r', r' ≠ r → h' !! r' = h !! r'.
Proof.
  unfold set_property. destruct (h !! r) as [o |] eqn:Hr; [| done].
  destruct (is_array o); [done |].
  assert (Hown : ∀ x, length (set_own h r key x) = length h
                      ∧ ∀ r', r' ≠ r → set_own h r key x !! r' = h !! r').
  { intros x. unfold set_own. rewrite Hr. split; [apply length_insert |].
    intros r' Hne. by apply list_lookup_insert_ne. }
  assert (Hproto : ∀ p, length (set_proto h r p) = length h
                        ∧ ∀ r', r' ≠ r → set_proto h r p !! r' = h !! r').
  { intros p. unfold set_proto. rewrite Hr. split; [apply length_insert |].
    intros r' Hne. by apply list_lookup_insert_ne. }
  destruct (find_property _ _ _ _) as [[x |] |]; intros Hset.
  - injection Hset as <-. apply Hown.
  - destruct v; try discriminate Hset; try (injection Hset as <-; by auto).
    destruct (Nat.eqb _ _); [discriminate Hset |].
    destruct (reaches _ _ _ _); [discriminate Hset |].
    injection Hset as <-. apply Hproto.
  - injection Hset as <-. apply Hown.
Qed.

Lemma frame_write s s1 r key v h :
  frame s s1 → writable s r →
  set_property (store s1) r key v = SetOk h →
  frame s (with_store s1 h).
Proof.
  intros [Hl Ho Hs] Hw Hset.
  destruct (set_property_others _ _ _ _ _ Hset) as [Hlen Hother].
  split; simpl_state.
  - lia.
  - intros r' Hr' Hne. rewrite Hother; [by apply Ho |].
    destruct Hw as [-> | Hw]; [done | lia].
  - done.
Qed.

Lemma frame_alloc s s1 (o : object num) :
  frame s s1 → frame s (with_store s1 (store s1 ++ [o])).
Proof.
  intros [Hl Ho Hs]. split; simpl_state.
  - rewrite length_app. lia.
  - intros r Hr Hne. rewrite lookup_app_l by lia. by apply Ho.
  - done.
Qed.

Lemma frame_enter s s1 c : frame s s1 → length (store s) ≤ c → frame s (with_scope s1 c).
Proof. intros [Hl Ho Hs] Hc. split; simpl_state; auto. Qed.

Lemma frame_restore s s1 : frame s s1 → frame s (with_scope s1 (currentScope s)).
Proof. intros [Hl Ho Hs]. split; simpl_state; auto. Qed.

Lemma framed_scope_set s s1 name v k :
  frame s s1 →
  (∀ s2, frame s s2 → framed s (k s2)) →
  framed s (scope_set name v s1 k).
Proof.
  intros Hf Hk. unfold scope_set.
  destruct (set_property _ _ _ _) as [h | e | w] eqn:Hset; simpl; [| done | done].
  apply Hk. eapply frame_write; [done | | done].
  by apply frame_current_writable.
Qed.

Lemma framed_of_op s s1 (r : op_result num) : frame s s1 → framed s (of_op r s1).
Proof. intros Hf. by destruct r. Qed.

Lemma framed_property_read s s1 object key :
  frame s s1 → framed s (property_read object key s1).
Proof.
  intros Hf. unfold property_read. repeat case_match; done.
Qed.

Lemma frame_set_scope s s1 c : frame s s1 → writable s c → frame s (with_scope s1 c).
Proof.
  intros [Hl Ho Hs] Hw. split; simpl_state; auto.
Qed.

(** *** The constructs, over an evaluator that keeps the frame *)

Section Open.
Variable ev : node → state → outcome.
Hypothesis ev_framed : ∀ n s, local n = true → framed s (ev n s).

Lemma ev_framed_from s s1 n :
  local n = true → frame s s1 → framed s (ev n s1).
Proof. intros Hn Hf. eapply framed_trans; [exact Hf | by apply ev_framed]. Qed.

Lemma frame_statements l :
  ∀ r s s1, forallb local l = true → frame s s1 →
            framed s (evaluateStatements ev l r s1).
Proof.
  induction l as [| n l IH]; intros r s s1 Hl Hf; simpl in *; [done |].
  apply andb_true_iff in Hl as [Hn Hl].
  apply framed_bind; [by apply ev_framed_from |].
  intros v s2 Hf2. by apply IH.
Qed.

Lemma frame_block l s s1 :
  forallb local l = true → frame s s1 → framed s (evaluateBlock ev l s1).
Proof. apply frame_statements. Qed.

Lemma frame_all l :
  ∀ s s1 k, forallb local l = true → frame s s1 →
            (∀ vs s2, frame s s2 → framed s (k vs s2)) →
            framed s (evaluateAll ev l s1 k).
Proof.
  induction l as [| n l IH]; intros s s1 k Hl Hf Hk; simpl in *; [by apply Hk |].
  apply andb_true_iff in Hl as [Hn Hl].
  apply framed_bind; [by apply ev_framed_from |].
  intros v s2 Hf2. apply IH; [done | done |]. intros vs s3 Hf3. by apply Hk.
Qed.

Lemma frame_elifs elifs elseBranch :
  ∀ s s1,
    forallb (λ b, local b.1 && forallb local b.2) elifs = true →
    match elseBranch with
    | Some b => forallb local b
    | None => true
    end = true →
    frame s s1 →
    framed s (evaluateElifs ev elifs elseBranch s1).
Proof.
  induction elifs as [| [c b] elifs IH]; intros s s1 Hl He Hf; simpl in *.
  - destruct elseBranch; [by apply frame_block | done].
  - apply andb_true_iff in Hl as [Hcb Hl].
    apply andb_true_iff in Hcb as [Hc Hb].
    apply framed_bind; [by apply ev_framed_from |].
    intros v s2 Hf2. destruct (truthy v); [by apply frame_block | by apply IH].
Qed.

Lemma frame_while condition body k :
  ∀ iterations r s s1,
    local condition = true → forallb local body = true → frame s s1 →
    framed s (while_loop ev condition body k iterations r s1).
Proof.
  induction k as [| k IH]; intros iterations r s s1 Hc Hb Hf; [done |].
  cbn [while_loop].
  apply framed_bind; [by apply ev_framed_from |].
  intros c s2 Hf2. destruct (truthy c); [| done].
  destruct (_ >? _)%Z; [done |].
  pose proof (frame_block body s s2 Hb Hf2) as Hblock.
  destruct (evaluateBlock ev body s2) as [v s3 | e s3 | |]; simpl in Hblock;
    [by apply IH | | done | done].
  destruct e; try done; by apply IH.
Qed.

Lemma frame_for_loop iterator end_ step body k :
  ∀ i r s s1,
    forallb local body = true → frame s s1 →
    framed s (for_loop ev iterator end_ step body k i r s1).
Proof.
  induction k as [| k IH]; intros i r s s1 Hb Hf; [done |].
  cbn [for_loop].
  apply framed_bind; [by apply framed_of_op |].
  intros c s2 Hf2. destruct (truthy c); [| done].
  apply (framed_scope_set s s2); [done |]. intros s3 Hf3.
  assert (Hnext : ∀ r' s4, frame s s4 →
            framed s (bind (of_op (js_add i step) s4)
                        (λ i s, for_loop ev iterator end_ step body k i r' s))).
  { intros r' s4 Hf4. apply framed_bind; [by apply framed_of_op |].
    intros i' s5 Hf5. by apply IH. }
  pose proof (frame_block body s s3 Hb Hf3) as Hblock.
  destruct (evaluateBlock ev body s3) as [v s4 | e s4 | |]; simpl in Hblock;
    [by apply Hnext | | done | done].
  destruct e; try done; by apply Hnext.
Qed.

Lemma frame_object_properties obj ps :
  ∀ s s1,
    forallb (λ p, local p.2) ps = true → writable s obj → frame s s1 →
    framed s (object_properties ev obj ps s1).
Proof.
  induction ps as [| [key e] ps IH]; intros s s1 Hl Hw Hf; simpl in *; [done |].
  apply andb_true_iff in Hl as [He Hl].
  apply framed_bind; [by apply ev_framed_from |].
  intros v s2 Hf2.
  destruct (set_property _ _ _ _) as [h | |] eqn:Hset; [| done | done].
  apply IH; [done | done |]. by eapply frame_write.
Qed.

Lemma frame_alloc_writable s s1 : frame s s1 → writable s (length (store s1)).
Proof. intros [Hl _ _]. right. done. Qed.

(** The switch of [evaluateNode] keeps the frame on local code. *)
Lemma frame_body k n s :
  local n = true → framed s (evaluateNode_body host_call ev k n s).
Proof.
  intros Hn. pose proof (frame_refl s) as Hf.
  destruct n as
    [statements | keyword name initializer | name parameters body
    | name superclass methods properties | specifiers source
    | tryBlock catchClause finallyBlock
    | condition thenBranch elifBranches elseBranch | condition body
    | iterator start end_ step body | result | | | expression
    | target operator rhs | l operator r | operator operand
    | callee arguments | object index | object property | name | lit
    | elements | properties];
    simpl in Hn; try discriminate Hn; cbn [evaluateNode_body].
  - (* Program *) by apply frame_statements.
  - (* VariableDeclaration *)
    unfold evaluateVariableDeclaration.
    apply framed_bind.
    + destruct initializer; [by apply ev_framed | done].
    + intros v s1 Hf1. by apply (framed_scope_set s s1).
  - (* FunctionDeclaration *)
    unfold evaluateFunctionDeclaration, alloc.
    apply (framed_scope_set s); [by apply frame_alloc | done].
  - (* ImportStatement *) done.
  - (* IfStatement *)
    repeat (apply andb_true_iff in Hn as [Hn ?]).
    unfold evaluateIfStatement.
    apply framed_bind; [by apply ev_framed |].
    intros c s1 Hf1. destruct (truthy c);
      [by apply frame_block | by apply frame_elifs].
  - (* WhileStatement *)
    apply andb_true_iff in Hn as [Hc Hb]. by apply frame_while.
  - (* ForStatement *)
    repeat (apply andb_true_iff in Hn as [Hn ?]).
    unfold evaluateForStatement.
    apply framed_bind; [by apply ev_framed |]. intros v1 s1 Hf1.
    apply framed_bind; [by apply ev_framed_from |]. intros v2 s2 Hf2.
    apply framed_bind; [by apply ev_framed_from |]. intros v3 s3 Hf3.
    unfold create, alloc.
    apply framed_bind.
    + apply frame_for_loop; [done |].
      apply frame_set_scope; [by apply frame_alloc |].
      by apply frame_alloc_writable.
    + intros r s4 Hf4. simpl. apply frame_set_scope; [done |].
      by apply frame_current_writable.
  - (* ReturnStatement *)
    unfold evaluateReturnStatement.
    apply framed_bind; [| done].
    destruct result; [by apply ev_framed | done].
  - (* Break *) done.
  - (* Continue *) done.
  - (* ExpressionStatement *) by apply ev_framed.
  - (* Assignment *)
    destruct target; try discriminate Hn.
    unfold evaluateAssignment.
    apply framed_bind; [by apply ev_framed |]. intros v s1 Hf1.
    destruct (String.eqb operator "=").
    + by apply (framed_scope_set s s1).
    + destruct (compound _ _ _); [| done].
      apply framed_bind; [by apply framed_of_op |]. intros u s2 Hf2.
      by apply (framed_scope_set s s2).
  - (* BinaryExpression *)
    apply andb_true_iff in Hn as [Hl Hr].
    unfold evaluateBinaryExpression.
    apply framed_bind; [by apply ev_framed |]. intros v1 s1 Hf1.
    apply framed_bind; [by apply ev_framed_from |]. intros v2 s2 Hf2.
    by apply framed_of_op.
  - (* UnaryExpression *)
    unfold evaluateUnaryExpression.
    apply framed_bind; [by apply ev_framed |]. intros v1 s1 Hf1.
    by apply framed_of_op.
  - (* IndexExpression *)
    apply andb_true_iff in Hn as [Ho Hi].
    unfold evaluateIndexExpression.
    apply framed_bind; [by apply ev_framed |]. intros v1 s1 Hf1.
    apply framed_bind; [by apply ev_framed_from |]. intros v2 s2 Hf2.
    unfold with_key. destruct (to_string v2); [| done].
    by apply framed_property_read.
  - (* MemberExpression *)
    unfold evaluateMemberExpression.
    apply framed_bind; [by apply ev_framed |]. intros v1 s1 Hf1.
    by apply framed_property_read.
  - (* Identifier *)
    unfold evaluateIdentifier. repeat case_match; done.
  - (* Literal *) done.
  - (* ArrayLiteral *)
    unfold evaluateArrayLiteral.
    apply frame_all; [done | done |]. intros vs s1 Hf1.
    unfold alloc. simpl. by apply frame_alloc.
  - (* ObjectLiteral *)
    unfold evaluateObjectLiteral, alloc.
    apply frame_object_properties; [done | | by apply frame_alloc].
    by apply frame_alloc_writable.
Qed.

End Open.

(** Local code writes the current scope and the objects it creates,
    nothing else. *)
Lemma evaluateNode_frame fuel :
  ∀ n s, local n = true → framed s (evaluateNode host_call fuel n s).
Proof.
  induction fuel as [| fuel IH]; intros n s Hn; [done |].
  cbn [evaluateNode]. by apply frame_body.
Qed.

(** *** Expressions that only read leave the state as it is *)

Definition unchanged (s : state) (o : outcome) : Prop :=
  match o with
  | Normal _ s' | Throw _ s' => s' = s
  | _ => True
  end.

Lemma unchanged_bind s m k :
  unchanged s m → (∀ v, unchanged s (k v s)) → unchanged s (bind m k).
Proof. intros Hm Hk. destruct m; simpl in *; subst; auto. Qed.

Lemma unchanged_of_op s (r : op_result num) : unchanged s (of_op r s).
Proof. by destruct r. Qed.

Lemma unchanged_property_read s object key :
  unchanged s (property_read object key s).
Proof. unfold property_read. repeat case_match; done. Qed.

Lemma unchanged_statements ev l :
  (∀ n s, pure n = true → unchanged s (ev n s)) →
  ∀ r s, forallb pure l = true → unchanged s (evaluateStatements ev l r s).
Proof.
  intros Hev. induction l as [| n l IH]; intros r s Hl; simpl in *; [done |].
  apply andb_true_iff in Hl as [Hn Hl].
  apply unchanged_bind; [by apply Hev |]. intros v. by apply IH.
Qed.

Lemma unchanged_body ev k n s :
  (∀ n s, pure n = true → unchanged s (ev n s)) →
  pure n = true → unchanged s (evaluateNode_body host_call ev k n s).
Proof.
  intros Hev Hn.
  destruct n as
    [statements | keyword name initializer | name parameters body
    | name superclass methods properties | specifiers source
    | tryBlock catchClause finallyBlock
    | condition thenBranch elifBranches elseBranch | condition body
    | iterator start end_ step body | result | | | expression
    | target operator rhs | l operator r | operator operand
    | callee arguments | object index | object property | name | lit
    | elements | properties];
    simpl in Hn; try discriminate Hn; cbn [evaluateNode_body].
  - by apply unchanged_statements.
  - by apply Hev.
  - apply andb_true_iff in Hn as [Hl Hr]. unfold evaluateBinaryExpression.
    apply unchanged_bind; [by apply Hev |]. intros v1.
    apply unchanged_bind; [by apply Hev |]. intros v2.
    apply unchanged_of_op.
  - unfold evaluateUnaryExpression.
    apply unchanged_bind; [by apply Hev |]. intros v1.
    apply unchanged_of_op.
  - apply andb_true_iff in Hn as [Ho Hi]. unfold evaluateIndexExpression.
    apply unchanged_bind; [by apply Hev |]. intros v1.
    apply unchanged_bind; [by apply Hev |]. intros v2.
    unfold with_key. destruct (to_string v2); [| done].
    apply unchanged_property_read.
  - unfold evaluateMemberExpression.
    apply unchanged_bind; [by apply Hev |]. intros v1.
    apply unchanged_property_read.
  - unfold evaluateIdentifier. repeat case_match; done.
  - done.
Qed.

Lemma evaluateNode_pure fuel :
  ∀ n s, pure n = true → unchanged s (evaluateNode host_call fuel n s).
Proof.
  induction fuel as [| fuel IH]; intros n s Hn; [done |].
  cbn [evaluateNode]. by apply unchanged_body.
Qed.

Lemma evaluateNode_pure_normal fuel n s v s' :
  pure n = true → evaluateNode host_call fuel n s = Normal v s' → s' = s.
Proof.
  intros Hn He. pose proof (evaluateNode_pure fuel n s Hn) as Hu.
  by rewrite He in Hu.
Qed.

(** Reasoning on [evaluateAll] over expressions that only read. *)
Lemma evaluateAll_pure fuel (Q : outcome → Prop) l :
  ∀ s k,
    forallb pure l = true →
    (∀ e, Q (Throw e s)) → (∀ w, Q (Unsupported w)) → Q NoFuel →
    (∀ vs, Q (k vs s)) →
    Q (evaluateAll (evaluateNode host_call fuel) l s k).
Proof.
  induction l as [| n l IH]; intros s k Hl Ht Hu Hf Hk; simpl in *; [done |].
  apply andb_true_iff in Hl as [Hn Hl].
  pose proof (evaluateNode_pure fuel n s Hn) as Hpure.
  destruct (evaluateNode host_call fuel n s) as [v s1 | e s1 | |];
    simpl in *; subst; auto.
Qed.

(** *** Assignments in a child scope *)

(** The objects that exist in [s] are the same in [s']. *)
Definition preserves (s s' : state) : Prop :=
  ∀ r, r < length (store s) → store s' !! r = store s !! r.

(** The state in which a loop body or a function body starts: a new
    object, child of [parent], is the current scope. *)
Definition child_state (s : state) (parent : option ref) : state :=
  with_scope (create parent s).2 (create parent s).1.

Lemma frame_child_preserves s parent s' :
  frame (child_state s parent) s' → preserves s s'.
Proof.
  intros [Hl Ho _] r Hr.
  unfold child_state, create, alloc in Ho. simpl_state.
  rewrite Ho.
  - by apply lookup_app_l.
  - rewrite length_app. lia.
  - lia.
Qed.

(** The write of a plain assignment to an identifier. *)
Lemma assignment_write ev x rhs s v s1 :
  ev rhs s = Normal v s1 →
  match evaluateAssignment ev (Identifier x) "=" rhs s with
  | Normal _ s2 | Throw _ s2 =>
      length (store s2) = length (store s1)
      ∧ (∀ r, r ≠ currentScope s1 → store s2 !! r = store s1 !! r)
      ∧ currentScope s2 = currentScope s1
  | _ => True
  end.
Proof.
  intros Hrhs. unfold evaluateAssignment. rewrite Hrhs. simpl.
  unfold scope_set.
  destruct (set_property _ _ _ _) as [h | e | w] eqn:Hset; [| done | done].
  destruct (set_property_others _ _ _ _ _ Hset) as [Hlen Hother].
  simpl_state. done.
Qed.

(** After a for statement whose bounds only read and whose body is
    local code. *)
Lemma for_statement_preserves fuel iterator start end_ step body s v s' :
  pure start = true → pure end_ = true → pure step = true →
  forallb local body = true →
  evaluateNode host_call (S fuel) (ForStatement iterator start end_ step body) s
  = Normal v s' →
  preserves s s' ∧ currentScope s' = currentScope s.
Proof.
  intros Hstart Hend Hstep Hbody.
  cbn [evaluateNode evaluateNode_body]. unfold evaluateForStatement.
  destruct (evaluateNode host_call fuel start s) as [v1 s1 | | |] eqn:H1;
    try discriminate.
  apply evaluateNode_pure_normal in H1 as ->; [| done]. simpl.
  destruct (evaluateNode host_call fuel end_ s) as [v2 s2 | | |] eqn:H2;
    try discriminate.
  apply evaluateNode_pure_normal in H2 as ->; [| done]. simpl.
  destruct (evaluateNode host_call fuel step s) as [v3 s3 | | |] eqn:H3;
    try discriminate.
  apply evaluateNode_pure_normal in H3 as ->; [| done]. simpl.
  pose proof (frame_for_loop (evaluateNode host_call fuel)
                (evaluateNode_frame fuel) iterator v2 v3 body fuel v1 VNull
                _ (child_state s (Some (currentScope s))) Hbody
                (frame_refl _)) as Hloop.
  unfold child_state, create, alloc in Hloop. unfold create, alloc.
  destruct (for_loop _ _ _ _ _ _ _ _ _) as [r s4 | | |]; try discriminate.
  simpl. intros [= <- <-]. split; [| done].
  intros r' Hr'. simpl_state.
  by apply (frame_child_preserves s (Some (currentScope s)) s4).
Qed.

Lemma frame_bind_parameters (ev : node → state → outcome)
    (P : outcome → Prop) s0 ps :
  ∀ args s1 k,
    frame s0 s1 →
    (∀ e s2, frame s0 s2 → P (Throw e s2)) →
    (∀ w, P (Unsupported w)) →
    (∀ s2, frame s0 s2 → P (k s2)) →
    P (bind_parameters ps args s1 k).
Proof.
  induction ps as [| x ps IH]; intros args s1 k Hf Ht Hu Hk; simpl; [by apply Hk |].
  unfold scope_set.
  destruct (set_property _ _ _ _) as [h | e | w] eqn:Hset; [| by apply Ht | done].
  apply IH; try done.
  eapply frame_write; [done | | done]. by apply frame_current_writable.
Qed.

(** What holds after a call: the objects are preserved, and when the
    call returns the current scope is the one before. *)
Definition call_post (s : state) (o : outcome) : Prop :=
  match o with
  | Normal _ s' => preserves s s' ∧ currentScope s' = currentScope s
  | Throw _ s' => preserves s s'
  | _ => True
  end.

Lemma call_function_preserves fuel s f body args :
  get_property (store s) f "body" = VNodes body →
  forallb local body = true →
  call_post s (call_function (evaluateNode host_call fuel) f args s).
Proof.
  intros Hbody Hlocal. unfold call_function.
  assert (Henter : ∀ parent,
    call_post s
      (let '(c, s0) := create parent s in
       let s1 := with_scope s0 c in
       match get_property (store s) f "parameters",
             get_property (store s) f "body" with
       | VNames parameters, VNodes body =>
           bind_parameters parameters args s1 (λ s2,
             match evaluateBlock (evaluateNode host_call fuel) body s2 with
             | Normal _ s3 => Normal VNull (with_scope s3 (currentScope s))
             | Throw (VReturn v) s3 => Normal v (with_scope s3 (currentScope s))
             | Throw e s3 => Throw e (with_scope s3 (currentScope s))
             | other => other
             end)
       | _, _ => Unsupported "function record built by the program"
       end)).
  { intros parent. rewrite Hbody.
    destruct (create parent s) as [c s0] eqn:Hcreate.
    assert (Hchild : with_scope s0 c = child_state s parent)
      by (unfold child_state; by rewrite Hcreate).
    cbv zeta. rewrite Hchild.
    destruct (get_property (store s) f "parameters"); try done.
    apply (frame_bind_parameters (evaluateNode host_call fuel) (call_post s)
             (child_state s parent)); [apply frame_refl | | done |].
    - intros e s2 Hf2. by eapply frame_child_preserves.
    - intros s2 Hf2.
      pose proof (frame_block (evaluateNode host_call fuel)
                    (evaluateNode_frame fuel) body _ s2 Hlocal Hf2) as Hblock.
      assert (Hp : ∀ s3, frame (child_state s parent) s3 →
                preserves s (with_scope s3 (currentScope s))).
      { intros s3 Hf3 r Hr. simpl_state.
        by apply (frame_child_preserves s parent s3). }
      destruct (evaluateBlock _ body s2) as [v s3 | e s3 | |];
        simpl in Hblock; try done.
      + split; [by apply Hp | done].
      + destruct e; simpl; auto. }
  destruct (get_property (store s) f "scope"); try done;
    try apply Henter.
  all: by intros r Hr.
Qed.

(** After a call of a function of the program whose body is local code,
    with a callee and arguments that only read. *)
Lemma call_preserves fuel callee arguments s f body :
  pure callee = true → forallb pure arguments = true →
  evaluateNode host_call fuel callee s = Normal (VObject f) s →
  get_property (store s) f "type" = VStr "function" →
  get_property (store s) f "body" = VNodes body →
  forallb local body = true →
  call_post s
    (evaluateNode host_call (S fuel) (CallExpression callee arguments) s).
Proof.
  intros Hcallee Hargs Hf Htype Hbody Hlocal.
  cbn [evaluateNode evaluateNode_body]. unfold evaluateCallExpression.
  rewrite Hf. simpl.
  assert (Hsame : preserves s s) by (by intros r Hr).
  apply (evaluateAll_pure fuel (call_post s)); try done.
  intros args. rewrite Htype. simpl.
  by apply (call_function_preserves fuel s f body).
Qed.

(** C8. A plain assignment to an identifier changes no object of the
    heap but the current scope. A for statement runs its body in a new
    child scope, and the call of a function of the program runs the
    body in a new child of the scope the function was declared in: when
    the body is local code (assignments to identifiers, declarations,
    conditionals, loops, expressions without calls or writes through a
    member), every object that existed before the loop or the call,
    the enclosing scopes and the global scope among them, is the same
    after it, and the current scope is again the one before. *)
Theorem assignment_stays_in_child_scope (fuel : nat) :
  (∀ x rhs s v s1,
     evaluateNode host_call fuel rhs s = Normal v s1 →
     match evaluateNode host_call (S fuel) (Assignment (Identifier x) "=" rhs) s with
     | Normal _ s2 | Throw _ s2 =>
         length (store s2) = length (store s1)
         ∧ (∀ r, r ≠ currentScope s1 → store s2 !! r = store s1 !! r)
         ∧ currentScope s2 = currentScope s1
     | _ => True
     end)
  ∧ (∀ iterator start end_ step body s v s',
       pure start = true → pure end_ = true → pure step = true →
       forallb local body = true →
       evaluateNode host_call (S fuel)
         (ForStatement iterator start end_ step body) s
       = Normal v s' →
       preserves s s' ∧ currentScope s' = currentScope s)
  ∧ (∀ callee arguments s f body,
       pure callee = true → forallb pure arguments = true →
       evaluateNode host_call fuel callee s = Normal (VObject f) s →
       get_property (store s) f "type" = VStr "function" →
       get_property (store s) f "body" = VNodes body →
       forallb local body = true →
       match
         evaluateNode host_call (S fuel) (CallExpression callee arguments) s
       with
       | Normal _ s' => preserves s s' ∧ currentScope s' = currentScope s
       | Throw _ s' => preserves s s'
       | _ => True
       end).
Proof.
  split; [| split].
  - intros x rhs s v s1 Hrhs.
    exact (assignment_write (evaluateNode host_call fuel) x rhs s v s1 Hrhs).
  - intros iterator start end_ step body s v s' H1 H2 H3 Hb He.
    exact (for_statement_preserves fuel iterator start end_ step body s v s'
             H1 H2 H3 Hb He).
  - intros callee arguments s f body Hc Ha Hf Ht Hb Hl.
    exact (call_preserves fuel callee arguments s f body Hc Ha Hf Ht Hb Hl).
Qed.

End WithHost.

Import ExactNum.

Definition number (z : Z) : Ast.node xnum := Literal (LNum (fin (inject_Z z))).

(** The state after the declaration [def f() { x = 7 }]. *)
Definition declared : Evaluator.state xnum :=
  match
    evaluateNode Host.call 1
      (FunctionDeclaration "f" []
         [ExpressionStatement (Assignment (Identifier "x") "=" (number 7))])
      new_evaluator
  with
  | Normal _ s => s
  | _ => new_evaluator
  end.

Lemma assignment_stays_in_child_scope_witness :
  let assign := Assignment (Identifier "x") "=" (number 5) in
  let loop :=
    ForStatement "i" (number 1) (number 3) (number 1) [ExpressionStatement assign] in
  (∃ v s2,
     evaluateNode Host.call 2 assign new_evaluator = Normal v s2
     ∧ ∀ r, r ≠ currentScope (new_evaluator (num:=xnum)) →
            store s2 !! r = store (new_evaluator (num:=xnum)) !! r)
  ∧ (∃ v s',
       evaluateNode Host.call 6 loop new_evaluator = Normal v s'
       ∧ preserves new_evaluator s'
       ∧ currentScope s' = currentScope (new_evaluator (num:=xnum)))
  ∧ (∃ v s',
       evaluateNode Host.call 6 (CallExpression (Identifier "f") []) declared
       = Normal v s'
       ∧ preserves declared s'
       ∧ currentScope s' = currentScope declared).
Proof.
  intros assign loop. split; [| split].
  - assert (Hrun : ∃ v s2, evaluateNode Host.call 2 assign new_evaluator
                           = Normal v s2)
      by (eexists _, _; vm_compute; reflexivity).
    destruct Hrun as (v & s2 & Hrun). exists v, s2. split; [exact Hrun |].
    pose proof (proj1 (assignment_stays_in_child_scope Host.call 1)
                  "x" (number 5) new_evaluator _ _ eq_refl) as Hw.
    fold assign in Hw. rewrite Hrun in Hw. exact (proj1 (proj2 Hw)).
  - assert (Hrun : ∃ v s', evaluateNode Host.call 6 loop new_evaluator
                           = Normal v s')
      by (eexists _, _; vm_compute; reflexivity).
    destruct Hrun as (v & s' & Hrun). exists v, s'.
    split; [exact Hrun |].
    exact (proj1 (proj2 (assignment_stays_in_child_scope Host.call 5))
             "i" (number 1) (number 3) (number 1) [ExpressionStatement assign]
             new_evaluator v s' eq_refl eq_refl eq_refl eq_refl Hrun).
  - assert (Hrun : ∃ v s',
              evaluateNode Host.call 6 (CallExpression (Identifier "f") [])
                declared = Normal v s')
      by (eexists _, _; vm_compute; reflexivity).
    destruct Hrun as (v & s' & Hrun). exists v, s'.
    split; [exact Hrun |].
    assert (Hcallee : evaluateNode Host.call 5 (Identifier "f") declared
                      = Normal (VObject 3) declared)
      by (vm_compute; reflexivity).
    assert (Htype : get_property (store declared) 3 "type" = VStr "function")
      by (vm_compute; reflexivity).
    assert (Hbody : get_property (store declared) 3 "body"
                    = VNodes [ExpressionStatement
                                (Assignment (Identifier "x") "=" (number 7))])
      by (vm_compute; reflexivity).
    pose proof (proj2 (proj2 (assignment_stays_in_child_scope Host.call 5))
                  (Identifier "f") [] declared 3 _ eq_refl eq_refl
                  Hcallee Htype Hbody eq_refl) as Hcall.
    rewrite Hrun in Hcall. exact Hcall.
Defined.

Example loop_assignment_leaves_outer_binding :
  fst (Engine.execute (num:=xnum) Host.call 12 Engine.new_engine
         "let x = 1 for i = 1 to 3 { x = 5 } x")
  = Engine.Returned (VNum (fin 1)).
Proof. vm_compute. reflexivity. Qed.

Example call_assignment_leaves_outer_binding :
  fst (Engine.execute (num:=xnum) Host.call 12 Engine.new_engine
         "let x = 1 def f() { x = 7 return x } f() + x")
  = Engine.Returned (VNum (fin 8)).
Proof. vm_compute. reflexivity. Qed.

(** An assignment at the top level writes the global scope itself. *)
Example toplevel_assignment_writes_global :
  fst (Engine.execute (num:=xnum) Host.call 12 Engine.new_engine
         "let x = 1 x = 5 x")
  = Engine.Returned (VNum (fin 5)).
Proof. vm_compute. reflexivity. Qed.

End FrameProps.

(** ** The evaluator: variables and scopes *)

Module ScopeProps.

Import Ast Values Evaluator LoopProps FrameProps.

Local Open Scope nat_scope.

Section WithHost.
Context {num : Type} `{JsNumber num}.
Variable host_call : string → list (value num) → heap num → host_outcome num.

Abbreviation node := (Ast.node num).
Abbreviation value := (Values.value num).
Abbreviation heap := (Values.heap num).
Abbreviation state := (Evaluator.state num).
Abbreviation outcome := (Evaluator.outcome num).

Implicit Types s : state.
Implicit Types h : heap.
Implicit Types v : value.

Ltac state_fields :=
  cbn [store currentScope globalScope builtins with_store with_scope fst snd]
    in *.

(** The name does not resolve, from the current scope, to the
    [__proto__] accessor of [Object.prototype]. *)
Definition plain_name s (x : string) : Prop :=
  find_property (store s) (chain_fuel (store s)) (currentScope s) x
  ≠ Some ProtoAccessor.

(** *** Writing an own property *)

Lemma set_own_length h r x v : length (set_own h r x v) = length h.
Proof.
  unfold set_own. destruct (h !! r); [apply length_insert | done].
Qed.

Lemma set_own_found h r x v o n :
  h !! r = Some o →
  find_property (set_own h r x v) (S n) r x = Some (Data v).
Proof.
  intros Hr. unfold set_own. rewrite Hr. simpl.
  rewrite list_lookup_insert_eq by (by eapply lookup_lt_Some).
  simpl. by rewrite lookup_insert_eq.
Qed.

Lemma set_own_others h r x v y n :
  y ≠ x → ∀ r', find_property (set_own h r x v) n r' y = find_property h n r' y.
Proof.
  intros Hy. unfold set_own. destruct (h !! r) as [o |] eqn:Hr; [| done].
  induction n as [| n IH]; intros r'; [done |]. cbn [find_property].
  destruct (decide (r' = r)) as [-> | Hne].
  - rewrite list_lookup_insert_eq by (by eapply lookup_lt_Some).
    rewrite Hr. cbn [props proto]. rewrite lookup_insert_ne by done.
    destruct (props o !! y); [done |]. destruct (proto o); [apply IH | done].
  - rewrite list_lookup_insert_ne by congruence. unfold ref in *.
    destruct (h !! r') as [o' |]; [| done].
    destruct (props o' !! y); [done |]. destruct (proto o'); [apply IH | done].
Qed.

Lemma set_own_proto h r x v r' o' :
  set_own h r x v !! r' = Some o' →
  ∃ o, h !! r' = Some o ∧ proto o' = proto o ∧ is_array o' = is_array o.
Proof.
  unfold set_own. destruct (h !! r) as [o |] eqn:Hr; [| by exists o'].
  destruct (decide (r' = r)) as [-> | Hne].
  - rewrite list_lookup_insert_eq by (by eapply lookup_lt_Some).
    intros [= <-]. by exists o.
  - rewrite list_lookup_insert_ne by congruence. by exists o'.
Qed.

Lemma set_own_lookup_proto h r x v r' :
  (proto <$> set_own h r x v !! r') = (proto <$> h !! r').
Proof.
  unfold set_own. unfold ref in *.
  destruct (h !! r) as [o |] eqn:Hr; [| done].
  destruct (decide (r' = r)) as [-> | Hne].
  - rewrite list_lookup_insert_eq by (by eapply lookup_lt_Some).
    by rewrite Hr.
  - by rewrite list_lookup_insert_ne by congruence.
Qed.

(** The write of a declaration or of a plain assignment. *)
Lemma scope_set_plain x v s k :
  scope_writable s → plain_name s x →
  scope_set x v s k
  = k (with_store s (set_own (store s) (currentScope s) x v)).
Proof.
  intros (o & Ho & Harr) Hplain. unfold scope_set, set_property.
  rewrite Ho, Harr. unfold plain_name in Hplain.
  by destruct (find_property _ _ _ _) as [[w |] |].
Qed.


Lemma written_identifier x v s :
  scope_writable s →
  let s2 := with_store s (set_own (store s) (currentScope s) x v) in
  evaluateIdentifier x s2 = Normal v s2 ∧ scope_get x s2 = v.
Proof.
  intros (o & Ho & Harr) s2.
  assert (Hfound : find_property (store s2) (chain_fuel (store s2))
                     (currentScope s2) x = Some (Data v)).
  { subst s2. state_fields. by eapply set_own_found. }
  unfold evaluateIdentifier, scope_get, has_property, get_property.
  rewrite Hfound. by rewrite bool_decide_eq_true_2.
Qed.


(** X14. A declaration [let x = e], and likewise a plain assignment
    [x = e], returns the value of [e] and leaves a state in which the
    identifier [x] evaluates to that value, whatever [x] was bound to
    before. *)
Theorem declaration_then_identifier (fuel : nat) (keyword x : string)
    (init : node) s v s1 :
  evaluateNode host_call fuel init s = Normal v s1 →
  scope_writable s1 →
  plain_name s1 x →
  ∃ s2,
    evaluateNode host_call (S fuel) (VariableDeclaration keyword x (Some init)) s
    = Normal v s2
    ∧ evaluateNode host_call (S fuel) (Assignment (Identifier x) "=" init) s
      = Normal v s2
    ∧ evaluateNode host_call 1 (Identifier x) s2 = Normal v s2.
Proof.
  intros Hinit Hw Hplain.
  exists (with_store s1 (set_own (store s1) (currentScope s1) x v)).
  destruct (written_identifier x v s1 Hw) as [Hid Hget].
  cbn [evaluateNode evaluateNode_body].
  unfold evaluateVariableDeclaration, evaluateAssignment.
  rewrite Hinit. cbn [bind String.eqb Ascii.eqb Bool.eqb].
  rewrite !scope_set_plain by done. by rewrite Hget.
Qed.

(** Reading a name other than the one written. *)
Lemma has_property_others h r x v y r' :
  y ≠ x → has_property (set_own h r x v) r' y = has_property h r' y.
Proof.
  intros Hy. unfold has_property, chain_fuel.
  by rewrite set_own_length, set_own_others.
Qed.

Lemma get_property_others h r x v y r' :
  y ≠ x → get_property (set_own h r x v) r' y = get_property h r' y.
Proof.
  intros Hy. unfold get_property, chain_fuel.
  rewrite set_own_length, set_own_others by done.
  destruct (find_property _ _ _ _) as [[w |] |]; try done.
  unfold proto_value.
  pose proof (set_own_lookup_proto h r x v r') as Hp. unfold ref in *.
  destruct (set_own h r x v !! r'), (h !! r'); simplify_eq/=; try done.
  by rewrite Hp.
Qed.

Lemma lookup_parents_others h r x v y :
  y ≠ x →
  ∀ n scope,
    lookup_parents (set_own h r x v) n scope y = lookup_parents h n scope y.
Proof.
  intros Hy. induction n as [| n IH]; intros scope; [done |]. simpl.
  pose proof (set_own_lookup_proto h r x v scope) as Hp. unfold ref in *.
  destruct (set_own h r x v !! scope) as [o' |], (h !! scope) as [o |];
    simplify_eq/=; try done.
  rewrite Hp. destruct (proto o) as [parent |]; [| done].
  rewrite has_property_others, get_property_others by done.
  destruct (has_property h parent y); [done | apply IH].
Qed.

Lemma identifier_others x v y s :
  y ≠ x →
  let s2 := with_store s (set_own (store s) (currentScope s) x v) in
  evaluateIdentifier y s2
  = match evaluateIdentifier y s with
    | Normal w _ => Normal w s2
    | Throw e _ => Throw e s2
    | other => other
    end.
Proof.
  intros Hy s2. subst s2. unfold evaluateIdentifier. state_fields.
  rewrite !has_property_others, !get_property_others by done.
  unfold chain_fuel at 1.
  rewrite set_own_length, lookup_parents_others by done.
  fold (chain_fuel (store s)).
  destruct (has_property _ (currentScope s) y); [done |].
  destruct (lookup_parents _ _ _ _); [done |].
  destruct (has_property _ (globalScope s) y); [done |].
  by destruct (has_property _ (builtins s) y).
Qed.

(** X15. A declaration [let x = e] whose name [x] is not the
    [__proto__] accessor that the scope inherits from
    [Object.prototype], made in a scope that is a plain object, changes
    what no other name evaluates to: an identifier [y] other than [x]
    gives, after the declaration, the value or the error it gave
    before it. *)
Theorem declaration_keeps_other_names (fuel : nat) (keyword x y : string)
    (init : node) s v s1 s2 :
  evaluateNode host_call fuel init s = Normal v s1 →
  scope_writable s1 →
  plain_name s1 x →
  evaluateNode host_call (S fuel) (VariableDeclaration keyword x (Some init)) s
  = Normal v s2 →
  y ≠ x →
  evaluateNode host_call 1 (Identifier y) s2
  = match evaluateNode host_call 1 (Identifier y) s1 with
    | Normal w _ => Normal w s2
    | Throw e _ => Throw e s2
    | other => other
    end.
Proof.
  intros Hinit Hw Hplain Hdecl Hy.
  cbn [evaluateNode evaluateNode_body] in *.
  unfold evaluateVariableDeclaration in Hdecl.
  rewrite Hinit in Hdecl. cbn [bind] in Hdecl.
  rewrite scope_set_plain in Hdecl by done. injection Hdecl as <-.
  by apply identifier_others.
Qed.

(** X16. When a for statement throws after its bounds were evaluated,
    be it from its body or from the loop itself, it leaves the scope it
    created for the loop as the current scope: the scope of before is
    not restored. *)
Theorem for_statement_error_keeps_loop_scope (fuel : nat) (iterator : string)
    (start end_ step : node) (body : list node) s a s1 b s2 d s3 e s' :
  evaluateNode host_call fuel start s = Normal a s1 →
  evaluateNode host_call fuel end_ s1 = Normal b s2 →
  evaluateNode host_call fuel step s2 = Normal d s3 →
  forallb local body = true →
  currentScope s3 < length (store s3) →
  evaluateNode host_call (S fuel) (ForStatement iterator start end_ step body) s
  = Throw e s' →
  length (store s3) ≤ currentScope s' ∧ currentScope s' ≠ currentScope s3.
Proof.
  intros Hstart Hend Hstep Hbody Hscope.
  cbn [evaluateNode evaluateNode_body]. unfold evaluateForStatement.
  rewrite Hstart. cbn [bind]. rewrite Hend. cbn [bind]. rewrite Hstep.
  cbn [bind].
  pose proof (frame_for_loop (evaluateNode host_call fuel)
                (evaluateNode_frame host_call fuel) iterator b d body fuel a
                VNull _ (child_state s3 (Some (currentScope s3))) Hbody
                (frame_refl _)) as Hloop.
  unfold child_state, create, alloc in Hloop. unfold create, alloc.
  cbn [fst snd] in *.
  destruct (for_loop _ _ _ _ _ _ _ _ _) as [r s4 | e4 s4 | |];
    try discriminate.
  cbn [bind]. intros [= <- <-]. destruct Hloop as [_ _ Hcur].
  cbn [store currentScope with_scope with_store] in Hcur.
  rewrite length_app in Hcur. simpl in Hcur. lia.
Qed.

(** *** Object literals *)

Lemma object_prototype_data (key : string) :
  key ≠ "__proto__" →
  props (object_prototype (num:=num)) !! key ≠ Some ProtoAccessor.
Proof.
  intros Hkey. unfold object_prototype. cbn [props].
  rewrite lookup_insert_ne by done. intros Hin.
  apply elem_of_list_to_map_2, list_elem_of_fmap in Hin as (name & Heq & _).
  discriminate Heq.
Qed.

(** The object under construction: the last object of the heap, a
    child of [Object.prototype]. *)
Definition building (h : heap) (own : gmap string (property num)) : heap :=
  h ++ [mkObject own (Some object_prototype_ref) false].

Lemma building_find h own key n :
  h !! object_prototype_ref = Some object_prototype →
  find_property (building h own) (S (S n)) (length h) key
  = match own !! key with
    | Some p => Some p
    | None => props (object_prototype (num:=num)) !! key
    end.
Proof.
  intros Hproto. unfold building. cbn [find_property].
  rewrite list_lookup_middle by done. cbn [props proto].
  destruct (own !! key); [done |].
  unfold ref in *.
  rewrite lookup_app_l by (by eapply lookup_lt_Some).
  rewrite Hproto. by destruct (props object_prototype !! key).
Qed.

Lemma building_set h own key v :
  h !! object_prototype_ref = Some object_prototype →
  key ≠ "__proto__" → own !! key ≠ Some ProtoAccessor →
  set_property (building h own) (length h) key v
  = SetOk (building h (<[ key := Data v ]> own)).
Proof.
  intros Hproto Hkey Hown. unfold set_property. unfold ref in *.
  assert (Hobj : building h own !! length h
                 = Some (mkObject own (Some object_prototype_ref) false))
    by (by apply list_lookup_middle).
  rewrite Hobj. cbn [is_array]. unfold chain_fuel.
  assert (Hlen : length (building h own) = S (length h))
    by (unfold building; rewrite length_app; simpl; lia).
  rewrite Hlen, building_find by done.
  assert (Hset : set_own (building h own) (length h) key v
                 = building h (<[ key := Data v ]> own)).
  { unfold set_own. unfold ref in *. rewrite Hobj. cbn [props proto is_array].
    unfold building. rewrite insert_app_r_alt by done.
    by rewrite Nat.sub_diag. }
  pose proof (object_prototype_data key Hkey) as Hdata.
  destruct (own !! key) as [[w |] |]; [by rewrite Hset | done |].
  destruct (props object_prototype !! key) as [[w |] |];
    [by rewrite Hset | done | by rewrite Hset].
Qed.

Definition literal_properties (l : list (string * literal num))
  : list (string * node) :=
  (λ p, (p.1, Literal p.2)) <$> l.

Definition data_of (l : literal num) : property num := Data (of_literal l).

Definition plain_data (own : gmap string (property num)) : Prop :=
  ∀ key, own !! key ≠ Some ProtoAccessor.

Lemma object_properties_literals fuel (l : list (string * literal num)) :
  Forall (λ p, p.1 ≠ "__proto__") l →
  ∀ s h own,
    store s = building h own →
    h !! object_prototype_ref = Some object_prototype →
    plain_data own →
    object_properties (evaluateNode host_call (S fuel)) (length h)
      (literal_properties l) s
    = Normal (VObject (length h))
        (with_store s
           (building h (list_to_map (reverse (prod_map id data_of <$> l))
                        ∪ own))).
Proof.
  induction 1 as [| [key lit] l Hkey _ IH]; intros s h own Hs Hproto Hown.
  - cbn. rewrite (left_id ∅ (∪)). rewrite <- Hs. by destruct s.
  - cbn [literal_properties fmap list_fmap object_properties fst snd].
    cbn [evaluateNode evaluateNode_body bind]. rewrite Hs.
    rewrite building_set by done.
    fold (literal_properties l).
    rewrite (IH (with_store s (building h (<[ key := Data (of_literal lit) ]> own)))
               h (<[ key := Data (of_literal lit) ]> own)); [| done | done |].
    + f_equal. destruct s; cbn [with_store store]. do 2 f_equal.
      rewrite reverse_cons, list_to_map_app. cbn [list_to_map prod_map fst snd id].
      unfold data_of at 2. rewrite <- (assoc (∪)). f_equal.
      change (list_to_map [(key, data_of lit)])
        with (<[ key := data_of lit ]> (∅ : gmap string (property num))).
      rewrite insert_empty. by rewrite <- insert_union_singleton_l.
    + intros k. destruct (decide (k = key)) as [-> | Hne].
      * by rewrite lookup_insert_eq.
      * rewrite lookup_insert_ne by done. apply Hown.
Qed.

(** X18. The member [key] of an object literal is the value of the
    last property of that name in the literal. A name the literal does
    not have gives what [Object.prototype] has under it (the host's
    methods, as for [toString]), and [undefined] when it has nothing.
    The properties are literals here, and [__proto__] is left out. *)
Theorem object_literal_member (fuel : nat) (l : list (string * literal num))
    (key : string) s :
  store s !! object_prototype_ref = Some object_prototype →
  Forall (λ p, p.1 ≠ "__proto__") l → key ≠ "__proto__" →
  ∃ s',
    evaluateNode host_call (S (S (S fuel)))
      (MemberExpression (ObjectLiteral (literal_properties l)) key) s
    = Normal
        match (list_to_map (reverse l) : gmap string (literal num)) !! key with
        | Some lit => of_literal lit
        | None =>
            match props (object_prototype (num:=num)) !! key with
            | Some (Data v) => v
            | _ => VUndefined
            end
        end s'
    ∧ currentScope s' = currentScope s.
Proof.
  intros Hproto Hkeys Hkey.
  change (evaluateNode host_call (S (S (S fuel))) (MemberExpression ?o key) s)
    with (evaluateMemberExpression (evaluateNode host_call (S (S fuel)))
            o key s).
  unfold evaluateMemberExpression.
  change (evaluateNode host_call (S (S fuel)) (ObjectLiteral ?p) s)
    with (evaluateObjectLiteral (evaluateNode host_call (S fuel)) p s).
  unfold evaluateObjectLiteral, alloc, plain.
  rewrite (object_properties_literals fuel l Hkeys _ (store s) ∅);
    [| done | done | intros k; by rewrite lookup_empty].
  cbn [bind]. rewrite map_union_empty.
  set (own := list_to_map _).
  exists (with_store s (building (store s) own)). split; [| reflexivity].
  unfold property_read. cbn [store with_store]. unfold ref in *.
  assert (Hobj : building (store s) own !! length (store s)
                 = Some (mkObject own (Some object_prototype_ref) false))
    by (by apply list_lookup_middle).
  rewrite Hobj. cbn [is_array andb]. f_equal.
  unfold get_property, chain_fuel.
  assert (Hlen : length (building (store s) own) = S (length (store s)))
    by (unfold building; rewrite length_app; simpl; lia).
  rewrite Hlen, building_find by done.
  assert (Hown : own !! key
                 = data_of <$> (list_to_map (reverse l)
                                : gmap string (literal num)) !! key).
  { subst own. rewrite <- lookup_fmap, <- list_to_map_fmap, <- fmap_reverse.
    reflexivity. }
  rewrite Hown.
  destruct (list_to_map (reverse l) !! key) as [lit |]; [done |].
  change (data_of <$> None) with (@None (property num)). cbv iota.
  pose proof (object_prototype_data key Hkey) as Hdata.
  by destruct (props object_prototype !! key) as [[w |] |].
Qed.

(** *** Counting with a for statement *)




Definition number (int : Z → num) (z : Z) : node := Literal (LNum (int z)).




End WithHost.

Import ExactNum.

Abbreviation state := (Evaluator.state xnum).

Definition int (z : Z) : xnum := fin (inject_Z z).





Lemma declaration_then_identifier_witness :
  ∃ s2,
    evaluateNode Host.call 2 (VariableDeclaration "let" "x" (Some (lit 7)))
      new_evaluator
    = Normal (VNum (int 7)) s2
    ∧ evaluateNode Host.call 2 (Assignment (Identifier "x") "=" (lit 7))
        new_evaluator
      = Normal (VNum (int 7)) s2
    ∧ evaluateNode Host.call 1 (Identifier "x") s2 = Normal (VNum (int 7)) s2.
Proof.
  apply (declaration_then_identifier Host.call 1 "let" "x" (lit 7)
           new_evaluator (VNum (int 7)) new_evaluator).
  - reflexivity.
  - eexists. split; reflexivity.
  - vm_compute. discriminate.
Defined.

(** The first state of an evaluator, with [y] bound to 3 in its
    global scope. *)
Definition with_y : state :=
  with_store new_evaluator (set_own (store new_evaluator) 2 "y" (VNum (int 3))).

Lemma declaration_keeps_other_names_witness :
  let s2 := with_store with_y (set_own (store with_y) 2 "x" (VNum (int 7))) in
  evaluateNode Host.call 1 (Identifier "y") s2 = Normal (VNum (int 3)) s2
  ∧ evaluateNode Host.call 1 (Identifier "z") s2
    = Throw (undefined_variable "z") s2.
Proof.
  intros s2. split.
  - refine (eq_trans
              (declaration_keeps_other_names Host.call 1 "let" "x" "y" (lit 7)
                 with_y (VNum (int 7)) with_y s2 _ _ _ _ _) _).
    + reflexivity.
    + eexists. split; reflexivity.
    + vm_compute. discriminate.
    + reflexivity.
    + discriminate.
    + vm_compute. reflexivity.
  - refine (eq_trans
              (declaration_keeps_other_names Host.call 1 "let" "x" "z" (lit 7)
                 with_y (VNum (int 7)) with_y s2 _ _ _ _ _) _).
    + reflexivity.
    + eexists. split; reflexivity.
    + vm_compute. discriminate.
    + reflexivity.
    + discriminate.
    + vm_compute. reflexivity.
Defined.

(** The name [__proto__] is the one the condition on the declared name
    leaves out: its declaration runs the setter of [Object.prototype],
    which makes the declared object the parent of the scope, and the
    names of that object are then found. *)
Example declaration_of_proto_adds_names :
  let e0 := Engine.new_engine (num:=xnum) in
  let e1 := snd (Engine.execute Host.call 12 e0 "let __proto__ = {y: 5}") in
  fst (Engine.execute Host.call 12 e0 "y")
  = Engine.Raised "Lumos Execution Error: Undefined variable: y"
  ∧ fst (Engine.execute Host.call 12 e1 "y") = Engine.Returned (VNum (int 5)).
Proof. vm_compute. split; reflexivity. Qed.

Definition failing_loop : Ast.node xnum :=
  ForStatement "i" (lit 1) (lit 3) (lit 1)
    [ExpressionStatement (Identifier "nope")].

Lemma for_statement_error_keeps_loop_scope_witness :
  match evaluateNode Host.call 3 failing_loop new_evaluator with
  | Throw e s' => 3 ≤ currentScope s' ∧ currentScope s' ≠ 2
  | _ => False
  end.
Proof.
  destruct (evaluateNode Host.call 3 failing_loop new_evaluator)
    as [v s' | e s' | w |] eqn:Hrun;
    try (vm_compute in Hrun; discriminate Hrun).
  apply (for_statement_error_keeps_loop_scope Host.call 2 "i" (lit 1) (lit 3)
           (lit 1) [ExpressionStatement (Identifier "nope")]
           new_evaluator (VNum (int 1)) new_evaluator (VNum (int 3))
           new_evaluator (VNum (int 1)) new_evaluator e s');
    try reflexivity.
  - simpl. lia.
  - exact Hrun.
Defined.

(** After a program stopped by an error in a for statement, the engine
    declares what comes next in the scope of that loop, where the
    functions declared before do not find it. *)
Example declarations_after_failed_loop :
  let e0 := Engine.new_engine (num:=xnum) in
  let e1 := snd (Engine.execute Host.call 12 e0 "def f() { return y }") in
  let e2 := snd (Engine.execute Host.call 12 e1 "for i = 1 to 3 { nope }") in
  let e3 := snd (Engine.execute Host.call 12 e2 "let y = 5") in
  fst (Engine.execute Host.call 12 e3 "y") = Engine.Returned (VNum (int 5))
  ∧ fst (Engine.execute Host.call 12 e3 "f()")
    = Engine.Raised "Lumos Execution Error: Undefined variable: y".
Proof. vm_compute. split; reflexivity. Qed.


Example for_counts_by_four :
  fst (Engine.execute (num:=xnum) Host.call 12 Engine.new_engine
         "for i = 1 to 10 step 4 { i }")
  = Engine.Returned (VNum (int 9))
  ∧ fst (Engine.execute (num:=xnum) Host.call 12 Engine.new_engine
           "for i = 5 to 4 { i }")
    = Engine.Returned VNull.
Proof. vm_compute. split; reflexivity. Qed.

Lemma object_literal_member_witness :
  ∃ s',
    evaluateNode Host.call 3
      (MemberExpression
         (ObjectLiteral
            (literal_properties
               [("a", LNum (int 1)); ("b", LStr "x"); ("a", LNum (int 2))]))
         "a")
      new_evaluator
    = Normal (VNum (int 2)) s'
    ∧ currentScope s' = 2.
Proof.
  destruct (object_literal_member Host.call 0
              [("a", LNum (int 1)); ("b", LStr "x"); ("a", LNum (int 2))]
              "a" new_evaluator) as (s' & Hrun & Hscope).
  - reflexivity.
  - repeat constructor; discriminate.
  - discriminate.
  - exists s'. split; [| exact Hscope]. rewrite Hrun. f_equal.
Defined.

Example object_members :
  fst (Engine.execute (num:=xnum) Host.call 12 Engine.new_engine
         "{a: 1, b: 2, a: 3}.a")
  = Engine.Returned (VNum (int 3))
  ∧ fst (Engine.execute (num:=xnum) Host.call 12 Engine.new_engine "{a: 1}.c")
    = Engine.Returned VUndefined
  ∧ fst (Engine.execute (num:=xnum) Host.call 12 Engine.new_engine
           "{a: 1}.toString")
    = Engine.Returned (VHost "Object.prototype.toString" true).
Proof. vm_compute. repeat split; reflexivity. Qed.

End ScopeProps.


(** ** The engine *)

Module EngineProps.

Import Ast Values Evaluator Engine FrameProps.

Section WithHost.
Context {num : Type} `{JsNumber num}.
Variable host_call : string → list (value num) → heap num → host_outcome num.



End WithHost.

Import ExactNum.

(** The engine after [let a = 10; let o = {b: a}]. *)
Definition engine_with_bindings : LumosEngine xnum :=
  (execute Host.call 12
     (execute Host.call 12 new_engine "let a = 10").2 "let o = {b: a}").2.


(** An object handed to an operator is where the model stops: the host
    would call the [valueOf] of the object, which may be any function
    of the host. *)
Example object_operand_not_modelled :
  (execute (num:=xnum) Host.call 12 engine_with_bindings "o + 0").1
  = NotModelled "operator on an object".
Proof. vm_compute. reflexivity. Qed.


(** A binding made by one call is there for the next one. *)
Example bindings_persist_across_calls :
  let first := execute (num:=xnum) Host.call 9 new_engine "let a = 10" in
  fst (execute Host.call 9 (snd first) "a + 1") = Returned (VNum (fin 11)).
Proof. vm_compute. reflexivity. Qed.

End EngineProps.
